(** * gosconf: the config set, its router state and its append-only file

    A shallow embedding of the Go package [sconf]: the [Config] and
    [Tombstone] records (config.go), the [TypeConfigs] and [Configs]
    containers with their version-ordered merge (configs.go), the type
    registry (registry.go), the router state (router.go) and the loader of
    the append-only file database (db_aof.go).

    Go maps, [*TypeConfigs], [*Configs] and the configurable objects are
    references: they live in an explicit store of objects, and every
    function of the package is a computation over that store.  A config or
    a tombstone is immutable once built, so it is a value. *)

From stdpp Require Import gmap strings list fin_maps.
From Stdlib Require Import NArith ZArith Ascii.

Local Open Scope string_scope.
Local Open Scope list_scope.

(** ** Records of config.go *)

(** [Config.Data] is an [interface{}]: an object with its dynamic type.
    The package never looks inside it. *)
Record Payload := mkPayload {
  Payload_type : string;
  Payload_value : string
}.

(** [Version] is a [uint64]; it is only ever compared. *)
Record Tombstone := mkTombstone {
  Tombstone_Type : string;
  Tombstone_ID : string;
  Tombstone_Version : N
}.

Record Config := mkConfig {
  Config_Type : string;
  Config_ID : string;
  Config_Version : N;
  Config_Data : option Payload
}.

(** [ConfigResult]: at most one of the two fields is set. *)
Record ConfigResult := mkConfigResult {
  Result_Config : option Config;
  Result_Tombstone : option Tombstone
}.

(** An [error] value: [None] is nil. *)
Definition error := option string.

(** ** The object store *)

Definition loc := positive.

(** [TypeConfigs]: two map references, [None] is Go's nil map. *)
Record TypeConfigs := mkTypeConfigs {
  TypeConfigs_Configs : option loc;
  TypeConfigs_Tombstones : option loc
}.

(** [Configs]: one map reference from type name to [*TypeConfigs]. *)
Record Configs := mkConfigs {
  Configs_Types : option loc
}.

(** What a configurable object is asked to do; [Configurable.DeadConfig]
    receives the config that was replaced or killed. *)
Inductive Call :=
| CallNewConfig (c : Config)
| CallDeadConfig (c : Config).

(** A configurable object is known to the router by its interface only:
    the types it asks for ([AllowedConfigTypes], empty when it is not
    [Routable]) and the error each call returns, which may depend on the
    calls it has received before. *)
Record Behaviour := mkBehaviour {
  AllowedConfigTypes : list string;
  failure : list Call → Call → error
}.

(** A handler is known by its name and by the types it asks for (empty
    when it is not [Routable]). *)
Record Handler := mkHandler {
  Handler_name : string;
  Handler_AllowedConfigTypes : list string
}.

(** What the outside sees: the notifications sent to the handlers, the
    calls made on the configurable objects, and the errors reported. *)
Inductive Event :=
| HandlerNewConfig (handler : string) (c : Config)
| HandlerDeadConfig (handler : string) (t : Tombstone)
| ConfigurableCall (obj : loc) (call : Call)
| ReportError (msg : string).

(** [routerState] of router.go.  The routing tables of the states are
    rebuilt by every [Copy]; the tables of the handlers are read-only and
    shared. *)
Record routerState := mkRouterState {
  routerState_Configs : loc;
  KeyedStates : gmap string loc;
  typedStates : gmap string (list loc);
  untypedStates : list loc;
  untypedHandlers : list Handler;
  typedHandlers : gmap string (list Handler)
}.

(** [AOFConfigDB] of db_aof.go, once its file is open. *)
Record AOFConfigDB := mkAOFConfigDB {
  AOF_configs : loc;
  AOF_loadError : error
}.

Inductive object :=
| MapConfig (m : gmap string Config)
| MapTombstone (m : gmap string Tombstone)
| MapTypes (m : gmap string loc)
| ObjTypeConfigs (tc : TypeConfigs)
| ObjConfigs (cs : Configs)
| ObjConfigurable (b : Behaviour) (received : list Call)
| ObjRouterState (s : routerState)
| ObjRouter (state : loc)
| ObjAOFConfigDB (db : AOFConfigDB).

(** The store, the counter of the [range] loops run so far, and the
    notifications the handlers have received. *)
Record world := mkWorld {
  mem : gmap loc object;
  clock : nat;
  trace : list Event
}.

Definition emptyWorld : world := mkWorld ∅ 0 [].

(** Go iterates over a map in an unspecified order, which may differ from
    one loop to the next: the [n]-th loop run visits the keys in the order
    [ord n keys]. *)
Record Oracle := mkOracle {
  ord : nat → gset string → list string;
  ord_perm : ∀ n X, ord n X ≡ₚ elements X
}.

(** ** Computations: a result or a panic, and the store after it *)

Inductive Res (A : Type) :=
| Ok (a : A)
| Panic (msg : string).
Arguments Ok {A} a.
Arguments Panic {A} msg.

Definition M (A : Type) : Type := world → Res A * world.

Definition ret {A} (a : A) : M A := λ w, (Ok a, w).

Definition bind {A B} (m : M A) (k : A → M B) : M B :=
  λ w, match m w with
       | (Ok a, w') => k a w'
       | (Panic msg, w') => (Panic msg, w')
       end.

Definition panic {A} (msg : string) : M A := λ w, (Panic msg, w).

#[export] Instance M_ret : MRet M := @ret.
#[export] Instance M_bind : MBind M := λ A B k m, bind m k.

(** A [for] loop over a slice whose body has no result. *)
Fixpoint forM {A} (l : list A) (body : A → M unit) : M unit :=
  match l with
  | [] => ret tt
  | x :: l' => body x ;; forM l' body
  end.

(** [new(T)] and [make(map...)]: a location the store has never used. *)
Definition alloc (o : object) : M loc :=
  λ w, let l := fresh (dom (mem w)) in
       (Ok l, mkWorld (<[l := o]> (mem w)) (clock w) (trace w)).

Definition read (l : loc) : M object :=
  λ w, match mem w !! l with
       | Some o => (Ok o, w)
       | None => (Panic "invalid memory address or nil pointer dereference", w)
       end.

Definition write (l : loc) (o : object) : M unit :=
  λ w, (Ok tt, mkWorld (<[l := o]> (mem w)) (clock w) (trace w)).

Definition emit (e : Event) : M unit :=
  λ w, (Ok tt, mkWorld (mem w) (clock w) (trace w ++ [e])).

Definition badObject {A} : M A := panic "object of another type".

Definition readTypeConfigs (p : loc) : M TypeConfigs :=
  o ← read p; match o with ObjTypeConfigs tc => ret tc | _ => badObject end.

Definition readConfigs (p : loc) : M Configs :=
  o ← read p; match o with ObjConfigs cs => ret cs | _ => badObject end.

(** Reading a map through its reference; a nil map reads as empty. *)
Definition readMapConfig (r : option loc) : M (gmap string Config) :=
  match r with
  | None => ret ∅
  | Some l => o ← read l; match o with MapConfig m => ret m | _ => badObject end
  end.

Definition readMapTombstone (r : option loc) : M (gmap string Tombstone) :=
  match r with
  | None => ret ∅
  | Some l => o ← read l; match o with MapTombstone m => ret m | _ => badObject end
  end.

Definition readMapTypes (r : option loc) : M (gmap string loc) :=
  match r with
  | None => ret ∅
  | Some l => o ← read l; match o with MapTypes m => ret m | _ => badObject end
  end.

Definition nilMapWrite {A} : M A := panic "assignment to entry in nil map".

(** [m[k] = v]: a write to a nil map panics. *)
Definition assignMapConfig (r : option loc) (k : string) (v : Config) : M unit :=
  match r with
  | None => nilMapWrite
  | Some l => m ← readMapConfig r; write l (MapConfig (<[k := v]> m))
  end.

Definition assignMapTombstone (r : option loc) (k : string) (v : Tombstone) : M unit :=
  match r with
  | None => nilMapWrite
  | Some l => m ← readMapTombstone r; write l (MapTombstone (<[k := v]> m))
  end.

Definition assignMapTypes (r : option loc) (k : string) (v : loc) : M unit :=
  match r with
  | None => nilMapWrite
  | Some l => m ← readMapTypes r; write l (MapTypes (<[k := v]> m))
  end.

(** [delete(m, k)]: nothing happens on a nil map. *)
Definition deleteMapConfig (r : option loc) (k : string) : M unit :=
  match r with
  | None => ret tt
  | Some l => m ← readMapConfig r; write l (MapConfig (delete k m))
  end.

Definition deleteMapTombstone (r : option loc) (k : string) : M unit :=
  match r with
  | None => ret tt
  | Some l => m ← readMapTombstone r; write l (MapTombstone (delete k m))
  end.

Section Range.
Context (o : Oracle).

(** [for k, v := range m]: the entries of [m] as the loop meets them. *)
Definition range {V} (m : gmap string V) : M (list (string * V)) :=
  λ w, (Ok (omap (λ k, (k,.) <$> m !! k) (ord o (clock w) (dom m))),
        mkWorld (mem w) (S (clock w)) (trace w)).
End Range.

(** A loop that threads a value, as the loops that [append] to a slice. *)
Fixpoint foldM {A B} (body : B → A → M B) (b : B) (l : list A) : M B :=
  match l with
  | [] => ret b
  | x :: l' => b' ← body b x; foldM body b' l'
  end.

Definition setConfigsField (p : loc) (r : option loc) : M unit :=
  tc ← readTypeConfigs p;
  write p (ObjTypeConfigs (mkTypeConfigs r (TypeConfigs_Tombstones tc))).

Definition setTombstonesField (p : loc) (r : option loc) : M unit :=
  tc ← readTypeConfigs p;
  write p (ObjTypeConfigs (mkTypeConfigs (TypeConfigs_Configs tc) r)).


(** What [json.Unmarshal] fills for a [TypeConfigs]: the two arrays. *)
Record configsJSON := mkConfigsJSON {
  json_live : list Config;
  json_dead : list Tombstone
}.

(** ** configs.go: [TypeConfigs] *)

Module TypeConfigs.
Section Methods.
Context (o : Oracle).

Definition Copy (configs : loc) : M loc :=
  result ← alloc (ObjTypeConfigs (mkTypeConfigs None None));
  self ← readTypeConfigs configs;
  cm ← readMapConfig (TypeConfigs_Configs self);
  (if bool_decide (is_Some (TypeConfigs_Configs self)) && bool_decide (0 < size cm) then
     m ← alloc (MapConfig ∅);
     setConfigsField result (Some m);;
     items ← range o cm;
     forM items (λ '(ID, config),
       r ← readTypeConfigs result;
       assignMapConfig (TypeConfigs_Configs r) ID config)
   else ret tt);;
  self ← readTypeConfigs configs;
  tm ← readMapTombstone (TypeConfigs_Tombstones self);
  (if bool_decide (is_Some (TypeConfigs_Tombstones self)) && bool_decide (0 < size tm) then
     m ← alloc (MapTombstone ∅);
     setTombstonesField result (Some m);;
     items ← range o tm;
     forM items (λ '(_, tombstone),
       r ← readTypeConfigs result;
       assignMapTombstone (TypeConfigs_Tombstones r) (Tombstone_ID tombstone) tombstone)
   else ret tt);;
  ret result.

Definition Len (configs : loc) : M nat :=
  self ← readTypeConfigs configs;
  cm ← readMapConfig (TypeConfigs_Configs self);
  tm ← readMapTombstone (TypeConfigs_Tombstones self);
  ret (size cm + size tm).

Definition Get (configs : loc) (ID : string) : M (ConfigResult * bool) :=
  self ← readTypeConfigs configs;
  cm ← readMapConfig (TypeConfigs_Configs self);
  match cm !! ID with
  | Some config => ret (mkConfigResult (Some config) None, true)
  | None =>
      tm ← readMapTombstone (TypeConfigs_Tombstones self);
      match tm !! ID with
      | Some tombstone => ret (mkConfigResult None (Some tombstone), true)
      | None => ret (mkConfigResult None None, false)
      end
  end.

Definition isNewConfig (configs : loc) (ID : string) (version : N) : M bool :=
  self ← readTypeConfigs configs;
  cm ← readMapConfig (TypeConfigs_Configs self);
  match cm !! ID with
  | Some config => ret (Config_Version config <? version)%N
  | None =>
      tm ← readMapTombstone (TypeConfigs_Tombstones self);
      match tm !! ID with
      | Some tombstone => ret (Tombstone_Version tombstone <? version)%N
      | None => ret true
      end
  end.

Definition isNewTombstone (configs : loc) (ID : string) (version : N) : M bool :=
  self ← readTypeConfigs configs;
  cm ← readMapConfig (TypeConfigs_Configs self);
  match cm !! ID with
  | Some config => ret (Config_Version config <=? version)%N
  | None =>
      tm ← readMapTombstone (TypeConfigs_Tombstones self);
      match tm !! ID with
      | Some tombstone => ret (Tombstone_Version tombstone <? version)%N
      | None => ret true
      end
  end.

Definition NewConfig (configs : loc) (config : Config) : M (option Config * bool) :=
  isNew ← isNewConfig configs (Config_ID config) (Config_Version config);
  if negb isNew then ret (None, false) else
  self ← readTypeConfigs configs;
  oldConfig ←
    match TypeConfigs_Configs self with
    | None =>
        m ← alloc (MapConfig ∅);
        setConfigsField configs (Some m);;
        ret None
    | Some _ =>
        cm ← readMapConfig (TypeConfigs_Configs self);
        ret (cm !! Config_ID config)
    end;
  self ← readTypeConfigs configs;
  assignMapConfig (TypeConfigs_Configs self) (Config_ID config) config;;
  deleteMapTombstone (TypeConfigs_Tombstones self) (Config_ID config);;
  ret (oldConfig, true).

Definition DeadConfig (configs : loc) (tombstone : Tombstone) : M (option Config * bool) :=
  isNew ← isNewTombstone configs (Tombstone_ID tombstone) (Tombstone_Version tombstone);
  if negb isNew then ret (None, false) else
  self ← readTypeConfigs configs;
  match TypeConfigs_Tombstones self with
  | None =>
      m ← alloc (MapTombstone ∅);
      setTombstonesField configs (Some m)
  | Some _ => ret tt
  end;;
  self ← readTypeConfigs configs;
  assignMapTombstone (TypeConfigs_Tombstones self) (Tombstone_ID tombstone) tombstone;;
  match TypeConfigs_Configs self with
  | None => ret (None, true)
  | Some _ =>
      cm ← readMapConfig (TypeConfigs_Configs self);
      deleteMapConfig (TypeConfigs_Configs self) (Tombstone_ID tombstone);;
      ret (cm !! Tombstone_ID tombstone, true)
  end.

Definition Merge (configs other : loc) : M (list Config * list Tombstone) :=
  oth ← readTypeConfigs other;
  cm ← readMapConfig (TypeConfigs_Configs oth);
  items ← range o cm;
  newConfigs ← foldM (λ acc '(_, config),
      '(_, isNew) ← NewConfig configs config;
      ret (if isNew : bool then acc ++ [config] else acc)) [] items;
  oth ← readTypeConfigs other;
  tm ← readMapTombstone (TypeConfigs_Tombstones oth);
  items ← range o tm;
  deadConfigs ← foldM (λ acc '(_, tombstone),
      '(_, isNew) ← DeadConfig configs tombstone;
      ret (if isNew : bool then acc ++ [tombstone] else acc)) [] items;
  ret (newConfigs, deadConfigs).

Definition Diff (configs other : loc) : M (list Config * list Tombstone) :=
  oth ← readTypeConfigs other;
  cm ← readMapConfig (TypeConfigs_Configs oth);
  items ← range o cm;
  newConfigs ← foldM (λ acc '(_, config),
      isNew ← isNewConfig configs (Config_ID config) (Config_Version config);
      ret (if isNew : bool then acc ++ [config] else acc)) [] items;
  tm ← readMapTombstone (TypeConfigs_Tombstones oth);
  items ← range o tm;
  deadConfigs ← foldM (λ acc '(_, tombstone),
      isNew ← isNewTombstone configs (Tombstone_ID tombstone) (Tombstone_Version tombstone);
      ret (if isNew : bool then acc ++ [tombstone] else acc)) [] items;
  ret (newConfigs, deadConfigs).

(** The loops of [UnmarshalJSON] return from inside on a duplicate. *)
Fixpoint fillConfigs (configs : loc) (l : list Config) : M error :=
  match l with
  | [] => ret None
  | config :: l' =>
      self ← readTypeConfigs configs;
      cm ← readMapConfig (TypeConfigs_Configs self);
      match cm !! Config_ID config with
      | Some _ => ret (Some "duplicate config")
      | None =>
          assignMapConfig (TypeConfigs_Configs self) (Config_ID config) config;;
          fillConfigs configs l'
      end
  end.

Fixpoint fillTombstones (configs : loc) (l : list Tombstone) : M error :=
  match l with
  | [] => ret None
  | tombstone :: l' =>
      self ← readTypeConfigs configs;
      tm ← readMapTombstone (TypeConfigs_Tombstones self);
      match tm !! Tombstone_ID tombstone with
      | Some _ => ret (Some "duplicate tombstone")
      | None =>
          assignMapTombstone (TypeConfigs_Tombstones self) (Tombstone_ID tombstone) tombstone;;
          fillTombstones configs l'
      end
  end.

(** [decoded] is what [json.Unmarshal(body, &configsJSON)] returned. *)
Definition UnmarshalJSON (configs : loc) (decoded : string + configsJSON) : M error :=
  match decoded with
  | inl err => ret (Some err)
  | inr js =>
      m ← alloc (MapConfig ∅);
      setConfigsField configs (Some m);;
      err ← fillConfigs configs (json_live js);
      match err with
      | Some e => ret (Some e)
      | None =>
          m ← alloc (MapTombstone ∅);
          setTombstonesField configs (Some m);;
          fillTombstones configs (json_dead js)
      end
  end.
End Methods.
End TypeConfigs.

(** ** configs.go: [Configs] *)

Module Configs.
Section Methods.
Context (o : Oracle).

Definition Copy (configs : loc) : M loc :=
  other ← alloc (ObjConfigs (mkConfigs None));
  m ← alloc (MapTypes ∅);
  write other (ObjConfigs (mkConfigs (Some m)));;
  self ← readConfigs configs;
  types ← readMapTypes (Configs_Types self);
  if bool_decide (Configs_Types self = None) || bool_decide (size types = 0) then
    ret other
  else
    items ← range o types;
    forM items (λ '(typ, state),
      copy ← TypeConfigs.Copy o state;
      oth ← readConfigs other;
      assignMapTypes (Configs_Types oth) typ copy);;
    ret other.

Definition getState (configs : loc) (typ : string) : M loc :=
  self ← readConfigs configs;
  match Configs_Types self with
  | None =>
      m ← alloc (MapTypes ∅);
      write configs (ObjConfigs (mkConfigs (Some m)))
  | Some _ => ret tt
  end;;
  self ← readConfigs configs;
  types ← readMapTypes (Configs_Types self);
  match types !! typ with
  | Some state => ret state
  | None =>
      state ← alloc (ObjTypeConfigs (mkTypeConfigs None None));
      assignMapTypes (Configs_Types self) typ state;;
      ret state
  end.

Definition Len (configs : loc) : M nat :=
  self ← readConfigs configs;
  types ← readMapTypes (Configs_Types self);
  items ← range o types;
  foldM (λ size '(_, state), n ← TypeConfigs.Len state; ret (size + n)) 0 items.

Definition Get (configs : loc) (typ ID : string) : M (ConfigResult * bool) :=
  self ← readConfigs configs;
  types ← readMapTypes (Configs_Types self);
  match types !! typ with
  | Some state => TypeConfigs.Get state ID
  | None => ret (mkConfigResult None None, false)
  end.

Definition NewConfig (configs : loc) (config : Config) : M (option Config * bool) :=
  state ← getState configs (Config_Type config);
  TypeConfigs.NewConfig state config.

Definition DeadConfig (configs : loc) (tombstone : Tombstone) : M (option Config * bool) :=
  state ← getState configs (Tombstone_Type tombstone);
  TypeConfigs.DeadConfig state tombstone.

Definition Merge (configs other : loc) : M (list Config * list Tombstone) :=
  oth ← readConfigs other;
  types ← readMapTypes (Configs_Types oth);
  items ← range o types;
  foldM (λ '(newConfigs, deadConfigs) '(typ, state),
      mine ← getState configs typ;
      '(live, dead) ← TypeConfigs.Merge o mine state;
      ret (newConfigs ++ live, deadConfigs ++ dead)) ([], []) items.

Definition Diff (configs other : loc) : M (list Config * list Tombstone) :=
  oth ← readConfigs other;
  types ← readMapTypes (Configs_Types oth);
  items ← range o types;
  foldM (λ '(newConfigs, deadConfigs) '(typ, state),
      mine ← getState configs typ;
      '(live, dead) ← TypeConfigs.Diff o mine state;
      ret (newConfigs ++ live, deadConfigs ++ dead)) ([], []) items.

Definition ConfigArray (configs : loc) : M (list Config) :=
  self ← readConfigs configs;
  types ← readMapTypes (Configs_Types self);
  items ← range o types;
  foldM (λ result '(_, state),
      tc ← readTypeConfigs state;
      cm ← readMapConfig (TypeConfigs_Configs tc);
      inner ← range o cm;
      ret (result ++ inner.*2)) [] items.

Definition TombstoneArray (configs : loc) : M (list Tombstone) :=
  self ← readConfigs configs;
  types ← readMapTypes (Configs_Types self);
  items ← range o types;
  foldM (λ result '(_, state),
      tc ← readTypeConfigs state;
      tm ← readMapTombstone (TypeConfigs_Tombstones tc);
      inner ← range o tm;
      ret (result ++ inner.*2)) [] items.
End Methods.
End Configs.

(** The iteration order that follows the keys as the map stores them. *)
Definition storedOrder : Oracle := mkOracle (λ _ X, elements X) (λ _ _, reflexivity _).


(** ** registry.go and [Config.UnmarshalJSON] *)

(** A [reflect.Type]: its name, whether its kind is a pointer, and the
    zero value [reflect.New] allocates. *)
Record reflectType := mkReflectType {
  reflectType_name : string;
  reflectType_isPtr : bool;
  reflectType_zero : string
}.

(** The package variable [typeRegistry] is passed explicitly; [None] is
    the nil map it starts as. *)
Definition RegisterType (typeRegistry : option (gmap string reflectType))
    (name : string) (typ : reflectType) : Res (option (gmap string reflectType)) :=
  let typeRegistry := match typeRegistry with None => Some ∅ | r => r end in
  if reflectType_isPtr typ then Panic "config type should not be a pointer" else
  match default ∅ typeRegistry !! name with
  | Some _ => Panic "duplicated config registration"
  | None => Ok (Some (<[name := typ]> (default ∅ typeRegistry)))
  end.

Definition NewConfig (typeRegistry : option (gmap string reflectType))
    (name : string) : option Payload * error :=
  match default ∅ typeRegistry !! name with
  | Some typ => (Some (mkPayload (reflectType_name typ) (reflectType_zero typ)), None)
  | None => (None, Some ("unknown config type '" +:+ name +:+ "'"))
  end.

(** The struct [json.Unmarshal] fills in [Config.UnmarshalJSON]; [cj_Data]
    is a [json.RawMessage], [None] when it is left nil. *)
Record configJSON := mkConfigJSON {
  cj_Type : string;
  cj_ID : string;
  cj_Version : N;
  cj_Data : option string
}.

Module Config.
Section Methods.
(** [json.Unmarshal(data, obj)] on a payload object: the object it leaves
    and the error it returns. *)
Context (json_Unmarshal : string → Payload → Payload * error).
Context (typeRegistry : option (gmap string reflectType)).

Definition Tombstone (config : Config) : Tombstone :=
  mkTombstone (Config_Type config) (Config_ID config) (Config_Version config).

(** [decoded] is what [json.Unmarshal(body, &configJSON)] returned;
    [config] is the receiver, which is left as far as it was filled. *)
Definition UnmarshalJSON (config : Config) (decoded : string + configJSON) : Config * error :=
  match decoded with
  | inl err => (config, Some err)
  | inr js =>
      let config := mkConfig (cj_Type js) (cj_ID js) (cj_Version js) (Config_Data config) in
      match cj_Data js with
      | None => (config, None)
      | Some raw =>
          match NewConfig typeRegistry (cj_Type js) with
          | (data, Some err) =>
              (mkConfig (Config_Type config) (Config_ID config) (Config_Version config) data,
               Some err)
          | (None, None) => (config, Some "json: Unmarshal(nil)")
          | (Some obj, None) =>
              let '(obj, err) := json_Unmarshal raw obj in
              (mkConfig (Config_Type config) (Config_ID config) (Config_Version config) (Some obj),
               err)
          end
      end
  end.
End Methods.
End Config.

(** ** errors.go *)

Definition newline : string := String (Ascii.ascii_of_nat 10) "".

Definition appendError (result : list string) (errs : list error) : list string :=
  result ++ omap id errs.

Definition combineErrors (errs : list string) : error :=
  match errs with
  | [] => None
  | _ => Some (foldl (λ buffer err, buffer +:+ err +:+ newline) "" errs)
  end.

(** ** router.go: the configurable objects *)

Definition readConfigurable (obj : loc) : M (Behaviour * list Call) :=
  x ← read obj;
  match x with ObjConfigurable b received => ret (b, received) | _ => badObject end.

Module Configurable.
(** The contract of [Copy]: a new object in the state of the old one. *)
Definition Copy (obj : loc) : M loc :=
  '(b, received) ← readConfigurable obj;
  alloc (ObjConfigurable b received).

Definition call (obj : loc) (c : Call) : M error :=
  '(b, received) ← readConfigurable obj;
  emit (ConfigurableCall obj c);;
  write obj (ObjConfigurable b (received ++ [c]));;
  ret (failure b received c).

Definition NewConfig (obj : loc) (newConfig : Config) : M error :=
  call obj (CallNewConfig newConfig).

Definition DeadConfig (obj : loc) (oldConfig : Config) : M error :=
  call obj (CallDeadConfig oldConfig).

Definition types (obj : loc) : M (list string) :=
  '(b, _) ← readConfigurable obj;
  ret (AllowedConfigTypes b).
End Configurable.

(** ** router.go: [routerState] *)

Definition readRouterState (state : loc) : M routerState :=
  x ← read state;
  match x with ObjRouterState s => ret s | _ => badObject end.

Definition appendAt {A} (typ : string) (x : A) (table : gmap string (list A)) :
    gmap string (list A) :=
  <[typ := default [] (table !! typ) ++ [x]]> table.

Module routerState.
Section Methods.
Context (o : Oracle).

Definition addHandler (state : routerState) (handler : Handler) : routerState :=
  let types := Handler_AllowedConfigTypes handler in
  if bool_decide (length types = 0) then
    mkRouterState (routerState_Configs state) (KeyedStates state) (typedStates state)
      (untypedStates state) (untypedHandlers state ++ [handler]) (typedHandlers state)
  else
    mkRouterState (routerState_Configs state) (KeyedStates state) (typedStates state)
      (untypedStates state) (untypedHandlers state)
      (foldl (λ table typ, appendAt typ handler table) (typedHandlers state) types).

Definition newRouterState (configs : option loc) (handlers : list Handler) : M loc :=
  configs ← match configs with
             | None => alloc (ObjConfigs (mkConfigs None))
             | Some configs => ret configs
             end;
  alloc (ObjRouterState
           (foldl addHandler (mkRouterState configs ∅ ∅ [] [] ∅) handlers)).

Definition registerState (state : loc) (key : string) (obj : loc) (notify : bool) : M unit :=
  s ← readRouterState state;
  match KeyedStates s !! key with
  | Some _ => panic "state was already registered in Router"
  | None =>
      write state (ObjRouterState
        (mkRouterState (routerState_Configs s) (<[key := obj]> (KeyedStates s))
           (typedStates s) (untypedStates s) (untypedHandlers s) (typedHandlers s)));;
      types ← Configurable.types obj;
      if bool_decide (length types = 0) then
        s ← readRouterState state;
        write state (ObjRouterState
          (mkRouterState (routerState_Configs s) (KeyedStates s) (typedStates s)
             (untypedStates s ++ [obj]) (untypedHandlers s) (typedHandlers s)));;
        if notify then
          configs ← Configs.ConfigArray o (routerState_Configs s);
          forM configs (λ config, Configurable.NewConfig obj config;; ret tt)
        else ret tt
      else
        forM types (λ typ,
          s ← readRouterState state;
          write state (ObjRouterState
            (mkRouterState (routerState_Configs s) (KeyedStates s)
               (appendAt typ obj (typedStates s))
               (untypedStates s) (untypedHandlers s) (typedHandlers s)));;
          cs ← readConfigs (routerState_Configs s);
          all ← readMapTypes (Configs_Types cs);
          match all !! typ with
          | Some configs =>
              if notify then
                tc ← readTypeConfigs configs;
                cm ← readMapConfig (TypeConfigs_Configs tc);
                items ← range o cm;
                forM items (λ '(_, config), Configurable.NewConfig obj config;; ret tt)
              else ret tt
          | None => ret tt
          end)
  end.

Definition RegisterState (state : loc) (key : string) (obj : loc) : M unit :=
  registerState state key obj true.

Definition Copy (state : loc) : M loc :=
  s ← readRouterState state;
  configs ← Configs.Copy o (routerState_Configs s);
  newState ← alloc (ObjRouterState
    (mkRouterState configs ∅ ∅ [] (untypedHandlers s) (typedHandlers s)));
  items ← range o (KeyedStates s);
  forM items (λ '(key, obj),
    copy ← Configurable.Copy obj;
    registerState newState key copy false);;
  ret newState.

(** [removeTarget]: the list without the first occurrence of the target,
    a panic when there is none. *)
Fixpoint removeTarget (targetObj : loc) (l : list loc) : M (list loc) :=
  match l with
  | [] => panic "unable to find object for key"
  | item :: l' =>
      if bool_decide (item = targetObj) then ret l'
      else rest ← removeTarget targetObj l'; ret (item :: rest)
  end.

Definition UnregisterState (state : loc) (target : string) : M unit :=
  s ← readRouterState state;
  match KeyedStates s !! target with
  | None => panic "key was not registered in Router"
  | Some targetObj =>
      write state (ObjRouterState
        (mkRouterState (routerState_Configs s) (delete target (KeyedStates s))
           (typedStates s) (untypedStates s) (untypedHandlers s) (typedHandlers s)));;
      types ← Configurable.types targetObj;
      if bool_decide (length types = 0) then
        s ← readRouterState state;
        rest ← removeTarget targetObj (untypedStates s);
        write state (ObjRouterState
          (mkRouterState (routerState_Configs s) (KeyedStates s) (typedStates s)
             rest (untypedHandlers s) (typedHandlers s)))
      else
        forM types (λ typ,
          s ← readRouterState state;
          rest ← removeTarget targetObj (default [] (typedStates s !! typ));
          write state (ObjRouterState
            (mkRouterState (routerState_Configs s) (KeyedStates s)
               (<[typ := rest]> (typedStates s))
               (untypedStates s) (untypedHandlers s) (typedHandlers s))))
  end.

(** The loop over the configurable objects in [NewConfig]. *)
Definition replaceIn (oldConfig : option Config) (config : Config)
    (errors : list string) (objs : list loc) : M (list string) :=
  foldM (λ errors obj,
    errors ← match oldConfig with
              | Some old =>
                  err ← Configurable.DeadConfig obj old;
                  ret (appendError errors [err])
              | None => ret errors
              end;
    err ← Configurable.NewConfig obj config;
    ret (appendError errors [err])) errors objs.

Definition NewConfig (state : loc) (config : Config) : M error :=
  s ← readRouterState state;
  '(oldConfig, isNew) ← Configs.NewConfig (routerState_Configs s) config;
  if negb isNew then ret None else
  forM (untypedHandlers s) (λ handler,
    emit (HandlerNewConfig (Handler_name handler) config));;
  match typedHandlers s !! Config_Type config with
  | Some handlers =>
      forM handlers (λ handler, emit (HandlerNewConfig (Handler_name handler) config))
  | None => ret tt
  end;;
  errors ← replaceIn oldConfig config [] (untypedStates s);
  errors ← match typedStates s !! Config_Type config with
            | Some typed => replaceIn oldConfig config errors typed
            | None => ret errors
            end;
  ret (combineErrors errors).

Definition killIn (oldConfig : Config) (errors : list string) (objs : list loc) :
    M (list string) :=
  foldM (λ errors obj,
    err ← Configurable.DeadConfig obj oldConfig;
    ret (appendError errors [err])) errors objs.

Definition DeadConfig (state : loc) (tombstone : Tombstone) : M error :=
  s ← readRouterState state;
  '(oldConfig, isNew) ← Configs.DeadConfig (routerState_Configs s) tombstone;
  if negb isNew then ret None else
  forM (untypedHandlers s) (λ handler,
    emit (HandlerDeadConfig (Handler_name handler) tombstone));;
  match typedHandlers s !! Tombstone_Type tombstone with
  | Some handlers =>
      forM handlers (λ handler, emit (HandlerDeadConfig (Handler_name handler) tombstone))
  | None => ret tt
  end;;
  match oldConfig with
  | None => ret None
  | Some oldConfig =>
      errors ← killIn oldConfig [] (untypedStates s);
      errors ← match typedStates s !! Tombstone_Type tombstone with
                | Some typed => killIn oldConfig errors typed
                | None => ret errors
                end;
      ret (combineErrors errors)
  end.

Definition PushConfigs (state : loc) (configs : loc) : M error :=
  cs ← readConfigs configs;
  all ← readMapTypes (Configs_Types cs);
  items ← range o all;
  errors ← foldM (λ errors '(_, typed),
      tc ← readTypeConfigs typed;
      cm ← readMapConfig (TypeConfigs_Configs tc);
      live ← range o cm;
      errors ← foldM (λ errors '(_, config),
          err ← NewConfig state config;
          ret (appendError errors [err])) errors live;
      tc ← readTypeConfigs typed;
      tm ← readMapTombstone (TypeConfigs_Tombstones tc);
      dead ← range o tm;
      foldM (λ errors '(_, tombstone),
          err ← DeadConfig state tombstone;
          ret (appendError errors [err])) errors dead) [] items;
  ret (combineErrors errors).
End Methods.
End routerState.

(** ** router.go: [Router] *)

(** What the channels of the router carry. *)
Inductive message :=
| registerStateC (key : string) (obj : loc)
| unregisterStateC (key : string)
| newConfigC (config : Config)
| deadConfigC (tombstone : Tombstone)
| pushConfigsC (configs : loc).

Module Router.
Section Methods.
Context (o : Oracle).
(** [json.Marshal] of the object [router.error] is given, a [*Config] or
    a [*Tombstone]: the text and the error. *)
Context (json_Marshal : Config + Tombstone → string * error).

Definition get (router : loc) : M loc :=
  x ← read router;
  match x with ObjRouter state => ret state | _ => badObject end.

Definition set (router state : loc) : M unit :=
  write router (ObjRouter state).

(** [router.error]: [json.Marshal(obj)] decides.  On the branch that
    reports, the [err] passed to [router.Error] is the one of
    [json.Marshal], which is nil there; on the other branch [log.Panic]
    is called with the error of [json.Marshal]. *)
Definition error (err : string) (obj : Config + Tombstone) : M unit :=
  let '(data, err) := json_Marshal obj in
  match err with
  | None => emit (ReportError "")
  | Some e => panic e
  end.

(** One case of the [select] in [processMore]. *)
Definition receive (state : loc) (msg : message) : M unit :=
  match msg with
  | registerStateC key obj => routerState.RegisterState o state key obj
  | unregisterStateC key => routerState.UnregisterState state key
  | newConfigC config =>
      err ← routerState.NewConfig state config;
      match err with Some e => error e (inl config) | None => ret tt end
  | deadConfigC tombstone =>
      err ← routerState.DeadConfig state tombstone;
      match err with Some e => error e (inr tombstone) | None => ret tt end
  | pushConfigsC configs => routerState.PushConfigs o state configs;; ret tt
  end.

(** [ready] are the messages the channels hold, in the order the
    [select] picks them; the loop stops after 16 or when none is left. *)
Definition processMore (state : loc) (ready : list message) : M unit :=
  forM (take 16 ready) (receive state).

Definition registerState (router : loc) (key : string) (obj : loc)
    (ready : list message) : M unit :=
  cur ← get router;
  state ← routerState.Copy o cur;
  routerState.RegisterState o state key obj;;
  processMore state ready;;
  set router state.

Definition unregisterState (router : loc) (key : string) (ready : list message) : M unit :=
  cur ← get router;
  state ← routerState.Copy o cur;
  routerState.UnregisterState state key;;
  processMore state ready;;
  set router state.

Definition newConfig (router : loc) (config : Config) (ready : list message) : M unit :=
  cur ← get router;
  state ← routerState.Copy o cur;
  err ← routerState.NewConfig state config;
  match err with Some e => error e (inl config) | None => ret tt end;;
  processMore state ready;;
  set router state.

Definition deadConfig (router : loc) (tombstone : Tombstone) (ready : list message) : M unit :=
  cur ← get router;
  state ← routerState.Copy o cur;
  err ← routerState.DeadConfig state tombstone;
  match err with Some e => error e (inr tombstone) | None => ret tt end;;
  processMore state ready;;
  set router state.

Definition pushConfigs (router : loc) (configs : loc) (ready : list message) : M unit :=
  cur ← get router;
  state ← routerState.Copy o cur;
  routerState.PushConfigs o state configs;;
  processMore state ready;;
  set router state.

(** One turn of the goroutine of [init]: the message the [select]
    received, and the messages that were ready behind it. *)
Definition turn (router : loc) (batch : message * list message) : M unit :=
  match batch.1 with
  | registerStateC key obj => registerState router key obj batch.2
  | unregisterStateC key => unregisterState router key batch.2
  | newConfigC config => newConfig router config batch.2
  | deadConfigC tombstone => deadConfig router tombstone batch.2
  | pushConfigsC configs => pushConfigs router configs batch.2
  end.

Definition loop (router : loc) (batches : list (message * list message)) : M unit :=
  forM batches (turn router).

(** [Router.init]: the first state, before the goroutine starts. *)
Definition init (Configs : option loc) (States : list (string * loc))
    (Handlers : list Handler) : M loc :=
  state ← routerState.newRouterState Configs Handlers;
  forM States (λ '(key, obj), routerState.RegisterState o state key obj);;
  alloc (ObjRouter state).

Definition PullConfigs (router : loc) : M loc :=
  state ← get router;
  s ← readRouterState state;
  ret (routerState_Configs s).
End Methods.
End Router.

(** ** db_aof.go: [AOFConfigDB] *)

Definition readAOFConfigDB (db : loc) : M AOFConfigDB :=
  x ← read db;
  match x with ObjAOFConfigDB d => ret d | _ => badObject end.

(** [s[low:high]] on a slice whose capacity is its length, as the ones
    [ReadBytes] returns. *)
Definition slice (s : string) (low high : nat) : M string :=
  if bool_decide ((low ≤ high)%nat ∧ (high ≤ String.length s)%nat)
  then ret (String.substring low (high - low) s)
  else panic "slice bounds out of range".

(** [s[i]] *)
Definition index (s : string) (i : nat) : M Ascii.ascii :=
  match String.get i s with
  | Some c => ret c
  | None => panic "index out of range"
  end.

(** The lines [reader.ReadBytes('\n')] returns with a nil error, each with
    its newline; what follows the last newline comes with [io.EOF]. *)
Fixpoint readLines (line : string) (input : string) : list string :=
  match input with
  | EmptyString => []
  | String c rest =>
      if bool_decide (c = Ascii.ascii_of_nat 10)
      then (line +:+ String c "") :: readLines "" rest
      else readLines (line +:+ String c "") rest
  end.

Module AOFConfigDB.
Section Methods.
Context (o : Oracle).
(** The library functions of [loadLine]: [crc32.ChecksumIEEE],
    [strconv.ParseUint(_, 16, 32)] ([None] is its error), and
    [json.Unmarshal] into a new [Config] or [Tombstone]. *)
Context (crc32_ChecksumIEEE : string → N).
Context (strconv_ParseUint : string → option N).
Context (json_Unmarshal_Config : string → Config * error).
Context (json_Unmarshal_Tombstone : string → Tombstone * error).

Definition magicAOF : string := "e74e1902".
Definition ErrCorruptedAOF : string := "CorruptedAOF".

Definition loadNewConfig (db : loc) (body : string) : M error :=
  let '(config, err) := json_Unmarshal_Config body in
  match err with
  | Some e => ret (Some e)
  | None =>
      d ← readAOFConfigDB db;
      Configs.NewConfig (AOF_configs d) config;;
      ret None
  end.

Definition loadDeadConfig (db : loc) (body : string) : M error :=
  let '(tombstone, err) := json_Unmarshal_Tombstone body in
  match err with
  | Some e => ret (Some e)
  | None =>
      d ← readAOFConfigDB db;
      Configs.DeadConfig (AOF_configs d) tombstone;;
      ret None
  end.

Definition loadLine (db : loc) (line : string) : M error :=
  magic ← slice line 0 8;
  crcStr ← slice line 8 16;
  head ← index line 16;
  body ← slice line 17 (String.length line - 1);
  if bool_decide (magic ≠ magicAOF) then ret (Some "invalid aof magic") else
  match strconv_ParseUint crcStr with
  | None => ret (Some "unable to read crc")
  | Some crc =>
      if bool_decide (crc32_ChecksumIEEE body ≠ (crc mod 2 ^ 32)%N)
      then ret (Some "CRC mismatch")
      else if bool_decide (head = "n"%char) then loadNewConfig db body
      else if bool_decide (head = "t"%char) then loadDeadConfig db body
      else ret (Some "unknown aof header")
  end.

Definition load (db : loc) (file : string) : M unit :=
  forM (readLines "" file) (λ line,
    err ← loadLine db line;
    match err with
    | None => ret tt
    | Some e =>
        emit (ReportError e);;
        d ← readAOFConfigDB db;
        write db (ObjAOFConfigDB (mkAOFConfigDB (AOF_configs d) (Some ErrCorruptedAOF)))
    end).

(** [init] with the file open: [file] is what it holds. *)
Definition init (file : string) : M loc :=
  configs ← alloc (ObjConfigs (mkConfigs None));
  db ← alloc (ObjAOFConfigDB (mkAOFConfigDB configs None));
  load db file;;
  ret db.

(** [Load] on a database that was not initialised yet. *)
Definition Load (file : string) : M (loc * error) :=
  db ← init file;
  d ← readAOFConfigDB db;
  copy ← Configs.Copy o (AOF_configs d);
  ret (copy, AOF_loadError d).
End Methods.
End AOFConfigDB.

(** * What the objects hold

    The value a [TypeConfigs] holds is its two maps; the value a [Configs]
    holds is the map from type name to those.  The functions below read
    them off a store without changing it; the specifications of the
    methods are stated on them. *)

#[export] Instance Tombstone_eq_dec : EqDecision Tombstone.
Proof. solve_decision. Defined.
#[export] Instance Payload_eq_dec : EqDecision Payload.
Proof. solve_decision. Defined.
#[export] Instance Config_eq_dec : EqDecision Config.
Proof. solve_decision. Defined.
#[export] Instance ConfigResult_eq_dec : EqDecision ConfigResult.
Proof. solve_decision. Defined.

Definition objTypeConfigs (w : world) (p : loc) : option TypeConfigs :=
  match mem w !! p with Some (ObjTypeConfigs tc) => Some tc | _ => None end.

Definition objConfigs (w : world) (p : loc) : option Configs :=
  match mem w !! p with Some (ObjConfigs cs) => Some cs | _ => None end.

Definition mapConfigAt (w : world) (r : option loc) : option (gmap string Config) :=
  match r with
  | None => Some ∅
  | Some l => match mem w !! l with Some (MapConfig m) => Some m | _ => None end
  end.

Definition mapTombstoneAt (w : world) (r : option loc) : option (gmap string Tombstone) :=
  match r with
  | None => Some ∅
  | Some l => match mem w !! l with Some (MapTombstone m) => Some m | _ => None end
  end.

Definition mapTypesAt (w : world) (r : option loc) : option (gmap string loc) :=
  match r with
  | None => Some ∅
  | Some l => match mem w !! l with Some (MapTypes m) => Some m | _ => None end
  end.

(** The value of a [TypeConfigs]. *)
Record typed := mkTyped {
  live : gmap string Config;
  dead : gmap string Tombstone
}.

Definition viewTC (w : world) (p : loc) : option typed :=
  tc ← objTypeConfigs w p;
  cm ← mapConfigAt w (TypeConfigs_Configs tc);
  tm ← mapTombstoneAt w (TypeConfigs_Tombstones tc);
  Some (mkTyped cm tm).

Definition refSet (r : option loc) : gset loc :=
  match r with Some l => {[l]} | None => ∅ end.

(** The locations a [TypeConfigs] is made of. *)
Definition fpTC (w : world) (p : loc) : gset loc :=
  {[p]} ∪ match objTypeConfigs w p with
          | Some tc => refSet (TypeConfigs_Configs tc) ∪ refSet (TypeConfigs_Tombstones tc)
          | None => ∅
          end.

Definition typesOf (w : world) (pc : loc) : option (gmap string loc) :=
  cs ← objConfigs w pc; mapTypesAt w (Configs_Types cs).

(** The value of a [Configs]. *)
Definition viewCS (w : world) (pc : loc) : gmap string typed :=
  omap (viewTC w) (default ∅ (typesOf w pc)).

(** The locations a [Configs] is made of. *)
Definition fpCS (w : world) (pc : loc) : gset loc :=
  {[pc]} ∪ match objConfigs w pc with
           | Some cs => refSet (Configs_Types cs)
           | None => ∅
           end
         ∪ ⋃ (fpTC w <$> (map_to_list (default ∅ (typesOf w pc))).*2).

(** A [Configs] whose references all lead to objects of the right kind
    and whose [TypeConfigs] share nothing, as [getState], [Copy] and
    [UnmarshalJSON] build them. *)
Definition okCS (w : world) (pc : loc) : Prop :=
  is_Some (typesOf w pc) ∧
  map_Forall (λ _ p, is_Some (viewTC w p)) (default ∅ (typesOf w pc)) ∧
  map_Forall (λ typ1 p1,
    map_Forall (λ typ2 p2, typ1 = typ2 ∨ fpTC w p1 ## fpTC w p2)
      (default ∅ (typesOf w pc))) (default ∅ (typesOf w pc)).

(** Every entry is stored under its own ID. *)
Definition keyedByID (v : typed) : Prop :=
  map_Forall (λ k c, Config_ID c = k) (live v) ∧
  map_Forall (λ k t, Tombstone_ID t = k) (dead v).

(** No ID is in both maps. *)
Definition singleState (v : typed) : Prop :=
  map_Forall (λ k _, dead v !! k = None) (live v).

Definition wfTyped (v : typed) : Prop := keyedByID v ∧ singleState v.

Definition wfTC (w : world) (p : loc) : Prop :=
  match viewTC w p with Some v => wfTyped v | None => False end.

Definition wfCS (w : world) (pc : loc) : Prop :=
  okCS w pc ∧ map_Forall (λ _ v, wfTyped v) (viewCS w pc).

#[export] Instance wfTyped_dec v : Decision (wfTyped v).
Proof. unfold wfTyped, keyedByID, singleState. apply _. Defined.
#[export] Instance wfTC_dec w p : Decision (wfTC w p).
Proof. unfold wfTC. destruct (viewTC w p); apply _. Defined.
#[export] Instance okCS_dec w pc : Decision (okCS w pc).
Proof. unfold okCS. apply _. Defined.
#[export] Instance wfCS_dec w pc : Decision (wfCS w pc).
Proof. unfold wfCS. apply _. Defined.

(** ** The merge rules on values *)

(** The entry an ID has: what [Get] returns. *)
Definition entryOf (v : typed) (ID : string) : ConfigResult * bool :=
  match live v !! ID with
  | Some config => (mkConfigResult (Some config) None, true)
  | None =>
      match dead v !! ID with
      | Some tombstone => (mkConfigResult None (Some tombstone), true)
      | None => (mkConfigResult None None, false)
      end
  end.

Definition acceptsConfig (v : typed) (ID : string) (version : N) : bool :=
  match live v !! ID with
  | Some config => (Config_Version config <? version)%N
  | None =>
      match dead v !! ID with
      | Some tombstone => (Tombstone_Version tombstone <? version)%N
      | None => true
      end
  end.

Definition acceptsTombstone (v : typed) (ID : string) (version : N) : bool :=
  match live v !! ID with
  | Some config => (Config_Version config <=? version)%N
  | None =>
      match dead v !! ID with
      | Some tombstone => (Tombstone_Version tombstone <? version)%N
      | None => true
      end
  end.

Definition withConfig (v : typed) (c : Config) : typed :=
  if acceptsConfig v (Config_ID c) (Config_Version c)
  then mkTyped (<[Config_ID c := c]> (live v)) (delete (Config_ID c) (dead v))
  else v.

Definition withTombstone (v : typed) (t : Tombstone) : typed :=
  if acceptsTombstone v (Tombstone_ID t) (Tombstone_Version t)
  then mkTyped (delete (Tombstone_ID t) (live v)) (<[Tombstone_ID t := t]> (dead v))
  else v.

(** ** Weakest preconditions: the computation returns, and its result
    and store satisfy [Q] *)

Definition wp {A} (m : M A) (w : world) (Q : A → world → Prop) : Prop :=
  match m w with
  | (Ok a, w') => Q a w'
  | (Panic _, _) => False
  end.

(** The computation returns, and its result and store satisfy [Q], or it
    panics, and the message and the store it panics in satisfy [P]. *)
Definition wpx {A} (m : M A) (w : world) (Q : A → world → Prop)
    (P : string → world → Prop) : Prop :=
  match m w with
  | (Ok a, w') => Q a w'
  | (Panic msg, w') => P msg w'
  end.

(** The store after [l := o]. *)
Definition upd (w : world) (l : loc) (o : object) : world :=
  mkWorld (<[l := o]> (mem w)) (clock w) (trace w).

(** Between two stores: nothing was freed, and what is outside [F] and
    was there before is as it was. *)
Record keeps (F : gset loc) (w w' : world) : Prop := mkKeeps {
  keeps_dom : dom (mem w) ⊆ dom (mem w');
  keeps_mem : ∀ l, l ∈ dom (mem w) → l ∉ F → mem w' !! l = mem w !! l
}.

(** A computation that writes inside the footprint [F] only, and whose
    footprint afterwards is [F'], grown by new locations only. *)
Definition evolves (w w' : world) (F F' : gset loc) : Prop :=
  keeps F w w' ∧ F' ⊆ F ∪ (dom (mem w') ∖ dom (mem w)).

(** The store after one more [range] loop has started. *)
Definition tick (w : world) : world := mkWorld (mem w) (S (clock w)) (trace w).

(** Merging a list of configs, then of tombstones, one after the other:
    the value reached and the entries that were accepted. *)
Definition mergeConfigsSeq (v : typed) (l : list Config) : typed * list Config :=
  foldl (λ '(v, acc) c,
    (withConfig v c,
     if acceptsConfig v (Config_ID c) (Config_Version c) then acc ++ [c] else acc))
    (v, []) l.

Definition mergeTombstonesSeq (v : typed) (l : list Tombstone) : typed * list Tombstone :=
  foldl (λ '(v, acc) t,
    (withTombstone v t,
     if acceptsTombstone v (Tombstone_ID t) (Tombstone_Version t) then acc ++ [t] else acc))
    (v, []) l.

(** The value of the [TypeConfigs] of a type; a type that is not there
    holds nothing. *)
Definition typedAt (V : gmap string typed) (typ : string) : typed :=
  default (mkTyped ∅ ∅) (V !! typ).

(** The object and the type map of a [Configs]. *)
Definition storeAt (w : world) (pc : loc) (cs : Configs) (tm : gmap string loc) : Prop :=
  mem w !! pc = Some (ObjConfigs cs) ∧ mapTypesAt w (Configs_Types cs) = Some tm.

(** The objects of a [TypeConfigs] are of three kinds only. *)
Definition typedKind (x : object) : Prop :=
  match x with
  | ObjTypeConfigs _ | MapConfig _ | MapTombstone _ => True
  | _ => False
  end.

(** ** One ID at a time

    What a [TypeConfigs] holds for one ID, and the merge rules on it. *)

Definition slot : Type := option Config * option Tombstone.

Definition slotOf (v : typed) (ID : string) : slot := (live v !! ID, dead v !! ID).

Definition slotAcceptsConfig (s : slot) (version : N) : bool :=
  match s with
  | (Some config, _) => (Config_Version config <? version)%N
  | (None, Some tombstone) => (Tombstone_Version tombstone <? version)%N
  | (None, None) => true
  end.

Definition slotAcceptsTombstone (s : slot) (version : N) : bool :=
  match s with
  | (Some config, _) => (Config_Version config <=? version)%N
  | (None, Some tombstone) => (Tombstone_Version tombstone <? version)%N
  | (None, None) => true
  end.

Definition slotWithConfig (s : slot) (c : Config) : slot :=
  if slotAcceptsConfig s (Config_Version c) then (Some c, None) else s.

Definition slotWithTombstone (s : slot) (t : Tombstone) : slot :=
  if slotAcceptsTombstone s (Tombstone_Version t) then (None, Some t) else s.

(** Merging the slot [s'] of another container into [s]: its config, then
    its tombstone. *)
Definition slotMerge (s s' : slot) : slot :=
  let s1 := match s'.1 with Some c => slotWithConfig s c | None => s end in
  match s'.2 with Some t => slotWithTombstone s1 t | None => s1 end.

(** The order of the merge: a config of version [n] is below the
    tombstone of version [n], which is below any entry of version [n+1];
    an ID that was never seen is below everything. *)
Definition rank (s : slot) : N :=
  match s with
  | (Some config, _) => 2 * Config_Version config + 1
  | (None, Some tombstone) => 2 * Tombstone_Version tombstone + 2
  | (None, None) => 0
  end.

(** The value reached by merging [u] into [v], whatever the order. *)
Definition mergeTyped (v u : typed) : typed :=
  (mergeTombstonesSeq (mergeConfigsSeq v (map_to_list (live u)).*2).1
     (map_to_list (dead u)).*2).1.

Definition mergeStore (V U : gmap string typed) : gmap string typed :=
  merge (λ ov ou,
    match ou with
    | Some u => Some (mergeTyped (default (mkTyped ∅ ∅) ov) u)
    | None => ov
    end) V U.

(** The entries of [U] that a container holding [V] accepts. *)
Definition newIn (V U : gmap string typed) : list Config :=
  map_to_list U ≫= λ '(typ, u),
    filter (λ c, acceptsConfig (typedAt V typ) (Config_ID c) (Config_Version c))
      (map_to_list (live u)).*2.

Definition deadIn (V U : gmap string typed) : list Tombstone :=
  map_to_list U ≫= λ '(typ, u),
    filter (λ t, acceptsTombstone (typedAt V typ) (Tombstone_ID t) (Tombstone_Version t))
      (map_to_list (dead u)).*2.

(** A config without its payload, for comparing what two containers hold
    up to the payloads. *)
Definition forgetData (c : Config) : Config :=
  mkConfig (Config_Type c) (Config_ID c) (Config_Version c) None.

Definition forgetResult (r : ConfigResult * bool) : ConfigResult * bool :=
  (mkConfigResult (forgetData <$> Result_Config r.1) (Result_Tombstone r.1), r.2).

Definition forgetSlot (s : slot) : slot := (forgetData <$> s.1, s.2).

Definition single (s : slot) : Prop := s.1 = None ∨ s.2 = None.

(** What [Get] returns for a slot. *)
Definition slotEntry (s : slot) : ConfigResult * bool :=
  match s with
  | (Some config, _) => (mkConfigResult (Some config) None, true)
  | (None, Some tombstone) => (mkConfigResult None (Some tombstone), true)
  | (None, None) => (mkConfigResult None None, false)
  end.

(** Every entry of the container of a type carries that type. *)
Definition typedBy (typ : string) (v : typed) : Prop :=
  map_Forall (λ _ c, Config_Type c = typ) (live v) ∧
  map_Forall (λ _ t, Tombstone_Type t = typ) (dead v).

(** A [Configs] as the package builds them: the shape of [okCS], every
    entry under its own type and ID, no ID both live and dead. *)
Definition wfStore (w : world) (pc : loc) : Prop :=
  okCS w pc ∧ map_Forall (λ typ v, wfTyped v ∧ typedBy typ v) (viewCS w pc).

#[export] Instance wfStore_dec w pc : Decision (wfStore w pc).
Proof. unfold wfStore, typedBy. apply _. Defined.

(** One step of [Merge] and of [Diff] on the value of a [Configs]. *)
Definition stepMerge (V : gmap string typed) (x : string * typed) : gmap string typed :=
  <[x.1 := mergeTyped (typedAt V x.1) x.2]> V.

Definition stepEmpty (V : gmap string typed) (typ : string) : gmap string typed :=
  <[typ := typedAt V typ]> V.

(** ** Statements about whole containers *)

Definition forgetTyped (v : typed) : typed := mkTyped (forgetData <$> live v) (dead v).

(** Where two containers both hold a live config of the type and the ID
    at the same version, it is the same config. *)
Definition tiesAgree (w : world) (pA pB : loc) (typ ID : string) : Prop :=
  ∀ cA cB,
    live (typedAt (viewCS w pA) typ) !! ID = Some cA →
    live (typedAt (viewCS w pB) typ) !! ID = Some cB →
    Config_Version cA = Config_Version cB → cA = cB.

(** A mutation of a container: a config or a tombstone to merge. *)
Inductive mutation :=
| Live (c : Config)
| Dead (t : Tombstone).

Definition applyTo (configs : loc) (m : mutation) : M (option Config * bool) :=
  match m with
  | Live c => Configs.NewConfig configs c
  | Dead t => Configs.DeadConfig configs t
  end.

(** ** Stores to try the statements on *)

Definition configA1 : Config := mkConfig "test" "a" 1 (Some (mkPayload "TestConfig" "x")).
Definition configA1' : Config := mkConfig "test" "a" 1 (Some (mkPayload "TestConfig" "y")).
Definition configB1 : Config := mkConfig "test" "b" 1 None.
Definition tombB2 : Tombstone := mkTombstone "test" "b" 2.
Definition tombC1 : Tombstone := mkTombstone "other" "c" 1.

(** Two containers built through [NewConfig] and [DeadConfig]: the first
    holds [a] live at version 1 and [b] dead at version 2, the second
    holds [a] live at version 1 with another payload and [c] dead. *)
Definition twoStores : Res (loc * loc) * world :=
  (pA ← alloc (ObjConfigs (mkConfigs None));
   Configs.NewConfig pA configA1;;
   Configs.NewConfig pA configB1;;
   Configs.DeadConfig pA tombB2;;
   pB ← alloc (ObjConfigs (mkConfigs None));
   Configs.NewConfig pB configA1';;
   Configs.DeadConfig pB tombC1;;
   ret (pA, pB)) emptyWorld.

Definition storesWorld : world := twoStores.2.
Definition storeA : loc := 1%positive.
Definition storeB : loc := 6%positive.

(** The container of one type in a well-formed [Configs]. *)
Definition wfAt (typ : string) (v : typed) : Prop := wfTyped v ∧ typedBy typ v.

(** A mutation on the value of a [Configs], its type and ID, and its
    place in the order of the merge. *)
Definition applyValue (V : gmap string typed) (m : mutation) : gmap string typed :=
  match m with
  | Live c => <[Config_Type c := withConfig (typedAt V (Config_Type c)) c]> V
  | Dead t => <[Tombstone_Type t := withTombstone (typedAt V (Tombstone_Type t)) t]> V
  end.

Definition typeOf (m : mutation) : string :=
  match m with Live c => Config_Type c | Dead t => Tombstone_Type t end.

Definition idOf (m : mutation) : string :=
  match m with Live c => Config_ID c | Dead t => Tombstone_ID t end.

Definition rankOf (m : mutation) : N :=
  match m with
  | Live c => 2 * Config_Version c + 1
  | Dead t => 2 * Tombstone_Version t + 2
  end.

(** The entry [r] that [Get] returns makes the mutation [m] stale: the
    version of [m] is the same as or lower than the resident version, and
    the merge rules reject it. *)
Definition stale (m : mutation) (r : ConfigResult * bool) : Prop :=
  match m with
  | Live c =>
      (∃ cfg, Result_Config r.1 = Some cfg ∧ (Config_Version c ≤ Config_Version cfg)%N) ∨
      (∃ tb, Result_Tombstone r.1 = Some tb ∧ (Config_Version c ≤ Tombstone_Version tb)%N)
  | Dead t =>
      (∃ cfg, Result_Config r.1 = Some cfg ∧ (Tombstone_Version t < Config_Version cfg)%N) ∨
      (∃ tb, Result_Tombstone r.1 = Some tb ∧ (Tombstone_Version t ≤ Tombstone_Version tb)%N)
  end.

(** ** Router states *)

Definition objRouterState (w : world) (state : loc) : option routerState :=
  match mem w !! state with Some (ObjRouterState s) => Some s | _ => None end.

Definition objConfigurable (w : world) (obj : loc) : option (Behaviour * list Call) :=
  match mem w !! obj with Some (ObjConfigurable b r) => Some (b, r) | _ => None end.

Definition objRouter (w : world) (router : loc) : option loc :=
  match mem w !! router with Some (ObjRouter state) => Some state | _ => None end.

(** The objects of a [Configs] are of five kinds only. *)
Definition storeKind (x : object) : Prop :=
  match x with
  | ObjConfigs _ | MapTypes _ | ObjTypeConfigs _ | MapConfig _ | MapTombstone _ => True
  | _ => False
  end.

(** The store after the object [x.1] has received the call [x.2]. *)
Definition deliver (w : world) (x : loc * Call) : world :=
  match objConfigurable w x.1 with
  | Some (b, r) =>
      mkWorld (<[x.1 := ObjConfigurable b (r ++ [x.2])]> (mem w)) (clock w)
        (trace w ++ [ConfigurableCall x.1 x.2])
  | None => w
  end.

(** The store after the handlers have been notified. *)
Definition announce (w : world) (events : list Event) : world :=
  mkWorld (mem w) (clock w) (trace w ++ events).

(** Two stores that differ by what the configurable objects have
    received only. *)
Definition callsOnly (w w' : world) : Prop :=
  ∀ l, mem w' !! l = mem w !! l ∨
       ∃ b r r', mem w !! l = Some (ObjConfigurable b r) ∧
                 mem w' !! l = Some (ObjConfigurable b r').

(** The locations that hold a configurable object. *)
Definition isConfigurable (x : object) : Prop :=
  match x with ObjConfigurable _ _ => True | _ => False end.

#[export] Instance isConfigurable_dec x : Decision (isConfigurable x).
Proof. destruct x; apply _. Defined.

Definition configurables (w : world) : gset loc :=
  dom (filter (λ x, isConfigurable x.2) (mem w)).

(** The objects a config of type [typ] is routed to, the untyped ones
    first, and the handlers that are notified of it. *)
Definition routedTo (s : routerState) (typ : string) : list loc :=
  untypedStates s ++ default [] (typedStates s !! typ).

Definition handlersFor (s : routerState) (typ : string) : list Handler :=
  untypedHandlers s ++ default [] (typedHandlers s !! typ).

(** The calls of the two loops of [routerState.NewConfig] and of
    [routerState.DeadConfig]. *)
Definition replaceCalls (old : option Config) (c : Config) (objs : list loc) :
    list (loc * Call) :=
  objs ≫= λ obj,
    match old with Some o => [(obj, CallDeadConfig o)] | None => [] end ++
    [(obj, CallNewConfig c)].

Definition killCalls (old : option Config) (objs : list loc) : list (loc * Call) :=
  match old with
  | Some o => (λ obj, (obj, CallDeadConfig o)) <$> objs
  | None => []
  end.

(** Every configurable object a router state leads to. *)
Definition statesOf (s : routerState) : list loc :=
  (map_to_list (KeyedStates s)).*2 ++ untypedStates s ++
  mjoin (map_to_list (typedStates s)).*2.

(** The value of the [Configs] of a router state. *)
Definition viewRS (w : world) (state : loc) : gmap string typed :=
  match objRouterState w state with
  | Some s => viewCS w (routerState_Configs s)
  | None => ∅
  end.

(** A router state as [newRouterState], [Copy] and the mutations build
    them, none of its objects among the locations [old]. *)
Definition wfRS (old : gset loc) (w : world) (state : loc) : Prop :=
  state ∉ old ∧
  match objRouterState w state with
  | Some s =>
      wfStore w (routerState_Configs s) ∧
      fpCS w (routerState_Configs s) ## old ∧
      Forall (λ obj, obj ∉ old ∧ is_Some (objConfigurable w obj)) (statesOf s)
  | None => False
  end.

#[export] Instance wfRS_dec old w state : Decision (wfRS old w state).
Proof. unfold wfRS. destruct (objRouterState w state); apply _. Defined.

Definition wfRouter (w : world) (router : loc) : Prop :=
  match objRouter w router with
  | Some state => wfRS ∅ w state
  | None => False
  end.

#[export] Instance wfRouter_dec w router : Decision (wfRouter w router).
Proof. unfold wfRouter. destruct (objRouter w router); apply _. Defined.

(** The value of the [Configs] of the state the router holds. *)
Definition viewRouter (w : world) (router : loc) : gmap string typed :=
  match objRouter w router with
  | Some state => viewRS w state
  | None => ∅
  end.

(** The state a turn of the router works on: a copy made in the store
    [wb], which has left every location of [wb] as it was. *)
Definition turnInv (wb : world) (state : loc) (w : world) : Prop :=
  keeps ∅ wb w ∧ wfRS (dom (mem wb)) w state.

(** The state that [registerState] leaves when it does not notify. *)
Definition addState (s : routerState) (key : string) (obj : loc) (types : list string) :
    routerState :=
  if bool_decide (length types = 0) then
    mkRouterState (routerState_Configs s) (<[key := obj]> (KeyedStates s)) (typedStates s)
      (untypedStates s ++ [obj]) (untypedHandlers s) (typedHandlers s)
  else
    mkRouterState (routerState_Configs s) (<[key := obj]> (KeyedStates s))
      (foldl (λ table typ, appendAt typ obj table) (typedStates s) types)
      (untypedStates s) (untypedHandlers s) (typedHandlers s).

(** The messages that change the configs of the router, the containers
    they carry well formed in [w]. *)
Definition isMutation (w : world) (msg : message) : Prop :=
  match msg with
  | newConfigC _ | deadConfigC _ => True
  | pushConfigsC configs => wfStore w configs
  | registerStateC _ _ | unregisterStateC _ => False
  end.

#[export] Instance isMutation_dec w msg : Decision (isMutation w msg).
Proof. destruct msg; apply _. Defined.

(** What a message makes of the value of a [Configs]. *)
Definition applyMsg (w : world) (V : gmap string typed) (msg : message) : gmap string typed :=
  match msg with
  | newConfigC c => applyValue V (Live c)
  | deadConfigC t => applyValue V (Dead t)
  | pushConfigsC configs => mergeStore V (viewCS w configs)
  | registerStateC _ _ | unregisterStateC _ => V
  end.

(** The messages of a turn: the one received and at most 16 of those
    that were ready behind it. *)
Definition processed (batches : list (message * list message)) : list message :=
  batches ≫= λ batch, batch.1 :: take 16 batch.2.

(** [json.Marshal] fails with the error [e] on the config or the
    tombstone that the message carries. *)
Definition marshalFails (json_Marshal : Config + Tombstone → string * error)
    (e : string) (msg : message) : Prop :=
  match msg with
  | newConfigC c => (json_Marshal (inl c)).2 = Some e
  | deadConfigC t => (json_Marshal (inr t)).2 = Some e
  | pushConfigsC _ | registerStateC _ _ | unregisterStateC _ => False
  end.

(** The entries of a container as mutations. *)
Definition entriesOf (u : typed) : list mutation :=
  (Live <$> (map_to_list (live u)).*2) ++ (Dead <$> (map_to_list (dead u)).*2).

(** ** [Config.UnmarshalJSON]: a registry and a decoder to try it on *)

(** A registry with the type [test], and a decoder that stores the raw
    text in the object it is given. *)
Definition exampleRegistry : option (gmap string reflectType) :=
  Some {[ "test" := mkReflectType "TestConfig" false "" ]}.

Definition exampleDecoder (raw : string) (obj : Payload) : Payload * error :=
  (mkPayload (Payload_type obj) raw, None).

(** ** A router state to try the statements on: an untyped handler and an
    untyped object that never fails, and the config [a], version 1 *)

Definition quiet : Behaviour := mkBehaviour [] (λ _ _, None).

Definition configA2 : Config := mkConfig "test" "a" 2 (Some (mkPayload "TestConfig" "z")).

Definition registered : Res (loc * loc) * world :=
  (obj ← alloc (ObjConfigurable quiet []);
   state ← routerState.newRouterState None [mkHandler "h" []];
   routerState.RegisterState storedOrder state "d" obj;;
   routerState.NewConfig state configA1;;
   ret (state, obj)) emptyWorld.

Definition registeredWorld : world := registered.2.
Definition registeredState : loc := 3%positive.
Definition registeredObject : loc := 1%positive.

(** ** Mutations on a slot *)

Definition slotApply (s : slot) (m : mutation) : slot :=
  match m with
  | Live c => slotWithConfig s c
  | Dead t => slotWithTombstone s t
  end.

Definition slotOfMutation (m : mutation) : slot :=
  match m with
  | Live c => (Some c, None)
  | Dead t => (None, Some t)
  end.

(** ** A router to try the statements on: a container to push, and a
    router with an untyped handler and an untyped object that fails *)

(** An object that returns an error from every call, and a
    [json.Marshal] that encodes a config or a tombstone as its ID. *)
Definition refusing : Behaviour := mkBehaviour [] (λ _ _, Some "refused").

Definition exampleMarshal (obj : Config + Tombstone) : string * error :=
  match obj with
  | inl config => (Config_ID config, None)
  | inr tombstone => (Tombstone_ID tombstone, None)
  end.

Definition routerExample : Res (loc * loc) * world :=
  (pushed ← alloc (ObjConfigs (mkConfigs None));
   Configs.NewConfig pushed configA1;;
   Configs.DeadConfig pushed tombB2;;
   obj ← alloc (ObjConfigurable refusing []);
   router ← Router.init storedOrder None [("d", obj)] [mkHandler "h" []];
   ret (router, pushed)) emptyWorld.

Definition routerWorld : world := routerExample.2.

Definition exampleBatches : list (message * list message) :=
  [(newConfigC configB1, [pushConfigsC 1%positive]); (deadConfigC tombC1, [])].

Definition routerLoc : loc := 9%positive.

(** * Further definitions *)

(** The version of the entry that [Get] returned, when it returned one. *)
Definition resultVersion (r : ConfigResult * bool) : option N :=
  match Result_Config r.1, Result_Tombstone r.1 with
  | Some config, _ => Some (Config_Version config)
  | None, Some tombstone => Some (Tombstone_Version tombstone)
  | None, None => None
  end.

(** A sequence of calls of [NewConfig] and [DeadConfig] on a container. *)
Definition applyAll (configs : loc) (ms : list mutation) : M unit :=
  forM ms (λ m, applyTo configs m;; ret tt).

(** ** configs.go: [TypeConfigs.MarshalJSON] *)

(** The struct that [MarshalJSON] fills and hands to [json.Marshal]. *)
Definition MarshalJSON (o : Oracle) (configs : loc) : M configsJSON :=
  self ← readTypeConfigs configs;
  cm ← readMapConfig (TypeConfigs_Configs self);
  items ← range o cm;
  live ← foldM (λ acc '(_, config), ret (acc ++ [config])) [] items;
  self ← readTypeConfigs configs;
  tm ← readMapTombstone (TypeConfigs_Tombstones self);
  items ← range o tm;
  dead ← foldM (λ acc '(_, tombstone), ret (acc ++ [tombstone])) [] items;
  ret (mkConfigsJSON live dead).

(** The map that the loops of [UnmarshalJSON] build from a list, [None]
    when they meet a key twice. *)
Fixpoint fillMap {V} (key : V → string) (m : gmap string V) (l : list V) :
    option (gmap string V) :=
  match l with
  | [] => Some m
  | x :: l' =>
      match m !! key x with
      | Some _ => None
      | None => fillMap key (<[key x := x]> m) l'
      end
  end.

(** A [TypeConfigs] to deserialize into. *)
Definition emptyTypeConfigs : Res loc * world :=
  alloc (ObjTypeConfigs (mkTypeConfigs None None)) emptyWorld.

(** Decoded forms to deserialize: one without a repeated ID, one with
    the ID [a] twice. *)
Definition exampleJSON : configsJSON := mkConfigsJSON [configA1; configB1] [tombC1].
Definition duplicateJSON : configsJSON := mkConfigsJSON [configA1; configA1'] [].

(** What the [TypeConfigs] of the type [test] holds in the first
    container of [twoStores]. *)
Definition exampleTyped : typed := mkTyped {[ "a" := configA1 ]} {[ "b" := tombB2 ]}.

(** The router state of [registered]: the container, the object under
    its key and in the untyped list, and the untyped handler. *)
Definition registeredRouterState : routerState :=
  mkRouterState 2%positive {[ "d" := 1%positive ]} ∅ [1%positive] [mkHandler "h" []] ∅.

Definition tombA1 : Tombstone := Config.Tombstone configA1.

(** ** db_memory.go: [MemoryConfigDB] *)

(** The struct has the one field [state], a [*Configs]; it is threaded
    through the methods, which return it as they leave it.  [None] is
    the nil pointer. *)
Module MemoryConfigDB.
Section Methods.
Context (o : Oracle).

Definition NewConfig (state : option loc) (config : Config) : M (option loc) :=
  state ← match state with
           | None => alloc (ObjConfigs (mkConfigs None))
           | Some state => ret state
           end;
  Configs.NewConfig state config;;
  ret (Some state).

Definition DeadConfig (state : option loc) (tombstone : Tombstone) : M (option loc) :=
  state ← match state with
           | None => alloc (ObjConfigs (mkConfigs None))
           | Some state => ret state
           end;
  Configs.DeadConfig state tombstone;;
  ret (Some state).

Definition Load (state : option loc) : M (option loc * (loc * error)) :=
  state ← match state with
           | None => alloc (ObjConfigs (mkConfigs None))
           | Some state => ret state
           end;
  copy ← Configs.Copy o state;
  ret (Some state, (copy, None)).

(** A sequence of mutations sent to the database. *)
Definition mutate (state : option loc) (ms : list mutation) : M (option loc) :=
  foldM (λ state m,
    match m with
    | Live c => NewConfig state c
    | Dead t => DeadConfig state t
    end) state ms.
End Methods.
End MemoryConfigDB.

(** The value of the container of a [MemoryConfigDB] and the locations
    it is made of. *)
Definition viewDB (w : world) (state : option loc) : gmap string typed :=
  match state with Some pc => viewCS w pc | None => ∅ end.

Definition fpDB (w : world) (state : option loc) : gset loc :=
  match state with Some pc => fpCS w pc | None => ∅ end.

Definition wfDB (w : world) (state : option loc) : Prop :=
  match state with Some pc => wfStore w pc | None => True end.

(** ** db_aof.go: what [load] makes of the lines of a file *)

Section Lines.
Context (crc32_ChecksumIEEE : string → N).
Context (strconv_ParseUint : string → option N).
Context (json_Unmarshal_Config : string → Config * error).
Context (json_Unmarshal_Tombstone : string → Tombstone * error).

(** A line of 18 bytes or more: the error [loadLine] returns for it, or
    the mutation it sends to the container. *)
Definition lineResult (line : string) : string + mutation :=
  let magic := String.substring 0 8 line in
  let crcStr := String.substring 8 8 line in
  let body := String.substring 17 (String.length line - 1 - 17) line in
  match String.get 16 line with
  | None => inl "index out of range"
  | Some head =>
      if bool_decide (magic ≠ AOFConfigDB.magicAOF) then inl "invalid aof magic" else
      match strconv_ParseUint crcStr with
      | None => inl "unable to read crc"
      | Some crc =>
          if bool_decide (crc32_ChecksumIEEE body ≠ (crc mod 2 ^ 32)%N)
          then inl "CRC mismatch"
          else if bool_decide (head = "n"%char) then
            match json_Unmarshal_Config body with
            | (config, None) => inr (Live config)
            | (_, Some e) => inl e
            end
          else if bool_decide (head = "t"%char) then
            match json_Unmarshal_Tombstone body with
            | (tombstone, None) => inr (Dead tombstone)
            | (_, Some e) => inl e
            end
          else inl "unknown aof header"
      end
  end.

Definition lineErrors (lines : list string) : list string :=
  omap (λ line, match lineResult line with inl e => Some e | inr _ => None end) lines.

Definition lineMutations (lines : list string) : list mutation :=
  omap (λ line, match lineResult line with inl _ => None | inr m => Some m end) lines.
End Lines.

(** Library functions and a file to try [load] on: every body has the
    checksum 0, and a body decodes to the entry of the type [test] that
    has the body as its ID and the version 1. *)
Definition exampleCRC (body : string) : N := 0.

Definition exampleParseUint (s : string) : option N :=
  if bool_decide (s = "00000000") then Some 0%N else None.

Definition exampleUnmarshalConfig (body : string) : Config * error :=
  (mkConfig "test" body 1 None, None).

Definition exampleUnmarshalTombstone (body : string) : Tombstone * error :=
  (mkTombstone "test" body 1, None).

Definition exampleFile : string :=
  "e74e190200000000na" +:+ newline +:+
  "e74e1902deadbeefnb" +:+ newline +:+
  "e74e190200000000tc" +:+ newline.

(** ** A router state and an object that is not registered: the object
    declares the types [test] and [other], the container holds the config
    [a] of the type [test] *)

Definition typedQuiet : Behaviour := mkBehaviour ["test"; "other"] (λ _ _, None).

Definition unregistered : Res (loc * loc) * world :=
  (state ← routerState.newRouterState None [mkHandler "h" []];
   routerState.NewConfig state configA1;;
   obj ← alloc (ObjConfigurable typedQuiet []);
   ret (state, obj)) emptyWorld.

Definition unregisteredWorld : world := unregistered.2.
Definition unregisteredState : loc := 2%positive.
Definition unregisteredObject : loc := 6%positive.
Definition unregisteredRouterState : routerState :=
  mkRouterState 1%positive ∅ ∅ [] [mkHandler "h" []] ∅.

(** ** db_aof.go: writing to the file *)

(** What follows the last newline of a file: the line that [ReadBytes]
    returns with [io.EOF]. *)
Fixpoint pending (line : string) (input : string) : string :=
  match input with
  | EmptyString => line
  | String c rest =>
      if bool_decide (c = Ascii.ascii_of_nat 10)
      then pending "" rest
      else pending (line +:+ String c "") rest
  end.

Fixpoint newlineFree (s : string) : bool :=
  match s with
  | EmptyString => true
  | String c rest => negb (bool_decide (c = Ascii.ascii_of_nat 10)) && newlineFree rest
  end.

(** [NewConfig] and [DeadConfig] on a database that is initialised.  What
    the file holds is threaded through: the methods take it and return
    what it holds then. *)
Module AOF.
Section Methods.
(** The library functions: [crc32.ChecksumIEEE], [fmt.Sprintf] with the
    verb [%08x], [json.Marshal] of a config and of a tombstone, and
    [WriteString] on the file, from what the file holds and the text to
    what the file holds then and the error. *)
Context (crc32_ChecksumIEEE : string → N).
Context (fmt_hex8 : N → string).
Context (json_Marshal_Config : Config → string * error).
Context (json_Marshal_Tombstone : Tombstone → string * error).
Context (WriteString : string → string → string * error).

Definition write (file : string) (head : Ascii.ascii) (body : string) : string * error :=
  let crc := crc32_ChecksumIEEE body in
  WriteString file
    (AOFConfigDB.magicAOF +:+ fmt_hex8 crc +:+ String head body +:+ newline).

Definition NewConfig (db : loc) (file : string) (config : Config) : M string :=
  d ← readAOFConfigDB db;
  '(_, isNew) ← Configs.NewConfig (AOF_configs d) config;
  if negb isNew then ret file else
  let '(body, err) := json_Marshal_Config config in
  match err with
  | Some e => emit (ReportError "unable to encode config");; ret file
  | None =>
      let '(file, err) := write file "n"%char body in
      match err with
      | Some e => emit (ReportError "unable to write config");; ret file
      | None => ret file
      end
  end.

Definition DeadConfig (db : loc) (file : string) (tombstone : Tombstone) : M string :=
  d ← readAOFConfigDB db;
  '(_, isNew) ← Configs.DeadConfig (AOF_configs d) tombstone;
  if negb isNew then ret file else
  let '(body, err) := json_Marshal_Tombstone tombstone in
  match err with
  | Some e => emit (ReportError "unable to encode tombstone");; ret file
  | None =>
      let '(file, err) := write file "t"%char body in
      match err with
      | Some e => emit (ReportError "unable to write tombstone");; ret file
      | None => ret file
      end
  end.

(** A sequence of mutations sent to the database. *)
Definition mutate (db : loc) (file : string) (ms : list mutation) : M string :=
  foldM (λ file m,
    match m with
    | Live c => NewConfig db file c
    | Dead t => DeadConfig db file t
    end) file ms.
End Methods.
End AOF.

(** The library functions agree on a mutation: it is encoded without an
    error and without a newline, the decoder reads it back from the
    encoding, and the checksum of the encoding is a 32-bit number that is
    printed as eight characters from which it is parsed back. *)
Section Writable.
Context (crc32_ChecksumIEEE : string → N).
Context (strconv_ParseUint : string → option N).
Context (json_Unmarshal_Config : string → Config * error).
Context (json_Unmarshal_Tombstone : string → Tombstone * error).
Context (fmt_hex8 : N → string).
Context (json_Marshal_Config : Config → string * error).
Context (json_Marshal_Tombstone : Tombstone → string * error).

Definition checksummed (body : string) : Prop :=
  String.length (fmt_hex8 (crc32_ChecksumIEEE body)) = 8%nat ∧
  newlineFree (fmt_hex8 (crc32_ChecksumIEEE body)) = true ∧
  strconv_ParseUint (fmt_hex8 (crc32_ChecksumIEEE body)) = Some (crc32_ChecksumIEEE body) ∧
  (crc32_ChecksumIEEE body < 2 ^ 32)%N.

Definition writable (m : mutation) : Prop :=
  match m with
  | Live c =>
      (json_Marshal_Config c).2 = None ∧
      newlineFree (json_Marshal_Config c).1 = true ∧
      json_Unmarshal_Config (json_Marshal_Config c).1 = (c, None) ∧
      checksummed (json_Marshal_Config c).1
  | Dead t =>
      (json_Marshal_Tombstone t).2 = None ∧
      newlineFree (json_Marshal_Tombstone t).1 = true ∧
      json_Unmarshal_Tombstone (json_Marshal_Tombstone t).1 = (t, None) ∧
      checksummed (json_Marshal_Tombstone t).1
  end.

#[export] Instance writable_dec m : Decision (writable m).
Proof. unfold writable, checksummed. destruct m; apply _. Defined.
End Writable.

(** Encoders to go with the decoders of the example: an entry of the
    type [test] and of the version 1 is encoded as its ID. *)
Definition exampleHex8 (crc : N) : string := "00000000".

Definition exampleMarshalConfig (c : Config) : string * error := (Config_ID c, None).

Definition exampleMarshalTombstone (t : Tombstone) : string * error := (Tombstone_ID t, None).

Definition exampleWriteString (file text : string) : string * error := (file +:+ text, None).

(** Mutations to send to a database initialised on [exampleFile]: a new
    config, the tombstone of the config [a] of the file, and a config
    that this tombstone makes stale. *)
Definition exampleMutations : list mutation :=
  [Live (mkConfig "test" "d" 1 None);
   Dead (mkTombstone "test" "a" 1);
   Live (mkConfig "test" "a" 1 None)].

(** * Proofs *)

Lemma wp_ret {A} (a : A) w Q : Q a w → wp (mret a) w Q.
Proof. done. Qed.

Lemma wp_bind {A B} (m : M A) (k : A → M B) w Q :
  wp m w (λ a w', wp (k a) w' Q) → wp (m ≫= k) w Q.
Proof.
  unfold wp, mbind, M_bind, bind. destruct (m w) as [[a|msg] w']; done.
Qed.

Lemma wp_mono {A} (m : M A) w (Q Q' : A → world → Prop) :
  wp m w Q → (∀ a w', Q a w' → Q' a w') → wp m w Q'.
Proof. unfold wp. destruct (m w) as [[a|msg] w']; auto. Qed.

Lemma wp_alloc x w Q :
  (∀ l, mem w !! l = None → Q l (upd w l x)) → wp (alloc x) w Q.
Proof.
  intros H. unfold wp, alloc. apply H.
  apply not_elem_of_dom, is_fresh.
Qed.

Lemma wp_read l x w Q : mem w !! l = Some x → Q x w → wp (read l) w Q.
Proof. intros H HQ. unfold wp, read. by rewrite H. Qed.

Lemma wp_write l x w Q : Q tt (upd w l x) → wp (write l x) w Q.
Proof. done. Qed.

Lemma wp_emit e w Q :
  Q tt (mkWorld (mem w) (clock w) (trace w ++ [e])) → wp (emit e) w Q.
Proof. done. Qed.


Lemma range_items {V} (m : gmap string V) (l : list string) :
  l ≡ₚ elements (dom m) → omap (λ k, (k,.) <$> m !! k) l ≡ₚ map_to_list m.
Proof.
  intros Hl. apply NoDup_Permutation.
  - assert (Hnd : NoDup l) by (rewrite Hl; apply NoDup_elements).
    clear Hl. induction Hnd as [|k l Hk Hnd IH]; simpl; [constructor|].
    destruct (m !! k) as [v|] eqn:E; simpl; [|done].
    constructor; [|done].
    rewrite list_elem_of_omap. intros (k' & Hk' & Heq).
    destruct (m !! k'); simplify_eq/=. done.
  - apply NoDup_map_to_list.
  - intros [k v]. rewrite list_elem_of_omap, elem_of_map_to_list. split.
    + intros (k' & Hk' & Heq). destruct (m !! k') eqn:E; simplify_eq/=. done.
    + intros Hkv. exists k. split.
      * rewrite Hl, elem_of_elements, elem_of_dom. eauto.
      * by rewrite Hkv.
Qed.

Lemma wp_range o {V} (m : gmap string V) w Q :
  (∀ items, items ≡ₚ map_to_list m → Q items (tick w)) → wp (range o m) w Q.
Proof.
  intros H. unfold wp, range. apply H, range_items, ord_perm.
Qed.

Lemma viewTC_Some w p v :
  viewTC w p = Some v ↔
  ∃ tc, mem w !! p = Some (ObjTypeConfigs tc) ∧
        mapConfigAt w (TypeConfigs_Configs tc) = Some (live v) ∧
        mapTombstoneAt w (TypeConfigs_Tombstones tc) = Some (dead v).
Proof.
  unfold viewTC, objTypeConfigs. split.
  - intros H. destruct (mem w !! p) as [[]|]; simplify_option_eq. eauto.
  - intros (tc & -> & Hc & Ht). simpl. rewrite Hc, Ht. simpl. by destruct v.
Qed.

Lemma wp_readTypeConfigs w p tc Q :
  mem w !! p = Some (ObjTypeConfigs tc) → Q tc w → wp (readTypeConfigs p) w Q.
Proof. intros H HQ. apply wp_bind. eapply wp_read; [done|]. by apply wp_ret. Qed.

Lemma wp_readMapConfig w r m Q :
  mapConfigAt w r = Some m → Q m w → wp (readMapConfig r) w Q.
Proof.
  intros H HQ. destruct r as [l|]; simpl in *.
  - destruct (mem w !! l) as [[]|] eqn:E; simplify_eq.
    apply wp_bind. eapply wp_read; [done|]. by apply wp_ret.
  - simplify_eq. by apply wp_ret.
Qed.

Lemma wp_readMapTombstone w r m Q :
  mapTombstoneAt w r = Some m → Q m w → wp (readMapTombstone r) w Q.
Proof.
  intros H HQ. destruct r as [l|]; simpl in *.
  - destruct (mem w !! l) as [[]|] eqn:E; simplify_eq.
    apply wp_bind. eapply wp_read; [done|]. by apply wp_ret.
  - simplify_eq. by apply wp_ret.
Qed.

Lemma wp_TC_Get w p v ID Q :
  viewTC w p = Some v → Q (entryOf v ID) w → wp (TypeConfigs.Get p ID) w Q.
Proof.
  intros (tc & Hp & Hc & Ht)%viewTC_Some HQ. unfold TypeConfigs.Get, entryOf in *.
  apply wp_bind. eapply wp_readTypeConfigs; [done|].
  apply wp_bind. eapply wp_readMapConfig; [done|].
  destruct (live v !! ID); [by apply wp_ret|].
  apply wp_bind. eapply wp_readMapTombstone; [done|].
  destruct (dead v !! ID); by apply wp_ret.
Qed.

Lemma wp_TC_isNewConfig w p v ID version Q :
  viewTC w p = Some v → Q (acceptsConfig v ID version) w →
  wp (TypeConfigs.isNewConfig p ID version) w Q.
Proof.
  intros (tc & Hp & Hc & Ht)%viewTC_Some HQ.
  unfold TypeConfigs.isNewConfig, acceptsConfig in *.
  apply wp_bind. eapply wp_readTypeConfigs; [done|].
  apply wp_bind. eapply wp_readMapConfig; [done|].
  destruct (live v !! ID); [by apply wp_ret|].
  apply wp_bind. eapply wp_readMapTombstone; [done|].
  destruct (dead v !! ID); by apply wp_ret.
Qed.

Lemma keeps_refl F w : keeps F w w.
Proof. by split. Qed.

Lemma keeps_upd F w w1 l x :
  keeps F w w1 → l ∈ F ∨ mem w !! l = None → keeps F w (upd w1 l x).
Proof.
  intros [Hd Hm] Hl. split; simpl.
  - rewrite dom_insert. set_solver.
  - intros l' Hdom HF. rewrite lookup_insert_ne; [by apply Hm|]. intros ->.
    destruct Hl as [?|Hn]; [done|]. by apply not_elem_of_dom in Hn.
Qed.

Lemma keeps_trans F w1 w2 w3 :
  keeps F w1 w2 → keeps (F ∪ (dom (mem w2) ∖ dom (mem w1))) w2 w3 → keeps F w1 w3.
Proof.
  intros [Hd1 Hm1] [Hd2 Hm2]. split; [set_solver|].
  intros l Hl HF. rewrite Hm2, Hm1; [done..| |]; set_solver.
Qed.

Ltac solve_lookup :=
  cbn [mem upd mapConfigAt mapTombstoneAt mapTypesAt]; rewrite ?delete_empty;
  repeat first [rewrite lookup_insert_eq | rewrite lookup_insert_ne by congruence];
  first [reflexivity | eassumption
        | match goal with H : _ !! _ = _ |- _ => rewrite H; reflexivity end].

Ltac wp_step :=
  lazymatch goal with
  | |- wp (mret _) _ _ => apply wp_ret
  | |- wp (ret _) _ _ => apply wp_ret
  | |- wp (_ ≫= _) _ _ => apply wp_bind
  | |- wp (alloc _) _ _ => apply wp_alloc; intros ? ?
  | |- wp (write _ _) _ _ => apply wp_write
  | |- wp (readTypeConfigs _) _ _ => eapply wp_readTypeConfigs; [solve_lookup|]
  | |- wp (readMapConfig _) _ _ => eapply wp_readMapConfig; [solve_lookup|]
  | |- wp (readMapTombstone _) _ _ => eapply wp_readMapTombstone; [solve_lookup|]
  | |- wp (setConfigsField _ _) _ _ => unfold setConfigsField
  | |- wp (setTombstonesField _ _) _ _ => unfold setTombstonesField
  | |- wp (assignMapConfig (Some _) _ _) _ _ => unfold assignMapConfig
  | |- wp (assignMapTombstone (Some _) _ _) _ _ => unfold assignMapTombstone
  | |- wp (deleteMapConfig (Some _) _) _ _ => unfold deleteMapConfig
  | |- wp (deleteMapConfig None _) _ _ => unfold deleteMapConfig
  | |- wp (deleteMapTombstone (Some _) _) _ _ => unfold deleteMapTombstone
  | |- wp (deleteMapTombstone None _) _ _ => unfold deleteMapTombstone
  end; cbn [TypeConfigs_Configs TypeConfigs_Tombstones Configs_Types].

Ltac solve_keeps :=
  repeat (apply keeps_upd; [|first [by right | left; set_solver]]); apply keeps_refl.

Ltac solve_fp :=
  unfold fpTC, objTypeConfigs; cbn [mem upd];
  repeat first [rewrite lookup_insert_eq | rewrite lookup_insert_ne by congruence];
  repeat match goal with H : mem _ !! _ = Some _ |- _ => rewrite H end;
  cbn [TypeConfigs_Configs TypeConfigs_Tombstones refSet].

Ltac solve_evolves :=
  split;
  [ solve_fp; solve_keeps
  | solve_fp; rewrite ?dom_insert_L;
    repeat match goal with H : mem _ !! _ = None |- _ => apply not_elem_of_dom in H end;
    set_solver ].

Ltac solve_view :=
  apply viewTC_Some; eexists; split_and!; [solve_lookup|..];
  cbn [TypeConfigs_Configs TypeConfigs_Tombstones live dead];
  solve_lookup.

Ltac tc_cases Hv :=
  let x := fresh "x" in
  apply viewTC_Some in Hv as (x & ? & ? & ?);
  destruct x as [[?|] [?|]];
  cbn [TypeConfigs_Configs TypeConfigs_Tombstones mapConfigAt mapTombstoneAt live dead] in *;
  repeat match goal with
  | H : match mem ?w !! ?l with _ => _ end = Some _ |- _ =>
      let E := fresh "E" in destruct (mem w !! l) as [[]|] eqn:E; simplify_eq
  end; simplify_eq.

Lemma wp_TC_NewConfig w p v c Q :
  viewTC w p = Some v →
  (∀ w', viewTC w' p = Some (withConfig v c) →
         evolves w w' (fpTC w p) (fpTC w' p) →
         clock w' = clock w → trace w' = trace w →
         Q (if acceptsConfig v (Config_ID c) (Config_Version c)
            then live v !! Config_ID c else None,
            acceptsConfig v (Config_ID c) (Config_Version c)) w') →
  wp (TypeConfigs.NewConfig p c) w Q.
Proof.
  intros Hv HQ. unfold TypeConfigs.NewConfig.
  apply wp_bind. eapply wp_TC_isNewConfig; [done|].
  unfold withConfig in HQ.
  destruct (acceptsConfig v (Config_ID c) (Config_Version c)) eqn:Hacc; cbn [negb].
  2:{ apply wp_ret, HQ; auto. split; [apply keeps_refl|set_solver]. }
  destruct v as [lv dv]; cbn [live dead] in *.
  tc_cases Hv; repeat wp_step; rewrite ?lookup_empty in HQ;
    (apply HQ; [solve_view|solve_evolves|done..]).
Qed.

Lemma wp_forM_from {A} (I : list A → world → Prop) (body : A → M unit) l done rest w Q :
  l = done ++ rest →
  I done w →
  (∀ done x rest w, l = done ++ x :: rest → I done w →
     wp (body x) w (λ _ w', I (done ++ [x]) w')) →
  (∀ w', I l w' → Q tt w') →
  wp (forM rest body) w Q.
Proof.
  intros Hl HI Hbody HQ. revert done w Hl HI.
  induction rest as [|x rest IH]; intros done w Hl HI.
  - apply wp_ret, HQ. by rewrite Hl, app_nil_r.
  - cbn [forM]. apply wp_bind. eapply wp_mono; [by eapply Hbody|].
    intros [] w' HI'. cbn beta in *. apply (IH (done ++ [x])); [|done].
    by rewrite <-app_assoc.
Qed.

Lemma wp_forM {A} (I : list A → world → Prop) (body : A → M unit) l w Q :
  I [] w →
  (∀ done x rest w, l = done ++ x :: rest → I done w →
     wp (body x) w (λ _ w', I (done ++ [x]) w')) →
  (∀ w', I l w' → Q tt w') →
  wp (forM l body) w Q.
Proof. intros. by eapply (wp_forM_from I body l []). Qed.

Lemma wp_foldM_from {A B} (I : list A → B → world → Prop) (body : B → A → M B)
    l done rest b w Q :
  l = done ++ rest →
  I done b w →
  (∀ done x rest b w, l = done ++ x :: rest → I done b w →
     wp (body b x) w (λ b' w', I (done ++ [x]) b' w')) →
  (∀ b' w', I l b' w' → Q b' w') →
  wp (foldM body b rest) w Q.
Proof.
  intros Hl HI Hbody HQ. revert done b w Hl HI.
  induction rest as [|x rest IH]; intros done b w Hl HI.
  - apply wp_ret, HQ. by rewrite Hl, app_nil_r.
  - cbn [foldM]. apply wp_bind. eapply wp_mono; [by eapply Hbody|].
    intros b' w' HI'. cbn beta. apply (IH (done ++ [x])); [|done].
    by rewrite <-app_assoc.
Qed.

Lemma wp_foldM {A B} (I : list A → B → world → Prop) (body : B → A → M B) l b w Q :
  I [] b w →
  (∀ done x rest b w, l = done ++ x :: rest → I done b w →
     wp (body b x) w (λ b' w', I (done ++ [x]) b' w')) →
  (∀ b' w', I l b' w' → Q b' w') →
  wp (foldM body b l) w Q.
Proof. intros. by eapply (wp_foldM_from I body l []). Qed.

Lemma wp_TC_isNewTombstone w p v ID version Q :
  viewTC w p = Some v → Q (acceptsTombstone v ID version) w →
  wp (TypeConfigs.isNewTombstone p ID version) w Q.
Proof.
  intros (x & Hp & Hc & Ht)%viewTC_Some HQ.
  unfold TypeConfigs.isNewTombstone, acceptsTombstone in *.
  apply wp_bind. eapply wp_readTypeConfigs; [done|].
  apply wp_bind. eapply wp_readMapConfig; [done|].
  destruct (live v !! ID); [by apply wp_ret|].
  apply wp_bind. eapply wp_readMapTombstone; [done|].
  destruct (dead v !! ID); by apply wp_ret.
Qed.

Lemma wp_TC_DeadConfig w p v t Q :
  viewTC w p = Some v →
  (∀ w', viewTC w' p = Some (withTombstone v t) →
         evolves w w' (fpTC w p) (fpTC w' p) →
         clock w' = clock w → trace w' = trace w →
         Q (if acceptsTombstone v (Tombstone_ID t) (Tombstone_Version t)
            then live v !! Tombstone_ID t else None,
            acceptsTombstone v (Tombstone_ID t) (Tombstone_Version t)) w') →
  wp (TypeConfigs.DeadConfig p t) w Q.
Proof.
  intros Hv HQ. unfold TypeConfigs.DeadConfig.
  apply wp_bind. eapply wp_TC_isNewTombstone; [done|].
  unfold withTombstone in HQ.
  destruct (acceptsTombstone v (Tombstone_ID t) (Tombstone_Version t)) eqn:Hacc; cbn [negb].
  2:{ apply wp_ret, HQ; auto. split; [apply keeps_refl|set_solver]. }
  destruct v as [lv dv]; cbn [live dead] in *.
  tc_cases Hv; repeat wp_step; rewrite ?lookup_empty in HQ;
    (apply HQ; [solve_view|solve_evolves|done..]).
Qed.

Lemma evolves_refl w F : evolves w w F F.
Proof. split; [apply keeps_refl|set_solver]. Qed.

Lemma keeps_weaken F F' w w' : keeps F w w' → F ⊆ F' → keeps F' w w'.
Proof. intros [Hd Hm] HF. split; [done|]. intros l Hl Hn. apply Hm; set_solver. Qed.

Lemma evolves_trans w1 w2 w3 F1 F2 F3 :
  evolves w1 w2 F1 F2 → evolves w2 w3 F2 F3 → evolves w1 w3 F1 F3.
Proof.
  intros [Hk1 HF1] [Hk2 HF2]. split.
  - eapply keeps_trans; [done|]. by eapply keeps_weaken.
  - destruct Hk1, Hk2. set_solver.
Qed.

Lemma evolves_tick w w' F F' : evolves w w' F F' → evolves w (tick w') F F'.
Proof. intros [[Hd Hm] HF]. by repeat split. Qed.

Lemma viewTC_tick w p : viewTC (tick w) p = viewTC w p.
Proof. done. Qed.

Lemma fpTC_tick w p : fpTC (tick w) p = fpTC w p.
Proof. done. Qed.

Lemma viewTC_dom w p v : viewTC w p = Some v → fpTC w p ⊆ dom (mem w).
Proof.
  intros (x & Hp & Hc & Ht)%viewTC_Some. unfold fpTC, objTypeConfigs. rewrite Hp.
  destruct x as [[lc|] [lt|]]; cbn in *;
    repeat match goal with
    | H : match mem ?w !! ?l with _ => _ end = Some _ |- _ =>
        let E := fresh "E" in destruct (mem w !! l) as [[]|] eqn:E; simplify_eq
    end;
    repeat match goal with H : mem _ !! _ = Some _ |- _ => apply elem_of_dom_2 in H end;
    set_solver.
Qed.

Lemma viewTC_frame F w w' q :
  keeps F w w' → is_Some (viewTC w q) → fpTC w q ## F →
  viewTC w' q = viewTC w q ∧ fpTC w' q = fpTC w q.
Proof.
  intros [Hd Hm] [u Hu] Hdisj.
  pose proof (viewTC_dom _ _ _ Hu) as Hdom.
  assert (Hsame : ∀ l, l ∈ fpTC w q → mem w' !! l = mem w !! l).
  { intros l Hl. apply Hm; set_solver. }
  apply viewTC_Some in Hu as (x & Hp & Hc & Ht).
  assert (Hp' : mem w' !! q = Some (ObjTypeConfigs x)).
  { rewrite Hsame; [done|]. unfold fpTC. set_solver. }
  assert (Hfp : fpTC w' q = fpTC w q).
  { unfold fpTC, objTypeConfigs. by rewrite Hp, Hp'. }
  split; [|done].
  unfold viewTC, objTypeConfigs. rewrite Hp, Hp'. cbn.
  assert (mapConfigAt w' (TypeConfigs_Configs x) = mapConfigAt w (TypeConfigs_Configs x)) as ->.
  { destruct x as [[lc|] ?]; cbn; [|done]. rewrite Hsame; [done|].
    unfold fpTC, objTypeConfigs. rewrite Hp. cbn. set_solver. }
  assert (mapTombstoneAt w' (TypeConfigs_Tombstones x) = mapTombstoneAt w (TypeConfigs_Tombstones x)) as ->.
  { destruct x as [? [lt|]]; cbn; [|done]. rewrite Hsame; [done|].
    unfold fpTC, objTypeConfigs. rewrite Hp. cbn. set_solver. }
  done.
Qed.

Lemma mergeConfigsSeq_snoc v l c :
  mergeConfigsSeq v (l ++ [c]) =
  (withConfig (mergeConfigsSeq v l).1 c,
   if acceptsConfig (mergeConfigsSeq v l).1 (Config_ID c) (Config_Version c)
   then (mergeConfigsSeq v l).2 ++ [c] else (mergeConfigsSeq v l).2).
Proof. unfold mergeConfigsSeq. rewrite foldl_app. cbn. by destruct (foldl _ _ l). Qed.

Lemma mergeTombstonesSeq_snoc v l t :
  mergeTombstonesSeq v (l ++ [t]) =
  (withTombstone (mergeTombstonesSeq v l).1 t,
   if acceptsTombstone (mergeTombstonesSeq v l).1 (Tombstone_ID t) (Tombstone_Version t)
   then (mergeTombstonesSeq v l).2 ++ [t] else (mergeTombstonesSeq v l).2).
Proof. unfold mergeTombstonesSeq. rewrite foldl_app. cbn. by destruct (foldl _ _ l). Qed.

Lemma wp_TC_Merge o w p q v u Q :
  viewTC w p = Some v → viewTC w q = Some u → fpTC w p ## fpTC w q →
  (∀ w' lc lt,
     lc ≡ₚ (map_to_list (live u)).*2 → lt ≡ₚ (map_to_list (dead u)).*2 →
     viewTC w' p = Some (mergeTombstonesSeq (mergeConfigsSeq v lc).1 lt).1 →
     evolves w w' (fpTC w p) (fpTC w' p) → trace w' = trace w →
     Q ((mergeConfigsSeq v lc).2, (mergeTombstonesSeq (mergeConfigsSeq v lc).1 lt).2) w') →
  wp (TypeConfigs.Merge o p q) w Q.
Proof.
  intros Hv Hu Hdisj HQ. unfold TypeConfigs.Merge.
  pose proof Hu as (x & Hq & Hc & Ht)%viewTC_Some.
  apply wp_bind. eapply wp_readTypeConfigs; [done|].
  apply wp_bind. eapply wp_readMapConfig; [done|].
  apply wp_bind, wp_range. intros items Hitems.
  apply wp_bind.
  eapply (wp_foldM (λ done acc w1,
    viewTC w1 p = Some (mergeConfigsSeq v done.*2).1 ∧
    acc = (mergeConfigsSeq v done.*2).2 ∧
    evolves w w1 (fpTC w p) (fpTC w1 p) ∧ trace w1 = trace w)).
  { split_and!; try done. apply evolves_tick, evolves_refl. }
  { intros done [k c] rest acc w1 _ (Hv1 & -> & Hev & Htr).
    apply wp_bind. eapply wp_TC_NewConfig; [done|].
    intros w2 Hv2 Hev2 _ Htr2. apply wp_ret.
    rewrite fmap_app. cbn [fmap list_fmap snd]. rewrite mergeConfigsSeq_snoc. cbn [fst snd].
    split_and!; [done|done| |congruence]. by eapply evolves_trans. }
  intros newConfigs w1 (Hv1 & -> & Hev1 & Htr1). cbn beta.
  destruct (viewTC_frame _ _ _ q (proj1 Hev1)) as [Hu1 Hfq]; [by eauto|set_solver|].
  rewrite Hu in Hu1. pose proof Hu1 as (x1 & Hq1 & Hc1 & Ht1)%viewTC_Some.
  apply wp_bind. eapply wp_readTypeConfigs; [done|].
  apply wp_bind. eapply wp_readMapTombstone; [done|].
  apply wp_bind, wp_range. intros items2 Hitems2.
  apply wp_bind.
  eapply (wp_foldM (λ done acc w2,
    viewTC w2 p = Some (mergeTombstonesSeq (mergeConfigsSeq v items.*2).1 done.*2).1 ∧
    acc = (mergeTombstonesSeq (mergeConfigsSeq v items.*2).1 done.*2).2 ∧
    evolves w w2 (fpTC w p) (fpTC w2 p) ∧ trace w2 = trace w)).
  { split_and!; try done. by apply evolves_tick. }
  { intros done [k t] rest acc w2 _ (Hv2 & -> & Hev & Htr).
    apply wp_bind. eapply wp_TC_DeadConfig; [done|].
    intros w3 Hv3 Hev3 _ Htr3. apply wp_ret.
    rewrite fmap_app. cbn [fmap list_fmap snd]. rewrite mergeTombstonesSeq_snoc. cbn [fst snd].
    split_and!; [done|done| |congruence]. by eapply evolves_trans. }
  intros deadConfigs w2 (Hv2 & -> & Hev2 & Htr2). cbn beta.
  apply wp_ret. apply HQ; try done; by apply fmap_Permutation.
Qed.

Lemma wp_TC_Diff o w p q v u Q :
  viewTC w p = Some v → viewTC w q = Some u →
  (∀ w' lc lt,
     lc ≡ₚ (map_to_list (live u)).*2 → lt ≡ₚ (map_to_list (dead u)).*2 →
     mem w' = mem w → trace w' = trace w →
     Q (filter (λ c, acceptsConfig v (Config_ID c) (Config_Version c)) lc,
        filter (λ t, acceptsTombstone v (Tombstone_ID t) (Tombstone_Version t)) lt) w') →
  wp (TypeConfigs.Diff o p q) w Q.
Proof.
  intros Hv Hu HQ. unfold TypeConfigs.Diff.
  pose proof Hu as (x & Hq & Hc & Ht)%viewTC_Some.
  apply wp_bind. eapply wp_readTypeConfigs; [done|].
  apply wp_bind. eapply wp_readMapConfig; [done|].
  apply wp_bind, wp_range. intros items Hitems.
  apply wp_bind.
  eapply (wp_foldM (λ done acc w1,
    acc = filter (λ c, acceptsConfig v (Config_ID c) (Config_Version c)) done.*2 ∧
    mem w1 = mem w ∧ trace w1 = trace w)).
  { repeat split; done. }
  { intros done [k c] rest acc w1 _ (-> & Hm & Htr).
    apply wp_bind. eapply wp_TC_isNewConfig.
    { unfold viewTC, objTypeConfigs, mapConfigAt, mapTombstoneAt in *. by rewrite Hm. }
    apply wp_ret. rewrite fmap_app, filter_app. cbn [fmap list_fmap snd].
    rewrite filter_cons, filter_nil. split_and!; [|done..].
    destruct (acceptsConfig _ _ _); simpl; rewrite ?app_nil_r; done. }
  intros newConfigs w1 (-> & Hm1 & Htr1). cbn beta.
  apply wp_bind. eapply wp_readMapTombstone.
  { unfold mapTombstoneAt in *. rewrite Hm1. done. }
  apply wp_bind, wp_range. intros items2 Hitems2.
  apply wp_bind.
  eapply (wp_foldM (λ done acc w2,
    acc = filter (λ t, acceptsTombstone v (Tombstone_ID t) (Tombstone_Version t)) done.*2 ∧
    mem w2 = mem w ∧ trace w2 = trace w)).
  { repeat split; done. }
  { intros done [k t] rest acc w2 _ (-> & Hm & Htr).
    apply wp_bind. eapply wp_TC_isNewTombstone.
    { unfold viewTC, objTypeConfigs, mapConfigAt, mapTombstoneAt in *. by rewrite Hm. }
    apply wp_ret. rewrite fmap_app, filter_app. cbn [fmap list_fmap snd].
    rewrite filter_cons, filter_nil. split_and!; [|done..].
    destruct (acceptsTombstone _ _ _); simpl; rewrite ?app_nil_r; done. }
  intros deadConfigs w2 (-> & Hm2 & Htr2). cbn beta.
  apply wp_ret. apply HQ; try done; by apply fmap_Permutation.
Qed.

Lemma list_to_map_items {V} (m : gmap string V) (items : list (string * V)) :
  items ≡ₚ map_to_list m → list_to_map items = m.
Proof.
  intros H. rewrite <-(list_to_map_to_list m). apply list_to_map_proper; [|done].
  rewrite H. apply NoDup_fst_map_to_list.
Qed.

Lemma items_fresh_key {V} (m : gmap string V) items done k x rest :
  items ≡ₚ map_to_list m → items = done ++ (k, x) :: rest → k ∉ done.*1.
Proof.
  intros Hp ->. assert (Hnd : NoDup (done ++ (k, x) :: rest).*1).
  { rewrite Hp. apply NoDup_fst_map_to_list. }
  rewrite fmap_app in Hnd. apply NoDup_app in Hnd as (_ & Hnd & _).
  intros Hin. apply (Hnd k Hin). cbn. left.
Qed.

Lemma items_lookup {V} (m : gmap string V) items k x :
  items ≡ₚ map_to_list m → (k, x) ∈ items → m !! k = Some x.
Proof. intros Hp Hin. rewrite Hp in Hin. by apply elem_of_map_to_list. Qed.

(** The first half of [Copy]: the configs. *)
Lemma wp_copy_configs o w1 r rt0 (x : TypeConfigs) cm Q :
  mem w1 !! r = Some (ObjTypeConfigs (mkTypeConfigs None rt0)) →
  (TypeConfigs_Configs x = None → cm = ∅) →
  (∀ w' rc,
     (match rc with
      | Some m => mem w1 !! m = None ∧
          mem w' = <[m := MapConfig cm]> (<[r := ObjTypeConfigs (mkTypeConfigs rc rt0)]> (mem w1))
      | None => cm = ∅ ∧ mem w' = mem w1
      end) →
     trace w' = trace w1 → Q tt w') →
  wp (if bool_decide (is_Some (TypeConfigs_Configs x)) && bool_decide (0 < size cm) then
       m ← alloc (MapConfig ∅);
       setConfigsField r (Some m);;
       items ← range o cm;
       forM items (λ '(ID, config),
         r' ← readTypeConfigs r;
         assignMapConfig (TypeConfigs_Configs r') ID config)
     else ret tt) w1 Q.
Proof.
  intros Hr Hnil HQ.
  destruct (bool_decide (is_Some (TypeConfigs_Configs x)) && bool_decide (0 < size cm)) eqn:Hcond.
  2:{ apply wp_ret, (HQ _ None); [|done]. split; [|done].
      apply andb_false_iff in Hcond as [Hc|Hc]; apply bool_decide_eq_false in Hc.
      - apply Hnil. destruct (TypeConfigs_Configs x); [|done]. by destruct Hc.
      - apply map_size_empty_iff. lia. }
  apply wp_bind, wp_alloc. intros m Hm. cbn beta.
  assert (m ≠ r) by congruence.
  repeat wp_step.
  apply wp_range. intros items Hitems.
  eapply (wp_forM (λ done wi,
    mem wi = <[m := MapConfig (list_to_map done)]>
               (<[r := ObjTypeConfigs (mkTypeConfigs (Some m) rt0)]> (mem w1)) ∧
    trace wi = trace w1)).
  { cbn. split; [|done]. by apply insert_insert_ne. }
  { intros done [ID config] rest wi Hsplit [Hwi Htr].
    apply wp_bind. eapply wp_readTypeConfigs.
    { rewrite Hwi. rewrite lookup_insert_ne by done. by rewrite lookup_insert_eq. }
    cbn [TypeConfigs_Configs]. unfold assignMapConfig.
    apply wp_bind. eapply wp_readMapConfig.
    { cbn. rewrite Hwi. by rewrite lookup_insert_eq. }
    apply wp_write. cbn. split; [|done].
    rewrite Hwi, insert_insert_eq.
    rewrite list_to_map_snoc; [done|]. by eapply items_fresh_key. }
  intros w' [Hw' Htr]. apply (HQ _ (Some m)); [|done]. split; [done|].
  by rewrite Hw', (list_to_map_items cm).
Qed.

(** The second half of [Copy]: the tombstones. *)
Lemma wp_copy_tombstones o w1 r rc0 (x : TypeConfigs) tm Q :
  mem w1 !! r = Some (ObjTypeConfigs (mkTypeConfigs rc0 None)) →
  (TypeConfigs_Tombstones x = None → tm = ∅) →
  map_Forall (λ k t, Tombstone_ID t = k) tm →
  (∀ w' rt,
     (match rt with
      | Some m => mem w1 !! m = None ∧
          mem w' = <[m := MapTombstone tm]> (<[r := ObjTypeConfigs (mkTypeConfigs rc0 rt)]> (mem w1))
      | None => tm = ∅ ∧ mem w' = mem w1
      end) →
     trace w' = trace w1 → Q tt w') →
  wp (if bool_decide (is_Some (TypeConfigs_Tombstones x)) && bool_decide (0 < size tm) then
       m ← alloc (MapTombstone ∅);
       setTombstonesField r (Some m);;
       items ← range o tm;
       forM items (λ '(_, tombstone),
         r' ← readTypeConfigs r;
         assignMapTombstone (TypeConfigs_Tombstones r') (Tombstone_ID tombstone) tombstone)
     else ret tt) w1 Q.
Proof.
  intros Hr Hnil Hkeyed HQ.
  destruct (bool_decide (is_Some (TypeConfigs_Tombstones x)) && bool_decide (0 < size tm)) eqn:Hcond.
  2:{ apply wp_ret, (HQ _ None); [|done]. split; [|done].
      apply andb_false_iff in Hcond as [Hc|Hc]; apply bool_decide_eq_false in Hc.
      - apply Hnil. destruct (TypeConfigs_Tombstones x); [|done]. by destruct Hc.
      - apply map_size_empty_iff. lia. }
  apply wp_bind, wp_alloc. intros m Hm. cbn beta.
  assert (m ≠ r) by congruence.
  repeat wp_step.
  apply wp_range. intros items Hitems.
  eapply (wp_forM (λ done wi,
    mem wi = <[m := MapTombstone (list_to_map done)]>
               (<[r := ObjTypeConfigs (mkTypeConfigs rc0 (Some m))]> (mem w1)) ∧
    trace wi = trace w1)).
  { cbn. split; [|done]. by apply insert_insert_ne. }
  { intros done [ID t] rest wi Hsplit [Hwi Htr].
    apply wp_bind. eapply wp_readTypeConfigs.
    { rewrite Hwi. rewrite lookup_insert_ne by done. by rewrite lookup_insert_eq. }
    cbn [TypeConfigs_Tombstones]. unfold assignMapTombstone.
    apply wp_bind. eapply wp_readMapTombstone.
    { cbn. rewrite Hwi. by rewrite lookup_insert_eq. }
    apply wp_write. cbn. split; [|done].
    rewrite Hwi, insert_insert_eq.
    assert (Tombstone_ID t = ID) as ->.
    { apply (Hkeyed ID t). eapply items_lookup; [done|]. rewrite Hsplit. set_solver. }
    rewrite list_to_map_snoc; [done|]. by eapply items_fresh_key. }
  intros w' [Hw' Htr]. apply (HQ _ (Some m)); [|done]. split; [done|].
  by rewrite Hw', (list_to_map_items tm).
Qed.

Lemma upd_fresh w r x m :
  mem (upd w r x) !! m = None → m ≠ r ∧ mem w !! m = None.
Proof.
  cbn. intros H. destruct (decide (m = r)) as [->|Hne].
  - by rewrite lookup_insert_eq in H.
  - by rewrite lookup_insert_ne in H.
Qed.

Lemma viewTC_ext w w' p : mem w = mem w' → viewTC w p = viewTC w' p.
Proof.
  intros H. unfold viewTC, objTypeConfigs, mapConfigAt, mapTombstoneAt. by rewrite H.
Qed.

Lemma fpTC_ext w w' p : mem w = mem w' → fpTC w p = fpTC w' p.
Proof. intros H. unfold fpTC, objTypeConfigs. by rewrite H. Qed.

Lemma keeps_ext F w w1 w2 : mem w2 = mem w1 → keeps F w w1 → keeps F w w2.
Proof. intros H [Hd Hm]. split; rewrite H; done. Qed.

Lemma wp_TC_Copy o w p v Q :
  viewTC w p = Some v →
  map_Forall (λ k t, Tombstone_ID t = k) (dead v) →
  (∀ w' r, mem w !! r = None → viewTC w' r = Some v →
           keeps ∅ w w' → fpTC w' r ⊆ dom (mem w') ∖ dom (mem w) →
           trace w' = trace w → Q r w') →
  wp (TypeConfigs.Copy o p) w Q.
Proof.
  intros Hv Hkeyed HQ. unfold TypeConfigs.Copy.
  pose proof Hv as (x & Hp & Hc & Ht)%viewTC_Some.
  apply wp_bind, wp_alloc. intros r Hr. cbn beta.
  assert (p ≠ r) by congruence.
  apply wp_bind. eapply wp_readTypeConfigs; [solve_lookup|].
  apply wp_bind. eapply wp_readMapConfig.
  { instantiate (1 := live v). destruct x as [[lc|] ?]; cbn in *; [|done].
    destruct (mem w !! lc) as [[]|] eqn:E; simplify_eq.
    rewrite lookup_insert_ne by congruence. by rewrite E. }
  apply wp_bind. eapply wp_copy_configs; [solve_lookup| |].
  { intros Hn. rewrite Hn in Hc. cbn in Hc. congruence. }
  intros w2 rc Hw2 Htr2.
  assert (Hold : ∀ l y, mem w !! l = Some y → mem w2 !! l = Some y).
  { intros l y Hl. destruct rc as [m|].
    - destruct Hw2 as [[? ?]%upd_fresh ->]. cbn.
      rewrite !lookup_insert_ne by congruence. done.
    - destruct Hw2 as [? ->]. cbn. rewrite lookup_insert_ne by congruence. done. }
  apply wp_bind. eapply wp_readTypeConfigs; [by apply Hold|].
  apply wp_bind. eapply wp_readMapTombstone.
  { instantiate (1 := dead v). destruct x as [? [lt|]]; cbn in *; [|done].
    destruct (mem w !! lt) as [[]|] eqn:E; simplify_eq.
    by rewrite (Hold _ _ E). }
  assert (Hr2 : mem w2 !! r = Some (ObjTypeConfigs (mkTypeConfigs rc None))).
  { destruct rc as [m|].
    - destruct Hw2 as [[? ?]%upd_fresh ->]. cbn. rewrite lookup_insert_ne by done.
      by rewrite lookup_insert_eq.
    - destruct Hw2 as [? ->]. cbn. by rewrite lookup_insert_eq. }
  apply wp_bind. eapply (wp_copy_tombstones _ _ r rc); [done| |done|].
  { intros Hn. rewrite Hn in Ht. cbn in Ht. congruence. }
  intros w3 rt Hw3 Htr3. apply wp_ret.
  assert (Htr : trace w3 = trace w) by (by rewrite Htr3, Htr2).
  destruct v as [lv dv]; cbn [live dead] in *.
  destruct rc as [m1|], rt as [m2|].
  - destruct Hw2 as [[? ?]%upd_fresh Hm2], Hw3 as [Hf Hm3].
    rewrite Hm2 in Hf. cbn in Hf.
    apply lookup_insert_None in Hf as [Hf ?].
    apply lookup_insert_None in Hf as [Hf ?].
    apply lookup_insert_None in Hf as [Hf ?].
    set (wX := upd (upd (upd (upd (upd w r (ObjTypeConfigs (mkTypeConfigs None None)))
                 r (ObjTypeConfigs (mkTypeConfigs (Some m1) None))) m1 (MapConfig lv))
                 r (ObjTypeConfigs (mkTypeConfigs (Some m1) (Some m2)))) m2 (MapTombstone dv)).
    assert (HX : mem w3 = mem wX) by (by rewrite Hm3, Hm2).
    apply HQ; [done| | | |done].
    + rewrite (viewTC_ext _ wX) by done. subst wX. solve_view.
    + apply (keeps_ext _ _ wX); [done|]. subst wX. solve_keeps.
    + rewrite (fpTC_ext _ wX), HX by done. subst wX. solve_fp.
      cbn [mem upd]. rewrite !dom_insert_L.
      repeat match goal with H : mem _ !! _ = None |- _ => apply not_elem_of_dom in H end.
      set_solver.
  - destruct Hw2 as [[? ?]%upd_fresh Hm2], Hw3 as [-> Hm3].
    set (wX := upd (upd (upd w r (ObjTypeConfigs (mkTypeConfigs None None)))
                 r (ObjTypeConfigs (mkTypeConfigs (Some m1) None))) m1 (MapConfig lv)).
    assert (HX : mem w3 = mem wX) by (by rewrite Hm3, Hm2).
    apply HQ; [done| | | |done].
    + rewrite (viewTC_ext _ wX) by done. subst wX. solve_view.
    + apply (keeps_ext _ _ wX); [done|]. subst wX. solve_keeps.
    + rewrite (fpTC_ext _ wX), HX by done. subst wX. solve_fp.
      cbn [mem upd]. rewrite !dom_insert_L.
      repeat match goal with H : mem _ !! _ = None |- _ => apply not_elem_of_dom in H end.
      set_solver.
  - destruct Hw2 as [-> Hm2], Hw3 as [Hf Hm3].
    rewrite Hm2 in Hf. cbn in Hf.
    apply lookup_insert_None in Hf as [Hf ?].
    set (wX := upd (upd (upd w r (ObjTypeConfigs (mkTypeConfigs None None)))
                 r (ObjTypeConfigs (mkTypeConfigs None (Some m2)))) m2 (MapTombstone dv)).
    assert (HX : mem w3 = mem wX) by (by rewrite Hm3, Hm2).
    apply HQ; [done| | | |done].
    + rewrite (viewTC_ext _ wX) by done. subst wX. solve_view.
    + apply (keeps_ext _ _ wX); [done|]. subst wX. solve_keeps.
    + rewrite (fpTC_ext _ wX), HX by done. subst wX. solve_fp.
      cbn [mem upd]. rewrite !dom_insert_L.
      repeat match goal with H : mem _ !! _ = None |- _ => apply not_elem_of_dom in H end.
      set_solver.
  - destruct Hw2 as [-> Hm2], Hw3 as [-> Hm3].
    set (wX := upd w r (ObjTypeConfigs (mkTypeConfigs None None))).
    assert (HX : mem w3 = mem wX) by (by rewrite Hm3, Hm2).
    apply HQ; [done| | | |done].
    + rewrite (viewTC_ext _ wX) by done. subst wX. solve_view.
    + apply (keeps_ext _ _ wX); [done|]. subst wX. solve_keeps.
    + rewrite (fpTC_ext _ wX), HX by done. subst wX. solve_fp.
      cbn [mem upd]. rewrite !dom_insert_L.
      repeat match goal with H : mem _ !! _ = None |- _ => apply not_elem_of_dom in H end.
      set_solver.
Qed.

Lemma typesOf_Some w pc tm :
  typesOf w pc = Some tm ↔ ∃ cs, storeAt w pc cs tm.
Proof.
  unfold typesOf, objConfigs, storeAt. split.
  - intros H. destruct (mem w !! pc) as [[]|]; simplify_option_eq. eauto.
  - intros (cs & -> & H). done.
Qed.

Lemma storeAt_types w pc cs tm : storeAt w pc cs tm → typesOf w pc = Some tm.
Proof. intros. apply typesOf_Some. eauto. Qed.

Lemma okCS_alt w pc :
  okCS w pc ↔
  ∃ cs tm, storeAt w pc cs tm ∧
    (∀ typ p, tm !! typ = Some p → is_Some (viewTC w p)) ∧
    (∀ typ1 p1 typ2 p2, tm !! typ1 = Some p1 → tm !! typ2 = Some p2 →
       typ1 ≠ typ2 → fpTC w p1 ## fpTC w p2).
Proof.
  unfold okCS. split.
  - intros ([tm Htm] & Hv & Hd). pose proof Htm as [cs Hs]%typesOf_Some.
    rewrite Htm in Hv, Hd. cbn in *. exists cs, tm. split_and!; [done|done|].
    intros typ1 p1 typ2 p2 H1 H2 Hne.
    destruct (Hd typ1 p1 H1 typ2 p2 H2); done.
  - intros (cs & tm & Hs & Hv & Hd). rewrite (storeAt_types _ _ _ _ Hs). cbn.
    split_and!; [by eauto|done|].
    intros typ1 p1 H1 typ2 p2 H2. destruct (decide (typ1 = typ2)); [by left|right; eauto].
Qed.

Lemma fpCS_storeAt w pc cs tm :
  storeAt w pc cs tm →
  fpCS w pc = {[pc]} ∪ refSet (Configs_Types cs) ∪ ⋃ (fpTC w <$> (map_to_list tm).*2).
Proof.
  intros Hs. unfold fpCS. rewrite (storeAt_types _ _ _ _ Hs).
  destruct Hs as [Hpc _]. unfold objConfigs. by rewrite Hpc.
Qed.

Lemma elem_of_fpCS w pc cs tm l :
  storeAt w pc cs tm →
  l ∈ fpCS w pc ↔
  l = pc ∨ Configs_Types cs = Some l ∨ ∃ typ p, tm !! typ = Some p ∧ l ∈ fpTC w p.
Proof.
  intros Hs. rewrite (fpCS_storeAt _ _ _ _ Hs).
  rewrite !elem_of_union, elem_of_singleton, elem_of_union_list.
  assert (l ∈ refSet (Configs_Types cs) ↔ Configs_Types cs = Some l) as ->.
  { destruct (Configs_Types cs); cbn; [|set_solver]. rewrite elem_of_singleton.
    split; congruence. }
  split.
  - intros [[?|?]|(X & HX & Hl)]; [by left|by right; left|right; right].
    apply list_elem_of_fmap in HX as (p & -> & Hp).
    apply list_elem_of_fmap in Hp as ([typ p'] & -> & Hp).
    apply elem_of_map_to_list in Hp. eauto.
  - intros [?|[?|(typ & p & Hp & Hl)]]; [by left; left|by left; right|right].
    exists (fpTC w p). split; [|done].
    apply list_elem_of_fmap. exists p. split; [done|].
    apply list_elem_of_fmap. exists (typ, p). split; [done|].
    by apply elem_of_map_to_list.
Qed.

Lemma fpTC_kind w p l :
  is_Some (viewTC w p) → l ∈ fpTC w p → ∃ x, mem w !! l = Some x ∧ typedKind x.
Proof.
  intros [v (x & Hp & Hc & Ht)%viewTC_Some]. unfold fpTC, objTypeConfigs. rewrite Hp.
  destruct x as [[lc|] [lt|]]; cbn in *;
    repeat match goal with
    | H : match mem ?w !! ?l with _ => _ end = Some _ |- _ =>
        let E := fresh "E" in destruct (mem w !! l) as [[]|] eqn:E; simplify_eq
    end;
    rewrite ?elem_of_union, ?elem_of_singleton; intros Hl;
    repeat destruct Hl as [Hl|Hl]; subst; try set_solver; eauto.
Qed.

Lemma storeAt_frame F w w' pc cs tm :
  keeps F w w' → storeAt w pc cs tm → pc ∉ F →
  (∀ l, Configs_Types cs = Some l → l ∉ F) →
  storeAt w' pc cs tm.
Proof.
  intros [Hd Hm] [Hpc Htm] HpcF HlF. split.
  - rewrite Hm; [done| |done]. by apply elem_of_dom_2 in Hpc.
  - destruct (Configs_Types cs) as [l|]; cbn in *; [|done].
    destruct (mem w !! l) as [x|] eqn:E; [|done].
    rewrite Hm, E; [done| |by apply HlF]. by apply elem_of_dom_2 in E.
Qed.

Lemma viewCS_storeAt w pc cs tm :
  storeAt w pc cs tm → viewCS w pc = omap (viewTC w) tm.
Proof. intros Hs. unfold viewCS. by rewrite (storeAt_types _ _ _ _ Hs). Qed.

(** A change inside one [TypeConfigs] of a [Configs]. *)
Lemma store_update_at w w' pc cs tm typ p v' :
  okCS w pc → storeAt w pc cs tm → tm !! typ = Some p →
  evolves w w' (fpTC w p) (fpTC w' p) → viewTC w' p = Some v' →
  okCS w' pc ∧ storeAt w' pc cs tm ∧
  viewCS w' pc = <[typ := v']> (viewCS w pc) ∧
  evolves w w' (fpCS w pc) (fpCS w' pc).
Proof.
  intros (cs0 & tm0 & Hs0 & Hviews & Hdisj)%okCS_alt Hs Hp [Hk Hfp] Hv'.
  assert (cs0 = cs ∧ tm0 = tm) as [-> ->].
  { destruct Hs0 as [H1 H2], Hs as [H3 H4]. rewrite H1 in H3.
    injection H3 as ->. rewrite H2 in H4. by injection H4 as ->. }
  clear Hs0.
  assert (Hnot : ∀ l x, mem w !! l = Some x → ¬ typedKind x → l ∉ fpTC w p).
  { intros l x Hl Hx Hin. destruct (fpTC_kind w p l) as (y & Hy & Hk'); eauto.
    rewrite Hl in Hy. by simplify_eq. }
  assert (Hs' : storeAt w' pc cs tm).
  { eapply storeAt_frame; [done..| |].
    - destruct Hs as [Hpc _]. eapply Hnot; [done|]. cbn. tauto.
    - intros l Hl. destruct Hs as [_ Htm]. rewrite Hl in Htm. cbn in Htm.
      destruct (mem w !! l) as [[]|] eqn:E; simplify_eq. eapply Hnot; [done|]. cbn. tauto. }
  assert (Hother : ∀ typ2 p2, tm !! typ2 = Some p2 → typ2 ≠ typ →
            viewTC w' p2 = viewTC w p2 ∧ fpTC w' p2 = fpTC w p2).
  { intros typ2 p2 H2 Hne. eapply viewTC_frame; [done|by eauto|by eauto]. }
  assert (Hdom : ∀ typ2 p2, tm !! typ2 = Some p2 → fpTC w p2 ⊆ dom (mem w)).
  { intros typ2 p2 H2. destruct (Hviews _ _ H2) as [u Hu]. by eapply viewTC_dom. }
  split_and!; [|done| |].
  - apply okCS_alt. exists cs, tm. split_and!; [done| |].
    + intros typ2 p2 H2. destruct (decide (typ2 = typ)) as [->|Hne].
      * simplify_eq. eauto.
      * destruct (Hother _ _ H2 Hne) as [-> _]. eauto.
    + intros typ1 p1 typ2 p2 H1 H2 Hne.
      destruct (decide (typ1 = typ)) as [->|Hne1]; [simplify_eq|];
      (destruct (decide (typ2 = typ)) as [->|Hne2]; [simplify_eq|]); try done.
      * destruct (Hother _ _ H2 Hne2) as [_ ->].
        pose proof (Hdisj _ _ _ _ Hp H2 Hne). pose proof (Hdom _ _ H2). set_solver.
      * destruct (Hother _ _ H1 Hne1) as [_ ->].
        pose proof (Hdisj _ _ _ _ H1 Hp Hne). pose proof (Hdom _ _ H1). set_solver.
      * destruct (Hother _ _ H1 Hne1) as [_ ->], (Hother _ _ H2 Hne2) as [_ ->]. eauto.
  - rewrite (viewCS_storeAt _ _ _ _ Hs), (viewCS_storeAt _ _ _ _ Hs').
    apply map_eq. intros typ2. rewrite lookup_omap.
    destruct (decide (typ2 = typ)) as [->|Hne].
    + rewrite lookup_insert_eq, Hp. done.
    + rewrite lookup_insert_ne by done. rewrite lookup_omap.
      destruct (tm !! typ2) as [p2|] eqn:E2; [|done]. cbn.
      by destruct (Hother _ _ E2 Hne) as [-> _].
  - split.
    + eapply keeps_weaken; [done|]. intros l Hl.
      apply (elem_of_fpCS _ _ _ _ _ Hs). right; right. eauto.
    + intros l. rewrite (elem_of_fpCS _ _ _ _ _ Hs').
      intros [->|[Hl|(typ2 & p2 & H2 & Hl)]].
      * apply elem_of_union_l, (elem_of_fpCS _ _ _ _ _ Hs). by left.
      * apply elem_of_union_l, (elem_of_fpCS _ _ _ _ _ Hs). by right; left.
      * destruct (decide (typ2 = typ)) as [->|Hne].
        -- simplify_eq. apply Hfp in Hl. apply elem_of_union in Hl as [Hl|Hl]; [|set_solver].
           apply elem_of_union_l, (elem_of_fpCS _ _ _ _ _ Hs). eauto 10.
        -- destruct (Hother _ _ H2 Hne) as [_ Heq]. rewrite Heq in Hl.
           apply elem_of_union_l, (elem_of_fpCS _ _ _ _ _ Hs). eauto 10.
Qed.

Lemma wp_readConfigs w p cs Q :
  mem w !! p = Some (ObjConfigs cs) → Q cs w → wp (readConfigs p) w Q.
Proof. intros H HQ. apply wp_bind. eapply wp_read; [done|]. by apply wp_ret. Qed.

Lemma wp_readMapTypes w r m Q :
  mapTypesAt w r = Some m → Q m w → wp (readMapTypes r) w Q.
Proof.
  intros H HQ. destruct r as [l|]; cbn in *.
  - destruct (mem w !! l) as [[]|] eqn:E; simplify_eq.
    apply wp_bind. eapply wp_read; [done|]. by apply wp_ret.
  - simplify_eq. by apply wp_ret.
Qed.

Lemma okCS_storeAt w pc : okCS w pc → ∃ cs tm, storeAt w pc cs tm.
Proof. intros (cs & tm & H & _)%okCS_alt. eauto. Qed.

Lemma storeAt_inj w pc cs tm cs' tm' :
  storeAt w pc cs tm → storeAt w pc cs' tm' → cs = cs' ∧ tm = tm'.
Proof.
  intros [H1 H2] [H3 H4]. rewrite H1 in H3. injection H3 as ->.
  rewrite H2 in H4. by injection H4 as ->.
Qed.

Lemma viewTC_empty w st :
  mem w !! st = Some (ObjTypeConfigs (mkTypeConfigs None None)) →
  viewTC w st = Some (mkTyped ∅ ∅) ∧ fpTC w st = {[st]}.
Proof.
  intros H. unfold viewTC, fpTC, objTypeConfigs. rewrite H. cbn. split; [done|set_solver].
Qed.

(** A new, empty [TypeConfigs] enters a [Configs]. *)
Lemma store_add_type w w' pc cs tm cs' typ st :
  okCS w pc → storeAt w pc cs tm → tm !! typ = None →
  keeps ({[pc]} ∪ refSet (Configs_Types cs)) w w' →
  storeAt w' pc cs' (<[typ := st]> tm) →
  mem w !! st = None →
  mem w' !! st = Some (ObjTypeConfigs (mkTypeConfigs None None)) →
  refSet (Configs_Types cs') ⊆ refSet (Configs_Types cs) ∪ (dom (mem w') ∖ dom (mem w)) →
  okCS w' pc ∧
  viewCS w' pc = <[typ := mkTyped ∅ ∅]> (viewCS w pc) ∧
  evolves w w' (fpCS w pc) (fpCS w' pc).
Proof.
  intros (cs0 & tm0 & Hs0 & Hviews & Hdisj)%okCS_alt Hs Hnone Hk Hs' Hst Hst' Hrefs.
  destruct (storeAt_inj _ _ _ _ _ _ Hs0 Hs) as [-> ->]. clear Hs0.
  destruct (viewTC_empty _ _ Hst') as [Hvst Hfst].
  assert (Hnot : ∀ p l x, is_Some (viewTC w p) → mem w !! l = Some x →
                          ¬ typedKind x → l ∉ fpTC w p).
  { intros p l x Hp Hl Hx Hin. destruct (fpTC_kind w p l) as (y & Hy & Hk'); eauto.
    rewrite Hl in Hy. by simplify_eq. }
  assert (Hold : ∀ typ2 p2, tm !! typ2 = Some p2 →
            viewTC w' p2 = viewTC w p2 ∧ fpTC w' p2 = fpTC w p2).
  { intros typ2 p2 H2. eapply viewTC_frame; [done|by eauto|].
    apply disjoint_union_r. split.
    - apply disjoint_singleton_r. destruct Hs as [Hpc _].
      eapply Hnot; [by eauto|done|]. cbn. tauto.
    - destruct Hs as [_ Htm]. destruct (Configs_Types cs) as [l|]; cbn in *; [|set_solver].
      destruct (mem w !! l) as [[]|] eqn:E; simplify_eq.
      apply disjoint_singleton_r. eapply Hnot; [by eauto|done|]. cbn. tauto. }
  assert (Hdom : ∀ typ2 p2, tm !! typ2 = Some p2 → fpTC w p2 ⊆ dom (mem w)).
  { intros typ2 p2 H2. destruct (Hviews _ _ H2) as [u Hu]. by eapply viewTC_dom. }
  apply not_elem_of_dom in Hst.
  split_and!.
  - apply okCS_alt. exists cs', (<[typ := st]> tm). split_and!; [done| |].
    + intros typ2 p2 H2. apply lookup_insert_Some in H2 as [[-> ->]|[Hne H2]].
      * eauto.
      * destruct (Hold _ _ H2) as [-> _]. eauto.
    + intros typ1 p1 typ2 p2 H1 H2 Hne.
      apply lookup_insert_Some in H1 as [[-> ->]|[Hne1 H1]];
      apply lookup_insert_Some in H2 as [[-> ->]|[Hne2 H2]]; try done.
      * destruct (Hold _ _ H2) as [_ ->]. rewrite Hfst.
        pose proof (Hdom _ _ H2). set_solver.
      * destruct (Hold _ _ H1) as [_ ->]. rewrite Hfst.
        pose proof (Hdom _ _ H1). set_solver.
      * destruct (Hold _ _ H1) as [_ ->], (Hold _ _ H2) as [_ ->]. eauto.
  - rewrite (viewCS_storeAt _ _ _ _ Hs), (viewCS_storeAt _ _ _ _ Hs').
    apply map_eq. intros typ2. rewrite lookup_omap.
    destruct (decide (typ2 = typ)) as [->|Hne].
    + rewrite !lookup_insert_eq. done.
    + rewrite !lookup_insert_ne by done. rewrite lookup_omap.
      destruct (tm !! typ2) as [p2|] eqn:E2; [|done]. cbn.
      by destruct (Hold _ _ E2) as [-> _].
  - split.
    + eapply keeps_weaken; [done|]. intros l Hl.
      apply (elem_of_fpCS _ _ _ _ _ Hs). destruct (Configs_Types cs); set_solver.
    + intros l. rewrite (elem_of_fpCS _ _ _ _ _ Hs').
      intros [->|[Hl|(typ2 & p2 & H2 & Hl)]].
      * apply elem_of_union_l, (elem_of_fpCS _ _ _ _ _ Hs). by left.
      * assert (l ∈ refSet (Configs_Types cs')) as Hl' by (rewrite Hl; set_solver).
        apply Hrefs in Hl'. apply elem_of_union in Hl' as [Hl'|Hl']; [|set_solver].
        apply elem_of_union_l, (elem_of_fpCS _ _ _ _ _ Hs). right; left.
        destruct (Configs_Types cs); set_solver.
      * apply lookup_insert_Some in H2 as [[-> ->]|[Hne H2]].
        -- rewrite Hfst in Hl. apply elem_of_singleton in Hl as ->.
           apply elem_of_union_r, elem_of_difference. split; [|done].
           by apply elem_of_dom_2 in Hst'.
        -- destruct (Hold _ _ H2) as [_ Heq]. rewrite Heq in Hl.
           apply elem_of_union_l, (elem_of_fpCS _ _ _ _ _ Hs). eauto 10.
Qed.

Ltac fresh_facts :=
  repeat match goal with
  | H : mem (upd _ _ _) !! _ = None |- _ => apply upd_fresh in H as [? H]
  end.

Ltac wp_step2 :=
  first
  [ lazymatch goal with
    | |- wp (alloc _) _ _ => apply wp_alloc; intros ? ?; fresh_facts; cbn beta
    end
  | wp_step
  | lazymatch goal with
    | |- wp (readConfigs _) _ _ => eapply wp_readConfigs; [solve_lookup|]
    | |- wp (readMapTypes _) _ _ => eapply wp_readMapTypes; [solve_lookup|]
    | |- wp (assignMapTypes (Some _) _ _) _ _ => unfold assignMapTypes
    end; cbn [TypeConfigs_Configs TypeConfigs_Tombstones Configs_Types] ].

Lemma viewCS_lookup w pc cs tm typ :
  storeAt w pc cs tm → viewCS w pc !! typ = tm !! typ ≫= viewTC w.
Proof. intros Hs. by rewrite (viewCS_storeAt _ _ _ _ Hs), lookup_omap. Qed.

Lemma wp_CS_getState w pc typ Q :
  okCS w pc →
  (∀ w' p cs' tm',
     okCS w' pc → storeAt w' pc cs' tm' → tm' !! typ = Some p →
     viewCS w' pc = <[typ := typedAt (viewCS w pc) typ]> (viewCS w pc) →
     viewTC w' p = Some (typedAt (viewCS w pc) typ) →
     evolves w w' (fpCS w pc) (fpCS w' pc) →
     clock w' = clock w → trace w' = trace w →
     (∀ cs tm, storeAt w pc cs tm →
        keeps ({[pc]} ∪ refSet (Configs_Types cs)) w w' ∧
        (is_Some (tm !! typ) → w' = w) ∧
        (is_Some (Configs_Types cs) → mem w' !! pc = mem w !! pc)) →
     Q p w') →
  wp (Configs.getState pc typ) w Q.
Proof.
  intros Hok HQ. unfold Configs.getState.
  pose proof Hok as (cs & tm & Hs & Hviews & Hdisj)%okCS_alt.
  pose proof Hs as [Hpc Htm].
  destruct cs as [[lt|]]; cbn [Configs_Types mapTypesAt] in *.
  - destruct (mem w !! lt) as [[]|] eqn:Elt; simplify_eq.
    repeat wp_step2.
    destruct (tm !! typ) as [p|] eqn:Etyp.
    + wp_step2. destruct (Hviews _ _ Etyp) as [v Hv].
      assert (HV : viewCS w pc !! typ = Some v).
      { rewrite (viewCS_lookup _ _ _ _ _ Hs), Etyp. done. }
      apply (HQ w p (mkConfigs (Some lt)) tm); try done.
      * unfold typedAt. rewrite HV. cbn. by rewrite insert_id.
      * unfold typedAt. by rewrite HV.
      * apply evolves_refl.
    + assert (HV : viewCS w pc !! typ = None).
      { rewrite (viewCS_lookup _ _ _ _ _ Hs), Etyp. done. }
      repeat wp_step2.
      set (wX := upd (upd w _ _) _ _).
      assert (HsX : storeAt wX pc (mkConfigs (Some lt)) (<[typ := l]> tm)).
      { subst wX. split; cbn [mem upd mapTypesAt Configs_Types]; solve_lookup. }
      destruct (store_add_type w wX pc (mkConfigs (Some lt)) tm (mkConfigs (Some lt)) typ l)
        as (HokX & HVX & HevX); try done.
      * subst wX. cbn [Configs_Types refSet]. solve_keeps.
      * subst wX. solve_lookup.
      * set_solver.
      * apply (HQ wX l (mkConfigs (Some lt)) (<[typ := l]> tm)); try done.
        -- by rewrite lookup_insert_eq.
        -- unfold typedAt. by rewrite HV.
        -- unfold typedAt. rewrite HV. cbn. subst wX. apply viewTC_empty. solve_lookup.
        -- intros cs0 tm0 Hs0. destruct (storeAt_inj _ _ _ _ _ _ Hs Hs0) as [<- <-].
           split_and!.
           ++ subst wX. cbn [Configs_Types refSet]. solve_keeps.
           ++ rewrite Etyp. by intros [].
           ++ intros _. subst wX. solve_lookup.
  - simplify_eq.
    assert (HV : viewCS w pc !! typ = None).
    { rewrite (viewCS_lookup _ _ _ _ _ Hs). done. }
    repeat wp_step2. rewrite lookup_empty. repeat wp_step2.
    set (wX := upd (upd _ _ _) _ _).
    fresh_facts. assert (l ≠ pc) by congruence.
    assert (HsX : storeAt wX pc (mkConfigs (Some l)) (<[typ := l0]> ∅)).
    { subst wX. split; cbn [mem upd mapTypesAt Configs_Types]; solve_lookup. }
    destruct (store_add_type w wX pc (mkConfigs None) ∅ (mkConfigs (Some l)) typ l0)
      as (HokX & HVX & HevX); try done.
    + subst wX. cbn [Configs_Types refSet]. solve_keeps.
    + subst wX. solve_lookup.
    + subst wX. cbn [Configs_Types refSet mem upd]. rewrite !dom_insert_L.
      repeat match goal with H : mem _ !! _ = None |- _ => apply not_elem_of_dom in H end.
      set_solver.
    + apply (HQ wX l0 (mkConfigs (Some l)) (<[typ := l0]> ∅)); try done.
      * by rewrite lookup_insert_eq.
      * unfold typedAt. by rewrite HV.
      * unfold typedAt. rewrite HV. cbn. subst wX. apply viewTC_empty. solve_lookup.
      * intros cs0 tm0 Hs0. destruct (storeAt_inj _ _ _ _ _ _ Hs Hs0) as [<- <-].
        split_and!.
        -- subst wX. cbn [Configs_Types refSet]. solve_keeps.
        -- rewrite lookup_empty. by intros [].
        -- by intros [].
Qed.

Lemma wp_CS_Get w pc typ ID Q :
  okCS w pc →
  Q (entryOf (typedAt (viewCS w pc) typ) ID) w →
  wp (Configs.Get pc typ ID) w Q.
Proof.
  intros (cs & tm & Hs & Hviews & Hdisj)%okCS_alt HQ. unfold Configs.Get.
  pose proof Hs as [Hpc Htm].
  apply wp_bind. eapply wp_readConfigs; [done|].
  apply wp_bind. eapply wp_readMapTypes; [done|].
  unfold typedAt in HQ. rewrite (viewCS_lookup _ _ _ _ _ Hs) in HQ.
  destruct (tm !! typ) as [p|] eqn:E; cbn in HQ.
  - destruct (Hviews _ _ E) as [v Hv]. rewrite Hv in HQ. by eapply wp_TC_Get.
  - by apply wp_ret.
Qed.

Lemma wp_CS_NewConfig w pc c Q :
  okCS w pc →
  (∀ w', okCS w' pc →
     viewCS w' pc = <[Config_Type c := withConfig (typedAt (viewCS w pc) (Config_Type c)) c]>
                      (viewCS w pc) →
     evolves w w' (fpCS w pc) (fpCS w' pc) → trace w' = trace w →
     Q (let v := typedAt (viewCS w pc) (Config_Type c) in
        (if acceptsConfig v (Config_ID c) (Config_Version c)
         then live v !! Config_ID c else None,
         acceptsConfig v (Config_ID c) (Config_Version c))) w') →
  wp (Configs.NewConfig pc c) w Q.
Proof.
  intros Hok HQ. unfold Configs.NewConfig.
  apply wp_bind. apply wp_CS_getState; [done|].
  intros w1 p cs1 tm1 Hok1 Hs1 Hp HV1 Hv1 Hev1 _ Htr1 _.
  eapply wp_TC_NewConfig; [done|].
  intros w2 Hv2 Hev2 _ Htr2.
  destruct (store_update_at _ _ _ _ _ _ _ _ Hok1 Hs1 Hp Hev2 Hv2) as (Hok2 & Hs2 & HV2 & Hev).
  apply HQ; [done| | |congruence].
  - by rewrite HV2, HV1, insert_insert_eq.
  - by eapply evolves_trans.
Qed.

Lemma wp_CS_DeadConfig w pc t Q :
  okCS w pc →
  (∀ w', okCS w' pc →
     viewCS w' pc =
       <[Tombstone_Type t := withTombstone (typedAt (viewCS w pc) (Tombstone_Type t)) t]>
         (viewCS w pc) →
     evolves w w' (fpCS w pc) (fpCS w' pc) → trace w' = trace w →
     Q (let v := typedAt (viewCS w pc) (Tombstone_Type t) in
        (if acceptsTombstone v (Tombstone_ID t) (Tombstone_Version t)
         then live v !! Tombstone_ID t else None,
         acceptsTombstone v (Tombstone_ID t) (Tombstone_Version t))) w') →
  wp (Configs.DeadConfig pc t) w Q.
Proof.
  intros Hok HQ. unfold Configs.DeadConfig.
  apply wp_bind. apply wp_CS_getState; [done|].
  intros w1 p cs1 tm1 Hok1 Hs1 Hp HV1 Hv1 Hev1 _ Htr1 _.
  eapply wp_TC_DeadConfig; [done|].
  intros w2 Hv2 Hev2 _ Htr2.
  destruct (store_update_at _ _ _ _ _ _ _ _ Hok1 Hs1 Hp Hev2 Hv2) as (Hok2 & Hs2 & HV2 & Hev).
  apply HQ; [done| | |congruence].
  - by rewrite HV2, HV1, insert_insert_eq.
  - by eapply evolves_trans.
Qed.

(** What is outside the footprint of a [Configs] does not change it. *)
Lemma viewCS_frame F w w' pc :
  keeps F w w' → okCS w pc → fpCS w pc ## F →
  okCS w' pc ∧ typesOf w' pc = typesOf w pc ∧
  viewCS w' pc = viewCS w pc ∧ fpCS w' pc = fpCS w pc.
Proof.
  intros Hk (cs & tm & Hs & Hviews & Hdisj)%okCS_alt HF.
  assert (Hs' : storeAt w' pc cs tm).
  { eapply storeAt_frame; [done..| |].
    - intros Hin. apply (HF pc); [|done]. apply (elem_of_fpCS _ _ _ _ _ Hs). by left.
    - intros l Hl Hin. apply (HF l); [|done]. apply (elem_of_fpCS _ _ _ _ _ Hs). by right; left. }
  assert (Hold : ∀ typ p, tm !! typ = Some p →
            viewTC w' p = viewTC w p ∧ fpTC w' p = fpTC w p).
  { intros typ p Hp. eapply viewTC_frame; [done|by eauto|].
    intros l Hl Hin. apply (HF l); [|done].
    apply (elem_of_fpCS _ _ _ _ _ Hs). right; right. eauto. }
  split_and!.
  - apply okCS_alt. exists cs, tm. split_and!; [done| |].
    + intros typ p Hp. destruct (Hold _ _ Hp) as [-> _]. eauto.
    + intros typ1 p1 typ2 p2 H1 H2 Hne.
      destruct (Hold _ _ H1) as [_ ->], (Hold _ _ H2) as [_ ->]. eauto.
  - by rewrite (storeAt_types _ _ _ _ Hs), (storeAt_types _ _ _ _ Hs').
  - rewrite (viewCS_storeAt _ _ _ _ Hs), (viewCS_storeAt _ _ _ _ Hs').
    apply map_eq. intros typ. rewrite !lookup_omap.
    destruct (tm !! typ) as [p|] eqn:E; [|done]. cbn. by destruct (Hold _ _ E) as [-> _].
  - apply set_eq. intros l.
    rewrite (elem_of_fpCS _ _ _ _ _ Hs), (elem_of_fpCS _ _ _ _ _ Hs').
    split; (intros [?|[?|(typ & p & Hp & Hl)]]; [by left|by right; left|right; right]);
      exists typ, p; destruct (Hold _ _ Hp) as [_ Heq]; [rewrite <-Heq|rewrite Heq]; done.
Qed.

Lemma fpCS_dom w pc : okCS w pc → fpCS w pc ⊆ dom (mem w).
Proof.
  intros (cs & tm & Hs & Hviews & Hdisj)%okCS_alt l.
  rewrite (elem_of_fpCS _ _ _ _ _ Hs). destruct Hs as [Hpc Htm].
  intros [->|[Hl|(typ & p & Hp & Hl)]].
  - by apply elem_of_dom_2 in Hpc.
  - rewrite Hl in Htm. cbn in Htm. destruct (mem w !! l) eqn:E; [|done].
    by apply elem_of_dom_2 in E.
  - destruct (Hviews _ _ Hp) as [v Hv]. by apply (viewTC_dom _ _ _ Hv).
Qed.

Lemma typed_eq v v' : (∀ k, slotOf v k = slotOf v' k) → v = v'.
Proof.
  intros H. destruct v as [l d], v' as [l' d']. f_equal; apply map_eq; intros k;
    specialize (H k); unfold slotOf in H; cbn in H; congruence.
Qed.

Lemma acceptsConfig_slot v k version :
  acceptsConfig v k version = slotAcceptsConfig (slotOf v k) version.
Proof.
  unfold acceptsConfig, slotAcceptsConfig, slotOf.
  destruct (live v !! k), (dead v !! k); done.
Qed.

Lemma acceptsTombstone_slot v k version :
  acceptsTombstone v k version = slotAcceptsTombstone (slotOf v k) version.
Proof.
  unfold acceptsTombstone, slotAcceptsTombstone, slotOf.
  destruct (live v !! k), (dead v !! k); done.
Qed.

Lemma slotOf_withConfig v c k :
  slotOf (withConfig v c) k =
  if decide (k = Config_ID c) then slotWithConfig (slotOf v k) c else slotOf v k.
Proof.
  unfold withConfig, slotWithConfig. case_decide as Hk.
  - subst k. rewrite acceptsConfig_slot.
    destruct (slotAcceptsConfig _ _); [|done].
    unfold slotOf. cbn. by rewrite lookup_insert_eq, lookup_delete_eq.
  - destruct (acceptsConfig _ _ _); [|done].
    unfold slotOf. cbn. by rewrite lookup_insert_ne, lookup_delete_ne.
Qed.

Lemma slotOf_withTombstone v t k :
  slotOf (withTombstone v t) k =
  if decide (k = Tombstone_ID t) then slotWithTombstone (slotOf v k) t else slotOf v k.
Proof.
  unfold withTombstone, slotWithTombstone. case_decide as Hk.
  - subst k. rewrite acceptsTombstone_slot.
    destruct (slotAcceptsTombstone _ _); [|done].
    unfold slotOf. cbn. by rewrite lookup_insert_eq, lookup_delete_eq.
  - destruct (acceptsTombstone _ _ _); [|done].
    unfold slotOf. cbn. by rewrite lookup_insert_ne, lookup_delete_ne.
Qed.

Lemma mergeConfigsSeq_snoc' v l c :
  mergeConfigsSeq v (l ++ [c]) =
  (withConfig (mergeConfigsSeq v l).1 c,
   if acceptsConfig (mergeConfigsSeq v l).1 (Config_ID c) (Config_Version c)
   then (mergeConfigsSeq v l).2 ++ [c] else (mergeConfigsSeq v l).2).
Proof. unfold mergeConfigsSeq. rewrite foldl_app. cbn. by destruct (foldl _ _ l). Qed.

Lemma mergeTombstonesSeq_snoc' v l t :
  mergeTombstonesSeq v (l ++ [t]) =
  (withTombstone (mergeTombstonesSeq v l).1 t,
   if acceptsTombstone (mergeTombstonesSeq v l).1 (Tombstone_ID t) (Tombstone_Version t)
   then (mergeTombstonesSeq v l).2 ++ [t] else (mergeTombstonesSeq v l).2).
Proof. unfold mergeTombstonesSeq. rewrite foldl_app. cbn. by destruct (foldl _ _ l). Qed.

(** The slot of an ID after a list of configs with distinct IDs. *)
Lemma slotOf_mergeConfigsSeq_notin v l k :
  k ∉ Config_ID <$> l → slotOf (mergeConfigsSeq v l).1 k = slotOf v k.
Proof.
  induction l as [|c l IH] using rev_ind; intros Hk; [done|].
  rewrite fmap_app, not_elem_of_app in Hk. destruct Hk as [Hk Hc].
  rewrite mergeConfigsSeq_snoc'. cbn [fst]. rewrite slotOf_withConfig, IH by done.
  rewrite decide_False; [done|]. set_solver.
Qed.

Lemma slotOf_mergeConfigsSeq_in v l c :
  NoDup (Config_ID <$> l) → c ∈ l →
  slotOf (mergeConfigsSeq v l).1 (Config_ID c) = slotWithConfig (slotOf v (Config_ID c)) c.
Proof.
  induction l as [|c0 l IH] using rev_ind; intros Hnd Hc; [set_solver|].
  rewrite fmap_app in Hnd. apply NoDup_app in Hnd as (Hnd & Hnot & _).
  rewrite mergeConfigsSeq_snoc'. cbn [fst]. rewrite slotOf_withConfig.
  apply elem_of_app in Hc as [Hc|Hc].
  - rewrite decide_False, IH; [done..|]. intros Heq.
    apply (Hnot (Config_ID c)); [|set_solver].
    apply list_elem_of_fmap. eauto.
  - apply list_elem_of_singleton in Hc as ->. rewrite decide_True by done.
    rewrite slotOf_mergeConfigsSeq_notin; [done|].
    intros Hin. apply (Hnot _ Hin). set_solver.
Qed.

Lemma mergeConfigsSeq_accepted v l :
  NoDup (Config_ID <$> l) →
  (mergeConfigsSeq v l).2 =
  filter (λ c, acceptsConfig v (Config_ID c) (Config_Version c)) l.
Proof.
  induction l as [|c l IH] using rev_ind; intros Hnd; [done|].
  rewrite fmap_app in Hnd. apply NoDup_app in Hnd as (Hnd & Hnot & _).
  rewrite mergeConfigsSeq_snoc'. cbn [snd]. rewrite filter_app, IH by done.
  rewrite acceptsConfig_slot, slotOf_mergeConfigsSeq_notin.
  2:{ intros Hin. apply (Hnot _ Hin). set_solver. }
  rewrite <-acceptsConfig_slot, filter_cons, filter_nil.
  destruct (acceptsConfig v _ _); simpl; by rewrite ?app_nil_r.
Qed.

Lemma slotOf_mergeTombstonesSeq_notin v l k :
  k ∉ Tombstone_ID <$> l → slotOf (mergeTombstonesSeq v l).1 k = slotOf v k.
Proof.
  induction l as [|c l IH] using rev_ind; intros Hk; [done|].
  rewrite fmap_app, not_elem_of_app in Hk. destruct Hk as [Hk Hc].
  rewrite mergeTombstonesSeq_snoc'. cbn [fst]. rewrite slotOf_withTombstone, IH by done.
  rewrite decide_False; [done|]. set_solver.
Qed.

Lemma slotOf_mergeTombstonesSeq_in v l t :
  NoDup (Tombstone_ID <$> l) → t ∈ l →
  slotOf (mergeTombstonesSeq v l).1 (Tombstone_ID t) =
  slotWithTombstone (slotOf v (Tombstone_ID t)) t.
Proof.
  induction l as [|c0 l IH] using rev_ind; intros Hnd Hc; [set_solver|].
  rewrite fmap_app in Hnd. apply NoDup_app in Hnd as (Hnd & Hnot & _).
  rewrite mergeTombstonesSeq_snoc'. cbn [fst]. rewrite slotOf_withTombstone.
  apply elem_of_app in Hc as [Hc|Hc].
  - rewrite decide_False, IH; [done..|]. intros Heq.
    apply (Hnot (Tombstone_ID t)); [|set_solver].
    apply list_elem_of_fmap. eauto.
  - apply list_elem_of_singleton in Hc as ->. rewrite decide_True by done.
    rewrite slotOf_mergeTombstonesSeq_notin; [done|].
    intros Hin. apply (Hnot _ Hin). set_solver.
Qed.

Lemma mergeTombstonesSeq_accepted v l :
  NoDup (Tombstone_ID <$> l) →
  (mergeTombstonesSeq v l).2 =
  filter (λ t, acceptsTombstone v (Tombstone_ID t) (Tombstone_Version t)) l.
Proof.
  induction l as [|c l IH] using rev_ind; intros Hnd; [done|].
  rewrite fmap_app in Hnd. apply NoDup_app in Hnd as (Hnd & Hnot & _).
  rewrite mergeTombstonesSeq_snoc'. cbn [snd]. rewrite filter_app, IH by done.
  rewrite acceptsTombstone_slot, slotOf_mergeTombstonesSeq_notin.
  2:{ intros Hin. apply (Hnot _ Hin). set_solver. }
  rewrite <-acceptsTombstone_slot, filter_cons, filter_nil.
  destruct (acceptsTombstone v _ _); simpl; by rewrite ?app_nil_r.
Qed.

(** The values of a map whose entries are stored under their own ID. *)
Section Keyed.
Context {V : Type} (key : V → string) (m : gmap string V) (l : list V).
Hypothesis keyed : map_Forall (λ k x, key x = k) m.
Hypothesis perm : l ≡ₚ (map_to_list m).*2.

Lemma keyed_elem x : x ∈ l ↔ m !! key x = Some x.
Proof.
  rewrite perm, list_elem_of_fmap. split.
  - intros ([k y] & -> & Hin). apply elem_of_map_to_list in Hin.
    cbn. by rewrite (keyed _ _ Hin).
  - intros Hx. exists (key x, x). split; [done|]. by apply elem_of_map_to_list.
Qed.

Lemma keyed_key k : k ∈ key <$> l ↔ is_Some (m !! k).
Proof.
  rewrite list_elem_of_fmap. split.
  - intros (x & -> & Hx). apply keyed_elem in Hx. eauto.
  - intros [x Hx]. exists x. pose proof (keyed _ _ Hx) as Hk. cbn in Hk. subst k.
    split; [done|]. by apply keyed_elem.
Qed.

Lemma keyed_NoDup : NoDup (key <$> l).
Proof.
  rewrite perm, <-list_fmap_compose.
  assert (key ∘ snd <$> map_to_list m = (map_to_list m).*1) as ->.
  { apply list_fmap_ext. intros i [k x] Hi. cbn.
    apply list_elem_of_lookup_2, elem_of_map_to_list in Hi. by apply keyed. }
  apply NoDup_fst_map_to_list.
Qed.
End Keyed.

Lemma filter_ext_in {A} (P Q : A → Prop) `{∀ x, Decision (P x)} `{∀ x, Decision (Q x)}
    (l : list A) :
  (∀ x, x ∈ l → P x ↔ Q x) → filter P l = filter Q l.
Proof.
  induction l as [|x l IH]; intros Hext; [done|].
  rewrite !filter_cons. rewrite IH by (intros; apply Hext; set_solver).
  destruct (decide (P x)) as [HP|HP], (decide (Q x)) as [HQ|HQ]; try done;
    exfalso; apply (Hext x) in HP || apply (Hext x) in HQ; set_solver.
Qed.

Section MergeSeq.
Context (v u : typed) (lc : list Config) (lt : list Tombstone).
Hypothesis wf : wfTyped u.
Hypothesis permc : lc ≡ₚ (map_to_list (live u)).*2.
Hypothesis permt : lt ≡ₚ (map_to_list (dead u)).*2.

Lemma slotOf_merge_seq k :
  slotOf (mergeTombstonesSeq (mergeConfigsSeq v lc).1 lt).1 k =
  slotMerge (slotOf v k) (slotOf u k).
Proof.
  destruct wf as [[Hkc Hkt] Hsingle].
  unfold slotMerge. replace (slotOf u k) with (live u !! k, dead u !! k) by done.
  cbn [fst snd].
  destruct (live u !! k) as [c|] eqn:Ec.
  - pose proof (Hsingle _ _ Ec) as Et. cbn in Et. rewrite Et.
    rewrite slotOf_mergeTombstonesSeq_notin.
    2:{ rewrite (keyed_key Tombstone_ID (dead u)); [|done..]. rewrite Et. by intros []. }
    pose proof (Hkc _ _ Ec) as Hid. cbn in Hid. subst k.
    apply slotOf_mergeConfigsSeq_in.
    + by eapply keyed_NoDup.
    + by apply (keyed_elem Config_ID (live u)).
  - destruct (dead u !! k) as [t|] eqn:Et.
    + pose proof (Hkt _ _ Et) as Hid. cbn in Hid. subst k.
      rewrite slotOf_mergeTombstonesSeq_in.
      * rewrite slotOf_mergeConfigsSeq_notin; [done|].
        rewrite (keyed_key Config_ID (live u)); [|done..]. rewrite Ec. by intros [].
      * by eapply keyed_NoDup.
      * by apply (keyed_elem Tombstone_ID (dead u)).
    + rewrite slotOf_mergeTombstonesSeq_notin.
      2:{ rewrite (keyed_key Tombstone_ID (dead u)); [|done..]. rewrite Et. by intros []. }
      rewrite slotOf_mergeConfigsSeq_notin; [done|].
      rewrite (keyed_key Config_ID (live u)); [|done..]. rewrite Ec. by intros [].
Qed.

Lemma merge_seq_accepted_configs :
  (mergeConfigsSeq v lc).2 =
  filter (λ c, acceptsConfig v (Config_ID c) (Config_Version c)) lc.
Proof.
  destruct wf as [[Hkc Hkt] Hsingle].
  apply mergeConfigsSeq_accepted. by eapply keyed_NoDup.
Qed.

Lemma merge_seq_accepted_tombstones :
  (mergeTombstonesSeq (mergeConfigsSeq v lc).1 lt).2 =
  filter (λ t, acceptsTombstone v (Tombstone_ID t) (Tombstone_Version t)) lt.
Proof.
  destruct wf as [[Hkc Hkt] Hsingle].
  rewrite mergeTombstonesSeq_accepted by (by eapply keyed_NoDup).
  apply filter_ext_in. intros t Ht.
  rewrite !acceptsTombstone_slot, slotOf_mergeConfigsSeq_notin; [done|].
  rewrite (keyed_key Config_ID (live u)); [|done..].
  apply (keyed_elem Tombstone_ID (dead u)) in Ht; [|done..].
  destruct (live u !! Tombstone_ID t) as [c|] eqn:Ec; [|by intros []].
  pose proof (Hsingle _ _ Ec) as Hn. cbn in Hn. congruence.
Qed.

End MergeSeq.

Lemma slotOf_mergeTyped v u k :
  wfTyped u → slotOf (mergeTyped v u) k = slotMerge (slotOf v k) (slotOf u k).
Proof. intros Hwf. unfold mergeTyped. by apply slotOf_merge_seq. Qed.

Lemma merge_seq_value v u lc lt :
  wfTyped u → lc ≡ₚ (map_to_list (live u)).*2 → lt ≡ₚ (map_to_list (dead u)).*2 →
  (mergeTombstonesSeq (mergeConfigsSeq v lc).1 lt).1 = mergeTyped v u.
Proof.
  intros. apply typed_eq. intros k.
  by rewrite (slotOf_merge_seq v u), slotOf_mergeTyped.
Qed.

Lemma entryOf_slot v k : entryOf v k = slotEntry (slotOf v k).
Proof.
  unfold entryOf, slotEntry, slotOf. destruct (live v !! k), (dead v !! k); done.
Qed.

Lemma slotAcceptsConfig_rank s version :
  slotAcceptsConfig s version = (rank s <? 2 * version + 1)%N.
Proof.
  destruct s as [[c|] [t|]]; cbn;
    repeat match goal with |- context [(?a <? ?b)%N] => destruct (N.ltb_spec a b) end;
    try done; lia.
Qed.

Lemma slotAcceptsTombstone_rank s version :
  slotAcceptsTombstone s version = (rank s <? 2 * version + 2)%N.
Proof.
  destruct s as [[c|] [t|]]; cbn;
    repeat match goal with
    | |- context [(?a <? ?b)%N] => destruct (N.ltb_spec a b)
    | |- context [(?a <=? ?b)%N] => destruct (N.leb_spec a b)
    end; try done; lia.
Qed.

Lemma rank_slotWithConfig s c :
  rank (slotWithConfig s c) = N.max (rank s) (2 * Config_Version c + 1).
Proof.
  unfold slotWithConfig. rewrite slotAcceptsConfig_rank.
  destruct (N.ltb_spec (rank s) (2 * Config_Version c + 1)); cbn; lia.
Qed.

Lemma rank_slotWithTombstone s t :
  rank (slotWithTombstone s t) = N.max (rank s) (2 * Tombstone_Version t + 2).
Proof.
  unfold slotWithTombstone. rewrite slotAcceptsTombstone_rank.
  destruct (N.ltb_spec (rank s) (2 * Tombstone_Version t + 2)); cbn; lia.
Qed.

Lemma single_slotWithConfig s c : single s → single (slotWithConfig s c).
Proof. unfold slotWithConfig. destruct (slotAcceptsConfig _ _); [by right|done]. Qed.

Lemma single_slotWithTombstone s t : single s → single (slotWithTombstone s t).
Proof. unfold slotWithTombstone. destruct (slotAcceptsTombstone _ _); [by left|done]. Qed.

Ltac slot_cases :=
  unfold slotMerge, slotWithConfig, slotWithTombstone, slotAcceptsConfig,
    slotAcceptsTombstone, single, forgetSlot in *; cbn in *;
  repeat match goal with
  | H : _ ∨ _ |- _ => destruct H; try discriminate
  | |- context [(?a <? ?b)%N] => destruct (N.ltb_spec a b); cbn
  | |- context [(?a <=? ?b)%N] => destruct (N.leb_spec a b); cbn
  end.

(** Merging a slot into itself changes nothing. *)
Lemma slotMerge_idemp s : single s → slotMerge s s = s.
Proof.
  destruct s as [[c|] [t|]]; intros Hs; slot_cases; try done; lia.
Qed.

(** The merge of two slots does not depend on the side, when entries of
    the same version are the same entry. *)
Lemma slotMerge_comm s s' :
  single s → single s' →
  (∀ c c', s.1 = Some c → s'.1 = Some c' → Config_Version c = Config_Version c' → c = c') →
  (∀ t t', s.2 = Some t → s'.2 = Some t' →
           Tombstone_Version t = Tombstone_Version t' → t = t') →
  slotMerge s s' = slotMerge s' s.
Proof.
  destruct s as [[c|] [t|]], s' as [[c'|] [t'|]]; intros Hs Hs' Hc Ht;
    slot_cases; try done; try lia;
    try (f_equal; f_equal; (symmetry + idtac); first [apply Hc | apply Ht]; done || lia).
Qed.

Lemma forgetSlot_merge s s' :
  forgetSlot (slotMerge s s') = slotMerge (forgetSlot s) (forgetSlot s').
Proof.
  destruct s as [[c|] [t|]], s' as [[c'|] [t'|]]; slot_cases; done.
Qed.

Lemma single_forgetSlot s : single s → single (forgetSlot s).
Proof. destruct s as [[c|] [t|]]; unfold single; cbn; naive_solver. Qed.

Lemma slotEntry_forget s : slotEntry (forgetSlot s) = forgetResult (slotEntry s).
Proof. by destruct s as [[c|] [t|]]. Qed.

(** A new [TypeConfigs], made of new locations, enters a [Configs]. *)
Lemma store_add_typed w w' pc cs tm cs' typ st v0 :
  okCS w pc → storeAt w pc cs tm → tm !! typ = None →
  keeps ({[pc]} ∪ refSet (Configs_Types cs)) w w' →
  storeAt w' pc cs' (<[typ := st]> tm) →
  viewTC w' st = Some v0 →
  fpTC w' st ⊆ dom (mem w') ∖ dom (mem w) →
  refSet (Configs_Types cs') ⊆ refSet (Configs_Types cs) ∪ (dom (mem w') ∖ dom (mem w)) →
  okCS w' pc ∧
  viewCS w' pc = <[typ := v0]> (viewCS w pc) ∧
  evolves w w' (fpCS w pc) (fpCS w' pc).
Proof.
  intros (cs0 & tm0 & Hs0 & Hviews & Hdisj)%okCS_alt Hs Hnone Hk Hs' Hvst Hfst Hrefs.
  destruct (storeAt_inj _ _ _ _ _ _ Hs0 Hs) as [-> ->]. clear Hs0.
  assert (Hnot : ∀ p l x, is_Some (viewTC w p) → mem w !! l = Some x →
                          ¬ typedKind x → l ∉ fpTC w p).
  { intros p l x Hp Hl Hx Hin. destruct (fpTC_kind w p l) as (y & Hy & Hk'); eauto.
    rewrite Hl in Hy. by simplify_eq. }
  assert (Hold : ∀ typ2 p2, tm !! typ2 = Some p2 →
            viewTC w' p2 = viewTC w p2 ∧ fpTC w' p2 = fpTC w p2).
  { intros typ2 p2 H2. eapply viewTC_frame; [done|by eauto|].
    apply disjoint_union_r. split.
    - apply disjoint_singleton_r. destruct Hs as [Hpc _].
      eapply Hnot; [by eauto|done|]. cbn. tauto.
    - destruct Hs as [_ Htm]. destruct (Configs_Types cs) as [l|]; cbn in *; [|set_solver].
      destruct (mem w !! l) as [[]|] eqn:E; simplify_eq.
      apply disjoint_singleton_r. eapply Hnot; [by eauto|done|]. cbn. tauto. }
  assert (Hdom : ∀ typ2 p2, tm !! typ2 = Some p2 → fpTC w p2 ⊆ dom (mem w)).
  { intros typ2 p2 H2. destruct (Hviews _ _ H2) as [u Hu]. by eapply viewTC_dom. }
  split_and!.
  - apply okCS_alt. exists cs', (<[typ := st]> tm). split_and!; [done| |].
    + intros typ2 p2 H2. apply lookup_insert_Some in H2 as [[-> ->]|[Hne H2]].
      * eauto.
      * destruct (Hold _ _ H2) as [-> _]. eauto.
    + intros typ1 p1 typ2 p2 H1 H2 Hne.
      apply lookup_insert_Some in H1 as [[-> ->]|[Hne1 H1]];
      apply lookup_insert_Some in H2 as [[-> ->]|[Hne2 H2]]; try done.
      * destruct (Hold _ _ H2) as [_ ->]. pose proof (Hdom _ _ H2). set_solver.
      * destruct (Hold _ _ H1) as [_ ->]. pose proof (Hdom _ _ H1). set_solver.
      * destruct (Hold _ _ H1) as [_ ->], (Hold _ _ H2) as [_ ->]. eauto.
  - rewrite (viewCS_storeAt _ _ _ _ Hs), (viewCS_storeAt _ _ _ _ Hs').
    apply map_eq. intros typ2. rewrite lookup_omap.
    destruct (decide (typ2 = typ)) as [->|Hne].
    + rewrite !lookup_insert_eq. done.
    + rewrite !lookup_insert_ne by done. rewrite lookup_omap.
      destruct (tm !! typ2) as [p2|] eqn:E2; [|done]. cbn.
      by destruct (Hold _ _ E2) as [-> _].
  - split.
    + eapply keeps_weaken; [done|]. intros l Hl.
      apply (elem_of_fpCS _ _ _ _ _ Hs). destruct (Configs_Types cs); set_solver.
    + intros l. rewrite (elem_of_fpCS _ _ _ _ _ Hs').
      intros [->|[Hl|(typ2 & p2 & H2 & Hl)]].
      * apply elem_of_union_l, (elem_of_fpCS _ _ _ _ _ Hs). by left.
      * assert (l ∈ refSet (Configs_Types cs')) as Hl' by (rewrite Hl; set_solver).
        apply Hrefs in Hl'. apply elem_of_union in Hl' as [Hl'|Hl']; [|set_solver].
        apply elem_of_union_l, (elem_of_fpCS _ _ _ _ _ Hs). right; left.
        destruct (Configs_Types cs); set_solver.
      * apply lookup_insert_Some in H2 as [[-> ->]|[Hne H2]].
        -- apply elem_of_union_r. by apply Hfst.
        -- destruct (Hold _ _ H2) as [_ Heq]. rewrite Heq in Hl.
           apply elem_of_union_l, (elem_of_fpCS _ _ _ _ _ Hs). eauto 10.
Qed.

Lemma keeps_compose F w w1 w2 G :
  keeps F w w1 → keeps G w1 w2 → G ⊆ F ∪ (dom (mem w1) ∖ dom (mem w)) → keeps F w w2.
Proof. intros H1 H2 HG. eapply keeps_trans; [done|]. by eapply keeps_weaken. Qed.

Lemma omap_nil {A B} (f : A → option B) : omap f (∅ : gmap string A) = ∅.
Proof. apply map_eq. intros k. by rewrite lookup_omap, !lookup_empty. Qed.

Lemma keeps_tick F w w1 : keeps F w w1 → keeps F w (tick w1).
Proof. intros [Hd Hm]. by split. Qed.

Lemma okCS_empty w pc m :
  mem w !! pc = Some (ObjConfigs (mkConfigs (Some m))) → mem w !! m = Some (MapTypes ∅) →
  okCS w pc ∧ storeAt w pc (mkConfigs (Some m)) ∅ ∧ viewCS w pc = ∅ ∧ fpCS w pc = {[pc; m]}.
Proof.
  intros Hpc Hm.
  assert (Hs : storeAt w pc (mkConfigs (Some m)) ∅).
  { split; [done|]. cbn. by rewrite Hm. }
  split_and!; [|done| |].
  - apply okCS_alt. exists (mkConfigs (Some m)), ∅. split_and!; [done|..]; intros *; by rewrite lookup_empty.
  - rewrite (viewCS_storeAt _ _ _ _ Hs). apply omap_nil.
  - rewrite (fpCS_storeAt _ _ _ _ Hs). rewrite map_to_list_empty. cbn. set_solver.
Qed.

Lemma wp_CS_Copy o w pc Q :
  okCS w pc →
  map_Forall (λ _ v, map_Forall (λ k t, Tombstone_ID t = k) (dead v)) (viewCS w pc) →
  (∀ w' r, mem w !! r = None → okCS w' r → viewCS w' r = viewCS w pc →
           keeps ∅ w w' → fpCS w' r ⊆ dom (mem w') ∖ dom (mem w) →
           trace w' = trace w → Q r w') →
  wp (Configs.Copy o pc) w Q.
Proof.
  intros Hok Hkeyed HQ. unfold Configs.Copy.
  pose proof Hok as (cs & tm & Hs & Hviews & Hdisj)%okCS_alt.
  pose proof Hs as [Hpc Htm].
  wp_step2. wp_step2. wp_step2. wp_step2. wp_step2. wp_step2.
  set (w0 := upd (upd (upd w _ _) _ _) _ _).
  assert (Hk0 : keeps ∅ w w0) by (subst w0; solve_keeps).
  assert (l ≠ pc) by congruence. assert (l0 ≠ pc) by congruence.
  destruct (okCS_empty w0 l l0) as (Hok0 & Hs0 & HV0 & Hfp0);
    [subst w0; solve_lookup..|].
  assert (Hfresh0 : fpCS w0 l ⊆ dom (mem w0) ∖ dom (mem w)).
  { rewrite Hfp0. subst w0. cbn [mem upd]. rewrite !dom_insert_L.
    repeat match goal with H : mem _ !! _ = None |- _ => apply not_elem_of_dom in H end.
    set_solver. }
  apply wp_bind. eapply wp_readConfigs; [subst w0; solve_lookup|].
  apply wp_bind. eapply wp_readMapTypes.
  { instantiate (1 := tm). destruct cs as [[lt|]]; cbn in *; [|done].
    destruct (mem w !! lt) as [[]|] eqn:E; simplify_eq.
    subst w0. cbn [mem upd]. rewrite !lookup_insert_ne by congruence. by rewrite E. }
  destruct (bool_decide (Configs_Types cs = None) || bool_decide (size tm = 0)) eqn:Hcond.
  { apply wp_ret.
    assert (tm = ∅) as Htme.
    { apply orb_true_iff in Hcond as [Hc|Hc]; apply bool_decide_eq_true in Hc.
      - rewrite Hc in Htm. cbn in Htm. congruence.
      - by apply map_size_empty_iff. }
    apply HQ; [done|done| |done|done|done].
    rewrite HV0, (viewCS_storeAt _ _ _ _ Hs), Htme. symmetry. apply omap_nil. }
  apply wp_bind, wp_range. intros items Hitems.
  apply wp_bind.
  eapply (wp_forM (λ done wi,
    ∃ tmi, okCS wi l ∧ storeAt wi l (mkConfigs (Some l0)) tmi ∧
           dom tmi = list_to_set done.*1 ∧
           viewCS wi l = omap (viewTC w) (list_to_map done) ∧
           keeps ∅ w wi ∧ fpCS wi l ⊆ dom (mem wi) ∖ dom (mem w) ∧
           trace wi = trace w)).
  { exists ∅. split_and!; try done. by apply keeps_tick. }
  { intros done [typ p] rest wi Hsplit (tmi & Hoki & Hsi & Hdomi & HVi & Hki & Hfpi & Htri).
    assert (Hp : tm !! typ = Some p).
    { eapply items_lookup; [done|]. rewrite Hsplit. set_solver. }
    destruct (Hviews _ _ Hp) as [v Hv].
    assert (Hvi : viewTC wi p = Some v).
    { destruct (viewTC_frame ∅ w wi p) as [-> _]; [done|by eauto|set_solver|done]. }
    apply wp_bind. eapply wp_TC_Copy; [done| |].
    { apply (Hkeyed typ v). rewrite (viewCS_lookup _ _ _ _ _ Hs), Hp. done. }
    intros w2 r2 Hr2 Hv2 Hk2 Hfp2 Htr2.
    pose proof Hsi as [Hli Hmi]. cbn in Hmi.
    destruct (mem wi !! l0) as [[]|] eqn:El0; simplify_eq.
    assert (Hl2 : mem w2 !! l = Some (ObjConfigs (mkConfigs (Some l0)))).
    { destruct Hk2 as [_ Hm2]. rewrite Hm2; [done| |set_solver].
      by apply elem_of_dom_2 in Hli. }
    assert (Hm2' : mem w2 !! l0 = Some (MapTypes tmi)).
    { destruct Hk2 as [_ Hm2]. rewrite Hm2; [done| |set_solver].
      by apply elem_of_dom_2 in El0. }
    apply wp_bind. eapply wp_readConfigs; [done|].
    cbn [Configs_Types]. unfold assignMapTypes.
    apply wp_bind. eapply wp_readMapTypes; [cbn; by rewrite Hm2'|].
    apply wp_write.
    set (w3 := upd w2 l0 _).
    assert (Hnone : tmi !! typ = None).
    { apply not_elem_of_dom. rewrite Hdomi, elem_of_list_to_set.
      by eapply items_fresh_key. }
    assert (Hk23 : keeps {[l0]} w2 w3).
    { subst w3. apply keeps_upd; [apply keeps_refl|left; set_solver]. }
    assert (Hl0fp : l0 ∉ fpTC w2 r2).
    { intros Hin. destruct (fpTC_kind w2 r2 l0) as (y & Hy & Hky); [by eauto|done|].
      rewrite Hm2' in Hy. by simplify_eq. }
    destruct (viewTC_frame {[l0]} w2 w3 r2) as [Hv3 Hfp3]; [done|by eauto|set_solver|].
    destruct (store_add_typed wi w3 l (mkConfigs (Some l0)) tmi (mkConfigs (Some l0)) typ r2 v)
      as (Hok3 & HV3 & Hev3); try done.
    - eapply keeps_compose; [eapply keeps_weaken; [exact Hk2|set_solver]| exact Hk23|].
      cbn. set_solver.
    - subst w3. split; cbn [mem upd mapTypesAt Configs_Types].
      + rewrite lookup_insert_ne by congruence. done.
      + by rewrite lookup_insert_eq.
    - by rewrite Hv3.
    - rewrite Hfp3. subst w3. cbn [mem upd]. rewrite dom_insert_L.
      apply elem_of_dom_2 in Hm2'. destruct Hk2 as [Hd2 _]. set_solver.
    - set_solver.
    - exists (<[typ := r2]> tmi). split_and!; try done.
      + subst w3. split; cbn [mem upd mapTypesAt Configs_Types].
        * rewrite lookup_insert_ne by congruence. done.
        * by rewrite lookup_insert_eq.
      + rewrite dom_insert_L, Hdomi, fmap_app, list_to_set_app_L. cbn. set_solver.
      + rewrite HV3, HVi. rewrite list_to_map_snoc by (by eapply items_fresh_key).
        symmetry. by apply omap_insert_Some.
      + destruct Hev3 as [Hk3 _]. eapply keeps_compose; [exact Hki|exact Hk3|].
        set_solver.
      + destruct Hev3 as [[Hd3 _] Hf3]. destruct Hki as [Hdi _]. set_solver.
      + subst w3. cbn. congruence. }
  intros w' (tmi & Hok' & Hs' & Hdom' & HV' & Hk' & Hfp' & Htr'). cbn beta.
  apply wp_ret. apply HQ; try done.
  rewrite HV', (viewCS_storeAt _ _ _ _ Hs). by rewrite (list_to_map_items tm).
Qed.

Lemma stepMerge_notin VA l typ :
  typ ∉ l.*1 → foldl stepMerge VA l !! typ = VA !! typ.
Proof.
  induction l as [|[typ' u] l IH] using rev_ind; intros Hn; [done|].
  rewrite fmap_app, not_elem_of_app in Hn. destruct Hn as [Hn Hne].
  rewrite foldl_app. cbn. unfold stepMerge at 1. cbn.
  rewrite lookup_insert_ne by set_solver. by apply IH.
Qed.

Lemma stepMerge_lookup VA l typ :
  NoDup l.*1 →
  foldl stepMerge VA l !! typ =
  match (list_to_map l : gmap string typed) !! typ with
  | Some u => Some (mergeTyped (typedAt VA typ) u)
  | None => VA !! typ
  end.
Proof.
  induction l as [|[typ' u] l IH] using rev_ind; intros Hnd; [done|].
  rewrite fmap_app in Hnd. apply NoDup_app in Hnd as (Hnd & Hnot & _).
  assert (Hn : typ' ∉ l.*1) by (intros Hin; apply (Hnot _ Hin); set_solver).
  rewrite foldl_app. cbn. unfold stepMerge at 1. cbn.
  rewrite list_to_map_snoc by done.
  destruct (decide (typ = typ')) as [->|Hne].
  - rewrite !lookup_insert_eq. unfold typedAt. by rewrite stepMerge_notin.
  - rewrite !lookup_insert_ne by done. by apply IH.
Qed.

Lemma mergeStore_lookup VA VB typ :
  mergeStore VA VB !! typ =
  match VB !! typ with
  | Some u => Some (mergeTyped (typedAt VA typ) u)
  | None => VA !! typ
  end.
Proof.
  unfold mergeStore. rewrite lookup_merge. unfold typedAt.
  destruct (VA !! typ), (VB !! typ); done.
Qed.


Lemma stepEmpty_typedAt VA l typ :
  typedAt (foldl stepEmpty VA l) typ = typedAt VA typ.
Proof.
  induction l as [|typ' l IH] using rev_ind; [done|].
  rewrite foldl_app. cbn. unfold stepEmpty at 1, typedAt at 1.
  destruct (decide (typ = typ')) as [->|Hne].
  - rewrite lookup_insert_eq. cbn. apply IH.
  - rewrite lookup_insert_ne by done. apply IH.
Qed.

Lemma stepEmpty_dom VA l :
  dom (foldl stepEmpty VA l) = dom VA ∪ list_to_set l.
Proof.
  induction l as [|typ' l IH] using rev_ind; [set_solver|].
  rewrite foldl_app. cbn. unfold stepEmpty at 1.
  rewrite dom_insert_L, IH, list_to_set_app_L. cbn. set_solver.
Qed.

(** The views of the [TypeConfigs] of a [Configs], as a function of the
    type map. *)
Lemma viewCS_fmap w pc cs tm :
  storeAt w pc cs tm → (∀ typ p, tm !! typ = Some p → is_Some (viewTC w p)) →
  viewCS w pc = (λ q, default (mkTyped ∅ ∅) (viewTC w q)) <$> tm.
Proof.
  intros Hs Hviews. rewrite (viewCS_storeAt _ _ _ _ Hs). apply map_eq. intros typ.
  rewrite lookup_omap, lookup_fmap. destruct (tm !! typ) as [p|] eqn:E; [|done].
  cbn. by destruct (Hviews _ _ E) as [v ->].
Qed.

Lemma bind_snoc {A B} (f : A → list B) l x : (l ++ [x]) ≫= f = (l ≫= f) ++ f x.
Proof. rewrite bind_app. cbn. by rewrite app_nil_r. Qed.

Lemma bind_fmap {A B C} (h : A → B) (g : B → list C) (l : list A) :
  (h <$> l) ≫= g = l ≫= (g ∘ h).
Proof. induction l as [|x l IH]; [done|]. cbn. by rewrite IH. Qed.

Lemma fpTC_sub_fpCS w pc cs tm typ p :
  storeAt w pc cs tm → tm !! typ = Some p → fpTC w p ⊆ fpCS w pc.
Proof. intros Hs Hp l Hl. apply (elem_of_fpCS _ _ _ _ _ Hs). eauto 10. Qed.

Lemma wp_CS_Merge o w pA pB Q :
  okCS w pA → okCS w pB → fpCS w pA ## fpCS w pB →
  map_Forall (λ _ u, wfTyped u) (viewCS w pB) →
  (∀ w' news deads,
     okCS w' pA → viewCS w' pA = mergeStore (viewCS w pA) (viewCS w pB) →
     news ≡ₚ newIn (viewCS w pA) (viewCS w pB) →
     deads ≡ₚ deadIn (viewCS w pA) (viewCS w pB) →
     evolves w w' (fpCS w pA) (fpCS w' pA) → trace w' = trace w →
     Q (news, deads) w') →
  wp (Configs.Merge o pA pB) w Q.
Proof.
  intros HokA HokB Hsep Hwf HQ. unfold Configs.Merge.
  pose proof HokB as (csB & tmB & HsB & HviewsB & HdisjB)%okCS_alt.
  pose proof HsB as [HpB HtmB].
  set (uOf := λ q, default (mkTyped ∅ ∅) (viewTC w q)).
  set (VA := viewCS w pA).
  assert (HVB : viewCS w pB = uOf <$> tmB) by (by eapply viewCS_fmap).
  assert (HdomB : fpCS w pB ⊆ dom (mem w)) by (by apply fpCS_dom).
  set (fc := λ x : string * loc,
    filter (λ c, acceptsConfig (typedAt VA x.1) (Config_ID c) (Config_Version c))
      (map_to_list (live (uOf x.2))).*2).
  set (ft := λ x : string * loc,
    filter (λ t, acceptsTombstone (typedAt VA x.1) (Tombstone_ID t) (Tombstone_Version t))
      (map_to_list (dead (uOf x.2))).*2).
  apply wp_bind. eapply wp_readConfigs; [done|].
  apply wp_bind. eapply wp_readMapTypes; [done|].
  apply wp_bind, wp_range. intros items Hitems.
  eapply (wp_foldM (λ done acc wi,
    okCS wi pA ∧ evolves w wi (fpCS w pA) (fpCS wi pA) ∧ trace wi = trace w ∧
    viewCS wi pA = foldl stepMerge VA (prod_map id uOf <$> done) ∧
    acc.1 ≡ₚ done ≫= fc ∧ acc.2 ≡ₚ done ≫= ft)).
  { split_and!; try done. apply evolves_tick, evolves_refl. }
  { intros done [typ q] rest [n d] wi Hsplit (Hoki & Hevi & Htri & HVi & Hn & Hd).
    cbn [fst snd] in *.
    assert (Hq : tmB !! typ = Some q).
    { eapply items_lookup; [done|]. rewrite Hsplit. set_solver. }
    destruct (HviewsB _ _ Hq) as [u Hu].
    assert (Huof : uOf q = u) by (unfold uOf; by rewrite Hu).
    assert (Hwfu : wfTyped u).
    { apply (Hwf typ). rewrite HVB, lookup_fmap, Hq. cbn. by rewrite Huof. }
    assert (Hfresh : typ ∉ done.*1) by (by eapply items_fresh_key).
    assert (Hfq : fpTC w q ⊆ fpCS w pB) by (by eapply fpTC_sub_fpCS).
    apply wp_bind. apply wp_CS_getState; [done|].
    intros w1 p cs1 tm1 Hok1 Hs1 Hp HV1 Hv1 Hev1 _ Htr1 _.
    pose proof (evolves_trans _ _ _ _ _ _ Hevi Hev1) as Hev01.
    destruct (viewTC_frame (fpCS w pA) w w1 q) as [Hu1 Hfq1];
      [by destruct Hev01|by eauto|set_solver|].
    rewrite Hu in Hu1.
    apply wp_bind. eapply wp_TC_Merge; [done|done| |].
    { rewrite Hfq1. pose proof (fpTC_sub_fpCS _ _ _ _ _ _ Hs1 Hp) as Hsub.
      destruct Hev01 as [_ Hgrow]. set_solver. }
    intros w2 lc lt Hlc Hlt Hv2 Hev2 Htr2.
    destruct (store_update_at _ _ _ _ _ _ _ _ Hok1 Hs1 Hp Hev2 Hv2) as (Hok2 & Hs2 & HV2 & Hev12).
    apply wp_ret. cbn [fst snd].
    assert (Hsame : typedAt (viewCS wi pA) typ = typedAt VA typ).
    { unfold typedAt. rewrite HVi, stepMerge_notin; [done|].
      rewrite <-list_fmap_compose. 
      assert ((fst ∘ prod_map id uOf <$> done) = done.*1) as ->; [|done].
      apply list_fmap_ext. by intros ? []. }
    split_and!; [done| |congruence| | |].
    - eapply evolves_trans; [exact Hev01|exact Hev12].
    - rewrite HV2, HV1, insert_insert_eq, fmap_app, foldl_app, <-HVi.
      cbn [fmap list_fmap foldl]. unfold stepMerge, prod_map. cbn [fst snd id].
      rewrite Huof. f_equal. by apply merge_seq_value.
    - rewrite bind_snoc, Hn. apply Permutation_app; [done|].
      rewrite (merge_seq_accepted_configs _ u) by done.
      unfold fc. cbn [fst snd]. rewrite Huof, Hsame, Hlc. done.
    - rewrite bind_snoc, Hd. apply Permutation_app; [done|].
      rewrite (merge_seq_accepted_tombstones _ u) by done.
      unfold ft. cbn [fst snd]. rewrite Huof, Hsame, Hlt. done. }
  intros [n d] w' (Hok' & Hev' & Htr' & HV' & Hn & Hd). cbn [fst snd] in *.
  assert (Hlist : map_to_list (viewCS w pB) ≡ₚ prod_map id uOf <$> items).
  { rewrite HVB, map_to_list_fmap, Hitems. done. }
  apply HQ; try done.
  - rewrite HV'. apply map_eq. intros typ.
    rewrite mergeStore_lookup, stepMerge_lookup.
    + rewrite list_to_map_fmap, (list_to_map_items tmB) by done. by rewrite HVB.
    + rewrite <-list_fmap_compose.
      assert ((fst ∘ prod_map id uOf <$> items) = items.*1) as ->.
      { apply list_fmap_ext. by intros ? []. }
      rewrite Hitems. apply NoDup_fst_map_to_list.
  - rewrite Hn. unfold newIn. rewrite Hlist, bind_fmap.
    erewrite list_bind_ext; [done| |done]. by intros [].
  - rewrite Hd. unfold deadIn. rewrite Hlist, bind_fmap.
    erewrite list_bind_ext; [done| |done]. by intros [].
Qed.

Lemma typesOf_ext w w' pc : mem w = mem w' → typesOf w pc = typesOf w' pc.
Proof. intros H. unfold typesOf, objConfigs, mapTypesAt. by rewrite H. Qed.

Lemma okCS_ext w w' pc : mem w = mem w' → okCS w pc → okCS w' pc.
Proof.
  intros H (cs & tm & [Hpc Htm] & Hviews & Hdisj)%okCS_alt. apply okCS_alt.
  exists cs, tm. split_and!.
  - split; [by rewrite <-H|]. unfold mapTypesAt in *. by rewrite <-H.
  - intros typ p Hp. rewrite <-(viewTC_ext w w') by done. eauto.
  - intros typ1 p1 typ2 p2 H1 H2 Hne. rewrite <-!(fpTC_ext w w') by done. eauto.
Qed.

Lemma viewCS_ext w w' pc : mem w = mem w' → viewCS w pc = viewCS w' pc.
Proof.
  intros H. unfold viewCS. rewrite (typesOf_ext w w') by done.
  apply map_eq. intros typ. rewrite !lookup_omap.
  destruct (default ∅ (typesOf w' pc) !! typ); [|done]. cbn. by apply viewTC_ext.
Qed.

Lemma fpCS_ext w w' pc : mem w = mem w' → fpCS w pc = fpCS w' pc.
Proof.
  intros H. unfold fpCS, objConfigs. rewrite (typesOf_ext w w'), H by done.
  do 2 f_equal. apply list_fmap_ext. intros _ p _. by apply fpTC_ext.
Qed.

Lemma storeAt_ext w w' pc cs tm : mem w = mem w' → storeAt w pc cs tm → storeAt w' pc cs tm.
Proof. intros H [Hpc Htm]. split; [by rewrite <-H|]. unfold mapTypesAt in *. by rewrite <-H. Qed.

Lemma evolves_ext w w1 w2 F pc :
  mem w2 = mem w1 → evolves w w1 F (fpCS w1 pc) → evolves w w2 F (fpCS w2 pc).
Proof.
  intros H [Hk Hf]. split; [by eapply keeps_ext|].
  by rewrite (fpCS_ext w2 w1), H.
Qed.

Lemma fpTC_not_kind w p l x :
  is_Some (viewTC w p) → mem w !! l = Some x → ¬ typedKind x → l ∉ fpTC w p.
Proof.
  intros Hp Hl Hx Hin. destruct (fpTC_kind w p l) as (y & Hy & Hk'); eauto.
  rewrite Hl in Hy. by simplify_eq.
Qed.

Lemma wp_CS_Diff o w pA pB Q :
  okCS w pA → okCS w pB →
  (∀ w' news deads,
     okCS w' pA →
     (∀ typ, typedAt (viewCS w' pA) typ = typedAt (viewCS w pA) typ) →
     dom (viewCS w' pA) = dom (viewCS w pA) ∪ dom (viewCS w pB) →
     news ≡ₚ newIn (viewCS w pA) (viewCS w pB) →
     deads ≡ₚ deadIn (viewCS w pA) (viewCS w pB) →
     evolves w w' (fpCS w pA) (fpCS w' pA) → trace w' = trace w →
     Q (news, deads) w') →
  wp (Configs.Diff o pA pB) w Q.
Proof.
  intros HokA HokB HQ. unfold Configs.Diff.
  pose proof HokB as (csB & tmB & HsB & HviewsB & HdisjB)%okCS_alt.
  pose proof HsB as [HpB HtmB].
  set (uOf := λ q, default (mkTyped ∅ ∅) (viewTC w q)).
  set (VA := viewCS w pA).
  assert (HVB : viewCS w pB = uOf <$> tmB) by (by eapply viewCS_fmap).
  set (fc := λ x : string * loc,
    filter (λ c, acceptsConfig (typedAt VA x.1) (Config_ID c) (Config_Version c))
      (map_to_list (live (uOf x.2))).*2).
  set (ft := λ x : string * loc,
    filter (λ t, acceptsTombstone (typedAt VA x.1) (Tombstone_ID t) (Tombstone_Version t))
      (map_to_list (dead (uOf x.2))).*2).
  apply wp_bind. eapply wp_readConfigs; [done|].
  apply wp_bind. eapply wp_readMapTypes; [done|].
  apply wp_bind, wp_range. intros items Hitems.
  eapply (wp_foldM (λ done acc wi,
    okCS wi pA ∧ evolves w wi (fpCS w pA) (fpCS wi pA) ∧ trace wi = trace w ∧
    viewCS wi pA = foldl stepEmpty VA done.*1 ∧
    acc.1 ≡ₚ done ≫= fc ∧ acc.2 ≡ₚ done ≫= ft ∧
    storeAt wi pB csB tmB ∧
    (∀ typ q, tmB !! typ = Some q → viewTC wi q = viewTC w q))).
  { split_and!; try done. apply evolves_tick, evolves_refl. }
  { intros done [typ q] rest [n d] wi Hsplit
      (Hoki & Hevi & Htri & HVi & Hn & Hd & HsBi & HBi).
    cbn [fst snd] in *.
    assert (Hq : tmB !! typ = Some q).
    { eapply items_lookup; [done|]. rewrite Hsplit. set_solver. }
    destruct (HviewsB _ _ Hq) as [u Hu].
    assert (Huof : uOf q = u) by (unfold uOf; by rewrite Hu).
    pose proof Hoki as (csA & tmA & HsA & HviewsA & HdisjA)%okCS_alt.
    apply wp_bind. apply wp_CS_getState; [done|].
    intros w1 p cs1 tm1 Hok1 Hs1 Hp HV1 Hv1 Hev1 _ Htr1 HX.
    destruct (HX _ _ HsA) as (Hk1 & Hsame1 & Hpc1).
    pose proof (evolves_trans _ _ _ _ _ _ Hevi Hev1) as Hev01.
    assert (HB1 : storeAt w1 pB csB tmB ∧
                  (∀ typ q, tmB !! typ = Some q → viewTC w1 q = viewTC w q)).
    { destruct (tmA !! typ) as [p0|] eqn:EA.
      { rewrite Hsame1 by eauto. done. }
      split.
      - eapply storeAt_frame; [exact Hk1|done| |].
        + intros Hin. apply elem_of_union in Hin as [Hin|Hin].
          * apply elem_of_singleton in Hin as ->.
            destruct (storeAt_inj _ _ _ _ _ _ HsA HsBi) as [_ ->]. congruence.
          * destruct HsA as [_ HtmA]. destruct HsBi as [HpBi _].
            destruct (Configs_Types csA) as [lA|]; cbn in *; [|set_solver].
            apply elem_of_singleton in Hin as ->.
            rewrite HpBi in HtmA. done.
        + intros lB HlB Hin. apply elem_of_union in Hin as [Hin|Hin].
          * apply elem_of_singleton in Hin as ->.
            destruct HsA as [HpA _]. destruct HsBi as [_ HtmBi].
            rewrite HlB in HtmBi. cbn in HtmBi. rewrite HpA in HtmBi. done.
          * destruct HsA as [_ HtmA]. destruct HsBi as [_ HtmBi].
            destruct (Configs_Types csA) as [lA|]; cbn in *; [|set_solver].
            apply elem_of_singleton in Hin as ->.
            rewrite HlB in HtmBi. cbn in HtmBi.
            destruct (mem wi !! lA) as [[]|]; simplify_eq.
      - intros typ2 q2 H2. rewrite <-(HBi _ _ H2).
        eapply viewTC_frame; [exact Hk1| |].
        + rewrite (HBi _ _ H2). eauto.
        + assert (Hsome : is_Some (viewTC wi q2)) by (rewrite (HBi _ _ H2); eauto).
          apply disjoint_union_r. split.
          * apply disjoint_singleton_r. destruct HsA as [HpA _].
            eapply fpTC_not_kind; [done..|]. cbn. tauto.
          * destruct HsA as [_ HtmA].
            destruct (Configs_Types csA) as [lA|]; cbn in *; [|set_solver].
            destruct (mem wi !! lA) as [[]|] eqn:E; simplify_eq.
            apply disjoint_singleton_r.
            eapply fpTC_not_kind; [done..|]. cbn. tauto. }
    destruct HB1 as [HsB1 HB1].
    apply wp_bind. eapply wp_TC_Diff; [done|by rewrite (HB1 _ _ Hq)|].
    intros w2 lc lt Hlc Hlt Hm2 Htr2. apply wp_ret. cbn [fst snd].
    assert (Hsame : typedAt (viewCS wi pA) typ = typedAt VA typ).
    { rewrite HVi. apply stepEmpty_typedAt. }
    split_and!.
    - by eapply okCS_ext.
    - eapply evolves_ext; [done|]. exact Hev01.
    - congruence.
    - rewrite (viewCS_ext w2 w1) by done. rewrite HV1, fmap_app, foldl_app, <-HVi. done.
    - rewrite bind_snoc, Hn. apply Permutation_app; [done|].
      unfold fc. cbn [fst snd]. by rewrite Huof, Hsame, Hlc.
    - rewrite bind_snoc, Hd. apply Permutation_app; [done|].
      unfold ft. cbn [fst snd]. by rewrite Huof, Hsame, Hlt.
    - by eapply storeAt_ext.
    - intros typ2 q2 H2. rewrite (viewTC_ext w2 w1) by done. eauto. }
  intros [n d] w' (Hok' & Hev' & Htr' & HV' & Hn & Hd & _ & _). cbn [fst snd] in *.
  assert (Hlist : map_to_list (viewCS w pB) ≡ₚ prod_map id uOf <$> items).
  { rewrite HVB, map_to_list_fmap, Hitems. done. }
  apply HQ; try done.
  - intros typ. rewrite HV'. apply stepEmpty_typedAt.
  - rewrite HV', stepEmpty_dom, HVB, dom_fmap_L. f_equal.
    apply set_eq. intros typ. rewrite elem_of_list_to_set, elem_of_dom.
    rewrite Hitems. rewrite list_elem_of_fmap. split.
    + intros ([k x] & -> & Hin). apply elem_of_map_to_list in Hin. eauto.
    + intros [x Hx]. exists (typ, x). split; [done|]. by apply elem_of_map_to_list.
  - rewrite Hn. unfold newIn. rewrite Hlist, bind_fmap.
    erewrite list_bind_ext; [done| |done]. by intros [].
  - rewrite Hd. unfold deadIn. rewrite Hlist, bind_fmap.
    erewrite list_bind_ext; [done| |done]. by intros [].
Qed.

(** ** What two well-formed containers hold for one type and ID *)


Lemma wfAt_empty typ : wfAt typ (mkTyped ∅ ∅).
Proof. repeat split; apply map_Forall_empty. Qed.

Lemma wfAt_typedAt V typ :
  map_Forall (λ typ v, wfTyped v ∧ typedBy typ v) V → wfAt typ (typedAt V typ).
Proof.
  intros H. unfold typedAt. destruct (V !! typ) as [v|] eqn:E; cbn.
  - by apply (H typ v).
  - apply wfAt_empty.
Qed.

Lemma wfAt_single typ v ID : wfAt typ v → single (slotOf v ID).
Proof.
  intros [[_ Hs] _]. unfold single, slotOf. cbn.
  destruct (live v !! ID) as [c|] eqn:E; [right|by left].
  apply (Hs _ _ E).
Qed.

Lemma wfAt_tombstone typ v ID t :
  wfAt typ v → dead v !! ID = Some t → t = mkTombstone typ ID (Tombstone_Version t).
Proof.
  intros [[[_ Hk] _] [_ Ht]] E. pose proof (Hk _ _ E) as H1. pose proof (Ht _ _ E) as H2.
  cbn in *. destruct t; cbn in *; congruence.
Qed.

Lemma wfAt_config typ v ID c :
  wfAt typ v → live v !! ID = Some c →
  forgetData c = mkConfig typ ID (Config_Version c) None.
Proof.
  intros [[[Hk _] _] [Ht _]] E. pose proof (Hk _ _ E) as H1. pose proof (Ht _ _ E) as H2.
  cbn in *. unfold forgetData. congruence.
Qed.

Lemma slotMerge_none s : slotMerge s (None, None) = s.
Proof. done. Qed.

Lemma typedAt_mergeStore_slot VA VB typ ID :
  map_Forall (λ _ u, wfTyped u) VB →
  slotOf (typedAt (mergeStore VA VB) typ) ID =
  slotMerge (slotOf (typedAt VA typ) ID) (slotOf (typedAt VB typ) ID).
Proof.
  intros Hwf. unfold typedAt at 1 3. rewrite mergeStore_lookup.
  destruct (VB !! typ) as [u|] eqn:E; cbn.
  - apply slotOf_mergeTyped. by apply (Hwf typ).
  - done.
Qed.

(** Two well-formed containers, merged one into the other and the other
    way round, hold the same for every type and ID, up to the payload of
    a config that both hold at the same version. *)
Lemma merge_sides_forget typ vA vB ID :
  wfAt typ vA → wfAt typ vB →
  forgetSlot (slotMerge (slotOf vA ID) (slotOf vB ID)) =
  forgetSlot (slotMerge (slotOf vB ID) (slotOf vA ID)).
Proof.
  intros HA HB. rewrite !forgetSlot_merge. apply slotMerge_comm.
  - eapply single_forgetSlot, wfAt_single; done.
  - eapply single_forgetSlot, wfAt_single; done.
  - unfold forgetSlot, slotOf. cbn. intros c c' Hc Hc' Hv.
    destruct (live vA !! ID) as [cA|] eqn:EA; [|done].
    destruct (live vB !! ID) as [cB|] eqn:EB; [|done].
    cbn in *. simplify_eq.
    rewrite (wfAt_config _ _ _ _ HA EA), (wfAt_config _ _ _ _ HB EB).
    unfold forgetData in Hv. cbn in Hv. by rewrite Hv.
  - unfold forgetSlot, slotOf. cbn. intros t t' Ht Ht' Hv.
    rewrite (wfAt_tombstone _ _ _ _ HA Ht), (wfAt_tombstone _ _ _ _ HB Ht').
    by rewrite Hv.
Qed.

Lemma merge_sides_eq typ vA vB ID :
  wfAt typ vA → wfAt typ vB →
  (∀ cA cB, live vA !! ID = Some cA → live vB !! ID = Some cB →
            Config_Version cA = Config_Version cB → cA = cB) →
  slotMerge (slotOf vA ID) (slotOf vB ID) = slotMerge (slotOf vB ID) (slotOf vA ID).
Proof.
  intros HA HB Hties. apply slotMerge_comm.
  - eapply wfAt_single; done.
  - eapply wfAt_single; done.
  - unfold slotOf. cbn. intros c c' Hc Hc' Hv. by apply Hties.
  - unfold slotOf. cbn. intros t t' Ht Ht' Hv.
    rewrite (wfAt_tombstone _ _ _ _ HA Ht), (wfAt_tombstone _ _ _ _ HB Ht').
    by rewrite Hv.
Qed.

Lemma wfStore_typed w pc :
  wfStore w pc → map_Forall (λ _ u, wfTyped u) (viewCS w pc).
Proof. intros [_ H] typ v E. by apply (H typ v). Qed.

Lemma wfStore_keyed w pc :
  wfStore w pc →
  map_Forall (λ _ v, map_Forall (λ k t, Tombstone_ID t = k) (dead v)) (viewCS w pc).
Proof. intros [_ H] typ v E. by destruct (H typ v E) as [[[_ ?] _] _]. Qed.

(** A copy merged with another container: what the specifications of
    [Copy] and [Merge] give together. *)
Lemma wp_copy_merge o w pA pB Q :
  wfStore w pA → wfStore w pB →
  (∀ w' a news deads,
     mem w !! a = None → okCS w' a →
     viewCS w' a = mergeStore (viewCS w pA) (viewCS w pB) →
     news ≡ₚ newIn (viewCS w pA) (viewCS w pB) →
     deads ≡ₚ deadIn (viewCS w pA) (viewCS w pB) →
     keeps ∅ w w' → trace w' = trace w → Q (a, (news, deads)) w') →
  wp (a ← Configs.Copy o pA; r ← Configs.Merge o a pB; mret (a, r)) w Q.
Proof.
  intros HA HB HQ.
  apply wp_bind. apply wp_CS_Copy; [by destruct HA|by apply wfStore_keyed|].
  intros w1 a Ha Hok1 HV1 Hk1 Hfp1 Htr1.
  destruct (viewCS_frame ∅ w w1 pB) as (HokB1 & _ & HVB1 & HfpB1);
    [done|by destruct HB|set_solver|].
  pose proof (fpCS_dom w pB (proj1 HB)) as HdomB.
  apply wp_bind. apply wp_CS_Merge; [done|done| | |].
  { rewrite HfpB1. set_solver. }
  { rewrite HVB1. by apply wfStore_typed. }
  intros w2 news deads Hok2 HV2 Hn Hd Hev2 Htr2. apply wp_ret.
  rewrite HV1, HVB1 in HV2, Hn, Hd.
  apply HQ; try done; [|congruence].
  destruct Hev2 as [Hk2 _]. eapply keeps_compose; [exact Hk1|exact Hk2|set_solver].
Qed.

(** * The merge rules (C1) *)

Lemma acceptsConfig_iff v ID version :
  acceptsConfig v ID version = true ↔
  (entryOf v ID).2 = false ∨
  (∃ cfg, Result_Config (entryOf v ID).1 = Some cfg ∧ (Config_Version cfg < version)%N) ∨
  (∃ tb, Result_Tombstone (entryOf v ID).1 = Some tb ∧ (Tombstone_Version tb < version)%N).
Proof.
  unfold acceptsConfig, entryOf.
  destruct (live v !! ID) as [c|]; [|destruct (dead v !! ID) as [t|]]; cbn;
    rewrite ?N.ltb_lt; naive_solver.
Qed.

Lemma acceptsTombstone_iff v ID version :
  acceptsTombstone v ID version = true ↔
  (entryOf v ID).2 = false ∨
  (∃ cfg, Result_Config (entryOf v ID).1 = Some cfg ∧ (Config_Version cfg ≤ version)%N) ∨
  (∃ tb, Result_Tombstone (entryOf v ID).1 = Some tb ∧ (Tombstone_Version tb < version)%N).
Proof.
  unfold acceptsTombstone, entryOf.
  destruct (live v !! ID) as [c|]; [|destruct (dead v !! ID) as [t|]]; cbn;
    rewrite ?N.ltb_lt, ?N.leb_le; naive_solver.
Qed.

(** C1.  For a [TypeConfigs] and the entry [Get] returns for an ID:
    [NewConfig] accepts a config iff the ID is absent, or the resident
    config has a strictly lower version, or the resident tombstone has a
    strictly lower version; [DeadConfig] accepts a tombstone iff the ID is
    absent, or the resident config has a lower or equal version, or the
    resident tombstone has a strictly lower version.  A tombstone of the
    version of the resident config replaces it and returns it; a config of
    the version of the resident tombstone is rejected and nothing
    changes. *)
Theorem merge_rules (w : world) (p : loc) (c : Config) (t : Tombstone) :
  is_Some (viewTC w p) →
  wp (TypeConfigs.Get p (Config_ID c)) w (λ r _,
    wp (TypeConfigs.NewConfig p c) w (λ res _,
      res.2 = true ↔
      r.2 = false ∨
      (∃ cfg, Result_Config r.1 = Some cfg ∧ (Config_Version cfg < Config_Version c)%N) ∨
      (∃ tb, Result_Tombstone r.1 = Some tb ∧
             (Tombstone_Version tb < Config_Version c)%N))) ∧
  wp (TypeConfigs.Get p (Tombstone_ID t)) w (λ r _,
    wp (TypeConfigs.DeadConfig p t) w (λ res _,
      res.2 = true ↔
      r.2 = false ∨
      (∃ cfg, Result_Config r.1 = Some cfg ∧
              (Config_Version cfg ≤ Tombstone_Version t)%N) ∨
      (∃ tb, Result_Tombstone r.1 = Some tb ∧
             (Tombstone_Version tb < Tombstone_Version t)%N))) ∧
  wp (TypeConfigs.Get p (Tombstone_ID t)) w (λ r _,
    ∀ cfg, Result_Config r.1 = Some cfg → Config_Version cfg = Tombstone_Version t →
    wp (TypeConfigs.DeadConfig p t) w (λ res w',
      res = (Some cfg, true) ∧
      wp (TypeConfigs.Get p (Tombstone_ID t)) w' (λ r' _,
        r' = (mkConfigResult None (Some t), true)))) ∧
  wp (TypeConfigs.Get p (Config_ID c)) w (λ r _,
    ∀ tb, Result_Tombstone r.1 = Some tb → Tombstone_Version tb = Config_Version c →
    wp (TypeConfigs.NewConfig p c) w (λ res w', res = (None, false) ∧ mem w' = mem w)).
Proof.
  intros [v Hv]. split_and!.
  - eapply wp_TC_Get; [done|]. eapply wp_TC_NewConfig; [done|].
    intros w' _ _ _ _. cbn [snd]. apply acceptsConfig_iff.
  - eapply wp_TC_Get; [done|]. eapply wp_TC_DeadConfig; [done|].
    intros w' _ _ _ _. cbn [snd]. apply acceptsTombstone_iff.
  - eapply wp_TC_Get; [done|]. intros cfg Hcfg Hver.
    eapply wp_TC_DeadConfig; [done|]. intros w' Hv' _ _ _.
    unfold entryOf in Hcfg. unfold withTombstone in Hv'. unfold acceptsTombstone in *.
    destruct (live v !! Tombstone_ID t) as [c0|] eqn:E.
    2:{ destruct (dead v !! Tombstone_ID t); done. }
    cbn in Hcfg. simplify_eq. rewrite Hver, N.leb_refl in *.
    split; [done|]. eapply wp_TC_Get; [done|].
    unfold entryOf. cbn. by rewrite lookup_delete_eq, lookup_insert_eq.
  - eapply wp_TC_Get; [done|]. intros tb Htb Hver.
    unfold TypeConfigs.NewConfig.
    apply wp_bind. eapply wp_TC_isNewConfig; [done|].
    unfold entryOf in Htb. unfold acceptsConfig.
    destruct (live v !! Config_ID c) as [c0|] eqn:E; [done|].
    destruct (dead v !! Config_ID c) as [t0|] eqn:E'; [|done].
    cbn in Htb. simplify_eq. rewrite Hver, N.ltb_irrefl. by apply wp_ret.
Qed.

(** The first store of [twoStores] holds the type [test] at location 3. *)
Lemma merge_rules_witness :
  wp (TypeConfigs.Get 3%positive "a") storesWorld (λ r _,
    ∀ cfg, Result_Config r.1 = Some cfg → Config_Version cfg = 1%N →
    wp (TypeConfigs.DeadConfig 3%positive (mkTombstone "test" "a" 1)) storesWorld (λ res w',
      res = (Some cfg, true) ∧
      wp (TypeConfigs.Get 3%positive "a") w' (λ r' _,
        r' = (mkConfigResult None (Some (mkTombstone "test" "a" 1)), true)))).
Proof.
  refine (proj1 (proj2 (proj2 (merge_rules storesWorld 3%positive configB1
                                 (mkTombstone "test" "a" 1) _)))).
  vm_compute. eauto.
Defined.

(** A decidable statement about given stores is settled by computing. *)
Ltac by_compute :=
  match goal with
  | |- ?P => apply (bool_decide_eq_true_1 P); vm_compute; reflexivity
  end.

(** * Commutativity of the merge (C2) *)

(** C2.  [Merge] is not commutative on well-formed containers.  The two
    containers of [storesWorld] are well formed and both hold the config
    [a] of type [test] at version 1, with different payloads.  In the copy
    of the first merged with the second, [Get] returns the config of the
    first; in the copy of the second merged with the first, [Get] returns
    the config of the second; the two results differ. *)
Theorem merge_tie_keeps_own_payload :
  wfStore storesWorld storeA ∧ wfStore storesWorld storeB ∧
  wp (a ← Configs.Copy storedOrder storeA;
      r ← Configs.Merge storedOrder a storeB; mret (a, r)) storesWorld (λ x wa,
  wp (b ← Configs.Copy storedOrder storeB;
      r ← Configs.Merge storedOrder b storeA; mret (b, r)) storesWorld (λ y wb,
    wp (Configs.Get x.1 "test" "a") wa (λ ra _,
    wp (Configs.Get y.1 "test" "a") wb (λ rb _,
      ra = (mkConfigResult (Some configA1) None, true) ∧
      rb = (mkConfigResult (Some configA1') None, true) ∧ ra ≠ rb)))).
Proof.
  split_and!.
  - by_compute.
  - by_compute.
  - vm_compute. split_and!; [reflexivity..|]. intros H. discriminate H.
Qed.

(** Where both containers hold a live config of the ID at the same
    version, each side of the merge keeps its own. *)
Lemma merge_sides_tie typ vA vB ID cA cB :
  wfAt typ vA → wfAt typ vB →
  live vA !! ID = Some cA → live vB !! ID = Some cB →
  Config_Version cA = Config_Version cB →
  slotMerge (slotOf vA ID) (slotOf vB ID) = (Some cA, None).
Proof.
  intros HA HB EA EB Hv.
  pose proof (wfAt_single typ vA ID HA) as [SA|SA];
    unfold slotOf in SA; cbn in SA; [congruence|].
  pose proof (wfAt_single typ vB ID HB) as [SB|SB];
    unfold slotOf in SB; cbn in SB; [congruence|].
  unfold slotMerge, slotOf. cbn [fst snd]. rewrite EA, EB, SA, SB.
  unfold slotWithConfig, slotAcceptsConfig. rewrite Hv.
  by rewrite N.ltb_irrefl.
Qed.

(** Where [Merge] does commute.  For two well-formed containers A and B
    and every type and ID, [copy(A).merge(B)] and [copy(B).merge(A)] hold
    the same entry up to the payload of a live config; they hold the same
    entry when the live configs that A and B hold for this type and ID at
    the same version, if any, are the same; and when A and B both hold a
    live config for this type and ID at the same version, each side
    returns the config of its own receiver. *)
Theorem merge_commutes (o1 o2 : Oracle) (w : world) (pA pB : loc) :
  wfStore w pA → wfStore w pB →
  wp (a ← Configs.Copy o1 pA; r ← Configs.Merge o1 a pB; mret (a, r)) w (λ x wa,
  wp (b ← Configs.Copy o2 pB; r ← Configs.Merge o2 b pA; mret (b, r)) w (λ y wb,
    ∀ typ ID,
      wp (Configs.Get x.1 typ ID) wa (λ ra _,
      wp (Configs.Get y.1 typ ID) wb (λ rb _,
        forgetResult ra = forgetResult rb ∧
        (tiesAgree w pA pB typ ID → ra = rb) ∧
        (∀ cA cB,
           live (typedAt (viewCS w pA) typ) !! ID = Some cA →
           live (typedAt (viewCS w pB) typ) !! ID = Some cB →
           Config_Version cA = Config_Version cB →
           ra = (mkConfigResult (Some cA) None, true) ∧
           rb = (mkConfigResult (Some cB) None, true)))))).
Proof.
  intros HA HB.
  apply wp_copy_merge; [done..|]. intros wa a na da _ Hoka HVa _ _ _ _.
  apply wp_copy_merge; [done..|]. intros wb b nb db _ Hokb HVb _ _ _ _.
  intros typ ID. cbn [fst].
  apply wp_CS_Get; [done|]. apply wp_CS_Get; [done|].
  rewrite HVa, HVb, !entryOf_slot.
  rewrite !typedAt_mergeStore_slot by (by apply wfStore_typed).
  pose proof (wfAt_typedAt _ typ (proj2 HA)) as HwA.
  pose proof (wfAt_typedAt _ typ (proj2 HB)) as HwB.
  split_and!.
  - rewrite <-!slotEntry_forget. f_equal. by eapply merge_sides_forget.
  - intros Hties. f_equal. eapply merge_sides_eq; [done..|].
    intros cA cB. apply Hties.
  - intros cA cB EA EB Hv.
    rewrite (merge_sides_tie typ _ _ ID cA cB HwA HwB EA EB Hv).
    rewrite (merge_sides_tie typ _ _ ID cB cA HwB HwA EB EA (eq_sym Hv)).
    done.
Qed.

Lemma merge_commutes_witness :
  wp (a ← Configs.Copy storedOrder storeA;
      r ← Configs.Merge storedOrder a storeB; mret (a, r)) storesWorld (λ x wa,
  wp (b ← Configs.Copy storedOrder storeB;
      r ← Configs.Merge storedOrder b storeA; mret (b, r)) storesWorld (λ y wb,
    ∀ typ ID,
      wp (Configs.Get x.1 typ ID) wa (λ ra _,
      wp (Configs.Get y.1 typ ID) wb (λ rb _,
        forgetResult ra = forgetResult rb ∧
        (tiesAgree storesWorld storeA storeB typ ID → ra = rb) ∧
        (∀ cA cB,
           live (typedAt (viewCS storesWorld storeA) typ) !! ID = Some cA →
           live (typedAt (viewCS storesWorld storeB) typ) !! ID = Some cB →
           Config_Version cA = Config_Version cB →
           ra = (mkConfigResult (Some cA) None, true) ∧
           rb = (mkConfigResult (Some cB) None, true)))))).
Proof.
  apply (merge_commutes storedOrder storedOrder storesWorld storeA storeB).
  - by_compute.
  - by_compute.
Defined.

(** * Idempotence (C3) *)

Lemma filter_none {A} (P : A → Prop) `{∀ x, Decision (P x)} (l : list A) :
  (∀ x, x ∈ l → ¬ P x) → filter P l = [].
Proof.
  induction l as [|x l IH]; intros Hn; [done|].
  rewrite filter_cons, decide_False by (apply Hn; set_solver).
  apply IH. intros y Hy. apply Hn. set_solver.
Qed.

Lemma bind_none {A B} (f : A → list B) (l : list A) :
  (∀ x, x ∈ l → f x = []) → l ≫= f = [].
Proof.
  induction l as [|x l IH]; intros Hn; [done|]. cbn.
  rewrite Hn by set_solver. apply IH. intros y Hy. apply Hn. set_solver.
Qed.

Lemma typedAt_lookup V typ u : V !! typ = Some u → typedAt V typ = u.
Proof. intros H. unfold typedAt. by rewrite H. Qed.

Lemma newIn_self V : map_Forall (λ _ u, wfTyped u) V → newIn V V = [].
Proof.
  intros Hwf. unfold newIn. apply bind_none. intros [typ u] Hin.
  apply elem_of_map_to_list in Hin. rewrite (typedAt_lookup _ _ _ Hin).
  destruct (Hwf _ _ Hin) as [[Hk _] _].
  apply filter_none. intros c Hc.
  apply (keyed_elem Config_ID (live u)) in Hc; [|done..].
  unfold acceptsConfig. rewrite Hc, N.ltb_irrefl. by intros [].
Qed.

Lemma deadIn_self V : map_Forall (λ _ u, wfTyped u) V → deadIn V V = [].
Proof.
  intros Hwf. unfold deadIn. apply bind_none. intros [typ u] Hin.
  apply elem_of_map_to_list in Hin. rewrite (typedAt_lookup _ _ _ Hin).
  destruct (Hwf _ _ Hin) as [[_ Hk] Hs].
  apply filter_none. intros t Ht.
  apply (keyed_elem Tombstone_ID (dead u)) in Ht; [|done..].
  unfold acceptsTombstone.
  destruct (live u !! Tombstone_ID t) as [c|] eqn:E.
  - pose proof (Hs _ _ E) as Hn. cbn in Hn. congruence.
  - rewrite Ht, N.ltb_irrefl. by intros [].
Qed.

Lemma mergeStore_self V : map_Forall (λ _ u, wfTyped u) V → mergeStore V V = V.
Proof.
  intros Hwf. apply map_eq. intros typ. rewrite mergeStore_lookup.
  destruct (V !! typ) as [u|] eqn:E; [|done].
  rewrite (typedAt_lookup _ _ _ E). f_equal. apply typed_eq. intros k.
  rewrite slotOf_mergeTyped by (by apply (Hwf typ)).
  apply slotMerge_idemp. destruct (Hwf _ _ E) as [_ Hs].
  unfold single, slotOf. cbn. destruct (live u !! k) as [c|] eqn:Ec; [right|by left].
  apply (Hs _ _ Ec).
Qed.

(** What a mutation does to the value of a [Configs]. *)
Lemma wp_applyTo w pc m Q :
  okCS w pc →
  (∀ w' res, okCS w' pc → viewCS w' pc = applyValue (viewCS w pc) m →
     res.2 = negb (rankOf m <=? rank (slotOf (typedAt (viewCS w pc) (typeOf m)) (idOf m)))%N →
     (res.2 = false → res.1 = None) →
     evolves w w' (fpCS w pc) (fpCS w' pc) → trace w' = trace w → Q res w') →
  wp (applyTo pc m) w Q.
Proof.
  intros Hok HQ. destruct m as [c|t]; cbn [applyTo].
  - apply wp_CS_NewConfig; [done|]. intros w' Hok' HV' Hev Htr.
    apply HQ; try done; cbn [fst snd typeOf idOf rankOf].
    + rewrite acceptsConfig_slot, slotAcceptsConfig_rank.
      destruct (N.ltb_spec (rank (slotOf (typedAt (viewCS w pc) (Config_Type c)) (Config_ID c)))
                  (2 * Config_Version c + 1));
      destruct (N.leb_spec (2 * Config_Version c + 1)
                  (rank (slotOf (typedAt (viewCS w pc) (Config_Type c)) (Config_ID c))));
      try done; lia.
    + by intros ->.
  - apply wp_CS_DeadConfig; [done|]. intros w' Hok' HV' Hev Htr.
    apply HQ; try done; cbn [fst snd typeOf idOf rankOf].
    + rewrite acceptsTombstone_slot, slotAcceptsTombstone_rank.
      destruct (N.ltb_spec (rank (slotOf (typedAt (viewCS w pc) (Tombstone_Type t)) (Tombstone_ID t)))
                  (2 * Tombstone_Version t + 2));
      destruct (N.leb_spec (2 * Tombstone_Version t + 2)
                  (rank (slotOf (typedAt (viewCS w pc) (Tombstone_Type t)) (Tombstone_ID t))));
      try done; lia.
    + by intros ->.
Qed.

(** The slot of a type and ID after a mutation. *)
Lemma slotOf_applyValue V m typ ID :
  slotOf (typedAt (applyValue V m) typ) ID =
  if decide (typ = typeOf m ∧ ID = idOf m)
  then match m with
       | Live c => slotWithConfig (slotOf (typedAt V typ) ID) c
       | Dead t => slotWithTombstone (slotOf (typedAt V typ) ID) t
       end
  else slotOf (typedAt V typ) ID.
Proof.
  destruct m as [c|t]; cbn [applyValue typeOf idOf]; unfold typedAt at 1.
  - destruct (decide (typ = Config_Type c)) as [->|Hne].
    + rewrite lookup_insert_eq. cbn. rewrite slotOf_withConfig.
      destruct (decide (ID = Config_ID c)) as [->|Hne'].
      * by rewrite decide_True.
      * rewrite decide_False by naive_solver. done.
    + rewrite lookup_insert_ne by done. rewrite decide_False by naive_solver. done.
  - destruct (decide (typ = Tombstone_Type t)) as [->|Hne].
    + rewrite lookup_insert_eq. cbn. rewrite slotOf_withTombstone.
      destruct (decide (ID = Tombstone_ID t)) as [->|Hne'].
      * by rewrite decide_True.
      * rewrite decide_False by naive_solver. done.
    + rewrite lookup_insert_ne by done. rewrite decide_False by naive_solver. done.
Qed.

(** The rank of a slot never goes down, and a mutation brings the rank of
    its own slot to its own rank at least. *)
Lemma rank_applyValue_mono V m typ ID :
  (rank (slotOf (typedAt V typ) ID) ≤ rank (slotOf (typedAt (applyValue V m) typ) ID))%N.
Proof.
  rewrite slotOf_applyValue. case_decide; [|lia].
  destruct m; rewrite ?rank_slotWithConfig, ?rank_slotWithTombstone; lia.
Qed.

Lemma rank_applyValue_own V m :
  (rankOf m ≤ rank (slotOf (typedAt (applyValue V m) (typeOf m)) (idOf m)))%N.
Proof.
  rewrite slotOf_applyValue, decide_True by done.
  destruct m; rewrite ?rank_slotWithConfig, ?rank_slotWithTombstone; cbn; lia.
Qed.

Lemma applyValue_rejected V m typ :
  (rankOf m ≤ rank (slotOf (typedAt V (typeOf m)) (idOf m)))%N →
  typedAt (applyValue V m) typ = typedAt V typ.
Proof.
  intros Hr. destruct m as [c|t]; cbn [applyValue typeOf idOf rankOf] in *; unfold typedAt at 1.
  - destruct (decide (typ = Config_Type c)) as [->|Hne];
      [rewrite lookup_insert_eq|by rewrite lookup_insert_ne].
    cbn. unfold withConfig.
    rewrite acceptsConfig_slot, slotAcceptsConfig_rank.
    destruct (N.ltb_spec (rank (slotOf (typedAt V (Config_Type c)) (Config_ID c)))
                (2 * Config_Version c + 1)); [lia|done].
  - destruct (decide (typ = Tombstone_Type t)) as [->|Hne];
      [rewrite lookup_insert_eq|by rewrite lookup_insert_ne].
    cbn. unfold withTombstone.
    rewrite acceptsTombstone_slot, slotAcceptsTombstone_rank.
    destruct (N.ltb_spec (rank (slotOf (typedAt V (Tombstone_Type t)) (Tombstone_ID t)))
                (2 * Tombstone_Version t + 2)); [lia|done].
Qed.

Lemma stale_rank m v :
  stale m (entryOf v (idOf m)) → (rankOf m ≤ rank (slotOf v (idOf m)))%N.
Proof.
  unfold stale, entryOf, slotOf, rank.
  destruct m as [c|t]; cbn [idOf rankOf];
    (destruct (live v !! _) as [c0|]; [|destruct (dead v !! _) as [t0|]]); cbn;
    intros [(x & Hx & Hle)|(x & Hx & Hle)]; simplify_eq; lia.
Qed.

(** C3.  For a well-formed store A: [copy(A).merge(A)] accepts nothing and
    holds what A holds; a mutation that is rejected leaves what the store
    holds unchanged, and a mutation whose version is the same as or lower
    than the resident one, in the sense of the merge rules, is rejected;
    a mutation applied again, after any mutations that followed it, is
    rejected and leaves what the store holds unchanged. *)
Theorem merge_idempotent (o : Oracle) (w : world) (pA : loc)
    (m : mutation) (ms : list mutation) :
  wfStore w pA →
  wp (a ← Configs.Copy o pA; r ← Configs.Merge o a pA; mret (a, r)) w (λ x w',
    x.2 = ([], []) ∧
    ∀ typ ID,
      wp (Configs.Get x.1 typ ID) w' (λ r' _,
      wp (Configs.Get pA typ ID) w (λ r _, r' = r))) ∧
  wp (applyTo pA m) w (λ res w',
    res.2 = false →
    res.1 = None ∧
    ∀ typ ID,
      wp (Configs.Get pA typ ID) w' (λ r' _,
      wp (Configs.Get pA typ ID) w (λ r _, r' = r))) ∧
  wp (Configs.Get pA (typeOf m) (idOf m)) w (λ r _,
    stale m r → wp (applyTo pA m) w (λ res _, res = (None, false))) ∧
  wp (applyTo pA m;; forM ms (λ m', applyTo pA m';; mret tt)) w (λ _ w1,
    wp (applyTo pA m) w1 (λ res w2,
      res = (None, false) ∧
      ∀ typ ID,
        wp (Configs.Get pA typ ID) w2 (λ r' _,
        wp (Configs.Get pA typ ID) w1 (λ r _, r' = r)))).
Proof.
  intros HA. pose proof HA as [Hok _]. split_and!.
  - apply wp_copy_merge; [done..|]. intros w' a n d _ Hoka HVa Hn Hd _ _. cbn [fst snd].
    rewrite newIn_self in Hn by (by apply wfStore_typed).
    rewrite deadIn_self in Hd by (by apply wfStore_typed).
    apply Permutation_nil_r in Hn, Hd. subst n d. split; [done|].
    intros typ ID. apply wp_CS_Get; [done|]. apply wp_CS_Get; [done|].
    rewrite HVa, mergeStore_self by (by apply wfStore_typed). done.
  - apply wp_applyTo; [done|]. intros w' res Hok' HV' Hres Hnone _ _ Hrej.
    split; [by apply Hnone|]. intros typ ID.
    apply wp_CS_Get; [done|]. apply wp_CS_Get; [done|].
    rewrite HV', applyValue_rejected; [done|].
    rewrite Hrej in Hres. apply (f_equal negb) in Hres. rewrite negb_involutive in Hres.
    cbn in Hres. symmetry in Hres. by apply N.leb_le in Hres.
  - apply wp_CS_Get; [done|]. intros Hstale. apply stale_rank in Hstale.
    apply wp_applyTo; [done|]. intros w' res _ _ Hres Hnone _ _.
    apply N.leb_le in Hstale. rewrite Hstale in Hres. cbn in Hres.
    destruct res as [old isNew]. cbn in *. subst isNew. by rewrite Hnone.
  - apply wp_bind. apply wp_applyTo; [done|].
    intros w0 res0 Hok0 HV0 _ _ _ _.
    eapply (wp_forM (λ _ wi,
      okCS wi pA ∧
      (rankOf m ≤ rank (slotOf (typedAt (viewCS wi pA) (typeOf m)) (idOf m)))%N)).
    { split; [done|]. rewrite HV0. apply rank_applyValue_own. }
    { intros done m' rest wi _ [Hoki Hri].
      apply wp_bind. apply wp_applyTo; [done|].
      intros w1 res1 Hok1 HV1 _ _ _ _. apply wp_ret. split; [done|].
      rewrite HV1. etrans; [exact Hri|]. apply rank_applyValue_mono. }
    intros w1 [Hok1 Hr1]. apply wp_applyTo; [done|].
    intros w2 res Hok2 HV2 Hres Hnone _ _.
    pose proof Hr1 as Hr1'. apply N.leb_le in Hr1'. rewrite Hr1' in Hres. cbn in Hres.
    destruct res as [old isNew]. cbn in *. subst isNew. rewrite Hnone by done.
    split; [done|]. intros typ ID.
    apply wp_CS_Get; [done|]. apply wp_CS_Get; [done|].
    by rewrite HV2, applyValue_rejected.
Qed.

Lemma merge_idempotent_witness :
  wp (applyTo storeA (Live configB1);;
      forM [Dead tombC1; Live configA1'] (λ m', applyTo storeA m';; mret tt))
    storesWorld (λ _ w1,
    wp (applyTo storeA (Live configB1)) w1 (λ res w2,
      res = (None, false) ∧
      ∀ typ ID,
        wp (Configs.Get storeA typ ID) w2 (λ r' _,
        wp (Configs.Get storeA typ ID) w1 (λ r _, r' = r)))).
Proof.
  refine (proj2 (proj2 (proj2
    (merge_idempotent storedOrder storesWorld storeA (Live configB1)
       [Dead tombC1; Live configA1'] _)))).
  by_compute.
Defined.

(** * [Diff] previews [Merge] (C5) and leaves the container as it is (C10) *)

Lemma bind_perm_ext {A B} (f g : A → list B) (l : list A) :
  (∀ x, f x ≡ₚ g x) → l ≫= f ≡ₚ l ≫= g.
Proof.
  intros H. induction l as [|x l IH]; [done|]. cbn. by rewrite H, IH.
Qed.

Lemma fmap_bind_list {A B C} (h : B → C) (f : A → list B) (l : list A) :
  h <$> (l ≫= f) = l ≫= (λ x, h <$> f x).
Proof. induction l as [|x l IH]; [done|]. cbn. by rewrite fmap_app, IH. Qed.

Lemma acceptsConfig_forget v ID version :
  acceptsConfig (forgetTyped v) ID version = acceptsConfig v ID version.
Proof.
  unfold acceptsConfig, forgetTyped. cbn. rewrite lookup_fmap.
  by destruct (live v !! ID).
Qed.

Lemma acceptsTombstone_forget v ID version :
  acceptsTombstone (forgetTyped v) ID version = acceptsTombstone v ID version.
Proof.
  unfold acceptsTombstone, forgetTyped. cbn. rewrite lookup_fmap.
  by destruct (live v !! ID).
Qed.

Lemma typedAt_forget V typ :
  typedAt (forgetTyped <$> V) typ = forgetTyped (typedAt V typ).
Proof.
  unfold typedAt. rewrite lookup_fmap. destruct (V !! typ); [done|].
  cbn. unfold forgetTyped. cbn. by rewrite fmap_empty.
Qed.

Lemma filter_fmap_ext {A B} (h : A → B) (P : B → Prop) (Q : A → Prop)
    `{∀ x, Decision (P x)} `{∀ x, Decision (Q x)} (l : list A) :
  (∀ x, P (h x) ↔ Q x) → filter P (h <$> l) = h <$> filter Q l.
Proof.
  intros Hext. induction l as [|x l IH]; [done|]. cbn [fmap list_fmap].
  rewrite !filter_cons, IH.
  destruct (decide (P (h x))) as [HP|HP], (decide (Q x)) as [HQ|HQ]; try done;
    exfalso; apply Hext in HP || apply Hext in HQ; done.
Qed.

(** The entries [Diff] returns do not depend on the payloads. *)
Lemma newIn_forget VA VB :
  newIn (forgetTyped <$> VA) (forgetTyped <$> VB) ≡ₚ forgetData <$> newIn VA VB.
Proof.
  unfold newIn. rewrite map_to_list_fmap, bind_fmap, fmap_bind_list.
  apply bind_perm_ext. intros [typ u]. cbn.
  rewrite typedAt_forget, map_to_list_fmap, <-list_fmap_compose.
  assert (snd ∘ prod_map id forgetData <$> map_to_list (live u) =
          forgetData <$> (map_to_list (live u)).*2) as ->.
  { rewrite <-list_fmap_compose. apply list_fmap_ext. by intros ? []. }
  rewrite (filter_fmap_ext forgetData _
    (λ c, acceptsConfig (typedAt VA typ) (Config_ID c) (Config_Version c))); [done|].
  intros c. cbn. by rewrite acceptsConfig_forget.
Qed.

Lemma deadIn_forget VA VB :
  deadIn (forgetTyped <$> VA) (forgetTyped <$> VB) ≡ₚ deadIn VA VB.
Proof.
  unfold deadIn. rewrite map_to_list_fmap, bind_fmap.
  apply bind_perm_ext. intros [typ u]. cbn.
  rewrite typedAt_forget.
  erewrite filter_ext_in; [done|]. intros t _. by rewrite acceptsTombstone_forget.
Qed.

(** C5.  For a store A and another well-formed store that shares nothing
    with it, [A.Diff(other)] leaves what A holds unchanged and returns the
    configs and the tombstones that [A.Merge(other)] accepts, up to
    order. *)
Theorem diff_previews_merge (o1 o2 : Oracle) (w : world) (pA pB : loc) :
  wfStore w pA → wfStore w pB → fpCS w pA ## fpCS w pB →
  wp (Configs.Diff o1 pA pB) w (λ d w1,
    (∀ typ ID,
       wp (Configs.Get pA typ ID) w1 (λ r' _,
       wp (Configs.Get pA typ ID) w (λ r _, r' = r))) ∧
    wp (Configs.Merge o2 pA pB) w (λ m _, d.1 ≡ₚ m.1 ∧ d.2 ≡ₚ m.2)).
Proof.
  intros [HA _] HB Hsep. pose proof HB as [HokB _].
  apply wp_CS_Diff; [done..|]. intros w1 n d Hok1 Hsame _ Hn Hd _ _. cbn [fst snd].
  split.
  - intros typ ID. apply wp_CS_Get; [done|]. apply wp_CS_Get; [done|]. by rewrite Hsame.
  - apply wp_CS_Merge; [done|done|done|by apply wfStore_typed|].
    intros w2 n2 d2 _ _ Hn2 Hd2 _ _. cbn [fst snd]. by rewrite Hn, Hd, Hn2, Hd2.
Qed.

Lemma diff_previews_merge_witness :
  wp (Configs.Diff storedOrder storeA storeB) storesWorld (λ d w1,
    (∀ typ ID,
       wp (Configs.Get storeA typ ID) w1 (λ r' _,
       wp (Configs.Get storeA typ ID) storesWorld (λ r _, r' = r))) ∧
    wp (Configs.Merge storedOrder storeA storeB) storesWorld (λ m _,
      d.1 ≡ₚ m.1 ∧ d.2 ≡ₚ m.2)).
Proof.
  apply (diff_previews_merge storedOrder storedOrder storesWorld storeA storeB);
    by_compute.
Defined.

(** C10.  For two [Configs] A and other, [A.Diff(other)] returns the same
    entry for every type and ID of A afterwards, adds and removes no
    config and no tombstone, leaves in the type map of A the types it had
    and those of other, and returns the same entries, up to their payloads
    and their order, on any two containers that hold what A and other
    hold up to the payloads. *)
Theorem diff_frame (o : Oracle) (w : world) (pA pB : loc) :
  okCS w pA → okCS w pB →
  wp (Configs.Diff o pA pB) w (λ d w',
    (∀ typ ID,
       wp (Configs.Get pA typ ID) w' (λ r' _,
       wp (Configs.Get pA typ ID) w (λ r _, r' = r))) ∧
    (∀ typ, typedAt (viewCS w' pA) typ = typedAt (viewCS w pA) typ) ∧
    dom (viewCS w' pA) = dom (viewCS w pA) ∪ dom (viewCS w pB) ∧
    ∀ o2 w2 pA2 pB2,
      okCS w2 pA2 → okCS w2 pB2 →
      forgetTyped <$> viewCS w2 pA2 = forgetTyped <$> viewCS w pA →
      forgetTyped <$> viewCS w2 pB2 = forgetTyped <$> viewCS w pB →
      wp (Configs.Diff o2 pA2 pB2) w2 (λ d2 _,
        forgetData <$> d2.1 ≡ₚ forgetData <$> d.1 ∧ d2.2 ≡ₚ d.2)).
Proof.
  intros HA HB.
  apply wp_CS_Diff; [done..|]. intros w1 n d Hok1 Hsame Hdom Hn Hd _ _. cbn [fst snd].
  split_and!; [|done|done|].
  - intros typ ID. apply wp_CS_Get; [done|]. apply wp_CS_Get; [done|]. by rewrite Hsame.
  - intros o2 w2 pA2 pB2 HA2 HB2 HeqA HeqB.
    apply wp_CS_Diff; [done..|]. intros w3 n2 d2 _ _ _ Hn2 Hd2 _ _. cbn [fst snd].
    rewrite Hn, Hd, Hn2, Hd2. split.
    + by rewrite <-!newIn_forget, HeqA, HeqB.
    + by rewrite <-(deadIn_forget (viewCS w2 pA2)), HeqA, HeqB, deadIn_forget.
Qed.

Lemma diff_frame_witness :
  wp (Configs.Diff storedOrder storeA storeB) storesWorld (λ d w',
    (∀ typ ID,
       wp (Configs.Get storeA typ ID) w' (λ r' _,
       wp (Configs.Get storeA typ ID) storesWorld (λ r _, r' = r))) ∧
    (∀ typ, typedAt (viewCS w' storeA) typ = typedAt (viewCS storesWorld storeA) typ) ∧
    dom (viewCS w' storeA) =
      dom (viewCS storesWorld storeA) ∪ dom (viewCS storesWorld storeB) ∧
    ∀ o2 w2 pA2 pB2,
      okCS w2 pA2 → okCS w2 pB2 →
      forgetTyped <$> viewCS w2 pA2 = forgetTyped <$> viewCS storesWorld storeA →
      forgetTyped <$> viewCS w2 pB2 = forgetTyped <$> viewCS storesWorld storeB →
      wp (Configs.Diff o2 pA2 pB2) w2 (λ d2 _,
        forgetData <$> d2.1 ≡ₚ forgetData <$> d.1 ∧ d2.2 ≡ₚ d.2)).
Proof.
  apply (diff_frame storedOrder storesWorld storeA storeB); by_compute.
Defined.

(** * The single-state invariant (C4) *)

Lemma singleState_withConfig v c : singleState v → singleState (withConfig v c).
Proof.
  unfold singleState, withConfig. intros Hv.
  destruct (acceptsConfig _ _ _); [|done]. cbn [live dead].
  intros k x Hk. destruct (decide (k = Config_ID c)) as [->|Hne].
  - apply lookup_delete_eq.
  - rewrite lookup_insert_ne in Hk by done.
    rewrite lookup_delete_ne by done. by apply (Hv k x).
Qed.

Lemma singleState_withTombstone v t : singleState v → singleState (withTombstone v t).
Proof.
  unfold singleState, withTombstone. intros Hv.
  destruct (acceptsTombstone _ _ _); [|done]. cbn [live dead].
  intros k x Hk. apply lookup_delete_Some in Hk as [Hne Hk].
  rewrite lookup_insert_ne by done. by apply (Hv k x).
Qed.

Lemma keyedByID_withConfig v c : keyedByID v → keyedByID (withConfig v c).
Proof.
  unfold keyedByID, withConfig. intros [Hl Hd].
  destruct (acceptsConfig _ _ _); [|done]. cbn [live dead]. split.
  - by apply map_Forall_insert_2.
  - by apply map_Forall_delete.
Qed.

Lemma keyedByID_withTombstone v t : keyedByID v → keyedByID (withTombstone v t).
Proof.
  unfold keyedByID, withTombstone. intros [Hl Hd].
  destruct (acceptsTombstone _ _ _); [|done]. cbn [live dead]. split.
  - by apply map_Forall_delete.
  - by apply map_Forall_insert_2.
Qed.

(** [NewConfig] and [DeadConfig] keep the invariant, and an accepted
    record is then the only entry of its ID. *)
Lemma single_state_NewConfig w p v c :
  viewTC w p = Some v → singleState v →
  wp (TypeConfigs.NewConfig p c) w (λ r w',
    ∃ v', viewTC w' p = Some v' ∧ singleState v' ∧
          (r.2 = true → live v' !! Config_ID c = Some c ∧ dead v' !! Config_ID c = None)).
Proof.
  intros Hv Hs. eapply wp_TC_NewConfig; [done|]. intros w' Hv' _ _ _. cbn [snd].
  eexists. split; [done|]. split; [by apply singleState_withConfig|].
  unfold withConfig. intros ->. cbn [live dead].
  by rewrite lookup_insert_eq, lookup_delete_eq.
Qed.

Lemma single_state_DeadConfig w p v t :
  viewTC w p = Some v → singleState v →
  wp (TypeConfigs.DeadConfig p t) w (λ r w',
    ∃ v', viewTC w' p = Some v' ∧ singleState v' ∧
          (r.2 = true → dead v' !! Tombstone_ID t = Some t ∧ live v' !! Tombstone_ID t = None)).
Proof.
  intros Hv Hs. eapply wp_TC_DeadConfig; [done|]. intros w' Hv' _ _ _. cbn [snd].
  eexists. split; [done|]. split; [by apply singleState_withTombstone|].
  unfold withTombstone. intros ->. cbn [live dead].
  by rewrite lookup_insert_eq, lookup_delete_eq.
Qed.

(** C4.  [UnmarshalJSON] on the wire form
    [{"live":[a, version 1],"dead":[a, version 1]}] returns no error and
    leaves a [TypeConfigs] that holds the ID [a] in both maps, so the
    single-state invariant does not hold of what it produces. *)
Theorem unmarshal_breaks_single_state :
  wp (p ← alloc (ObjTypeConfigs (mkTypeConfigs None None));
      err ← TypeConfigs.UnmarshalJSON p
              (inr (mkConfigsJSON [configA1] [Config.Tombstone configA1]));
      mret (p, err))
     emptyWorld
     (λ x w', x.2 = None ∧
              ∃ v, viewTC w' x.1 = Some v ∧
                   live v !! "a" = Some configA1 ∧
                   dead v !! "a" = Some (Config.Tombstone configA1) ∧
                   ¬ singleState v).
Proof.
  vm_compute. split; [done|]. eexists. split; [reflexivity|].
  split; [done|]. split; [done|].
  intros Hs. specialize (Hs "a" configA1 eq_refl). by vm_compute in Hs.
Qed.

(** * [Config.UnmarshalJSON] and the type registry (C9) *)

(** C9.  [Config.UnmarshalJSON] does not always return an error for a
    type that is not registered.  The type [other] is not in
    [exampleRegistry].  On the JSON form of a config of type [other]
    without a [data] member, [UnmarshalJSON] returns a nil error and sets
    the type, the ID and the version of the receiver; on the same form
    with a [data] member it returns the error of the registry. *)
Theorem unmarshal_unregistered_without_data :
  default ∅ exampleRegistry !! "other" = None ∧
  Config.UnmarshalJSON exampleDecoder exampleRegistry (mkConfig "" "" 0 None)
     (inr (mkConfigJSON "other" "a" 1 None))
    = (mkConfig "other" "a" 1 None, None) ∧
  (Config.UnmarshalJSON exampleDecoder exampleRegistry (mkConfig "" "" 0 None)
     (inr (mkConfigJSON "other" "a" 1 (Some "x")))).2
    = Some "unknown config type 'other'".
Proof. split_and!; vm_compute; reflexivity. Qed.

(** What [Config.UnmarshalJSON] does with the registry.  When the JSON
    form has a [data] member and the type is not registered, it returns
    the registry's error and no payload.  When it has no [data] member it
    returns no error, whatever the registry holds, and leaves the payload
    of the receiver.  When it returns no error and there is a [data]
    member, the type is registered and the payload is what
    [json.Unmarshal] makes of the new object of the registered type. *)
Theorem unmarshal_config_registry
    (json_Unmarshal : string → Payload → Payload * error)
    (typeRegistry : option (gmap string reflectType))
    (config : Config) (js : configJSON) :
  let r := Config.UnmarshalJSON json_Unmarshal typeRegistry config (inr js) in
  (default ∅ typeRegistry !! cj_Type js = None → is_Some (cj_Data js) →
     r.2 = Some ("unknown config type '" +:+ cj_Type js +:+ "'") ∧
     Config_Data r.1 = None) ∧
  (cj_Data js = None →
     r = (mkConfig (cj_Type js) (cj_ID js) (cj_Version js) (Config_Data config), None)) ∧
  (∀ raw, cj_Data js = Some raw → r.2 = None →
     ∃ typ, default ∅ typeRegistry !! cj_Type js = Some typ ∧
            NewConfig typeRegistry (cj_Type js) =
              (Some (mkPayload (reflectType_name typ) (reflectType_zero typ)), None) ∧
            r.1 = mkConfig (cj_Type js) (cj_ID js) (cj_Version js)
                    (Some (json_Unmarshal raw
                      (mkPayload (reflectType_name typ) (reflectType_zero typ))).1) ∧
            (json_Unmarshal raw
               (mkPayload (reflectType_name typ) (reflectType_zero typ))).2 = None).
Proof.
  cbn zeta. unfold Config.UnmarshalJSON, NewConfig. split_and!.
  - intros Hreg [raw Hraw]. rewrite Hraw, Hreg. by cbn.
  - by intros ->.
  - intros raw -> Hok. destruct (default ∅ typeRegistry !! cj_Type js) as [typ|]; [|done].
    exists typ. destruct (json_Unmarshal raw _) as [obj err] eqn:Hj. by cbn in *.
Qed.

Lemma unmarshal_config_registry_witness :
  (Config.UnmarshalJSON exampleDecoder exampleRegistry (mkConfig "" "" 0 None)
     (inr (mkConfigJSON "other" "a" 1 (Some "x")))).2
    = Some "unknown config type 'other'" ∧
  Config.UnmarshalJSON exampleDecoder exampleRegistry (mkConfig "" "" 0 None)
     (inr (mkConfigJSON "other" "a" 1 None))
    = (mkConfig "other" "a" 1 None, None) ∧
  ∃ typ, default ∅ exampleRegistry !! "test" = Some typ ∧
    (Config.UnmarshalJSON exampleDecoder exampleRegistry (mkConfig "" "" 0 None)
       (inr (mkConfigJSON "test" "a" 1 (Some "x")))).1
      = mkConfig "test" "a" 1
          (Some (exampleDecoder "x"
                   (mkPayload (reflectType_name typ) (reflectType_zero typ))).1).
Proof.
  split_and!.
  - apply (unmarshal_config_registry exampleDecoder exampleRegistry
             (mkConfig "" "" 0 None) (mkConfigJSON "other" "a" 1 (Some "x")));
      [reflexivity | by eexists].
  - apply (unmarshal_config_registry exampleDecoder exampleRegistry
             (mkConfig "" "" 0 None) (mkConfigJSON "other" "a" 1 None)).
    reflexivity.
  - destruct (unmarshal_config_registry exampleDecoder exampleRegistry
                (mkConfig "" "" 0 None) (mkConfigJSON "test" "a" 1 (Some "x")))
      as (_ & _ & H).
    destruct (H "x" eq_refl eq_refl) as (typ & Hreg & _ & Hr & _).
    exists typ. split; [exact Hreg | exact Hr].
Defined.

(** * Loading an append-only file (C8) *)

Section Load.
Context (o : Oracle).
Context (crc32_ChecksumIEEE : string → N).
Context (strconv_ParseUint : string → option N).
Context (json_Unmarshal_Config : string → Config * error).
Context (json_Unmarshal_Tombstone : string → Tombstone * error).

(** A line of fewer than 18 bytes, its newline counted, makes [loadLine]
    panic, whatever the line holds. *)
Lemma loadLine_short db line w :
  (String.length line < 18)%nat →
  ∃ msg, (AOFConfigDB.loadLine crc32_ChecksumIEEE strconv_ParseUint
            json_Unmarshal_Config json_Unmarshal_Tombstone db line w).1 = Panic msg.
Proof.
  intros Hlen.
  do 18 (destruct line as [|? line]; [vm_compute; eauto|]).
  cbn in Hlen. lia.
Qed.

(** C8.  Loading the file that holds the single line [garbage] does not
    return: [loadLine] slices the line before it checks anything and
    panics, whatever the library functions are. *)
Theorem load_short_line_panics :
  (AOFConfigDB.Load o crc32_ChecksumIEEE strconv_ParseUint
     json_Unmarshal_Config json_Unmarshal_Tombstone
     ("garbage" +:+ newline) emptyWorld).1
  = Panic "slice bounds out of range".
Proof. reflexivity. Qed.

(** What follows the last newline of the file is dropped, and no
    corruption is reported for it. *)
Lemma load_partial_line_dropped :
  wp (AOFConfigDB.Load o crc32_ChecksumIEEE strconv_ParseUint
        json_Unmarshal_Config json_Unmarshal_Tombstone "garbage")
     emptyWorld
     (λ x w', x.2 = None ∧ viewCS w' x.1 = ∅ ∧ trace w' = []).
Proof. by vm_compute. Qed.
End Load.

(** * The configurable objects of the router *)

Lemma fpCS_kind w pc l :
  okCS w pc → l ∈ fpCS w pc → ∃ x, mem w !! l = Some x ∧ storeKind x.
Proof.
  intros (cs & tm & Hs & Hviews & Hdisj)%okCS_alt.
  rewrite (elem_of_fpCS _ _ _ _ _ Hs). destruct Hs as [Hpc Htm].
  intros [->|[Hl|(typ & p & Hp & Hl)]].
  - by eexists.
  - rewrite Hl in Htm. cbn in Htm. destruct (mem w !! l) as [[]|] eqn:E; try done.
    by eexists.
  - destruct (fpTC_kind w p l) as (x & Hx & Hk); [eauto|done|].
    exists x. split; [done|]. by destruct x.
Qed.

Lemma configurable_not_fpCS w pc obj :
  okCS w pc → is_Some (objConfigurable w obj) → obj ∉ fpCS w pc.
Proof.
  intros Hok [x Hx] Hin. destruct (fpCS_kind _ _ _ Hok Hin) as (y & Hy & Hk).
  unfold objConfigurable in Hx. rewrite Hy in Hx. by destruct y.
Qed.

Lemma elem_of_configurables w l : l ∈ configurables w ↔ is_Some (objConfigurable w l).
Proof.
  unfold configurables, objConfigurable. rewrite elem_of_dom. split.
  - intros [x [Hx Hk]%map_lookup_filter_Some]. rewrite Hx. by destruct x.
  - intros [y Hy]. destruct (mem w !! l) as [x|] eqn:E; [|done].
    exists x. apply map_lookup_filter_Some. split; [done|]. by destruct x.
Qed.

Lemma fpCS_configurables w pc : okCS w pc → fpCS w pc ## configurables w.
Proof.
  intros Hok l Hl Hc. apply elem_of_configurables in Hc.
  by apply (configurable_not_fpCS w pc l).
Qed.

Lemma callsOnly_refl w : callsOnly w w.
Proof. intros l. by left. Qed.

Lemma callsOnly_mem w w' : mem w' = mem w → callsOnly w w'.
Proof. intros H l. left. by rewrite H. Qed.

Lemma callsOnly_trans w1 w2 w3 : callsOnly w1 w2 → callsOnly w2 w3 → callsOnly w1 w3.
Proof.
  intros H12 H23 l.
  destruct (H12 l) as [E1|(b & r & r' & E1 & E1')], (H23 l) as [E2|(b2 & r2 & r2' & E2 & E2')].
  - left. congruence.
  - right. exists b2, r2, r2'. split; congruence.
  - right. exists b, r, r'. split; congruence.
  - right. exists b, r, r2'. split; [done|]. rewrite E1' in E2. by simplify_eq.
Qed.

Lemma callsOnly_dom w w' : callsOnly w w' → dom (mem w') = dom (mem w).
Proof.
  intros H. apply set_eq. intros l. rewrite !elem_of_dom.
  destruct (H l) as [E|(b & r & r' & E & E')]; rewrite ?E, ?E'; [done|].
  split; eauto.
Qed.

Lemma callsOnly_keeps w w' : callsOnly w w' → keeps (configurables w) w w'.
Proof.
  intros H. split.
  - by rewrite (callsOnly_dom _ _ H).
  - intros l _ Hl. destruct (H l) as [E|(b & r & r' & E & E')]; [done|].
    exfalso. apply Hl, elem_of_configurables. unfold objConfigurable. rewrite E. eauto.
Qed.

Lemma callsOnly_store w w' pc :
  callsOnly w w' → okCS w pc →
  okCS w' pc ∧ typesOf w' pc = typesOf w pc ∧
  viewCS w' pc = viewCS w pc ∧ fpCS w' pc = fpCS w pc.
Proof.
  intros H Hok. eapply viewCS_frame; [by apply callsOnly_keeps|done|].
  by apply fpCS_configurables.
Qed.

Lemma callsOnly_wfStore w w' pc : callsOnly w w' → wfStore w pc → wfStore w' pc.
Proof.
  intros H [Hok Hwf]. destruct (callsOnly_store _ _ _ H Hok) as (Hok' & _ & HV & _).
  split; [done|]. by rewrite HV.
Qed.

Lemma callsOnly_configurable w w' l :
  callsOnly w w' → is_Some (objConfigurable w l) → is_Some (objConfigurable w' l).
Proof.
  intros H. unfold objConfigurable.
  destruct (H l) as [E|(b & r & r' & E & E')]; rewrite ?E, ?E'; eauto.
Qed.

Lemma callsOnly_behaviour w w' l b r :
  callsOnly w w' → objConfigurable w l = Some (b, r) →
  ∃ r', objConfigurable w' l = Some (b, r').
Proof.
  intros H. unfold objConfigurable.
  destruct (H l) as [E|(b1 & r1 & r' & E & E')]; rewrite ?E, ?E'.
  - eauto.
  - intros ?; simplify_eq. eauto.
Qed.

Lemma callsOnly_routerState w w' l :
  callsOnly w w' → objRouterState w' l = objRouterState w l.
Proof.
  intros H. unfold objRouterState.
  destruct (H l) as [E|(b & r & r' & E & E')]; by rewrite ?E, ?E'.
Qed.

Lemma callsOnly_router w w' l : callsOnly w w' → objRouter w' l = objRouter w l.
Proof.
  intros H. unfold objRouter.
  destruct (H l) as [E|(b & r & r' & E & E')]; by rewrite ?E, ?E'.
Qed.

Lemma callsOnly_viewRS w w' state :
  callsOnly w w' → wfRS ∅ w state → viewRS w' state = viewRS w state.
Proof.
  intros H [_ Hwf]. unfold viewRS. rewrite (callsOnly_routerState _ _ _ H).
  destruct (objRouterState w state) as [s|]; [|done].
  destruct Hwf as ([Hok _] & _). by destruct (callsOnly_store _ _ _ H Hok) as (_ & _ & ? & _).
Qed.

(** ** Delivering calls *)

Lemma deliver_other w x l : l ≠ x.1 → mem (deliver w x) !! l = mem w !! l.
Proof.
  intros Hne. unfold deliver. destruct (objConfigurable w x.1) as [[b r]|]; [|done].
  cbn. by rewrite lookup_insert_ne.
Qed.

Lemma deliver_callsOnly w x : callsOnly w (deliver w x).
Proof.
  intros l. unfold deliver. destruct (objConfigurable w x.1) as [[b r]|] eqn:E; [|by left].
  cbn. destruct (decide (l = x.1)) as [->|Hne].
  - right. exists b, r, (r ++ [x.2]). rewrite lookup_insert_eq. split; [|done].
    unfold objConfigurable in E. destruct (mem w !! x.1) as [[]|]; by simplify_eq.
  - left. by rewrite lookup_insert_ne.
Qed.

Lemma deliver_all_callsOnly calls w : callsOnly w (foldl deliver w calls).
Proof.
  revert w. induction calls as [|x calls IH]; intros w; cbn; [apply callsOnly_refl|].
  eapply callsOnly_trans; [apply deliver_callsOnly|apply IH].
Qed.

Lemma deliver_all_other calls w l :
  l ∉ calls.*1 → mem (foldl deliver w calls) !! l = mem w !! l.
Proof.
  revert w. induction calls as [|x calls IH]; intros w Hl; cbn; [done|].
  cbn in Hl. apply not_elem_of_cons in Hl as [Hne Hl].
  rewrite IH by done. by apply deliver_other.
Qed.

Lemma deliver_received w x obj b r :
  objConfigurable w obj = Some (b, r) →
  objConfigurable (deliver w x) obj =
    Some (b, r ++ if bool_decide (x.1 = obj) then [x.2] else []).
Proof.
  intros E. unfold deliver. case_bool_decide as Hx.
  - rewrite Hx, E. unfold objConfigurable. cbn. by rewrite lookup_insert_eq.
  - destruct (objConfigurable w x.1) as [[b' r']|] eqn:E'.
    + unfold objConfigurable. cbn. rewrite lookup_insert_ne by done.
      fold (objConfigurable w obj). by rewrite E, app_nil_r.
    + by rewrite E, app_nil_r.
Qed.

Lemma deliver_all_received calls w obj b r :
  objConfigurable w obj = Some (b, r) →
  objConfigurable (foldl deliver w calls) obj =
    Some (b, r ++ (filter (λ x, x.1 = obj) calls).*2).
Proof.
  revert w r. induction calls as [|x calls IH]; intros w r E; cbn [foldl].
  - by rewrite filter_nil, app_nil_r.
  - rewrite (IH _ _ (deliver_received w x obj b r E)).
    rewrite filter_cons. case_bool_decide as Hx.
    + rewrite decide_True by done. cbn. by rewrite <-app_assoc.
    + rewrite decide_False by done. by rewrite app_nil_r.
Qed.

Lemma deliver_all_trace calls w :
  Forall (λ x, is_Some (objConfigurable w x.1)) calls →
  trace (foldl deliver w calls) = trace w ++ ((λ x, ConfigurableCall x.1 x.2) <$> calls) ∧
  clock (foldl deliver w calls) = clock w.
Proof.
  revert w. induction calls as [|x calls IH]; intros w Hall; cbn.
  - by rewrite app_nil_r.
  - apply Forall_cons in Hall as [[[b r] Hx] Hall].
    destruct (IH (deliver w x)) as [Ht Hc].
    { eapply Forall_impl; [done|]. intros y Hy. cbn in Hy.
      by eapply callsOnly_configurable; [apply deliver_callsOnly|]. }
    rewrite Ht, Hc. unfold deliver. rewrite Hx. cbn. by rewrite <-app_assoc.
Qed.

Lemma filter_replaceCalls old c objs obj :
  (filter (λ x : loc * Call, x.1 = obj) (replaceCalls old c objs)).*2 =
  filter (λ x, x = obj) objs ≫= λ _,
    match old with Some o => [CallDeadConfig o] | None => [] end ++ [CallNewConfig c].
Proof.
  unfold replaceCalls. induction objs as [|x objs IH]; [done|].
  cbn [mbind list_bind]. rewrite filter_app, fmap_app, IH, filter_cons.
  destruct (decide (x = obj)) as [->|Hne].
  - cbn [mbind list_bind]. f_equal.
    destruct old; cbn; rewrite ?filter_cons, ?decide_True by done; done.
  - rewrite <-(app_nil_l (filter _ objs ≫= _)) at 2. f_equal.
    destruct old; cbn; rewrite ?filter_cons, ?decide_False by done; done.
Qed.

Lemma filter_killCalls old objs obj :
  (filter (λ x : loc * Call, x.1 = obj) (killCalls old objs)).*2 =
  filter (λ x, x = obj) objs ≫= λ _,
    match old with Some o => [CallDeadConfig o] | None => [] end.
Proof.
  unfold killCalls. destruct old as [o|].
  - induction objs as [|x objs IH]; [done|].
    cbn [fmap list_fmap]. rewrite !filter_cons. cbn [fst].
    destruct (decide (x = obj)); cbn; by rewrite IH.
  - cbn. induction (filter _ objs) as [|? ? IH]; [done|]. by cbn.
Qed.

(** ** The methods of a configurable object *)

Lemma wp_call w obj b r c Q :
  objConfigurable w obj = Some (b, r) →
  Q (failure b r c) (deliver w (obj, c)) →
  wp (Configurable.call obj c) w Q.
Proof.
  intros E HQ. unfold Configurable.call, readConfigurable.
  assert (Hm : mem w !! obj = Some (ObjConfigurable b r)).
  { unfold objConfigurable in E. destruct (mem w !! obj) as [[]|]; by simplify_eq. }
  apply wp_bind, wp_bind. eapply wp_read; [done|]. apply wp_ret.
  apply wp_bind, wp_emit. apply wp_bind, wp_write. apply wp_ret.
  unfold deliver in HQ. cbn [fst snd] in HQ. by rewrite E in HQ.
Qed.

Lemma wp_Configurable_types w obj b r Q :
  objConfigurable w obj = Some (b, r) →
  Q (AllowedConfigTypes b) w →
  wp (Configurable.types obj) w Q.
Proof.
  intros E HQ. unfold Configurable.types, readConfigurable.
  assert (Hm : mem w !! obj = Some (ObjConfigurable b r)).
  { unfold objConfigurable in E. destruct (mem w !! obj) as [[]|]; by simplify_eq. }
  apply wp_bind, wp_bind. eapply wp_read; [done|]. apply wp_ret. by apply wp_ret.
Qed.

Lemma wp_Configurable_Copy w obj b r Q :
  objConfigurable w obj = Some (b, r) →
  (∀ l, mem w !! l = None → Q l (upd w l (ObjConfigurable b r))) →
  wp (Configurable.Copy obj) w Q.
Proof.
  intros E HQ. unfold Configurable.Copy, readConfigurable.
  assert (Hm : mem w !! obj = Some (ObjConfigurable b r)).
  { unfold objConfigurable in E. destruct (mem w !! obj) as [[]|]; by simplify_eq. }
  apply wp_bind, wp_bind. eapply wp_read; [done|]. apply wp_ret. by apply wp_alloc.
Qed.

Lemma wp_emits {A} (f : A → Event) (l : list A) w Q :
  Q tt (announce w (f <$> l)) → wp (forM l (λ x, emit (f x))) w Q.
Proof.
  revert w. induction l as [|x l IH]; intros w HQ; cbn [forM].
  - apply wp_ret. unfold announce in HQ. cbn in HQ. rewrite app_nil_r in HQ. by destruct w.
  - apply wp_bind, wp_emit. apply IH. unfold announce in *. cbn in *.
    by rewrite <-app_assoc.
Qed.

(** * [routerState.NewConfig] and [routerState.DeadConfig] *)

Lemma wp_readRouterState w state s Q :
  objRouterState w state = Some s → Q s w → wp (readRouterState state) w Q.
Proof.
  intros E HQ. unfold readRouterState.
  assert (Hm : mem w !! state = Some (ObjRouterState s)).
  { unfold objRouterState in E. destruct (mem w !! state) as [[]|]; by simplify_eq. }
  apply wp_bind. eapply wp_read; [done|]. by apply wp_ret.
Qed.

Lemma configurable_all_callsOnly w w' (objs : list loc) :
  callsOnly w w' →
  Forall (λ obj, is_Some (objConfigurable w obj)) objs →
  Forall (λ obj, is_Some (objConfigurable w' obj)) objs.
Proof.
  intros H Hall. eapply Forall_impl; [done|]. intros obj. by apply callsOnly_configurable.
Qed.

Lemma wp_replaceIn old c objs errs w Q :
  Forall (λ obj, is_Some (objConfigurable w obj)) objs →
  (∀ errs', Q errs' (foldl deliver w (replaceCalls old c objs))) →
  wp (routerState.replaceIn old c errs objs) w Q.
Proof.
  unfold routerState.replaceIn. revert errs w.
  induction objs as [|obj objs IH]; intros errs w Hall HQ; cbn [foldM].
  - apply wp_ret, HQ.
  - apply Forall_cons in Hall as [[[b r] Hobj] Hall].
    unfold replaceCalls in HQ. cbn [mbind list_bind] in HQ.
    fold (replaceCalls old c objs) in HQ.
    apply wp_bind, wp_bind. destruct old as [o|].
    + unfold Configurable.DeadConfig, Configurable.NewConfig.
      apply wp_bind. eapply wp_call; [done|]. apply wp_ret.
      pose proof (deliver_received w (obj, CallDeadConfig o) obj b r Hobj) as Hobj'.
      apply wp_bind. eapply wp_call; [done|]. apply wp_ret.
      apply IH.
      * eapply configurable_all_callsOnly; [|done].
        eapply callsOnly_trans; apply deliver_callsOnly.
      * intros errs'. specialize (HQ errs'). cbn in HQ. by rewrite foldl_app in HQ || done.
    + unfold Configurable.NewConfig.
      apply wp_ret. apply wp_bind. eapply wp_call; [done|]. apply wp_ret.
      apply IH.
      * eapply configurable_all_callsOnly; [|done]. apply deliver_callsOnly.
      * intros errs'. specialize (HQ errs'). by cbn in HQ.
Qed.

Lemma wp_killIn old objs errs w Q :
  Forall (λ obj, is_Some (objConfigurable w obj)) objs →
  (∀ errs', Q errs' (foldl deliver w (killCalls (Some old) objs))) →
  wp (routerState.killIn old errs objs) w Q.
Proof.
  unfold routerState.killIn. revert errs w.
  induction objs as [|obj objs IH]; intros errs w Hall HQ; cbn [foldM].
  - apply wp_ret, HQ.
  - apply Forall_cons in Hall as [[[b r] Hobj] Hall].
    apply wp_bind, wp_bind. unfold Configurable.DeadConfig.
    eapply wp_call; [done|]. apply wp_ret.
    apply IH.
    + eapply configurable_all_callsOnly; [|done]. apply deliver_callsOnly.
    + intros errs'. apply (HQ errs').
Qed.

Lemma replaceCalls_app old c l1 l2 :
  replaceCalls old c (l1 ++ l2) = replaceCalls old c l1 ++ replaceCalls old c l2.
Proof. unfold replaceCalls. apply bind_app. Qed.

Lemma killCalls_app old l1 l2 :
  killCalls old (l1 ++ l2) = killCalls old l1 ++ killCalls old l2.
Proof. unfold killCalls. destruct old; [apply fmap_app|done]. Qed.

Lemma announce_announce w e1 e2 : announce (announce w e1) e2 = announce w (e1 ++ e2).
Proof. unfold announce. cbn. by rewrite app_assoc. Qed.

Lemma callsOnly_announce w events : callsOnly w (announce w events).
Proof. by apply callsOnly_mem. Qed.

(** A configurable object is not part of a container, so what the
    container writes leaves it as it was. *)
Lemma configurable_evolves w w1 pc obj :
  okCS w pc → keeps (fpCS w pc) w w1 → is_Some (objConfigurable w obj) →
  objConfigurable w1 obj = objConfigurable w obj.
Proof.
  intros Hok [Hd Hm] Hobj. unfold objConfigurable. rewrite Hm; [done| |].
  - destruct Hobj as [x Hx]. unfold objConfigurable in Hx.
    destruct (mem w !! obj) eqn:E; [|done]. by apply elem_of_dom_2 in E.
  - by apply configurable_not_fpCS.
Qed.

Lemma wp_RS_NewConfig w state s c Q :
  objRouterState w state = Some s →
  okCS w (routerState_Configs s) →
  Forall (λ obj, is_Some (objConfigurable w obj)) (routedTo s (Config_Type c)) →
  (∀ w1 err,
     okCS w1 (routerState_Configs s) →
     viewCS w1 (routerState_Configs s) =
       applyValue (viewCS w (routerState_Configs s)) (Live c) →
     evolves w w1 (fpCS w (routerState_Configs s)) (fpCS w1 (routerState_Configs s)) →
     trace w1 = trace w →
     Q err
       (let v := typedAt (viewCS w (routerState_Configs s)) (Config_Type c) in
        if acceptsConfig v (Config_ID c) (Config_Version c) then
          foldl deliver
            (announce w1 ((λ h, HandlerNewConfig (Handler_name h) c) <$>
                            handlersFor s (Config_Type c)))
            (replaceCalls (live v !! Config_ID c) c (routedTo s (Config_Type c)))
        else w1)) →
  wp (routerState.NewConfig state c) w Q.
Proof.
  intros Hs Hok Hobjs HQ. unfold routerState.NewConfig.
  apply wp_bind. eapply wp_readRouterState; [done|].
  apply wp_bind. apply wp_CS_NewConfig; [done|].
  intros w1 Hok1 HV1 Hev1 Htr1. cbn zeta.
  specialize (HQ w1). cbn zeta in HQ.
  destruct (acceptsConfig _ _ _) eqn:Hacc; cbn [negb].
  2:{ apply wp_ret. by apply HQ. }
  assert (Hobjs1 : Forall (λ obj, is_Some (objConfigurable w1 obj))
                     (routedTo s (Config_Type c))).
  { eapply Forall_impl; [done|]. intros obj Hobj. cbn.
    rewrite (configurable_evolves w w1 (routerState_Configs s)); [done..|by destruct Hev1|done]. }
  apply wp_bind, wp_emits. apply wp_bind.
  set (old := live (typedAt (viewCS w (routerState_Configs s)) (Config_Type c)) !! Config_ID c) in *.
  set (f := λ h, HandlerNewConfig (Handler_name h) c) in *.
  assert (Hann : wp (match typedHandlers s !! Config_Type c with
                 | Some handlers => forM handlers (λ handler, emit (f handler))
                 | None => ret tt
                 end) (announce w1 (f <$> untypedHandlers s))
            (λ _ w', w' = announce w1 (f <$> handlersFor s (Config_Type c)))).
  { unfold handlersFor. destruct (typedHandlers s !! Config_Type c) as [hs|]; cbn.
    - apply wp_emits. by rewrite announce_announce, fmap_app.
    - apply wp_ret. by rewrite app_nil_r. }
  eapply wp_mono; [apply Hann|]. intros [] w2 ->.
  set (w2 := announce w1 _).
  assert (Hobjs2 : Forall (λ obj, is_Some (objConfigurable w2 obj))
                     (routedTo s (Config_Type c))).
  { eapply configurable_all_callsOnly; [apply callsOnly_announce|done]. }
  unfold routedTo in *. apply Forall_app in Hobjs2 as [Hu Ht].
  apply wp_bind. apply wp_replaceIn; [done|]. intros errs1.
  apply wp_bind.
  destruct (typedStates s !! Config_Type c) as [typed|]; cbn [default] in *.
  - apply wp_replaceIn.
    { eapply configurable_all_callsOnly; [apply deliver_all_callsOnly|done]. }
    intros errs2. apply wp_ret. rewrite <-foldl_app, <-replaceCalls_app. apply HQ; done.
  - apply wp_ret, wp_ret. rewrite app_nil_r in HQ. apply HQ; done.
Qed.

Lemma wp_RS_DeadConfig w state s t Q :
  objRouterState w state = Some s →
  okCS w (routerState_Configs s) →
  Forall (λ obj, is_Some (objConfigurable w obj)) (routedTo s (Tombstone_Type t)) →
  (∀ w1 err,
     okCS w1 (routerState_Configs s) →
     viewCS w1 (routerState_Configs s) =
       applyValue (viewCS w (routerState_Configs s)) (Dead t) →
     evolves w w1 (fpCS w (routerState_Configs s)) (fpCS w1 (routerState_Configs s)) →
     trace w1 = trace w →
     Q err
       (let v := typedAt (viewCS w (routerState_Configs s)) (Tombstone_Type t) in
        if acceptsTombstone v (Tombstone_ID t) (Tombstone_Version t) then
          foldl deliver
            (announce w1 ((λ h, HandlerDeadConfig (Handler_name h) t) <$>
                            handlersFor s (Tombstone_Type t)))
            (killCalls (live v !! Tombstone_ID t) (routedTo s (Tombstone_Type t)))
        else w1)) →
  wp (routerState.DeadConfig state t) w Q.
Proof.
  intros Hs Hok Hobjs HQ. unfold routerState.DeadConfig.
  apply wp_bind. eapply wp_readRouterState; [done|].
  apply wp_bind. apply wp_CS_DeadConfig; [done|].
  intros w1 Hok1 HV1 Hev1 Htr1. cbn zeta.
  specialize (HQ w1). cbn zeta in HQ.
  destruct (acceptsTombstone _ _ _) eqn:Hacc; cbn [negb].
  2:{ apply wp_ret. by apply HQ. }
  assert (Hobjs1 : Forall (λ obj, is_Some (objConfigurable w1 obj))
                     (routedTo s (Tombstone_Type t))).
  { eapply Forall_impl; [done|]. intros obj Hobj. cbn.
    rewrite (configurable_evolves w w1 (routerState_Configs s)); [done..|by destruct Hev1|done]. }
  apply wp_bind, wp_emits. apply wp_bind.
  set (old := live (typedAt (viewCS w (routerState_Configs s)) (Tombstone_Type t))
                !! Tombstone_ID t) in *.
  set (f := λ h, HandlerDeadConfig (Handler_name h) t) in *.
  assert (Hann : wp (match typedHandlers s !! Tombstone_Type t with
                 | Some handlers => forM handlers (λ handler, emit (f handler))
                 | None => ret tt
                 end) (announce w1 (f <$> untypedHandlers s))
            (λ _ w', w' = announce w1 (f <$> handlersFor s (Tombstone_Type t)))).
  { unfold handlersFor. destruct (typedHandlers s !! Tombstone_Type t) as [hs|]; cbn.
    - apply wp_emits. by rewrite announce_announce, fmap_app.
    - apply wp_ret. by rewrite app_nil_r. }
  eapply wp_mono; [apply Hann|]. intros [] w2 ->.
  set (w2 := announce w1 _).
  assert (Hobjs2 : Forall (λ obj, is_Some (objConfigurable w2 obj))
                     (routedTo s (Tombstone_Type t))).
  { eapply configurable_all_callsOnly; [apply callsOnly_announce|done]. }
  destruct old as [o|].
  2:{ apply wp_ret. by apply HQ. }
  unfold routedTo in *. apply Forall_app in Hobjs2 as [Hu Ht].
  apply wp_bind. apply wp_killIn; [done|]. intros errs1.
  apply wp_bind.
  destruct (typedStates s !! Tombstone_Type t) as [typed|]; cbn [default] in *.
  - apply wp_killIn.
    { eapply configurable_all_callsOnly; [apply deliver_all_callsOnly|done]. }
    intros errs2. apply wp_ret. rewrite <-foldl_app, <-(killCalls_app (Some o)). apply HQ; done.
  - apply wp_ret, wp_ret. rewrite app_nil_r in HQ. apply HQ; done.
Qed.

(** * What the derived states receive when a config is replaced (C7) *)

Lemma replaceCalls_events old c objs :
  (λ x : loc * Call, ConfigurableCall x.1 x.2) <$> replaceCalls (Some old) c objs =
  objs ≫= λ obj,
    [ConfigurableCall obj (CallDeadConfig old); ConfigurableCall obj (CallNewConfig c)].
Proof. unfold replaceCalls. by rewrite fmap_bind_list. Qed.

Lemma replaceCalls_configurable w old c objs :
  Forall (λ obj, is_Some (objConfigurable w obj)) objs →
  Forall (λ x : loc * Call, is_Some (objConfigurable w x.1)) (replaceCalls old c objs).
Proof.
  intros Hall. unfold replaceCalls. apply Forall_bind.
  eapply Forall_impl; [done|]. intros obj Hobj. cbn beta.
  destruct old; repeat constructor; done.
Qed.

Lemma killCalls_configurable w old objs :
  Forall (λ obj, is_Some (objConfigurable w obj)) objs →
  Forall (λ x : loc * Call, is_Some (objConfigurable w x.1)) (killCalls old objs).
Proof.
  intros Hall. unfold killCalls. destruct old; [|constructor].
  apply Forall_fmap. eapply Forall_impl; [done|]. by intros obj Hobj.
Qed.

Lemma entryOf_withConfig v c :
  acceptsConfig v (Config_ID c) (Config_Version c) = true →
  entryOf (withConfig v c) (Config_ID c) = (mkConfigResult (Some c) None, true).
Proof.
  intros Hacc. unfold withConfig, entryOf. rewrite Hacc. cbn [live dead].
  by rewrite lookup_insert_eq.
Qed.

(** C7.  When [routerState.NewConfig] is given a config [c] whose type
    and ID hold the live config [old] of a lower version, the handlers for
    the type are notified of [c], and then every object routed for the
    type, the untyped ones before the typed ones, receives
    [DeadConfig(old)] and then [NewConfig(c)]; nothing else is sent, each
    object has received these two calls after what it had received, once
    for every time it is routed, and the container holds [c]. *)
Theorem replace_notifies (w : world) (state : loc) (s : routerState) (c old : Config) :
  objRouterState w state = Some s →
  okCS w (routerState_Configs s) →
  Forall (λ obj, is_Some (objConfigurable w obj)) (routedTo s (Config_Type c)) →
  live (typedAt (viewCS w (routerState_Configs s)) (Config_Type c)) !! Config_ID c
    = Some old →
  (Config_Version old < Config_Version c)%N →
  wp (routerState.NewConfig state c) w (λ _ w',
    trace w' =
      trace w
      ++ ((λ h, HandlerNewConfig (Handler_name h) c) <$> handlersFor s (Config_Type c))
      ++ (routedTo s (Config_Type c) ≫= λ obj,
            [ConfigurableCall obj (CallDeadConfig old);
             ConfigurableCall obj (CallNewConfig c)]) ∧
    (∀ obj b r,
       objConfigurable w obj = Some (b, r) →
       objConfigurable w' obj =
         Some (b, r ++ (filter (λ x, x = obj) (routedTo s (Config_Type c)) ≫= λ _,
                          [CallDeadConfig old; CallNewConfig c]))) ∧
    wp (Configs.Get (routerState_Configs s) (Config_Type c) (Config_ID c)) w'
       (λ r _, r = (mkConfigResult (Some c) None, true))).
Proof.
  intros Hs Hok Hobjs Hold Hver.
  assert (Hacc : acceptsConfig (typedAt (viewCS w (routerState_Configs s)) (Config_Type c))
                   (Config_ID c) (Config_Version c) = true).
  { unfold acceptsConfig. rewrite Hold. by apply N.ltb_lt. }
  apply (wp_RS_NewConfig w state s c); [done..|].
  intros w1 _ Hok1 HV1 Hev1 Htr1. cbn zeta. rewrite Hacc, Hold.
  set (w2 := announce w1 _). set (calls := replaceCalls _ _ _).
  assert (Hobjs2 : Forall (λ obj, is_Some (objConfigurable w2 obj))
                     (routedTo s (Config_Type c))).
  { eapply Forall_impl; [done|]. intros obj Hobj. cbn beta.
    unfold objConfigurable, w2, announce. cbn [mem]. fold (objConfigurable w1 obj).
    rewrite (configurable_evolves w w1 (routerState_Configs s)); [done..|by destruct Hev1|done]. }
  split_and!.
  - destruct (deliver_all_trace calls w2) as [-> _].
    { by apply replaceCalls_configurable. }
    unfold calls. rewrite replaceCalls_events. unfold w2, announce. cbn [trace].
    by rewrite Htr1, <-app_assoc.
  - intros obj b r Hobj.
    rewrite (deliver_all_received calls w2 obj b r).
    + unfold calls. by rewrite filter_replaceCalls.
    + unfold objConfigurable, w2, announce. cbn [mem]. fold (objConfigurable w1 obj).
      rewrite (configurable_evolves w w1 (routerState_Configs s)); [done..|by destruct Hev1|].
      by rewrite Hobj.
  - assert (Hco : callsOnly w1 (foldl deliver w2 calls)).
    { eapply callsOnly_trans; [apply callsOnly_announce|apply deliver_all_callsOnly]. }
    destruct (callsOnly_store _ _ _ Hco Hok1) as (Hok' & _ & HV' & _).
    apply wp_CS_Get; [done|]. rewrite HV', HV1. cbn [applyValue].
    unfold typedAt at 1. rewrite lookup_insert_eq. cbn [default].
    by apply entryOf_withConfig.
Qed.

(** Scenario S3: after [newConfig(a,1)] the registered object has received
    [NewConfig(a,1)]; [newConfig(a,2)] makes that [NewConfig(a,1)],
    [DeadConfig(a,1)], [NewConfig(a,2)]. *)
Lemma replace_notifies_witness :
  objConfigurable registeredWorld registeredObject = Some (quiet, [CallNewConfig configA1]) ∧
  wp (routerState.NewConfig registeredState configA2) registeredWorld (λ _ w',
    objConfigurable w' registeredObject =
      Some (quiet, [CallNewConfig configA1; CallDeadConfig configA1; CallNewConfig configA2])).
Proof.
  split; [reflexivity|].
  eapply wp_mono.
  - eapply (replace_notifies registeredWorld registeredState _ configA2 configA1).
    + vm_compute. reflexivity.
    + by_compute.
    + by_compute.
    + vm_compute. reflexivity.
    + vm_compute. reflexivity.
  - intros _ w' (_ & Hrec & _).
    exact (Hrec registeredObject quiet [CallNewConfig configA1] eq_refl).
Defined.

(** * [routerState.registerState] and [routerState.Copy] *)

Lemma upd_upd w l x y : upd (upd w l x) l y = upd w l y.
Proof. unfold upd. cbn. by rewrite insert_insert_eq. Qed.

Lemma objRouterState_Some w state s :
  objRouterState w state = Some s ↔ mem w !! state = Some (ObjRouterState s).
Proof.
  unfold objRouterState. destruct (mem w !! state) as [[]|]; split; intros; by simplify_eq.
Qed.

Lemma objConfigurable_Some w obj b r :
  objConfigurable w obj = Some (b, r) ↔ mem w !! obj = Some (ObjConfigurable b r).
Proof.
  unfold objConfigurable. destruct (mem w !! obj) as [[]|]; split; intros; by simplify_eq.
Qed.

Lemma objRouter_Some w router state :
  objRouter w router = Some state ↔ mem w !! router = Some (ObjRouter state).
Proof.
  unfold objRouter. destruct (mem w !! router) as [[]|]; split; intros; by simplify_eq.
Qed.

(** [registerState] without the notifications, on a key that is not
    registered yet. *)
Lemma wp_RS_registerState_quiet o w state s key obj b r cs tm Q :
  objRouterState w state = Some s →
  KeyedStates s !! key = None →
  objConfigurable w obj = Some (b, r) →
  storeAt w (routerState_Configs s) cs tm →
  Q tt (upd w state (ObjRouterState (addState s key obj (AllowedConfigTypes b)))) →
  wp (routerState.registerState o state key obj false) w Q.
Proof.
  intros Hs%objRouterState_Some Hkey Hobj [Hpc Htm] HQ.
  pose proof Hobj as Hobj'%objConfigurable_Some.
  assert (Hne : obj ≠ state) by congruence.
  assert (Hnepc : routerState_Configs s ≠ state) by congruence.
  unfold routerState.registerState, addState in *.
  apply wp_bind. eapply wp_readRouterState; [by apply objRouterState_Some|].
  rewrite Hkey. apply wp_bind, wp_write.
  apply wp_bind. eapply (wp_Configurable_types _ obj b r).
  { apply objConfigurable_Some. cbn. by rewrite lookup_insert_ne. }
  case_bool_decide as Hty.
  - apply wp_bind. eapply wp_readRouterState.
    { apply objRouterState_Some. cbn. by rewrite lookup_insert_eq. }
    apply wp_bind, wp_write. apply wp_ret. by rewrite upd_upd.
  - eapply (wp_forM (λ done wi, wi = upd w state (ObjRouterState
        (mkRouterState (routerState_Configs s) (<[key := obj]> (KeyedStates s))
           (foldl (λ table typ, appendAt typ obj table) (typedStates s) done)
           (untypedStates s) (untypedHandlers s) (typedHandlers s))))).
    + done.
    + intros done typ rest wi _ ->.
      apply wp_bind. eapply wp_readRouterState.
      { apply objRouterState_Some. cbn. by rewrite lookup_insert_eq. }
      cbn [routerState_Configs KeyedStates typedStates untypedStates untypedHandlers
           typedHandlers].
      apply wp_bind, wp_write. rewrite upd_upd.
      apply wp_bind. eapply (wp_readConfigs _ _ cs).
      { cbn. by rewrite lookup_insert_ne. }
      apply wp_bind. eapply (wp_readMapTypes _ _ tm).
      { unfold mapTypesAt in *. destruct (Configs_Types cs) as [l|]; [|done].
        cbn. rewrite lookup_insert_ne; [done|]. intros ->. by rewrite Hs in Htm. }
      rewrite foldl_app. cbn [foldl].
      destruct (tm !! typ); by apply wp_ret.
    + by intros w' ->.
Qed.

(** ** The objects of a state *)

Lemma elem_of_mjoin_values {A} (T : gmap string (list A)) x :
  x ∈ mjoin (map_to_list T).*2 ↔ ∃ k l, T !! k = Some l ∧ x ∈ l.
Proof.
  rewrite list_elem_of_join. split.
  - intros (l & Hx & Hl). apply list_elem_of_fmap in Hl as ([k l'] & -> & Hin).
    apply elem_of_map_to_list in Hin. eauto.
  - intros (k & l & Hk & Hx). exists l. split; [done|].
    apply list_elem_of_fmap. exists (k, l). split; [done|]. by apply elem_of_map_to_list.
Qed.

Lemma elem_of_values {A} (K : gmap string A) x :
  x ∈ (map_to_list K).*2 ↔ ∃ k, K !! k = Some x.
Proof.
  rewrite list_elem_of_fmap. split.
  - intros ([k y] & -> & Hin). apply elem_of_map_to_list in Hin. eauto.
  - intros (k & Hk). exists (k, x). split; [done|]. by apply elem_of_map_to_list.
Qed.

Lemma elem_of_appendAt {A} (T : gmap string (list A)) typs (obj x : A) :
  x ∈ mjoin (map_to_list (foldl (λ table typ, appendAt typ obj table) T typs)).*2 →
  x = obj ∨ x ∈ mjoin (map_to_list T).*2.
Proof.
  revert T. induction typs as [|typ typs IH]; intros T; cbn [foldl]; [by right|].
  intros [->|Hx]%IH; [by left|].
  apply elem_of_mjoin_values in Hx as (k & l & Hk & Hx). unfold appendAt in Hk.
  destruct (decide (k = typ)) as [->|Hne].
  - rewrite lookup_insert_eq in Hk. simplify_eq.
    apply elem_of_app in Hx as [Hx|Hx].
    + right. apply elem_of_mjoin_values. destruct (T !! typ) as [l|] eqn:E; [|by cbn in Hx; set_solver].
      eauto.
    + left. set_solver.
  - rewrite lookup_insert_ne in Hk by done. right. apply elem_of_mjoin_values. eauto.
Qed.

Lemma elem_of_statesOf_addState s key obj types x :
  x ∈ statesOf (addState s key obj types) → x = obj ∨ x ∈ statesOf s.
Proof.
  assert (Hkeyed : (∃ k, <[key := obj]> (KeyedStates s) !! k = Some x) →
                   x = obj ∨ ∃ k, KeyedStates s !! k = Some x).
  { intros (k & Hk). destruct (decide (k = key)) as [->|Hne].
    - rewrite lookup_insert_eq in Hk. left. congruence.
    - rewrite lookup_insert_ne in Hk by done. eauto. }
  unfold statesOf, addState. case_bool_decide;
    cbn [KeyedStates typedStates untypedStates];
    rewrite !elem_of_app, !elem_of_values.
  - intros [[->|?]%Hkeyed|[[Hx|Hx]|Hx]]; auto.
    left. set_solver.
  - intros [[->|?]%Hkeyed|[Hx|[->|Hx]%elem_of_appendAt]]; auto.
Qed.

Lemma statesOf_keyed s key obj : KeyedStates s !! key = Some obj → obj ∈ statesOf s.
Proof.
  intros Hk. unfold statesOf. apply elem_of_app. left. apply elem_of_values. eauto.
Qed.

Lemma statesOf_routedTo s typ obj : obj ∈ routedTo s typ → obj ∈ statesOf s.
Proof.
  unfold routedTo, statesOf. rewrite !elem_of_app. intros [Hx|Hx]; [by eauto|].
  right; right. apply elem_of_mjoin_values.
  destruct (typedStates s !! typ) as [l|] eqn:E; [eauto|]. cbn in Hx. set_solver.
Qed.

(** ** Frames of the predicates *)

Lemma wfStore_ext w w' pc : mem w = mem w' → wfStore w pc → wfStore w' pc.
Proof.
  intros H [Hok Hwf]. split; [by eapply okCS_ext|]. by rewrite <-(viewCS_ext w w').
Qed.

Lemma objConfigurable_ext w w' obj : mem w = mem w' → objConfigurable w obj = objConfigurable w' obj.
Proof. intros H. unfold objConfigurable. by rewrite H. Qed.

Lemma objRouterState_ext w w' l : mem w = mem w' → objRouterState w l = objRouterState w' l.
Proof. intros H. unfold objRouterState. by rewrite H. Qed.

Lemma wfRS_ext old w w' state : mem w = mem w' → wfRS old w state → wfRS old w' state.
Proof.
  intros H [Hst Hwf]. split; [done|]. rewrite <-(objRouterState_ext w w') by done.
  destruct (objRouterState w state) as [s|]; [|done].
  destruct Hwf as (Hs & Hfp & Hall). split_and!.
  - by eapply wfStore_ext.
  - by rewrite <-(fpCS_ext w w').
  - eapply Forall_impl; [done|]. intros obj [? ?]. by rewrite <-(objConfigurable_ext w w').
Qed.

Lemma viewRS_ext w w' state : mem w = mem w' → viewRS w state = viewRS w' state.
Proof.
  intros H. unfold viewRS. rewrite <-(objRouterState_ext w w') by done.
  destruct (objRouterState w state); [|done]. by apply viewCS_ext.
Qed.

Lemma turnInv_ext wb w w' state : mem w' = mem w → turnInv wb state w → turnInv wb state w'.
Proof. intros H [Hk Hwf]. split; [by eapply keeps_ext|by eapply wfRS_ext]. Qed.

Lemma wfRS_weaken old old' w state : old' ⊆ old → wfRS old w state → wfRS old' w state.
Proof.
  intros Hsub [Hst Hwf]. split; [set_solver|].
  destruct (objRouterState w state) as [s|]; [|done].
  destruct Hwf as (Hs & Hfp & Hall). split_and!; [done|set_solver|].
  eapply Forall_impl; [done|]. intros obj [? ?]. split; [set_solver|done].
Qed.

Lemma keeps_lookup w w' l x : keeps ∅ w w' → mem w !! l = Some x → mem w' !! l = Some x.
Proof.
  intros [Hd Hm] Hl. rewrite Hm; [done| |set_solver]. by apply elem_of_dom_2 in Hl.
Qed.

Lemma keeps_fresh F w w' l : keeps F w w' → mem w' !! l = None → mem w !! l = None.
Proof.
  intros [Hd _] Hl. apply not_elem_of_dom. apply not_elem_of_dom in Hl. set_solver.
Qed.

(** ** [Copy] *)

Lemma wp_RS_Copy o w state Q :
  wfRS ∅ w state →
  (∀ w' ns, turnInv w ns w' → viewRS w' ns = viewRS w state → trace w' = trace w →
            Q ns w') →
  wp (routerState.Copy o state) w Q.
Proof.
  intros [_ Hwf] HQ. unfold routerState.Copy.
  destruct (objRouterState w state) as [s|] eqn:Hs; [|done].
  destruct Hwf as (HwfS & _ & Hall).
  set (pc := routerState_Configs s) in *.
  apply wp_bind. eapply wp_readRouterState; [done|].
  apply wp_bind. apply wp_CS_Copy; [by destruct HwfS|by apply wfStore_keyed|].
  intros w1 r Hr Hok1 HV1 Hk1 Hfp1 Htr1.
  apply wp_bind, wp_alloc. intros ns Hns.
  apply wp_bind, wp_range. intros items Hitems.
  set (s0 := mkRouterState r ∅ ∅ [] (untypedHandlers s) (typedHandlers s)).
  assert (Hns0 : mem w !! ns = None) by (by eapply keeps_fresh).
  assert (Hnsfp : ns ∉ fpCS w1 r).
  { intros Hin. apply (fpCS_dom _ _ Hok1) in Hin. by apply not_elem_of_dom in Hns. }
  apply wp_bind.
  eapply (wp_forM (λ done wc,
    keeps ∅ w wc ∧ trace wc = trace w ∧
    ∃ sc, objRouterState wc ns = Some sc ∧ routerState_Configs sc = r ∧
          dom (KeyedStates sc) = list_to_set done.*1 ∧
          okCS wc r ∧ viewCS wc r = viewCS w pc ∧ fpCS wc r ## dom (mem w) ∧
          Forall (λ obj, obj ∉ dom (mem w) ∧ is_Some (objConfigurable wc obj))
            (statesOf sc))).
  - assert (Hk2 : keeps ∅ w1 (tick (upd w1 ns (ObjRouterState s0)))).
    { apply keeps_tick, keeps_upd; [apply keeps_refl|by right]. }
    destruct (viewCS_frame ∅ _ _ r Hk2 Hok1) as (Hok2 & _ & HV2 & Hfp2); [set_solver|].
    split_and!.
    + eapply keeps_trans; [done|]. eapply keeps_weaken; [done|set_solver].
    + done.
    + exists s0. split_and!.
      * apply objRouterState_Some. cbn. by rewrite lookup_insert_eq.
      * done.
      * cbn. set_solver.
      * done.
      * by rewrite HV2, HV1.
      * rewrite Hfp2. set_solver.
      * unfold statesOf, s0. cbn. rewrite !map_to_list_empty. constructor.
  - intros done [key obj] rest wc Hsplit (Hkc & Htrc & sc & Hsc & Hr' & Hdom & Hokc & HVc & Hfpc & Hallc).
    assert (Hkey : KeyedStates s !! key = Some obj).
    { eapply items_lookup; [done|]. rewrite Hsplit. set_solver. }
    assert (Hfresh : key ∉ done.*1) by (by eapply items_fresh_key).
    assert (Hobj : is_Some (objConfigurable w obj)).
    { rewrite Forall_forall in Hall. by apply Hall, statesOf_keyed with key. }
    destruct Hobj as [[b rcv] Hobj].
    assert (Hobjc : objConfigurable wc obj = Some (b, rcv)).
    { apply objConfigurable_Some. eapply keeps_lookup; [done|]. by apply objConfigurable_Some. }
    apply wp_bind. eapply wp_Configurable_Copy; [done|]. intros l Hl.
    destruct (okCS_storeAt _ _ Hokc) as (cs & tm & Hst).
    pose proof Hsc as Hsc'%objRouterState_Some.
    assert (Hlns : l ≠ ns) by congruence.
    assert (Hl0 : mem w !! l = None) by (by eapply keeps_fresh).
    assert (Hlfp : l ∉ fpCS wc r).
    { intros Hin. apply (fpCS_dom _ _ Hokc) in Hin. by apply not_elem_of_dom in Hl. }
    assert (Hnsfpc : ns ∉ fpCS wc r).
    { intros Hin. destruct (fpCS_kind _ _ _ Hokc Hin) as (x & Hx & Hkind).
      rewrite Hsc' in Hx. by simplify_eq. }
    assert (Hk3 : keeps {[l; ns]} wc (upd wc l (ObjConfigurable b rcv))).
    { apply keeps_upd; [apply keeps_refl|left; set_solver]. }
    destruct (viewCS_frame _ _ _ r Hk3 Hokc) as (Hok3 & _ & HV3 & Hfp3); [set_solver|].
    eapply (wp_RS_registerState_quiet o _ ns sc key l b rcv cs tm).
    { apply objRouterState_Some. cbn. by rewrite lookup_insert_ne. }
    { apply not_elem_of_dom. rewrite Hdom. set_solver. }
    { apply objConfigurable_Some. cbn. by rewrite lookup_insert_eq. }
    { rewrite Hr'. eapply storeAt_frame; [exact Hk3|done| |].
      - intros Hin. destruct Hst as [Hpc _].
        apply elem_of_union in Hin as [Hin|Hin]; apply elem_of_singleton in Hin; subst.
        + by rewrite Hl in Hpc.
        + by rewrite Hsc' in Hpc.
      - intros m Hm Hin. destruct Hst as [_ Htm]. rewrite Hm in Htm. cbn in Htm.
        apply elem_of_union in Hin as [Hin|Hin]; apply elem_of_singleton in Hin; subst.
        + by rewrite Hl in Htm.
        + by rewrite Hsc' in Htm. }
    set (w4 := upd (upd wc l _) ns _).
    assert (Hk4 : keeps {[l; ns]} wc w4).
    { apply keeps_upd; [done|left; set_solver]. }
    destruct (viewCS_frame _ _ _ r Hk4 Hokc) as (Hok4 & _ & HV4 & Hfp4); [set_solver|].
    split_and!.
    + unfold w4. apply keeps_upd; [|by right]. apply keeps_upd; [done|by right].
    + done.
    + eexists. split_and!.
      * apply objRouterState_Some. unfold w4. cbn. by rewrite lookup_insert_eq.
      * unfold addState. by case_bool_decide.
      * rewrite fmap_app, list_to_set_app_L. cbn.
        unfold addState. case_bool_decide; cbn; rewrite dom_insert_L, Hdom; set_solver.
      * done.
      * by rewrite HV4, HVc.
      * by rewrite Hfp4.
      * apply Forall_forall. intros x [->|Hx]%elem_of_statesOf_addState.
        -- split; [by apply not_elem_of_dom|].
           unfold objConfigurable, w4. cbn.
           rewrite lookup_insert_ne, lookup_insert_eq by done. eauto.
        -- rewrite Forall_forall in Hallc. destruct (Hallc x Hx) as [Hx0 [y Hy]].
           split; [done|]. destruct y as [b' r'].
           apply objConfigurable_Some in Hy.
           exists (b', r'). apply objConfigurable_Some. unfold w4. cbn.
           rewrite !lookup_insert_ne by congruence. done.
  - intros w' (Hk' & Htr' & sc & Hsc & Hr' & _ & Hok' & HV' & Hfp' & Hall').
    apply wp_ret.
    apply HQ; [|by unfold viewRS; rewrite Hsc, Hs, Hr'|done].
    split; [done|]. split; [by apply not_elem_of_dom|]. rewrite Hsc, Hr'.
    split_and!; [|done|done].
    split; [done|]. rewrite HV'. by destruct HwfS.
Qed.

(** * The mutations of a turn *)

Lemma typedBy_withConfig v c : typedBy (Config_Type c) v → typedBy (Config_Type c) (withConfig v c).
Proof.
  unfold typedBy, withConfig. intros [Hl Hd].
  destruct (acceptsConfig _ _ _); [|done]. cbn [live dead]. split.
  - by apply map_Forall_insert_2.
  - by apply map_Forall_delete.
Qed.

Lemma typedBy_withTombstone v t :
  typedBy (Tombstone_Type t) v → typedBy (Tombstone_Type t) (withTombstone v t).
Proof.
  unfold typedBy, withTombstone. intros [Hl Hd].
  destruct (acceptsTombstone _ _ _); [|done]. cbn [live dead]. split.
  - by apply map_Forall_delete.
  - by apply map_Forall_insert_2.
Qed.

Lemma wfAll_applyValue V m :
  map_Forall (λ typ v, wfTyped v ∧ typedBy typ v) V →
  map_Forall (λ typ v, wfTyped v ∧ typedBy typ v) (applyValue V m).
Proof.
  intros H. destruct m as [c|t]; cbn [applyValue]; apply map_Forall_insert_2; try done.
  - destruct (wfAt_typedAt V (Config_Type c) H) as [[Hk Hs] Ht]. split; [split|].
    + by apply keyedByID_withConfig.
    + by apply singleState_withConfig.
    + by apply typedBy_withConfig.
  - destruct (wfAt_typedAt V (Tombstone_Type t) H) as [[Hk Hs] Ht]. split; [split|].
    + by apply keyedByID_withTombstone.
    + by apply singleState_withTombstone.
    + by apply typedBy_withTombstone.
Qed.

Lemma replaceCalls_fst old c objs x : x ∈ (replaceCalls old c objs).*1 → x ∈ objs.
Proof.
  unfold replaceCalls. rewrite list_elem_of_fmap. intros ([y call] & -> & Hin).
  apply list_elem_of_bind in Hin as (obj & Hin & Hobj).
  destruct old; cbn in Hin; set_solver.
Qed.

Lemma killCalls_fst old objs x : x ∈ (killCalls old objs).*1 → x ∈ objs.
Proof.
  unfold killCalls. destruct old; [|set_solver].
  rewrite <-list_fmap_compose. rewrite list_elem_of_fmap. by intros (y & -> & Hin).
Qed.

(** One mutation of the state of a turn: the container of the state
    changes, then objects of the state receive calls. *)
Lemma turnInv_step wb ns w s w1 wf m :
  turnInv wb ns w → objRouterState w ns = Some s →
  okCS w1 (routerState_Configs s) →
  viewCS w1 (routerState_Configs s) = applyValue (viewCS w (routerState_Configs s)) m →
  evolves w w1 (fpCS w (routerState_Configs s)) (fpCS w1 (routerState_Configs s)) →
  callsOnly w1 wf → (∀ l, l ∉ statesOf s → mem wf !! l = mem w1 !! l) →
  turnInv wb ns wf ∧ viewRS wf ns = applyValue (viewRS w ns) m.
Proof.
  intros [Hk [Hns Hwf]] Hs Hok1 HV1 [Hk1 Hgrow] Hco Hother.
  rewrite Hs in Hwf. destruct Hwf as ([Hok Hall] & Hfp & Hobjs).
  set (pc := routerState_Configs s) in *.
  rewrite Forall_forall in Hobjs.
  assert (Hnsfp : ns ∉ fpCS w pc).
  { intros Hin. destruct (fpCS_kind _ _ _ Hok Hin) as (x & Hx & Hkind).
    apply objRouterState_Some in Hs. rewrite Hs in Hx. by simplify_eq. }
  assert (Hs1 : objRouterState w1 ns = Some s).
  { apply objRouterState_Some. destruct Hk1 as [_ Hm]. rewrite Hm; [by apply objRouterState_Some| |done].
    apply objRouterState_Some in Hs. by apply elem_of_dom_2 in Hs. }
  assert (Hsf : objRouterState wf ns = Some s) by (by rewrite (callsOnly_routerState _ _ _ Hco)).
  destruct (callsOnly_store _ _ _ Hco Hok1) as (Hokf & _ & HVf & Hfpf).
  split.
  - split.
    + destruct Hk as [Hd Hm], Hk1 as [Hd1 Hm1]. split.
      * rewrite (callsOnly_dom _ _ Hco). set_solver.
      * intros l Hl _. rewrite Hother, Hm1, Hm; [done|done|set_solver|set_solver|set_solver|].
        intros Hin. by destruct (Hobjs l Hin).
    + split; [done|]. rewrite Hsf. fold pc. split_and!.
      * split; [done|]. rewrite HVf, HV1. by apply wfAll_applyValue.
      * rewrite Hfpf. destruct Hk as [Hd _]. set_solver.
      * apply Forall_forall. intros obj Hobj. destruct (Hobjs obj Hobj) as [Hold Hc].
        split; [done|]. eapply callsOnly_configurable; [done|].
        by rewrite (configurable_evolves w w1 pc).
  - unfold viewRS. rewrite Hsf, Hs. fold pc. by rewrite HVf.
Qed.

Lemma turnInv_routed wb ns w s typ :
  turnInv wb ns w → objRouterState w ns = Some s →
  okCS w (routerState_Configs s) ∧
  Forall (λ obj, is_Some (objConfigurable w obj)) (routedTo s typ).
Proof.
  intros [_ [_ Hwf]] Hs. rewrite Hs in Hwf. destruct Hwf as ([Hok _] & _ & Hobjs).
  split; [done|]. rewrite Forall_forall in *. intros obj Hobj.
  by destruct (Hobjs obj (statesOf_routedTo _ _ _ Hobj)).
Qed.

Lemma turnInv_state wb ns w : turnInv wb ns w → ∃ s, objRouterState w ns = Some s.
Proof.
  intros [_ [_ Hwf]]. destruct (objRouterState w ns) as [s|]; [eauto|done].
Qed.

Lemma wp_RS_NewConfig_turn wb ns w c Q :
  turnInv wb ns w →
  (∀ w' err, turnInv wb ns w' → viewRS w' ns = applyValue (viewRS w ns) (Live c) →
             Q err w') →
  wp (routerState.NewConfig ns c) w Q.
Proof.
  intros Hinv HQ. destruct (turnInv_state _ _ _ Hinv) as [s Hs].
  destruct (turnInv_routed _ _ _ _ (Config_Type c) Hinv Hs) as [Hok Hobjs].
  apply (wp_RS_NewConfig w ns s c); [done..|].
  intros w1 err Hok1 HV1 Hev1 _. cbn zeta.
  set (wf := if acceptsConfig _ _ _ then _ else _).
  destruct (turnInv_step wb ns w s w1 wf (Live c)) as [Hinv' HV']; try done.
  - unfold wf. destruct (acceptsConfig _ _ _); [|apply callsOnly_refl].
    eapply callsOnly_trans; [apply callsOnly_announce|apply deliver_all_callsOnly].
  - intros l Hl. unfold wf. destruct (acceptsConfig _ _ _); [|done].
    rewrite deliver_all_other; [done|]. intros Hin%replaceCalls_fst.
    by apply Hl, statesOf_routedTo with (Config_Type c).
  - by apply HQ.
Qed.

Lemma wp_RS_DeadConfig_turn wb ns w t Q :
  turnInv wb ns w →
  (∀ w' err, turnInv wb ns w' → viewRS w' ns = applyValue (viewRS w ns) (Dead t) →
             Q err w') →
  wp (routerState.DeadConfig ns t) w Q.
Proof.
  intros Hinv HQ. destruct (turnInv_state _ _ _ Hinv) as [s Hs].
  destruct (turnInv_routed _ _ _ _ (Tombstone_Type t) Hinv Hs) as [Hok Hobjs].
  apply (wp_RS_DeadConfig w ns s t); [done..|].
  intros w1 err Hok1 HV1 Hev1 _. cbn zeta.
  set (wf := if acceptsTombstone _ _ _ then _ else _).
  destruct (turnInv_step wb ns w s w1 wf (Dead t)) as [Hinv' HV']; try done.
  - unfold wf. destruct (acceptsTombstone _ _ _); [|apply callsOnly_refl].
    eapply callsOnly_trans; [apply callsOnly_announce|apply deliver_all_callsOnly].
  - intros l Hl. unfold wf. destruct (acceptsTombstone _ _ _); [|done].
    rewrite deliver_all_other; [done|]. intros Hin%killCalls_fst.
    by apply Hl, statesOf_routedTo with (Tombstone_Type t).
  - by apply HQ.
Qed.

(** ** [PushConfigs] *)

Lemma turnInv_tick wb ns w : turnInv wb ns w → turnInv wb ns (tick w).
Proof. by apply turnInv_ext. Qed.

Lemma viewRS_tick w ns : viewRS (tick w) ns = viewRS w ns.
Proof. symmetry. by apply viewRS_ext. Qed.

(** The container that is pushed is one of the store the turn started
    from: the turn reads it and leaves it as it was.  The state holds
    afterwards what the mutations [ms] make of what it held, and [ms] are
    the entries of the container in some order. *)
Lemma wp_RS_PushConfigs_turn o wb ns w p Q :
  turnInv wb ns w → okCS wb p →
  (∀ w' err ms,
     turnInv wb ns w' →
     viewRS w' ns = foldl applyValue (viewRS w ns) ms →
     ms ≡ₚ (map_to_list (viewCS wb p)).*2 ≫= entriesOf →
     Q err w') →
  wp (routerState.PushConfigs o ns p) w Q.
Proof.
  intros Hinv Hokp HQ. unfold routerState.PushConfigs.
  pose proof Hokp as (cs & tm & Hst & Hviews & _)%okCS_alt.
  set (uOf := λ q, default (mkTyped ∅ ∅) (viewTC wb q)).
  assert (HVp : viewCS wb p = uOf <$> tm) by (by eapply viewCS_fmap).
  assert (Hframe : ∀ wi, turnInv wb ns wi →
            storeAt wi p cs tm ∧ ∀ typ q, tm !! typ = Some q → viewTC wi q = viewTC wb q).
  { intros wi [Hki _]. split.
    - eapply storeAt_frame; [done..|set_solver|set_solver].
    - intros typ q Hq. by destruct (viewTC_frame ∅ wb wi q Hki (Hviews _ _ Hq)) as [? _]; [set_solver|]. }
  destruct (Hframe w Hinv) as [[Hp Htm] _].
  apply wp_bind. eapply wp_readConfigs; [done|].
  apply wp_bind. eapply wp_readMapTypes; [done|].
  apply wp_bind, wp_range. intros items Hitems.
  apply wp_bind.
  eapply (wp_foldM (λ done (errs : list string) wi,
    turnInv wb ns wi ∧
    ∃ ms, viewRS wi ns = foldl applyValue (viewRS w ns) ms ∧
          ms ≡ₚ done ≫= λ x, entriesOf (uOf x.2))).
  - split; [by apply turnInv_tick|]. exists []. by rewrite viewRS_tick.
  - intros done [typ q] rest errs wi Hsplit (Hinvi & ms & HVi & Hms).
    assert (Hq : tm !! typ = Some q).
    { eapply items_lookup; [done|]. rewrite Hsplit. set_solver. }
    destruct (Hviews _ _ Hq) as [u Hu].
    assert (Huof : uOf q = u) by (unfold uOf; by rewrite Hu).
    assert (Hread : ∀ wj, turnInv wb ns wj →
              ∃ tc, mem wj !! q = Some (ObjTypeConfigs tc) ∧
                    mapConfigAt wj (TypeConfigs_Configs tc) = Some (live u) ∧
                    mapTombstoneAt wj (TypeConfigs_Tombstones tc) = Some (dead u)).
    { intros wj Hj. apply viewTC_Some. destruct (Hframe wj Hj) as [_ Hsame].
      by rewrite (Hsame _ _ Hq). }
    destruct (Hread wi Hinvi) as (tc & Htc & Hcm & _).
    apply wp_bind. eapply wp_readTypeConfigs; [done|].
    apply wp_bind. eapply wp_readMapConfig; [done|].
    apply wp_bind, wp_range. intros lives Hlives.
    apply wp_bind.
    eapply (wp_foldM (λ done' (errs : list string) wj,
      turnInv wb ns wj ∧
      viewRS wj ns = foldl applyValue (viewRS w ns) (ms ++ (Live <$> done'.*2)))).
    { split; [by apply turnInv_tick|]. by rewrite viewRS_tick, app_nil_r. }
    { intros done' [k c] rest' errs' wj _ [Hinvj HVj].
      apply wp_bind. eapply wp_RS_NewConfig_turn; [done|].
      intros wj' err Hinvj' HVj'. apply wp_ret. split; [done|].
      rewrite HVj', HVj, !fmap_app, app_assoc, !foldl_app. done. }
    intros errs1 w2 [Hinv2 HV2].
    destruct (Hread w2 Hinv2) as (tc2 & Htc2 & _ & Htm2).
    apply wp_bind. eapply wp_readTypeConfigs; [done|].
    apply wp_bind. eapply wp_readMapTombstone; [done|].
    apply wp_bind, wp_range. intros deads Hdeads.
    eapply (wp_foldM (λ done' (errs : list string) wj,
      turnInv wb ns wj ∧
      viewRS wj ns = foldl applyValue (viewRS w ns)
                       ((ms ++ (Live <$> lives.*2)) ++ (Dead <$> done'.*2)))).
    { split; [by apply turnInv_tick|]. by rewrite viewRS_tick, app_nil_r. }
    { intros done' [k t] rest' errs' wj _ [Hinvj HVj].
      apply wp_bind. eapply wp_RS_DeadConfig_turn; [done|].
      intros wj' err Hinvj' HVj'. apply wp_ret. split; [done|].
      rewrite HVj', HVj, !fmap_app, app_assoc, !foldl_app. done. }
    intros errs2 w3 [Hinv3 HV3]. split; [done|].
    eexists. split; [exact HV3|].
    rewrite bind_snoc, <-app_assoc. apply Permutation_app; [done|].
    cbn [snd]. rewrite Huof. unfold entriesOf. by rewrite Hlives, Hdeads.
  - intros errs w' (Hinv' & ms & HV' & Hms). apply wp_ret.
    apply (HQ w' _ ms); [done..|].
    rewrite Hms, HVp, map_to_list_fmap, Hitems, <-list_fmap_compose, bind_fmap.
    done.
Qed.

(** * What a pushed container makes of the container of the state *)

Lemma slot_fold V ms typ ID :
  slotOf (typedAt (foldl applyValue V ms) typ) ID =
  foldl slotApply (slotOf (typedAt V typ) ID)
    (filter (λ m, typeOf m = typ ∧ idOf m = ID) ms).
Proof.
  revert V. induction ms as [|m ms IH]; intros V; [done|].
  cbn [foldl]. rewrite IH, slotOf_applyValue, filter_cons.
  destruct (decide (typ = typeOf m ∧ ID = idOf m)) as [[-> ->]|Hne].
  - rewrite decide_True by done. by destruct m.
  - rewrite decide_False; [done|]. intros [<- <-]. by apply Hne.
Qed.

Lemma slotApply_idemp s e : slotApply (slotApply s e) e = slotApply s e.
Proof.
  destruct e as [c|t], s as [[c'|] [t'|]]; cbn [slotApply];
    unfold slotWithConfig, slotWithTombstone, slotAcceptsConfig, slotAcceptsTombstone;
    repeat match goal with
    | |- context [(?a <? ?b)%N] => destruct (N.ltb_spec a b); cbn
    | |- context [(?a <=? ?b)%N] => destruct (N.leb_spec a b); cbn
    end; try done; lia.
Qed.

Lemma slotApply_same s e l :
  (∀ m, m ∈ l → m = e) → l ≠ [] → foldl slotApply s l = slotApply s e.
Proof.
  revert s. induction l as [|m l IH]; intros s Hall Hne; [done|].
  assert (m = e) as -> by (apply Hall; set_solver).
  cbn [foldl]. destruct l as [|m' l]; [done|].
  rewrite IH; [apply slotApply_idemp| |done].
  intros x Hx. apply Hall. set_solver.
Qed.

Lemma slotApply_merge s m : slotApply s m = slotMerge s (slotOfMutation m).
Proof. by destruct m. Qed.

Lemma slotOfMutation_inj m m' : slotOfMutation m = slotOfMutation m' → m = m'.
Proof. destruct m, m'; cbn; intros; by simplify_eq. Qed.

Lemma elem_of_entriesOf u m :
  m ∈ entriesOf u ↔
  match m with
  | Live c => ∃ k, live u !! k = Some c
  | Dead t => ∃ k, dead u !! k = Some t
  end.
Proof.
  unfold entriesOf. rewrite elem_of_app, !list_elem_of_fmap. split.
  - intros [(c & -> & Hc)|(t & -> & Ht)]; by apply elem_of_values.
  - destruct m as [c|t]; intros Hm%elem_of_values; [left|right]; eauto.
Qed.

Lemma elem_of_entries (U : gmap string typed) m :
  m ∈ (map_to_list U).*2 ≫= entriesOf ↔ ∃ typ u, U !! typ = Some u ∧ m ∈ entriesOf u.
Proof.
  rewrite list_elem_of_bind. split.
  - intros (u & Hm & (typ & Hu)%elem_of_values). eauto.
  - intros (typ & u & Hu & Hm). exists u. split; [done|]. apply elem_of_values. eauto.
Qed.

Lemma entry_slot U typ ID m :
  map_Forall (λ typ v, wfTyped v ∧ typedBy typ v) U →
  m ∈ (map_to_list U).*2 ≫= entriesOf → typeOf m = typ → idOf m = ID →
  slotOf (typedAt U typ) ID = slotOfMutation m.
Proof.
  intros Hwf (typ' & u & Hu & Hm)%elem_of_entries Htyp HID.
  destruct (Hwf _ _ Hu) as [[[Hkl Hkd] Hs] [Htl Htd]].
  apply elem_of_entriesOf in Hm. unfold slotOf.
  destruct m as [c|t]; destruct Hm as [k Hk]; cbn in *.
  - pose proof (Hkl _ _ Hk) as H1. pose proof (Htl _ _ Hk) as H2. cbn in *.
    subst. rewrite (typedAt_lookup _ _ _ Hu), Hk. by rewrite (Hs _ _ Hk).
  - pose proof (Hkd _ _ Hk) as H1. pose proof (Htd _ _ Hk) as H2. cbn in *.
    subst. rewrite (typedAt_lookup _ _ _ Hu), Hk.
    destruct (live u !! Tombstone_ID t) as [c|] eqn:E; [|done].
    pose proof (Hs _ _ E) as H3. cbn in H3. congruence.
Qed.

Lemma slot_entry U typ ID :
  map_Forall (λ typ v, wfTyped v ∧ typedBy typ v) U →
  slotOf (typedAt U typ) ID ≠ (None, None) →
  ∃ m, m ∈ (map_to_list U).*2 ≫= entriesOf ∧ typeOf m = typ ∧ idOf m = ID.
Proof.
  intros Hwf Hne. unfold typedAt in Hne.
  destruct (U !! typ) as [u|] eqn:Hu; [|done]. cbn in Hne.
  destruct (Hwf _ _ Hu) as [[[Hkl Hkd] Hs] [Htl Htd]].
  unfold slotOf in Hne.
  destruct (live u !! ID) as [c|] eqn:Ec.
  - exists (Live c). split_and!.
    + apply elem_of_entries. exists typ, u. split; [done|]. apply elem_of_entriesOf. eauto.
    + apply (Htl _ _ Ec).
    + apply (Hkl _ _ Ec).
  - destruct (dead u !! ID) as [t|] eqn:Et; [|done].
    exists (Dead t). split_and!.
    + apply elem_of_entries. exists typ, u. split; [done|]. apply elem_of_entriesOf. eauto.
    + apply (Htd _ _ Et).
    + apply (Hkd _ _ Et).
Qed.

(** Applying the entries of a well-formed container one by one, in any
    order, gives what [Merge] with the container gives. *)
Lemma push_value V U ms typ :
  map_Forall (λ typ v, wfTyped v ∧ typedBy typ v) U →
  ms ≡ₚ (map_to_list U).*2 ≫= entriesOf →
  typedAt (foldl applyValue V ms) typ = typedAt (mergeStore V U) typ.
Proof.
  intros Hwf Hms. apply typed_eq. intros ID.
  rewrite slot_fold, typedAt_mergeStore_slot.
  2:{ intros t u Hu. by destruct (Hwf t u Hu). }
  set (l := filter _ ms).
  assert (Hl : ∀ m, m ∈ l → slotOf (typedAt U typ) ID = slotOfMutation m).
  { intros m [[Ht Hi] Hm]%list_elem_of_filter. apply entry_slot; [done| |done..].
    by rewrite <-Hms. }
  destruct l as [|e l'] eqn:El.
  - cbn. destruct (decide (slotOf (typedAt U typ) ID = (None, None))) as [->|Hne]; [done|].
    destruct (slot_entry U typ ID Hwf Hne) as (m & Hm & Ht & Hi).
    assert (m ∈ filter (λ m, typeOf m = typ ∧ idOf m = ID) ms) as Hin.
    { apply list_elem_of_filter. split; [done|]. by rewrite Hms. }
    fold l in Hin. rewrite El in Hin. set_solver.
  - rewrite (slotApply_same _ e); [|intros m Hm|done].
    + rewrite slotApply_merge, <-Hl; [done|set_solver].
    + apply slotOfMutation_inj. rewrite <-!Hl; [done|set_solver|done].
Qed.

(** ** Values of containers up to the types that hold nothing *)

Lemma typedAt_applyValue V m typ :
  typedAt (applyValue V m) typ =
  if decide (typ = typeOf m) then
    match m with
    | Live c => withConfig (typedAt V typ) c
    | Dead t => withTombstone (typedAt V typ) t
    end
  else typedAt V typ.
Proof.
  destruct m as [c|t]; cbn [applyValue typeOf]; unfold typedAt at 1;
    case_decide as Hty; subst; by rewrite ?lookup_insert_eq, ?lookup_insert_ne.
Qed.

Lemma applyValue_typedAt V V' m :
  (∀ typ, typedAt V typ = typedAt V' typ) →
  ∀ typ, typedAt (applyValue V m) typ = typedAt (applyValue V' m) typ.
Proof. intros H typ. rewrite !typedAt_applyValue. by rewrite !H. Qed.

Lemma typedAt_mergeStore V U typ :
  typedAt (mergeStore V U) typ =
  match U !! typ with
  | Some u => mergeTyped (typedAt V typ) u
  | None => typedAt V typ
  end.
Proof. unfold typedAt at 1. rewrite mergeStore_lookup. by destruct (U !! typ). Qed.

Lemma applyMsg_typedAt w V V' msg :
  (∀ typ, typedAt V typ = typedAt V' typ) →
  ∀ typ, typedAt (applyMsg w V msg) typ = typedAt (applyMsg w V' msg) typ.
Proof.
  intros H typ. destruct msg; cbn [applyMsg]; try done.
  - by apply applyValue_typedAt.
  - by apply applyValue_typedAt.
  - rewrite !typedAt_mergeStore. by rewrite H.
Qed.

Lemma applyMsgs_typedAt w V V' msgs :
  (∀ typ, typedAt V typ = typedAt V' typ) →
  ∀ typ, typedAt (foldl (applyMsg w) V msgs) typ = typedAt (foldl (applyMsg w) V' msgs) typ.
Proof.
  revert V V'. induction msgs as [|msg msgs IH]; intros V V' H; [done|].
  cbn [foldl]. apply IH. by apply applyMsg_typedAt.
Qed.

(** ** Computations that may panic *)

Lemma wpx_wp {A} (m : M A) w Q P : wp m w Q → wpx m w Q P.
Proof. unfold wp, wpx. destruct (m w) as [[a|msg] w']; done. Qed.

Lemma wp_wpx {A} (m : M A) w Q P : wpx m w Q P → (∀ e w', ¬ P e w') → wp m w Q.
Proof.
  unfold wp, wpx. destruct (m w) as [[a|msg] w']; [done|]. intros H HP. by eapply HP.
Qed.

Lemma wpx_ret {A} (a : A) w Q P : Q a w → wpx (mret a) w Q P.
Proof. done. Qed.

Lemma wpx_panic {A} e w (Q : A → world → Prop) P : P e w → wpx (panic e) w Q P.
Proof. done. Qed.

Lemma wpx_bind {A B} (m : M A) (k : A → M B) w Q P :
  wpx m w (λ a w', wpx (k a) w' Q P) P → wpx (m ≫= k) w Q P.
Proof.
  unfold wpx, mbind, M_bind, bind. destruct (m w) as [[a|msg] w']; done.
Qed.

Lemma wpx_forM_from {A} (I : list A → world → Prop) (body : A → M unit)
    l done rest w Q P :
  l = done ++ rest →
  I done w →
  (∀ done x rest w, l = done ++ x :: rest → I done w →
     wpx (body x) w (λ _ w', I (done ++ [x]) w') P) →
  (∀ w', I l w' → Q tt w') →
  wpx (forM rest body) w Q P.
Proof.
  intros Hl HI Hbody HQ. revert done w Hl HI.
  induction rest as [|x rest IH]; intros done w Hl HI.
  - apply wpx_ret, HQ. by rewrite Hl, app_nil_r.
  - cbn [forM]. apply wpx_bind.
    pose proof (Hbody done x rest w Hl HI) as Hx. unfold wpx in *.
    destruct (body x w) as [[[]|msg] w']; [|done].
    apply (IH (done ++ [x])); [|done]. by rewrite <-app_assoc.
Qed.

Lemma wpx_forM {A} (I : list A → world → Prop) (body : A → M unit) l w Q P :
  I [] w →
  (∀ done x rest w, l = done ++ x :: rest → I done w →
     wpx (body x) w (λ _ w', I (done ++ [x]) w') P) →
  (∀ w', I l w' → Q tt w') →
  wpx (forM l body) w Q P.
Proof. intros. by eapply (wpx_forM_from I body l []). Qed.

(** [router.error] reports when [json.Marshal] encodes the object, and
    panics with its error when it does not. *)
Lemma wpx_Router_error json_Marshal err obj w Q P :
  match json_Marshal obj with
  | (_, None) => Q tt (mkWorld (mem w) (clock w) (trace w ++ [ReportError ""]))
  | (_, Some e) => P e w
  end →
  wpx (Router.error json_Marshal err obj) w Q P.
Proof.
  unfold Router.error. destruct (json_Marshal obj) as [data [e|]]; intros H.
  - by apply wpx_panic.
  - by apply wpx_wp, wp_emit.
Qed.

(** ** A message of a turn *)

Lemma wpx_receive_turn o json_Marshal wb ns w msg Q P :
  turnInv wb ns w → isMutation wb msg →
  (∀ w', turnInv wb ns w' →
         (∀ typ, typedAt (viewRS w' ns) typ = typedAt (applyMsg wb (viewRS w ns) msg) typ) →
         Q tt w') →
  (∀ e w', turnInv wb ns w' → marshalFails json_Marshal e msg → P e w') →
  wpx (Router.receive o json_Marshal ns msg) w Q P.
Proof.
  intros Hinv Hmsg HQ HP. destruct msg as [| |c|t|p]; cbn [isMutation] in Hmsg; try done;
    cbn [Router.receive applyMsg marshalFails] in *.
  - apply wpx_bind, wpx_wp. eapply wp_RS_NewConfig_turn; [done|].
    intros w' err Hinv' HV'. destruct err as [e|].
    + apply wpx_Router_error. destruct (json_Marshal (inl c)) as [data [e'|]] eqn:Hjm.
      * by apply HP.
      * apply HQ.
        -- eapply turnInv_ext; [|exact Hinv']. done.
        -- intros typ. rewrite <-(viewRS_ext w') by done. by rewrite HV'.
    + apply wpx_ret. apply HQ; [done|]. intros typ. by rewrite HV'.
  - apply wpx_bind, wpx_wp. eapply wp_RS_DeadConfig_turn; [done|].
    intros w' err Hinv' HV'. destruct err as [e|].
    + apply wpx_Router_error. destruct (json_Marshal (inr t)) as [data [e'|]] eqn:Hjm.
      * by apply HP.
      * apply HQ.
        -- eapply turnInv_ext; [|exact Hinv']. done.
        -- intros typ. rewrite <-(viewRS_ext w') by done. by rewrite HV'.
    + apply wpx_ret. apply HQ; [done|]. intros typ. by rewrite HV'.
  - apply wpx_bind, wpx_wp. eapply wp_RS_PushConfigs_turn; [done|by destruct Hmsg|].
    intros w' err ms Hinv' HV' Hms. apply wpx_ret. apply HQ; [done|].
    intros typ. rewrite HV'. apply push_value; [by destruct Hmsg|done].
Qed.

Lemma wpx_processMore_turn o json_Marshal wb ns w ready Q P :
  turnInv wb ns w → Forall (isMutation wb) ready →
  (∀ w', turnInv wb ns w' →
         (∀ typ, typedAt (viewRS w' ns) typ =
                 typedAt (foldl (applyMsg wb) (viewRS w ns) (take 16 ready)) typ) →
         Q tt w') →
  (∀ e w', turnInv wb ns w' → Exists (marshalFails json_Marshal e) (take 16 ready) →
           P e w') →
  wpx (Router.processMore o json_Marshal ns ready) w Q P.
Proof.
  intros Hinv Hready HQ HP. unfold Router.processMore.
  eapply (wpx_forM (λ done wi,
    turnInv wb ns wi ∧
    ∀ typ, typedAt (viewRS wi ns) typ = typedAt (foldl (applyMsg wb) (viewRS w ns) done) typ)).
  - done.
  - intros done msg rest wi Hsplit [Hinvi HVi].
    eapply wpx_receive_turn; [done| | |].
    { apply (Forall_take _ 16) in Hready. rewrite Hsplit in Hready.
      apply Forall_app in Hready as [_ Hready]. by apply Forall_cons in Hready as [? _]. }
    + intros w' Hinv' HV'. split; [done|]. intros typ.
      rewrite HV', foldl_app. cbn [foldl]. by apply applyMsg_typedAt.
    + intros e w' Hinv' Hfail. apply HP; [done|]. rewrite Hsplit.
      apply Exists_app. right. by apply Exists_cons_hd.
  - intros w' [Hinv' HV']. by apply HQ.
Qed.

(** ** A turn of the router *)

Lemma wfRS_frame F old w w' ns :
  keeps F w w' → F ⊆ old → wfRS old w ns →
  wfRS old w' ns ∧ viewRS w' ns = viewRS w ns.
Proof.
  intros Hk HF [Hns Hwf].
  destruct (objRouterState w ns) as [s|] eqn:Hs; [|done].
  destruct Hwf as ([Hok Hall] & Hfp & Hobjs).
  assert (Hs' : objRouterState w' ns = Some s).
  { apply objRouterState_Some. apply objRouterState_Some in Hs. destruct Hk as [_ Hm].
    rewrite Hm; [done| |set_solver]. by apply elem_of_dom_2 in Hs. }
  destruct (viewCS_frame F w w' (routerState_Configs s) Hk Hok) as (Hok' & _ & HV' & Hfp');
    [set_solver|].
  split.
  - split; [done|]. rewrite Hs'. split_and!.
    + split; [done|]. by rewrite HV'.
    + by rewrite Hfp'.
    + eapply Forall_impl; [done|]. intros obj [Hold [[b r] Hobj]]. split; [done|].
      exists (b, r). apply objConfigurable_Some. apply objConfigurable_Some in Hobj.
      destruct Hk as [_ Hm]. rewrite Hm; [done| |set_solver]. by apply elem_of_dom_2 in Hobj.
  - unfold viewRS. by rewrite Hs, Hs'.
Qed.

Lemma wp_Router_get w router state Q :
  objRouter w router = Some state → Q state w → wp (Router.get router) w Q.
Proof.
  intros Hr%objRouter_Some HQ. unfold Router.get.
  apply wp_bind. eapply wp_read; [done|]. by apply wp_ret.
Qed.

(** The end of a turn: the messages that were ready, then the new state
    is published. *)
Lemma wpx_turn_tail o json_Marshal w router cur ns w2 msg ready Q P :
  objRouter w router = Some cur →
  turnInv w ns w2 →
  (∀ typ, typedAt (viewRS w2 ns) typ = typedAt (applyMsg w (viewRS w cur) msg) typ) →
  Forall (isMutation w) ready →
  (∀ w', keeps {[router]} w w' → wfRouter w' router →
         (∀ typ, typedAt (viewRouter w' router) typ =
                 typedAt (foldl (applyMsg w) (viewRouter w router) (msg :: take 16 ready)) typ) →
         Q tt w') →
  (∀ e w', keeps ∅ w w' →
           Exists (marshalFails json_Marshal e) (msg :: take 16 ready) → P e w') →
  wpx (Router.processMore o json_Marshal ns ready;; Router.set router ns) w2 Q P.
Proof.
  intros Hcur Hinv HV2 Hready HQ HP.
  assert (Hrw : router ∈ dom (mem w)).
  { apply objRouter_Some in Hcur. by apply elem_of_dom_2 in Hcur. }
  apply wpx_bind. eapply wpx_processMore_turn; [done..| |].
  2:{ intros e w' [Hk' _] Hfail. apply HP; [done|]. by apply Exists_cons_tl. }
  intros w3 [Hk3 Hwf3] HV3. unfold Router.set. apply wpx_wp, wp_write.
  assert (Hk4 : keeps {[router]} w3 (upd w3 router (ObjRouter ns))).
  { apply keeps_upd; [apply keeps_refl|left; set_solver]. }
  assert (Hsub : ({[router]} : gset loc) ⊆ dom (mem w)) by set_solver.
  destruct (wfRS_frame _ _ _ _ _ Hk4 Hsub Hwf3) as [Hwf4 HV4].
  apply HQ.
  - apply keeps_upd; [|left; set_solver]. eapply keeps_weaken; [done|set_solver].
  - unfold wfRouter, objRouter. cbn [mem upd]. rewrite lookup_insert_eq.
    eapply wfRS_weaken; [|done]. set_solver.
  - intros typ. unfold viewRouter at 1, objRouter. cbn [mem upd].
    rewrite lookup_insert_eq.
    change (mkWorld (<[router:=ObjRouter ns]> (mem w3)) (clock w3) (trace w3))
      with (upd w3 router (ObjRouter ns)).
    rewrite HV4, HV3. unfold viewRouter. rewrite Hcur. cbn [foldl].
    by apply applyMsgs_typedAt.
Qed.

(** A turn returns, or it panics in [router.error]: the state it was
    working on is not published then, and nothing that was there before
    the turn has changed. *)
Lemma wpx_turn o json_Marshal w router batch Q P :
  wfRouter w router → Forall (isMutation w) (batch.1 :: batch.2) →
  (∀ w', keeps {[router]} w w' → wfRouter w' router →
         (∀ typ, typedAt (viewRouter w' router) typ =
                 typedAt (foldl (applyMsg w) (viewRouter w router)
                            (batch.1 :: take 16 batch.2)) typ) →
         Q tt w') →
  (∀ e w', keeps ∅ w w' →
           Exists (marshalFails json_Marshal e) (batch.1 :: take 16 batch.2) → P e w') →
  wpx (Router.turn o json_Marshal router batch) w Q P.
Proof.
  intros Hwf Hbatch HQ HP. unfold wfRouter in Hwf.
  destruct (objRouter w router) as [cur|] eqn:Hcur; [|done].
  destruct batch as [msg ready]. cbn [fst snd] in *.
  apply Forall_cons in Hbatch as [Hfirst Hready].
  unfold Router.turn. cbn [fst snd].
  destruct msg as [| |c|t|p]; cbn [isMutation] in Hfirst; try done.
  - unfold Router.newConfig.
    apply wpx_bind, wpx_wp. eapply wp_Router_get; [done|].
    apply wpx_bind, wpx_wp. apply wp_RS_Copy; [done|]. intros w1 ns Hinv1 HV1 _.
    apply wpx_bind, wpx_wp. eapply wp_RS_NewConfig_turn; [done|].
    intros w2 err Hinv2 HV2. apply wpx_bind.
    destruct err as [e|].
    + apply wpx_Router_error. destruct (json_Marshal (inl c)) as [data [e'|]] eqn:Hjm.
      * apply HP; [by destruct Hinv2|]. apply Exists_cons_hd. cbn. by rewrite Hjm.
      * eapply (wpx_turn_tail o json_Marshal w router cur ns _ (newConfigC c));
          [done| | |done|done|done].
        -- eapply turnInv_ext; [|exact Hinv2]. done.
        -- intros typ. rewrite <-(viewRS_ext w2) by done. by rewrite HV2, HV1.
    + apply wpx_ret.
      eapply (wpx_turn_tail o json_Marshal w router cur ns _ (newConfigC c));
        [done|done| |done|done|done].
      intros typ. by rewrite HV2, HV1.
  - unfold Router.deadConfig.
    apply wpx_bind, wpx_wp. eapply wp_Router_get; [done|].
    apply wpx_bind, wpx_wp. apply wp_RS_Copy; [done|]. intros w1 ns Hinv1 HV1 _.
    apply wpx_bind, wpx_wp. eapply wp_RS_DeadConfig_turn; [done|].
    intros w2 err Hinv2 HV2. apply wpx_bind.
    destruct err as [e|].
    + apply wpx_Router_error. destruct (json_Marshal (inr t)) as [data [e'|]] eqn:Hjm.
      * apply HP; [by destruct Hinv2|]. apply Exists_cons_hd. cbn. by rewrite Hjm.
      * eapply (wpx_turn_tail o json_Marshal w router cur ns _ (deadConfigC t));
          [done| | |done|done|done].
        -- eapply turnInv_ext; [|exact Hinv2]. done.
        -- intros typ. rewrite <-(viewRS_ext w2) by done. by rewrite HV2, HV1.
    + apply wpx_ret.
      eapply (wpx_turn_tail o json_Marshal w router cur ns _ (deadConfigC t));
        [done|done| |done|done|done].
      intros typ. by rewrite HV2, HV1.
  - unfold Router.pushConfigs.
    apply wpx_bind, wpx_wp. eapply wp_Router_get; [done|].
    apply wpx_bind, wpx_wp. apply wp_RS_Copy; [done|]. intros w1 ns Hinv1 HV1 _.
    apply wpx_bind, wpx_wp. eapply wp_RS_PushConfigs_turn; [done|by destruct Hfirst|].
    intros w2 err ms Hinv2 HV2 Hms.
    eapply (wpx_turn_tail o json_Marshal w router cur ns _ (pushConfigsC p));
      [done|done| |done|done|done].
    intros typ. rewrite HV2, HV1. cbn [applyMsg].
    apply push_value; [by destruct Hfirst|done].
Qed.

(** * Snapshots of the router (C6) *)

Lemma router_not_fpCS w router pc :
  is_Some (objRouter w router) → okCS w pc → fpCS w pc ## ({[router]} : gset loc).
Proof.
  intros [st Hr%objRouter_Some] Hok l Hl ->%elem_of_singleton.
  destruct (fpCS_kind _ _ _ Hok Hl) as (x & Hx & Hk). rewrite Hr in Hx. by simplify_eq.
Qed.

Lemma isMutation_frame router w wi msg :
  keeps {[router]} w wi → is_Some (objRouter w router) → isMutation w msg →
  isMutation wi msg ∧ ∀ V, applyMsg wi V msg = applyMsg w V msg.
Proof.
  intros Hk Hr Hmsg. destruct msg as [| |c|t|p]; cbn [isMutation applyMsg] in *; try done.
  destruct Hmsg as [Hok Hwf].
  destruct (viewCS_frame _ _ _ p Hk Hok) as (Hok' & _ & HV' & _);
    [by apply router_not_fpCS|].
  split; [|by intros V; rewrite HV']. split; [done|]. by rewrite HV'.
Qed.

Lemma applyMsgs_frame router w wi V msgs :
  keeps {[router]} w wi → is_Some (objRouter w router) → Forall (isMutation w) msgs →
  foldl (applyMsg wi) V msgs = foldl (applyMsg w) V msgs.
Proof.
  intros Hk Hr. revert V. induction msgs as [|msg msgs IH]; intros V Hall; [done|].
  apply Forall_cons in Hall as [Hmsg Hall]. cbn [foldl].
  destruct (isMutation_frame router w wi msg Hk Hr Hmsg) as [_ ->]. by apply IH.
Qed.

Lemma wfRouter_router w router : wfRouter w router → is_Some (objRouter w router).
Proof. unfold wfRouter. destruct (objRouter w router); [eauto|done]. Qed.

(** The goroutine returns, or it panics in [router.error] on a message
    it was processing; nothing but the cell of the router has changed
    either way. *)
Lemma wpx_loop o json_Marshal w router batches Q P :
  wfRouter w router →
  Forall (λ batch, Forall (isMutation w) (batch.1 :: batch.2)) batches →
  (∀ w', keeps {[router]} w w' → wfRouter w' router →
         (∀ typ, typedAt (viewRouter w' router) typ =
                 typedAt (foldl (applyMsg w) (viewRouter w router) (processed batches)) typ) →
         Q tt w') →
  (∀ e w', keeps {[router]} w w' →
           Exists (marshalFails json_Marshal e) (processed batches) → P e w') →
  wpx (Router.loop o json_Marshal router batches) w Q P.
Proof.
  intros Hwf Hbatches HQ HP. unfold Router.loop.
  pose proof (wfRouter_router _ _ Hwf) as Hr.
  eapply (wpx_forM (λ done wi,
    keeps {[router]} w wi ∧ wfRouter wi router ∧
    ∀ typ, typedAt (viewRouter wi router) typ =
           typedAt (foldl (applyMsg w) (viewRouter w router) (processed done)) typ)).
  - split_and!; [apply keeps_refl|done|done].
  - intros done batch rest wi Hsplit (Hki & Hwfi & HVi).
    assert (Hb : Forall (isMutation w) (batch.1 :: batch.2)).
    { rewrite Forall_forall in Hbatches. apply Hbatches. rewrite Hsplit. set_solver. }
    assert (Hbi : Forall (isMutation wi) (batch.1 :: batch.2)).
    { eapply Forall_impl; [done|]. intros msg Hmsg.
      by destruct (isMutation_frame router w wi msg Hki Hr Hmsg). }
    apply wpx_turn; [done..| |].
    + intros w' Hk' Hwf' HV'. split_and!; [|done|].
      * eapply keeps_trans; [done|]. eapply keeps_weaken; [done|set_solver].
      * intros typ. rewrite HV'.
        rewrite (applyMsgs_frame router w wi); [|done|done|].
        2:{ apply Forall_cons in Hb as [H1 H2]. apply Forall_cons. split; [done|].
            by apply Forall_take. }
        unfold processed. rewrite bind_snoc, foldl_app. by apply applyMsgs_typedAt.
    + intros e w' Hk' Hfail. apply HP.
      * eapply keeps_trans; [done|]. eapply keeps_weaken; [done|set_solver].
      * rewrite Hsplit. unfold processed. rewrite bind_app, bind_cons.
        apply Exists_app. right. apply Exists_app. by left.
  - intros w' (Hk' & Hwf' & HV'). by apply HQ.
Qed.

Lemma wp_PullConfigs w router state s Q :
  objRouter w router = Some state → objRouterState w state = Some s →
  Q (routerState_Configs s) w → wp (Router.PullConfigs router) w Q.
Proof.
  intros Hr Hs HQ. unfold Router.PullConfigs.
  apply wp_bind. eapply wp_Router_get; [done|].
  apply wp_bind. eapply wp_readRouterState; [done|]. by apply wp_ret.
Qed.

(** C6.  For a well-formed router, a snapshot [S0] taken with
    [PullConfigs], and any turns of its goroutine whose messages are
    [NewConfig], [DeadConfig] and [PushConfigs] of well-formed
    containers.  Either the turns return: then every object allocated
    before, the cell of the router apart, is as it was, so that [S0]
    returns for every type and ID what it returned, and the container of
    the snapshot taken afterwards returns what the messages, applied in
    order, make of the contents of [S0].  Or the goroutine panics, with
    the error [json.Marshal] gave [router.error] for one of the messages
    processed: then too every object allocated before, the cell of the
    router apart, is as it was, and [S0] returns what it returned.  So
    the turns return whenever [json.Marshal] fails on none of the
    messages. *)
Theorem snapshot_isolation (o : Oracle)
    (json_Marshal : Config + Tombstone → string * error) (w : world) (router : loc)
    (batches : list (message * list message)) :
  wfRouter w router →
  Forall (λ batch, Forall (isMutation w) (batch.1 :: batch.2)) batches →
  wp (Router.PullConfigs router) w (λ S0 w0,
    wpx (Router.loop o json_Marshal router batches;; Router.PullConfigs router) w0
      (λ S1 w',
        (∀ l, l ∈ dom (mem w) → l ≠ router → mem w' !! l = mem w !! l) ∧
        (∀ typ ID,
           wp (Configs.Get S0 typ ID) w' (λ r' _,
           wp (Configs.Get S0 typ ID) w (λ r _, r' = r))) ∧
        (∀ typ ID,
           wp (Configs.Get S1 typ ID) w' (λ r _,
             r = entryOf (typedAt (foldl (applyMsg w) (viewCS w S0) (processed batches)) typ)
                   ID)))
      (λ e w',
        Exists (marshalFails json_Marshal e) (processed batches) ∧
        (∀ l, l ∈ dom (mem w) → l ≠ router → mem w' !! l = mem w !! l) ∧
        (∀ typ ID,
           wp (Configs.Get S0 typ ID) w' (λ r' _,
           wp (Configs.Get S0 typ ID) w (λ r _, r' = r))))).
Proof.
  intros Hwf Hbatches. pose proof Hwf as Hwf0. unfold wfRouter in Hwf.
  destruct (objRouter w router) as [cur|] eqn:Hcur; [|done].
  destruct Hwf as [_ Hwf]. destruct (objRouterState w cur) as [s|] eqn:Hs; [|done].
  destruct Hwf as ([Hok _] & _ & _).
  assert (Hkeep : ∀ w', keeps {[router]} w w' →
    (∀ l, l ∈ dom (mem w) → l ≠ router → mem w' !! l = mem w !! l) ∧
    (∀ typ ID,
       wp (Configs.Get (routerState_Configs s) typ ID) w' (λ r' _,
       wp (Configs.Get (routerState_Configs s) typ ID) w (λ r _, r' = r)))).
  { intros w' Hk'. split.
    - intros l Hl Hne. destruct Hk' as [_ Hm]. apply Hm; [done|set_solver].
    - intros typ ID.
      destruct (viewCS_frame _ _ _ (routerState_Configs s) Hk' Hok) as (Hok1 & _ & HV1 & _).
      { apply router_not_fpCS; [by rewrite Hcur|done]. }
      apply wp_CS_Get; [done|]. apply wp_CS_Get; [done|]. by rewrite HV1. }
  eapply wp_PullConfigs; [done..|].
  apply wpx_bind. apply wpx_loop; [done..| |].
  - intros w' Hk' Hwf' HV'.
    pose proof Hwf' as Hwf1. unfold wfRouter in Hwf'.
    destruct (objRouter w' router) as [cur'|] eqn:Hcur'; [|done].
    destruct Hwf' as [_ Hwf']. destruct (objRouterState w' cur') as [s'|] eqn:Hs'; [|done].
    destruct Hwf' as ([Hok' _] & _ & _).
    apply wpx_wp. eapply wp_PullConfigs; [done..|].
    destruct (Hkeep w' Hk') as [Hmem Hget]. split_and!; [done|done|].
    intros typ ID. apply wp_CS_Get; [done|].
    specialize (HV' typ). unfold viewRouter, viewRS in HV'.
    rewrite Hcur, Hcur', Hs, Hs' in HV'. by rewrite HV'.
  - intros e w' Hk' Hfail. destruct (Hkeep w' Hk') as [Hmem Hget]. done.
Qed.

Lemma snapshot_isolation_witness :
  wp (Router.PullConfigs routerLoc) routerWorld (λ S0 w0,
    wpx (Router.loop storedOrder exampleMarshal routerLoc exampleBatches;;
         Router.PullConfigs routerLoc) w0
      (λ S1 w',
        (∀ l, l ∈ dom (mem routerWorld) → l ≠ routerLoc →
              mem w' !! l = mem routerWorld !! l) ∧
        (∀ typ ID,
           wp (Configs.Get S0 typ ID) w' (λ r' _,
           wp (Configs.Get S0 typ ID) routerWorld (λ r _, r' = r))) ∧
        (∀ typ ID,
           wp (Configs.Get S1 typ ID) w' (λ r _,
             r = entryOf (typedAt (foldl (applyMsg routerWorld) (viewCS routerWorld S0)
                                     (processed exampleBatches)) typ) ID)))
      (λ e w',
        Exists (marshalFails exampleMarshal e) (processed exampleBatches) ∧
        (∀ l, l ∈ dom (mem routerWorld) → l ≠ routerLoc →
              mem w' !! l = mem routerWorld !! l) ∧
        (∀ typ ID,
           wp (Configs.Get S0 typ ID) w' (λ r' _,
           wp (Configs.Get S0 typ ID) routerWorld (λ r _, r' = r))))).
Proof.
  apply (snapshot_isolation storedOrder exampleMarshal routerWorld routerLoc exampleBatches);
    by_compute.
Defined.

(** The panic of [router.error] is reached: with a [json.Marshal] that
    fails, the first turn of the same run panics with its error, since
    the object of the router refuses the config. *)
Lemma loop_panics_when_marshal_fails :
  (Router.loop storedOrder (λ _, ("", Some "unsupported type")) routerLoc exampleBatches
     routerWorld).1 = Panic "unsupported type".
Proof. vm_compute. reflexivity. Qed.

(** * Further properties of the containers *)

Lemma wp_applyAll w pc ms Q :
  okCS w pc →
  (∀ w', okCS w' pc → viewCS w' pc = foldl applyValue (viewCS w pc) ms →
         evolves w w' (fpCS w pc) (fpCS w' pc) → trace w' = trace w → Q tt w') →
  wp (applyAll pc ms) w Q.
Proof.
  intros Hok HQ. unfold applyAll.
  eapply (wp_forM (λ done wi,
    okCS wi pc ∧ viewCS wi pc = foldl applyValue (viewCS w pc) done ∧
    evolves w wi (fpCS w pc) (fpCS wi pc) ∧ trace wi = trace w)).
  - split_and!; [done|done|apply evolves_refl|done].
  - intros done m rest wi _ (Hoki & HVi & Hevi & Htri).
    apply wp_bind. apply wp_applyTo; [done|].
    intros w' res Hok' HV' _ _ Hev' Htr'. apply wp_ret. split_and!.
    + done.
    + by rewrite HV', HVi, foldl_app.
    + by eapply evolves_trans.
    + congruence.
  - intros w' (Hok' & HV' & Hev' & Htr'). by apply HQ.
Qed.

(** What is outside the container that is mutated is as it was. *)
Lemma evolves_other w w' pc q :
  okCS w pc → okCS w q → fpCS w pc ## fpCS w q →
  evolves w w' (fpCS w pc) (fpCS w' pc) →
  okCS w' q ∧ viewCS w' q = viewCS w q ∧ fpCS w' q = fpCS w q.
Proof.
  intros Hok Hq Hdisj [Hk _].
  destruct (viewCS_frame _ _ _ q Hk Hq) as (? & _ & ? & ?); [set_solver|done].
Qed.

(** X1.  [Configs.Copy] of a well-formed container returns a new
    container that holds, for every type and ID, what the original
    holds; whatever [NewConfig] and [DeadConfig] then do to the copy
    leaves what the original holds as it was, and whatever they do to the
    original leaves the copy as it was. *)
Theorem copy_is_independent (o : Oracle) (w : world) (pc : loc) (ms : list mutation) :
  wfStore w pc →
  wp (Configs.Copy o pc) w (λ r w1,
    mem w !! r = None ∧
    (∀ typ ID,
       wp (Configs.Get r typ ID) w1 (λ x _,
       wp (Configs.Get pc typ ID) w (λ y _, x = y))) ∧
    wp (applyAll r ms) w1 (λ _ w2,
      ∀ typ ID,
        wp (Configs.Get pc typ ID) w2 (λ x _,
        wp (Configs.Get pc typ ID) w (λ y _, x = y))) ∧
    wp (applyAll pc ms) w1 (λ _ w2,
      ∀ typ ID,
        wp (Configs.Get r typ ID) w2 (λ x _,
        wp (Configs.Get pc typ ID) w (λ y _, x = y)))).
Proof.
  intros Hwf. pose proof Hwf as [Hok _].
  apply wp_CS_Copy; [done|by apply wfStore_keyed|].
  intros w1 r Hr Hokr HVr Hk1 Hfpr _.
  destruct (viewCS_frame ∅ w w1 pc Hk1 Hok) as (Hok1 & _ & HV1 & Hfp1); [set_solver|].
  assert (Hdisj : fpCS w1 r ## fpCS w1 pc).
  { rewrite Hfp1. pose proof (fpCS_dom _ _ Hok). set_solver. }
  split_and!.
  - done.
  - intros typ ID. apply wp_CS_Get; [done|]. apply wp_CS_Get; [done|]. by rewrite HVr.
  - apply wp_applyAll; [done|]. intros w2 _ _ Hev2 _.
    destruct (evolves_other w1 w2 r pc) as (Hok2 & HV2 & _); [done..|].
    intros typ ID. apply wp_CS_Get; [done|]. apply wp_CS_Get; [done|].
    by rewrite HV2, HV1.
  - apply wp_applyAll; [done|]. intros w2 _ _ Hev2 _.
    destruct (evolves_other w1 w2 pc r) as (Hok2 & HV2 & _); [done..|].
    intros typ ID. apply wp_CS_Get; [done|]. apply wp_CS_Get; [done|].
    by rewrite HV2, HVr.
Qed.

Lemma copy_is_independent_witness :
  wp (Configs.Copy storedOrder storeA) storesWorld (λ r w1,
    mem storesWorld !! r = None ∧
    (∀ typ ID,
       wp (Configs.Get r typ ID) w1 (λ x _,
       wp (Configs.Get storeA typ ID) storesWorld (λ y _, x = y))) ∧
    wp (applyAll r [Live configA2; Dead tombC1]) w1 (λ _ w2,
      ∀ typ ID,
        wp (Configs.Get storeA typ ID) w2 (λ x _,
        wp (Configs.Get storeA typ ID) storesWorld (λ y _, x = y))) ∧
    wp (applyAll storeA [Live configA2; Dead tombC1]) w1 (λ _ w2,
      ∀ typ ID,
        wp (Configs.Get r typ ID) w2 (λ x _,
        wp (Configs.Get storeA typ ID) storesWorld (λ y _, x = y)))).
Proof.
  apply (copy_is_independent storedOrder storesWorld storeA [Live configA2; Dead tombC1]).
  by_compute.
Defined.

Lemma entryOf_withConfig_other v c ID :
  ID ≠ Config_ID c → entryOf (withConfig v c) ID = entryOf v ID.
Proof.
  intros Hne. rewrite !entryOf_slot, slotOf_withConfig. by rewrite decide_False.
Qed.

Lemma entryOf_withTombstone_other v t ID :
  ID ≠ Tombstone_ID t → entryOf (withTombstone v t) ID = entryOf v ID.
Proof.
  intros Hne. rewrite !entryOf_slot, slotOf_withTombstone. by rewrite decide_False.
Qed.

Lemma entryOf_withTombstone v t :
  acceptsTombstone v (Tombstone_ID t) (Tombstone_Version t) = true →
  entryOf (withTombstone v t) (Tombstone_ID t) = (mkConfigResult None (Some t), true).
Proof.
  intros Hacc. unfold withTombstone, entryOf. rewrite Hacc. cbn [live dead].
  by rewrite lookup_delete_eq, lookup_insert_eq.
Qed.

Lemma entryOf_live v ID : Result_Config (entryOf v ID).1 = live v !! ID.
Proof. unfold entryOf. destruct (live v !! ID); [done|]. by destruct (dead v !! ID). Qed.

(** X2.  [Configs.NewConfig] and [Get]: when the config is accepted, [Get]
    of its type and ID returns it afterwards, and the config returned as
    replaced is the live config [Get] returned before, if any; when it is
    rejected, no config is returned and [Get] returns what it returned
    before; for every other type or ID, [Get] returns what it returned
    before. *)
Theorem new_config_then_get (w : world) (pc : loc) (c : Config) :
  okCS w pc →
  wp (Configs.Get pc (Config_Type c) (Config_ID c)) w (λ before _,
  wp (Configs.NewConfig pc c) w (λ res w',
    res.1 = (if res.2 then Result_Config before.1 else None) ∧
    wp (Configs.Get pc (Config_Type c) (Config_ID c)) w' (λ after _,
      after = if res.2 then (mkConfigResult (Some c) None, true) else before) ∧
    ∀ typ ID, (typ, ID) ≠ (Config_Type c, Config_ID c) →
      wp (Configs.Get pc typ ID) w' (λ x _,
      wp (Configs.Get pc typ ID) w (λ y _, x = y)))).
Proof.
  intros Hok. apply wp_CS_Get; [done|]. apply wp_CS_NewConfig; [done|].
  intros w' Hok' HV' _ _. cbn zeta. cbn [fst snd].
  set (v := typedAt (viewCS w pc) (Config_Type c)) in *.
  assert (Hat : ∀ typ, typedAt (viewCS w' pc) typ =
            if decide (typ = Config_Type c) then withConfig (typedAt (viewCS w pc) typ) c
            else typedAt (viewCS w pc) typ).
  { intros typ. rewrite HV'. apply (typedAt_applyValue _ (Live c)). }
  split_and!.
  - destruct (acceptsConfig _ _ _); [|done]. by rewrite entryOf_live.
  - apply wp_CS_Get; [done|]. rewrite Hat, decide_True by done. fold v.
    destruct (acceptsConfig _ _ _) eqn:Hacc; [by apply entryOf_withConfig|].
    unfold withConfig. by rewrite Hacc.
  - intros typ ID Hne. apply wp_CS_Get; [done|]. apply wp_CS_Get; [done|].
    rewrite Hat. case_decide as Hty; [|done]. subst typ.
    apply entryOf_withConfig_other. congruence.
Qed.

Lemma new_config_then_get_witness :
  wp (Configs.Get storeA (Config_Type configA2) (Config_ID configA2)) storesWorld
    (λ before _,
  wp (Configs.NewConfig storeA configA2) storesWorld (λ res w',
    res.1 = (if res.2 then Result_Config before.1 else None) ∧
    wp (Configs.Get storeA (Config_Type configA2) (Config_ID configA2)) w' (λ after _,
      after = if res.2 then (mkConfigResult (Some configA2) None, true) else before) ∧
    ∀ typ ID, (typ, ID) ≠ (Config_Type configA2, Config_ID configA2) →
      wp (Configs.Get storeA typ ID) w' (λ x _,
      wp (Configs.Get storeA typ ID) storesWorld (λ y _, x = y)))).
Proof. apply (new_config_then_get storesWorld storeA configA2). by_compute. Defined.

(** X3.  [Configs.DeadConfig] and [Get]: when the tombstone is accepted,
    [Get] of its type and ID returns it afterwards, and the config
    returned as killed is the live config [Get] returned before, if any;
    when it is rejected, no config is returned and [Get] returns what it
    returned before; for every other type or ID, [Get] returns what it
    returned before. *)
Theorem dead_config_then_get (w : world) (pc : loc) (t : Tombstone) :
  okCS w pc →
  wp (Configs.Get pc (Tombstone_Type t) (Tombstone_ID t)) w (λ before _,
  wp (Configs.DeadConfig pc t) w (λ res w',
    res.1 = (if res.2 then Result_Config before.1 else None) ∧
    wp (Configs.Get pc (Tombstone_Type t) (Tombstone_ID t)) w' (λ after _,
      after = if res.2 then (mkConfigResult None (Some t), true) else before) ∧
    ∀ typ ID, (typ, ID) ≠ (Tombstone_Type t, Tombstone_ID t) →
      wp (Configs.Get pc typ ID) w' (λ x _,
      wp (Configs.Get pc typ ID) w (λ y _, x = y)))).
Proof.
  intros Hok. apply wp_CS_Get; [done|]. apply wp_CS_DeadConfig; [done|].
  intros w' Hok' HV' _ _. cbn zeta. cbn [fst snd].
  set (v := typedAt (viewCS w pc) (Tombstone_Type t)) in *.
  assert (Hat : ∀ typ, typedAt (viewCS w' pc) typ =
            if decide (typ = Tombstone_Type t) then withTombstone (typedAt (viewCS w pc) typ) t
            else typedAt (viewCS w pc) typ).
  { intros typ. rewrite HV'. apply (typedAt_applyValue _ (Dead t)). }
  split_and!.
  - destruct (acceptsTombstone _ _ _); [|done]. by rewrite entryOf_live.
  - apply wp_CS_Get; [done|]. rewrite Hat, decide_True by done. fold v.
    destruct (acceptsTombstone _ _ _) eqn:Hacc; [by apply entryOf_withTombstone|].
    unfold withTombstone. by rewrite Hacc.
  - intros typ ID Hne. apply wp_CS_Get; [done|]. apply wp_CS_Get; [done|].
    rewrite Hat. case_decide as Hty; [|done]. subst typ.
    apply entryOf_withTombstone_other. congruence.
Qed.

Lemma dead_config_then_get_witness :
  wp (Configs.Get storeA (Tombstone_Type tombC1) (Tombstone_ID tombC1)) storesWorld
    (λ before _,
  wp (Configs.DeadConfig storeA tombC1) storesWorld (λ res w',
    res.1 = (if res.2 then Result_Config before.1 else None) ∧
    wp (Configs.Get storeA (Tombstone_Type tombC1) (Tombstone_ID tombC1)) w' (λ after _,
      after = if res.2 then (mkConfigResult None (Some tombC1), true) else before) ∧
    ∀ typ ID, (typ, ID) ≠ (Tombstone_Type tombC1, Tombstone_ID tombC1) →
      wp (Configs.Get storeA typ ID) w' (λ x _,
      wp (Configs.Get storeA typ ID) storesWorld (λ y _, x = y)))).
Proof. apply (dead_config_then_get storesWorld storeA tombC1). by_compute. Defined.

(** * A config and its tombstone; versions *)

(** X4.  A config that [NewConfig] has accepted is killed by the
    tombstone [Config.Tombstone] makes of it: [DeadConfig] accepts the
    tombstone and returns the config, [Get] returns the tombstone
    afterwards, and [NewConfig] then rejects the same config. *)
Theorem tombstone_kills (w : world) (pc : loc) (c : Config) :
  okCS w pc →
  wp (Configs.NewConfig pc c) w (λ res w1,
    res.2 = true →
    wp (Configs.DeadConfig pc (Config.Tombstone c)) w1 (λ res2 w2,
      res2 = (Some c, true) ∧
      wp (Configs.Get pc (Config_Type c) (Config_ID c)) w2 (λ r _,
        r = (mkConfigResult None (Some (Config.Tombstone c)), true)) ∧
      wp (Configs.NewConfig pc c) w2 (λ res3 _, res3 = (None, false)))).
Proof.
  intros Hok. apply wp_CS_NewConfig; [done|].
  intros w1 Hok1 HV1 _ _. cbn zeta. cbn [snd]. intros Hacc.
  set (v := typedAt (viewCS w pc) (Config_Type c)) in *.
  set (t := Config.Tombstone c).
  assert (Hv1 : typedAt (viewCS w1 pc) (Tombstone_Type t) = withConfig v c).
  { rewrite HV1. unfold typedAt at 1. cbn. by rewrite lookup_insert_eq. }
  assert (Hlive : live (withConfig v c) !! Config_ID c = Some c).
  { unfold withConfig. rewrite Hacc. cbn. by rewrite lookup_insert_eq. }
  assert (Hacc1 : acceptsTombstone (withConfig v c) (Tombstone_ID t) (Tombstone_Version t)
                  = true).
  { unfold acceptsTombstone. cbn. rewrite Hlive. by apply N.leb_le. }
  apply wp_CS_DeadConfig; [done|]. intros w2 Hok2 HV2 _ _. cbn zeta.
  rewrite Hv1, Hacc1. cbn [Tombstone_ID t Config.Tombstone]. rewrite Hlive.
  assert (Hv2 : typedAt (viewCS w2 pc) (Config_Type c) = withTombstone (withConfig v c) t).
  { rewrite HV2. unfold typedAt at 1. cbn. rewrite lookup_insert_eq. cbn.
    by rewrite <-Hv1. }
  split_and!.
  - done.
  - apply wp_CS_Get; [done|]. rewrite Hv2.
    by apply (entryOf_withTombstone (withConfig v c) t).
  - apply wp_CS_NewConfig; [done|]. intros w3 _ _ _ _. cbn zeta. rewrite Hv2.
    assert (acceptsConfig (withTombstone (withConfig v c) t) (Config_ID c) (Config_Version c)
            = false) as ->; [|done].
    unfold acceptsConfig, withTombstone. rewrite Hacc1. cbn.
    rewrite lookup_delete_eq, lookup_insert_eq. cbn. by apply N.ltb_ge.
Qed.

Lemma tombstone_kills_witness :
  wp (Configs.NewConfig storeA configA2) storesWorld (λ res w1,
    res.2 = true →
    wp (Configs.DeadConfig storeA (Config.Tombstone configA2)) w1 (λ res2 w2,
      res2 = (Some configA2, true) ∧
      wp (Configs.Get storeA (Config_Type configA2) (Config_ID configA2)) w2 (λ r _,
        r = (mkConfigResult None (Some (Config.Tombstone configA2)), true)) ∧
      wp (Configs.NewConfig storeA configA2) w2 (λ res3 _, res3 = (None, false)))).
Proof. apply (tombstone_kills storesWorld storeA configA2). by_compute. Defined.

Lemma rank_applyAll_mono V ms typ ID :
  (rank (slotOf (typedAt V typ) ID) ≤ rank (slotOf (typedAt (foldl applyValue V ms) typ) ID))%N.
Proof.
  revert V. induction ms as [|m ms IH]; intros V; cbn [foldl]; [lia|].
  etrans; [apply (rank_applyValue_mono V m)|apply IH].
Qed.

Lemma rank_versions s s' :
  (rank s ≤ rank s')%N →
  match resultVersion (slotEntry s) with
  | Some v =>
      ∃ v', resultVersion (slotEntry s') = Some v' ∧ (v ≤ v')%N ∧
            (is_Some (Result_Tombstone (slotEntry s).1) →
             is_Some (Result_Config (slotEntry s').1) → (v < v')%N)
  | None => True
  end.
Proof.
  destruct s as [[c|] [t|]], s' as [[c'|] [t'|]]; cbn; intros Hr;
    try done; try lia;
    (eexists; split; [done|]; split; [lia|]; intros [? ?] [? ?]; simplify_eq; lia).
Qed.

(** X5.  Whatever sequence of [NewConfig] and [DeadConfig] a container
    receives, an entry that [Get] returned is not removed and its version
    does not decrease: [Get] returns afterwards an entry of the same or
    of a higher version, and a config that has replaced a tombstone has a
    strictly higher version. *)
Theorem versions_never_decrease (w : world) (pc : loc) (ms : list mutation)
    (typ ID : string) :
  okCS w pc →
  wp (Configs.Get pc typ ID) w (λ before _,
  wp (applyAll pc ms) w (λ _ w',
  wp (Configs.Get pc typ ID) w' (λ after _,
    match resultVersion before with
    | Some v =>
        ∃ v', resultVersion after = Some v' ∧ (v ≤ v')%N ∧
              (is_Some (Result_Tombstone before.1) →
               is_Some (Result_Config after.1) → (v < v')%N)
    | None => True
    end))).
Proof.
  intros Hok. apply wp_CS_Get; [done|]. apply wp_applyAll; [done|].
  intros w' Hok' HV' _ _. apply wp_CS_Get; [done|].
  rewrite HV', !entryOf_slot. apply rank_versions, rank_applyAll_mono.
Qed.

Lemma versions_never_decrease_witness :
  wp (Configs.Get storeA "test" "b") storesWorld (λ before _,
  wp (applyAll storeA [Live configB1; Live configA2; Dead tombC1]) storesWorld (λ _ w',
  wp (Configs.Get storeA "test" "b") w' (λ after _,
    match resultVersion before with
    | Some v =>
        ∃ v', resultVersion after = Some v' ∧ (v ≤ v')%N ∧
              (is_Some (Result_Tombstone before.1) →
               is_Some (Result_Config after.1) → (v < v')%N)
    | None => True
    end))).
Proof.
  apply (versions_never_decrease storesWorld storeA
           [Live configB1; Live configA2; Dead tombC1] "test" "b").
  by_compute.
Defined.

(** * What [Merge] returns *)

Lemma elem_of_newIn VA VB c :
  c ∈ newIn VA VB ↔
  ∃ typ u k, VB !! typ = Some u ∧ live u !! k = Some c ∧
             acceptsConfig (typedAt VA typ) (Config_ID c) (Config_Version c) = true.
Proof.
  unfold newIn. rewrite list_elem_of_bind. split.
  - intros ([typ u] & [Hacc [k Hk]%elem_of_values]%list_elem_of_filter & Hu%elem_of_map_to_list).
    exists typ, u, k. split_and!; [done..|]. by destruct (acceptsConfig _ _ _).
  - intros (typ & u & k & Hu & Hk & Hacc). exists (typ, u). split.
    + apply list_elem_of_filter. split; [by rewrite Hacc|]. apply elem_of_values. eauto.
    + by apply elem_of_map_to_list.
Qed.

Lemma elem_of_deadIn VA VB t :
  t ∈ deadIn VA VB ↔
  ∃ typ u k, VB !! typ = Some u ∧ dead u !! k = Some t ∧
             acceptsTombstone (typedAt VA typ) (Tombstone_ID t) (Tombstone_Version t) = true.
Proof.
  unfold deadIn. rewrite list_elem_of_bind. split.
  - intros ([typ u] & [Hacc [k Hk]%elem_of_values]%list_elem_of_filter & Hu%elem_of_map_to_list).
    exists typ, u, k. split_and!; [done..|]. by destruct (acceptsTombstone _ _ _).
  - intros (typ & u & k & Hu & Hk & Hacc). exists (typ, u). split.
    + apply list_elem_of_filter. split; [by rewrite Hacc|]. apply elem_of_values. eauto.
    + by apply elem_of_map_to_list.
Qed.

Lemma slotMerge_absorb s s' : single s' → slotMerge (slotMerge s s') s' = slotMerge s s'.
Proof.
  destruct s' as [[c|] [t|]]; intros [?|?]; try done.
  - apply (slotApply_idemp s (Live c)).
  - apply (slotApply_idemp s (Dead t)).
Qed.

Lemma wfAll_single U typ ID :
  map_Forall (λ typ v, wfTyped v ∧ typedBy typ v) U → single (slotOf (typedAt U typ) ID).
Proof. intros H. eapply wfAt_single. by apply wfAt_typedAt. Qed.

Lemma mergeStore_absorb VA VB typ :
  map_Forall (λ typ v, wfTyped v ∧ typedBy typ v) VB →
  typedAt (mergeStore (mergeStore VA VB) VB) typ = typedAt (mergeStore VA VB) typ.
Proof.
  intros Hwf. apply typed_eq. intros ID.
  assert (Hwf' : map_Forall (λ _ u, wfTyped u) VB).
  { intros t u Hu. by destruct (Hwf t u Hu). }
  rewrite !typedAt_mergeStore_slot by done. apply slotMerge_absorb.
  by apply wfAll_single.
Qed.

Lemma newIn_merged VA VB :
  map_Forall (λ typ v, wfTyped v ∧ typedBy typ v) VB → newIn (mergeStore VA VB) VB = [].
Proof.
  intros Hwf. apply elem_of_nil_inv. intros c (typ & u & k & Hu & Hk & Hacc)%elem_of_newIn.
  destruct (Hwf _ _ Hu) as [[[Hkl _] Hs] _]. pose proof (Hkl _ _ Hk) as Hid. cbn in Hid.
  rewrite acceptsConfig_slot, typedAt_mergeStore_slot in Hacc.
  2:{ intros t' u' Hu'. by destruct (Hwf t' u' Hu'). }
  rewrite (typedAt_lookup _ _ _ Hu) in Hacc. unfold slotOf at 2 in Hacc.
  rewrite Hid, Hk, (Hs _ _ Hk) in Hacc.
  change (slotMerge ?s (Some c, None)) with (slotWithConfig s c) in Hacc.
  rewrite slotAcceptsConfig_rank, rank_slotWithConfig in Hacc.
  apply N.ltb_lt in Hacc. lia.
Qed.

Lemma deadIn_merged VA VB :
  map_Forall (λ typ v, wfTyped v ∧ typedBy typ v) VB → deadIn (mergeStore VA VB) VB = [].
Proof.
  intros Hwf. apply elem_of_nil_inv. intros t (typ & u & k & Hu & Hk & Hacc)%elem_of_deadIn.
  destruct (Hwf _ _ Hu) as [[[_ Hkd] Hs] _]. pose proof (Hkd _ _ Hk) as Hid. cbn in Hid.
  rewrite acceptsTombstone_slot, typedAt_mergeStore_slot in Hacc.
  2:{ intros t' u' Hu'. by destruct (Hwf t' u' Hu'). }
  rewrite (typedAt_lookup _ _ _ Hu) in Hacc. unfold slotOf at 2 in Hacc.
  rewrite Hid, Hk in Hacc.
  assert (live u !! k = None) as Hl.
  { destruct (live u !! k) as [c|] eqn:E; [|done]. pose proof (Hs _ _ E) as H. cbn in H.
    congruence. }
  rewrite Hl in Hacc.
  change (slotMerge ?s (None, Some t)) with (slotWithTombstone s t) in Hacc.
  rewrite slotAcceptsTombstone_rank, rank_slotWithTombstone in Hacc.
  apply N.ltb_lt in Hacc. lia.
Qed.

(** X6.  [Configs.Merge] of a well-formed container into another one that
    shares nothing with it: every config and every tombstone that [Merge]
    returns is what [Get] returns for its type and ID afterwards; the
    container that was merged is as it was; and merging it once more
    accepts nothing and changes nothing. *)
Theorem merge_results_resident (o o2 : Oracle) (w : world) (pA pB : loc) :
  okCS w pA → wfStore w pB → fpCS w pA ## fpCS w pB →
  wp (Configs.Merge o pA pB) w (λ res w1,
    (∀ c, c ∈ res.1 →
       wp (Configs.Get pA (Config_Type c) (Config_ID c)) w1 (λ r _,
         r = (mkConfigResult (Some c) None, true))) ∧
    (∀ t, t ∈ res.2 →
       wp (Configs.Get pA (Tombstone_Type t) (Tombstone_ID t)) w1 (λ r _,
         r = (mkConfigResult None (Some t), true))) ∧
    (∀ typ ID,
       wp (Configs.Get pB typ ID) w1 (λ x _,
       wp (Configs.Get pB typ ID) w (λ y _, x = y))) ∧
    wp (Configs.Merge o2 pA pB) w1 (λ res2 w2,
      res2 = ([], []) ∧
      ∀ typ ID,
        wp (Configs.Get pA typ ID) w2 (λ x _,
        wp (Configs.Get pA typ ID) w1 (λ y _, x = y)))).
Proof.
  intros HokA [HokB HwfB] Hdisj.
  assert (HwfB' : map_Forall (λ _ u, wfTyped u) (viewCS w pB)).
  { intros t u Hu. by destruct (HwfB t u Hu). }
  apply wp_CS_Merge; [done..|]. intros w1 n d Hok1 HV1 Hn Hd Hev1 _. cbn [fst snd].
  destruct (evolves_other w w1 pA pB) as (HokB1 & HVB1 & HfpB1); [done..|].
  split_and!.
  - intros c Hc. rewrite Hn in Hc. apply elem_of_newIn in Hc as (typ & u & k & Hu & Hk & Hacc).
    destruct (HwfB _ _ Hu) as [[[Hkl _] Hs] [Htl _]].
    pose proof (Hkl _ _ Hk) as Hid. pose proof (Htl _ _ Hk) as Hty. cbn in Hid, Hty. subst.
    apply wp_CS_Get; [done|]. rewrite HV1, entryOf_slot, typedAt_mergeStore_slot by done.
    rewrite (typedAt_lookup _ _ _ Hu). unfold slotOf at 2. rewrite Hk, (Hs _ _ Hk).
    change (slotMerge ?s (Some c, None)) with (slotWithConfig s c).
    unfold slotWithConfig. by rewrite <-acceptsConfig_slot, Hacc.
  - intros t Ht. rewrite Hd in Ht. apply elem_of_deadIn in Ht as (typ & u & k & Hu & Hk & Hacc).
    destruct (HwfB _ _ Hu) as [[[_ Hkd] Hs] [_ Htd]].
    pose proof (Hkd _ _ Hk) as Hid. pose proof (Htd _ _ Hk) as Hty. cbn in Hid, Hty. subst.
    assert (live u !! Tombstone_ID t = None) as Hl.
    { destruct (live u !! Tombstone_ID t) as [c|] eqn:E; [|done].
      pose proof (Hs _ _ E) as H. cbn in H. congruence. }
    apply wp_CS_Get; [done|]. rewrite HV1, entryOf_slot, typedAt_mergeStore_slot by done.
    rewrite (typedAt_lookup _ _ _ Hu). unfold slotOf at 2. rewrite Hk, Hl.
    change (slotMerge ?s (None, Some t)) with (slotWithTombstone s t).
    unfold slotWithTombstone. by rewrite <-acceptsTombstone_slot, Hacc.
  - intros typ ID. apply wp_CS_Get; [done|]. apply wp_CS_Get; [done|]. by rewrite HVB1.
  - apply wp_CS_Merge; [done|done| |by rewrite HVB1|].
    { rewrite HfpB1. destruct Hev1 as [_ Hgrow]. pose proof (fpCS_dom _ _ HokB). set_solver. }
    intros w2 n2 d2 Hok2 HV2 Hn2 Hd2 _ _.
    rewrite HVB1, HV1 in Hn2, Hd2, HV2.
    rewrite newIn_merged in Hn2 by done. rewrite deadIn_merged in Hd2 by done.
    apply Permutation_nil_r in Hn2, Hd2. subst. split; [done|].
    intros typ ID. apply wp_CS_Get; [done|]. apply wp_CS_Get; [done|].
    rewrite HV2, HV1. by rewrite mergeStore_absorb.
Qed.

Lemma merge_results_resident_witness :
  wp (Configs.Merge storedOrder storeA storeB) storesWorld (λ res w1,
    (∀ c, c ∈ res.1 →
       wp (Configs.Get storeA (Config_Type c) (Config_ID c)) w1 (λ r _,
         r = (mkConfigResult (Some c) None, true))) ∧
    (∀ t, t ∈ res.2 →
       wp (Configs.Get storeA (Tombstone_Type t) (Tombstone_ID t)) w1 (λ r _,
         r = (mkConfigResult None (Some t), true))) ∧
    (∀ typ ID,
       wp (Configs.Get storeB typ ID) w1 (λ x _,
       wp (Configs.Get storeB typ ID) storesWorld (λ y _, x = y))) ∧
    wp (Configs.Merge storedOrder storeA storeB) w1 (λ res2 w2,
      res2 = ([], []) ∧
      ∀ typ ID,
        wp (Configs.Get storeA typ ID) w2 (λ x _,
        wp (Configs.Get storeA typ ID) w1 (λ y _, x = y)))).
Proof.
  apply (merge_results_resident storedOrder storedOrder storesWorld storeA storeB);
    by_compute.
Defined.

(** * [ConfigArray], [TombstoneArray] and [Len] *)

Lemma viewTC_mem w w' p : mem w' = mem w → viewTC w' p = viewTC w p.
Proof. intros H. symmetry. by apply viewTC_ext. Qed.

Lemma wp_CS_ConfigArray o w pc Q :
  okCS w pc →
  (∀ l w', mem w' = mem w → trace w' = trace w →
     l ≡ₚ map_to_list (viewCS w pc) ≫= (λ x, (map_to_list (live x.2)).*2) → Q l w') →
  wp (Configs.ConfigArray o pc) w Q.
Proof.
  intros Hok HQ. unfold Configs.ConfigArray.
  pose proof Hok as (cs & tm & [Hpc Htm] & Hviews & _)%okCS_alt.
  set (uOf := λ q, default (mkTyped ∅ ∅) (viewTC w q)).
  assert (HV : viewCS w pc = uOf <$> tm) by (by eapply viewCS_fmap).
  apply wp_bind. eapply wp_readConfigs; [done|].
  apply wp_bind. eapply wp_readMapTypes; [done|].
  apply wp_bind, wp_range. intros items Hitems.
  eapply (wp_foldM (λ done result wi,
    mem wi = mem w ∧ trace wi = trace w ∧
    result ≡ₚ done ≫= λ x, (map_to_list (live (uOf x.2))).*2)).
  - done.
  - intros done [typ q] rest result wi Hsplit (Hmi & Htri & Hres).
    assert (Hq : tm !! typ = Some q).
    { eapply items_lookup; [done|]. rewrite Hsplit. set_solver. }
    destruct (Hviews _ _ Hq) as [u Hu].
    pose proof Hu as Hui. rewrite <-(viewTC_mem w wi) in Hui by done.
    apply viewTC_Some in Hui as (tc & Htc & Hcm & _).
    apply wp_bind. eapply wp_readTypeConfigs; [done|].
    apply wp_bind. eapply wp_readMapConfig; [done|].
    apply wp_bind, wp_range. intros inner Hinner. apply wp_ret.
    split_and!; [done..|]. rewrite bind_snoc. apply Permutation_app; [done|].
    cbn [snd]. unfold uOf. rewrite Hu. cbn. by rewrite Hinner.
  - intros result w' (Hm' & Htr' & Hres). apply HQ; [done..|].
    rewrite Hres, HV, map_to_list_fmap, Hitems, bind_fmap. done.
Qed.

Lemma wp_CS_TombstoneArray o w pc Q :
  okCS w pc →
  (∀ l w', mem w' = mem w → trace w' = trace w →
     l ≡ₚ map_to_list (viewCS w pc) ≫= (λ x, (map_to_list (dead x.2)).*2) → Q l w') →
  wp (Configs.TombstoneArray o pc) w Q.
Proof.
  intros Hok HQ. unfold Configs.TombstoneArray.
  pose proof Hok as (cs & tm & [Hpc Htm] & Hviews & _)%okCS_alt.
  set (uOf := λ q, default (mkTyped ∅ ∅) (viewTC w q)).
  assert (HV : viewCS w pc = uOf <$> tm) by (by eapply viewCS_fmap).
  apply wp_bind. eapply wp_readConfigs; [done|].
  apply wp_bind. eapply wp_readMapTypes; [done|].
  apply wp_bind, wp_range. intros items Hitems.
  eapply (wp_foldM (λ done result wi,
    mem wi = mem w ∧ trace wi = trace w ∧
    result ≡ₚ done ≫= λ x, (map_to_list (dead (uOf x.2))).*2)).
  - done.
  - intros done [typ q] rest result wi Hsplit (Hmi & Htri & Hres).
    assert (Hq : tm !! typ = Some q).
    { eapply items_lookup; [done|]. rewrite Hsplit. set_solver. }
    destruct (Hviews _ _ Hq) as [u Hu].
    pose proof Hu as Hui. rewrite <-(viewTC_mem w wi) in Hui by done.
    apply viewTC_Some in Hui as (tc & Htc & _ & Htm').
    apply wp_bind. eapply wp_readTypeConfigs; [done|].
    apply wp_bind. eapply wp_readMapTombstone; [done|].
    apply wp_bind, wp_range. intros inner Hinner. apply wp_ret.
    split_and!; [done..|]. rewrite bind_snoc. apply Permutation_app; [done|].
    cbn [snd]. unfold uOf. rewrite Hu. cbn. by rewrite Hinner.
  - intros result w' (Hm' & Htr' & Hres). apply HQ; [done..|].
    rewrite Hres, HV, map_to_list_fmap, Hitems, bind_fmap. done.
Qed.

Lemma wp_CS_Len o w pc Q :
  okCS w pc →
  (∀ w', mem w' = mem w → trace w' = trace w →
     Q (sum_list_with (λ x : string * typed, size (live x.2) + size (dead x.2))
          (map_to_list (viewCS w pc))) w') →
  wp (Configs.Len o pc) w Q.
Proof.
  intros Hok HQ. unfold Configs.Len.
  pose proof Hok as (cs & tm & [Hpc Htm] & Hviews & _)%okCS_alt.
  set (uOf := λ q, default (mkTyped ∅ ∅) (viewTC w q)).
  assert (HV : viewCS w pc = uOf <$> tm) by (by eapply viewCS_fmap).
  apply wp_bind. eapply wp_readConfigs; [done|].
  apply wp_bind. eapply wp_readMapTypes; [done|].
  apply wp_bind, wp_range. intros items Hitems.
  eapply (wp_foldM (λ done n wi,
    mem wi = mem w ∧ trace wi = trace w ∧
    n = sum_list_with (λ x : string * loc, size (live (uOf x.2)) + size (dead (uOf x.2)))
          done)).
  - done.
  - intros done [typ q] rest n wi Hsplit (Hmi & Htri & ->).
    assert (Hq : tm !! typ = Some q).
    { eapply items_lookup; [done|]. rewrite Hsplit. set_solver. }
    destruct (Hviews _ _ Hq) as [u Hu].
    pose proof Hu as Hui. rewrite <-(viewTC_mem w wi) in Hui by done.
    apply viewTC_Some in Hui as (tc & Htc & Hcm & Htm').
    apply wp_bind. unfold TypeConfigs.Len.
    apply wp_bind. eapply wp_readTypeConfigs; [done|].
    apply wp_bind. eapply wp_readMapConfig; [done|].
    apply wp_bind. eapply wp_readMapTombstone; [done|].
    apply wp_ret, wp_ret. split_and!; [done..|].
    rewrite sum_list_with_app. cbn. unfold uOf. rewrite Hu. cbn. lia.
  - intros n w' (Hm' & Htr' & ->). 
    assert (Hsum : sum_list_with (λ x : string * typed, size (live x.2) + size (dead x.2))
                     (map_to_list (viewCS w pc)) =
                   sum_list_with (λ x : string * loc,
                     size (live (uOf x.2)) + size (dead (uOf x.2))) items).
    { rewrite HV, map_to_list_fmap, <-Hitems. clear.
      induction items as [|[k q] items IH]; [done|]. cbn. by rewrite IH. }
    rewrite <-Hsum. by apply HQ.
Qed.

Lemma length_bind_sum {A B} (f : A → list B) (l : list A) :
  length (l ≫= f) = sum_list_with (λ x, length (f x)) l.
Proof. induction l as [|x l IH]; [done|]. cbn. by rewrite length_app, IH. Qed.

Lemma sum_list_with_add {A} (f g : A → nat) (l : list A) :
  sum_list_with (λ x, f x + g x) l = sum_list_with f l + sum_list_with g l.
Proof. induction l as [|x l IH]; [done|]. cbn. rewrite IH. lia. Qed.

(** X9.  [Configs.Len] is the number of configs [ConfigArray] returns plus
    the number of tombstones [TombstoneArray] returns, and none of the
    three functions changes an object. *)
Theorem len_counts_arrays (o1 o2 o3 : Oracle) (w : world) (pc : loc) :
  okCS w pc →
  wp (Configs.Len o1 pc) w (λ n w1,
  wp (Configs.ConfigArray o2 pc) w1 (λ lc w2,
  wp (Configs.TombstoneArray o3 pc) w2 (λ lt w3,
    n = length lc + length lt ∧ mem w3 = mem w))).
Proof.
  intros Hok. apply wp_CS_Len; [done|]. intros w1 Hm1 _.
  assert (Hok1 : okCS w1 pc) by (eapply okCS_ext; [|done]; done).
  apply wp_CS_ConfigArray; [done|]. intros lc w2 Hm2 _ Hlc.
  assert (Hok2 : okCS w2 pc) by (eapply okCS_ext; [|exact Hok1]; done).
  apply wp_CS_TombstoneArray; [done|]. intros lt w3 Hm3 _ Hlt.
  split; [|congruence].
  rewrite Hlc, Hlt, !length_bind_sum.
  rewrite (viewCS_ext w2 w1), (viewCS_ext w1 w) by done.
  rewrite sum_list_with_add.
  f_equal; induction (map_to_list (viewCS w pc)) as [|[k u] l' IH]; cbn;
    rewrite ?length_fmap, ?length_map_to_list, ?IH; done.
Qed.

Lemma len_counts_arrays_witness :
  wp (Configs.Len storedOrder storeA) storesWorld (λ n w1,
  wp (Configs.ConfigArray storedOrder storeA) w1 (λ lc w2,
  wp (Configs.TombstoneArray storedOrder storeA) w2 (λ lt w3,
    n = length lc + length lt ∧ mem w3 = mem storesWorld))).
Proof.
  apply (len_counts_arrays storedOrder storedOrder storedOrder storesWorld storeA).
  by_compute.
Defined.

Lemma NoDup_liveOf (V : gmap string typed) :
  map_Forall (λ typ v, wfTyped v ∧ typedBy typ v) V →
  NoDup (map_to_list V ≫= λ x, (map_to_list (live x.2)).*2).
Proof.
  intros Hwf. apply NoDup_bind.
  - intros [t1 u1] [t2 u2] c H1%elem_of_map_to_list H2%elem_of_map_to_list
      [k1 Hk1]%elem_of_values [k2 Hk2]%elem_of_values. cbn in *.
    destruct (Hwf _ _ H1) as [_ [Ht1 _]]. destruct (Hwf _ _ H2) as [_ [Ht2 _]].
    pose proof (Ht1 _ _ Hk1) as E1. pose proof (Ht2 _ _ Hk2) as E2. cbn in *.
    assert (t1 = t2) by congruence. subst. by simplify_eq.
  - intros [t u] Hu%elem_of_map_to_list. cbn.
    destruct (Hwf _ _ Hu) as [[[Hk _] _] _].
    eapply NoDup_fmap_1. by apply (keyed_NoDup Config_ID (live u)).
  - apply NoDup_map_to_list.
Qed.

Lemma NoDup_deadOf (V : gmap string typed) :
  map_Forall (λ typ v, wfTyped v ∧ typedBy typ v) V →
  NoDup (map_to_list V ≫= λ x, (map_to_list (dead x.2)).*2).
Proof.
  intros Hwf. apply NoDup_bind.
  - intros [t1 u1] [t2 u2] c H1%elem_of_map_to_list H2%elem_of_map_to_list
      [k1 Hk1]%elem_of_values [k2 Hk2]%elem_of_values. cbn in *.
    destruct (Hwf _ _ H1) as [_ [_ Ht1]]. destruct (Hwf _ _ H2) as [_ [_ Ht2]].
    pose proof (Ht1 _ _ Hk1) as E1. pose proof (Ht2 _ _ Hk2) as E2. cbn in *.
    assert (t1 = t2) by congruence. subst. by simplify_eq.
  - intros [t u] Hu%elem_of_map_to_list. cbn.
    destruct (Hwf _ _ Hu) as [[[_ Hk] _] _].
    eapply NoDup_fmap_1. by apply (keyed_NoDup Tombstone_ID (dead u)).
  - apply NoDup_map_to_list.
Qed.

(** X7.  [ConfigArray] on a well-formed container returns, in some order
    and each once, exactly the configs that are live: a config is in the
    array if and only if [Get] of its type and ID returns it. *)
Theorem config_array_is_live (o : Oracle) (w : world) (pc : loc) :
  wfStore w pc →
  wp (Configs.ConfigArray o pc) w (λ l w',
    mem w' = mem w ∧ NoDup l ∧
    ∀ c, wp (Configs.Get pc (Config_Type c) (Config_ID c)) w (λ r _,
           c ∈ l ↔ r = (mkConfigResult (Some c) None, true))).
Proof.
  intros [Hok Hwf]. apply wp_CS_ConfigArray; [done|]. intros l w' Hm _ Hl.
  split_and!; [done|by rewrite Hl; apply NoDup_liveOf|].
  intros c. apply wp_CS_Get; [done|]. rewrite Hl, list_elem_of_bind. split.
  - intros ([typ u] & [k Hk]%elem_of_values & Hu%elem_of_map_to_list). cbn in *.
    destruct (Hwf _ _ Hu) as [[[Hkl _] _] [Htl _]].
    pose proof (Hkl _ _ Hk) as E1. pose proof (Htl _ _ Hk) as E2. cbn in *. subst.
    rewrite (typedAt_lookup _ _ _ Hu). unfold entryOf. by rewrite Hk.
  - intros Hr. unfold typedAt in Hr.
    destruct (viewCS w pc !! Config_Type c) as [u|] eqn:Hu; [|done]. cbn in Hr.
    exists (Config_Type c, u). split; [|by apply elem_of_map_to_list].
    cbn. apply elem_of_values. exists (Config_ID c). unfold entryOf in Hr.
    destruct (live u !! Config_ID c) as [c'|]; [by simplify_eq|].
    by destruct (dead u !! Config_ID c).
Qed.

Lemma config_array_is_live_witness :
  wp (Configs.ConfigArray storedOrder storeA) storesWorld (λ l w',
    mem w' = mem storesWorld ∧ NoDup l ∧
    ∀ c, wp (Configs.Get storeA (Config_Type c) (Config_ID c)) storesWorld (λ r _,
           c ∈ l ↔ r = (mkConfigResult (Some c) None, true))).
Proof. apply (config_array_is_live storedOrder storesWorld storeA). by_compute. Defined.

(** X8.  [TombstoneArray] on a well-formed container returns, in some
    order and each once, exactly the tombstones it holds: a tombstone is
    in the array if and only if [Get] of its type and ID returns it. *)
Theorem tombstone_array_is_dead (o : Oracle) (w : world) (pc : loc) :
  wfStore w pc →
  wp (Configs.TombstoneArray o pc) w (λ l w',
    mem w' = mem w ∧ NoDup l ∧
    ∀ t, wp (Configs.Get pc (Tombstone_Type t) (Tombstone_ID t)) w (λ r _,
           t ∈ l ↔ r = (mkConfigResult None (Some t), true))).
Proof.
  intros [Hok Hwf]. apply wp_CS_TombstoneArray; [done|]. intros l w' Hm _ Hl.
  split_and!; [done|by rewrite Hl; apply NoDup_deadOf|].
  intros t. apply wp_CS_Get; [done|]. rewrite Hl, list_elem_of_bind. split.
  - intros ([typ u] & [k Hk]%elem_of_values & Hu%elem_of_map_to_list). cbn in *.
    destruct (Hwf _ _ Hu) as [[[_ Hkd] Hs] [_ Htd]].
    pose proof (Hkd _ _ Hk) as E1. pose proof (Htd _ _ Hk) as E2. cbn in *. subst.
    rewrite (typedAt_lookup _ _ _ Hu). unfold entryOf.
    destruct (live u !! Tombstone_ID t) as [c|] eqn:E; [|by rewrite Hk].
    pose proof (Hs _ _ E) as H. cbn in H. congruence.
  - intros Hr. unfold typedAt in Hr.
    destruct (viewCS w pc !! Tombstone_Type t) as [u|] eqn:Hu; [|done]. cbn in Hr.
    exists (Tombstone_Type t, u). split; [|by apply elem_of_map_to_list].
    cbn. apply elem_of_values. exists (Tombstone_ID t). unfold entryOf in Hr.
    destruct (live u !! Tombstone_ID t) as [c'|]; [by simplify_eq|].
    destruct (dead u !! Tombstone_ID t); by simplify_eq.
Qed.

Lemma tombstone_array_is_dead_witness :
  wp (Configs.TombstoneArray storedOrder storeA) storesWorld (λ l w',
    mem w' = mem storesWorld ∧ NoDup l ∧
    ∀ t, wp (Configs.Get storeA (Tombstone_Type t) (Tombstone_ID t)) storesWorld (λ r _,
           t ∈ l ↔ r = (mkConfigResult None (Some t), true))).
Proof. apply (tombstone_array_is_dead storedOrder storesWorld storeA). by_compute. Defined.

(** * [TypeConfigs.UnmarshalJSON] and [TypeConfigs.MarshalJSON] *)

Lemma wp_fillConfigs w p tc m cm l Q :
  mem w !! p = Some (ObjTypeConfigs tc) → TypeConfigs_Configs tc = Some m →
  mem w !! m = Some (MapConfig cm) →
  (∀ w' err cm',
     mem w' = <[m := MapConfig cm']> (mem w) → clock w' = clock w → trace w' = trace w →
     (match fillMap Config_ID cm l with
      | Some full => err = None ∧ cm' = full
      | None => err = Some "duplicate config"
      end) →
     Q err w') →
  wp (TypeConfigs.fillConfigs p l) w Q.
Proof.
  revert w cm. induction l as [|c l IH]; intros w cm Hp Hm Hcm HQ; cbn [TypeConfigs.fillConfigs].
  - apply wp_ret. apply (HQ w None cm); [by rewrite insert_id|done..].
  - assert (Hne : m ≠ p) by congruence.
    apply wp_bind. eapply wp_readTypeConfigs; [done|].
    rewrite Hm. apply wp_bind. eapply wp_readMapConfig; [by cbn; rewrite Hcm|].
    cbn [fillMap] in HQ.
    destruct (cm !! Config_ID c) as [c'|] eqn:E.
    + apply wp_ret. apply (HQ w _ cm); [by rewrite insert_id|done..].
    + apply wp_bind. unfold assignMapConfig.
      apply wp_bind. eapply wp_readMapConfig; [by cbn; rewrite Hcm|]. apply wp_write.
      eapply (IH _ (<[Config_ID c := c]> cm)).
      * cbn [mem upd]. by rewrite lookup_insert_ne.
      * done.
      * cbn [mem upd]. by rewrite lookup_insert_eq.
      * intros w' err cm' Hm' Hc' Ht' Hres. apply (HQ w' err cm'); [|done..].
        rewrite Hm'. cbn [mem upd]. by rewrite insert_insert_eq.
Qed.

Lemma wp_fillTombstones w p tc m tm l Q :
  mem w !! p = Some (ObjTypeConfigs tc) → TypeConfigs_Tombstones tc = Some m →
  mem w !! m = Some (MapTombstone tm) →
  (∀ w' err tm',
     mem w' = <[m := MapTombstone tm']> (mem w) → clock w' = clock w → trace w' = trace w →
     (match fillMap Tombstone_ID tm l with
      | Some full => err = None ∧ tm' = full
      | None => err = Some "duplicate tombstone"
      end) →
     Q err w') →
  wp (TypeConfigs.fillTombstones p l) w Q.
Proof.
  revert w tm. induction l as [|t l IH]; intros w tm Hp Hm Htm HQ;
    cbn [TypeConfigs.fillTombstones].
  - apply wp_ret. apply (HQ w None tm); [by rewrite insert_id|done..].
  - assert (Hne : m ≠ p) by congruence.
    apply wp_bind. eapply wp_readTypeConfigs; [done|].
    rewrite Hm. apply wp_bind. eapply wp_readMapTombstone; [by cbn; rewrite Htm|].
    cbn [fillMap] in HQ.
    destruct (tm !! Tombstone_ID t) as [t'|] eqn:E.
    + apply wp_ret. apply (HQ w _ tm); [by rewrite insert_id|done..].
    + apply wp_bind. unfold assignMapTombstone.
      apply wp_bind. eapply wp_readMapTombstone; [by cbn; rewrite Htm|]. apply wp_write.
      eapply (IH _ (<[Tombstone_ID t := t]> tm)).
      * cbn [mem upd]. by rewrite lookup_insert_ne.
      * done.
      * cbn [mem upd]. by rewrite lookup_insert_eq.
      * intros w' err tm' Hm' Hc' Ht' Hres. apply (HQ w' err tm'); [|done..].
        rewrite Hm'. cbn [mem upd]. by rewrite insert_insert_eq.
Qed.

(** [fillMap] succeeds exactly on the lists without a repeated key that
    is not in the map yet, and then adds every element under its key. *)
Lemma fillMap_Some {V} (key : V → string) (l : list V) m :
  NoDup (key <$> l) → (∀ x, x ∈ l → m !! key x = None) →
  ∃ full, fillMap key m l = Some full ∧
          ∀ k, full !! k = match list_find (λ x, key x = k) l with
                           | Some (_, x) => Some x
                           | None => m !! k
                           end.
Proof.
  revert m. induction l as [|x l IH]; intros m Hnd Hfresh; cbn [fillMap].
  - by exists m.
  - cbn in Hnd. apply NoDup_cons in Hnd as [Hx Hnd].
    rewrite Hfresh by set_solver.
    destruct (IH (<[key x := x]> m) Hnd) as (full & Hfull & Hlook).
    { intros y Hy. rewrite lookup_insert_ne; [apply Hfresh; set_solver|].
      intros Heq. apply Hx. rewrite Heq. by apply list_elem_of_fmap_2. }
    exists full. split; [done|]. intros k. rewrite Hlook. cbn [list_find].
    destruct (decide (key x = k)) as [<-|Hne].
    + destruct (list_find _ l) as [[i y]|] eqn:Ef; cbn.
      * apply list_find_Some in Ef as (Hi & Hy & _). exfalso. apply Hx.
        rewrite <-Hy. apply list_elem_of_fmap_2. by eapply list_elem_of_lookup_2.
      * by rewrite lookup_insert_eq.
    + destruct (list_find _ l) as [[i y]|]; cbn; [done|]. by rewrite lookup_insert_ne.
Qed.

Lemma fillMap_None {V} (key : V → string) (l : list V) m :
  ¬ NoDup (key <$> l) → fillMap key m l = None.
Proof.
  revert m. induction l as [|x l IH]; intros m Hnd; cbn [fillMap].
  - exfalso. apply Hnd. constructor.
  - destruct (m !! key x); [done|].
    destruct (decide (key x ∈ key <$> l)) as [Hin|Hnin].
    + clear IH Hnd. revert m. 
      induction l as [|y l IH]; intros m; [set_solver|]. cbn [fillMap].
      destruct (decide (key y = key x)) as [Heq|Hne].
      * by rewrite Heq, lookup_insert_eq.
      * destruct (<[key x:=x]> m !! key y); [done|].
        rewrite insert_insert_ne by done.
        apply IH. cbn in Hin. set_solver.
    + apply IH. intros Hnd'. apply Hnd. cbn. by constructor.
Qed.

Lemma wp_TC_UnmarshalJSON w p tc js Q :
  mem w !! p = Some (ObjTypeConfigs tc) →
  (∀ w' err,
     match fillMap Config_ID ∅ (json_live js) with
     | None => err = Some "duplicate config"
     | Some cm =>
         match fillMap Tombstone_ID ∅ (json_dead js) with
         | None => err = Some "duplicate tombstone"
         | Some tm => err = None ∧ viewTC w' p = Some (mkTyped cm tm)
         end
     end →
     Q err w') →
  wp (TypeConfigs.UnmarshalJSON p (inr js)) w Q.
Proof.
  intros Hp HQ. unfold TypeConfigs.UnmarshalJSON.
  apply wp_bind, wp_alloc. intros m Hm.
  assert (Hmp : m ≠ p) by congruence.
  apply wp_bind. unfold setConfigsField.
  apply wp_bind. eapply wp_readTypeConfigs.
  { cbn [mem upd]. by rewrite lookup_insert_ne. }
  apply wp_write. apply wp_bind.
  eapply (wp_fillConfigs _ p _ m ∅).
  { cbn [mem upd]. by rewrite lookup_insert_eq. }
  { done. }
  { cbn [mem upd]. rewrite lookup_insert_ne by done. by rewrite lookup_insert_eq. }
  intros w3 err cm' Hm3 _ _ Hres.
  destruct (fillMap Config_ID ∅ (json_live js)) as [cm|].
  2:{ subst err. apply wp_ret. by apply HQ. }
  destruct Hres as [-> ->].
  assert (Hp3 : mem w3 !! p =
            Some (ObjTypeConfigs (mkTypeConfigs (Some m) (TypeConfigs_Tombstones tc)))).
  { rewrite Hm3. cbn [mem upd]. rewrite lookup_insert_ne by done. by rewrite lookup_insert_eq. }
  assert (Hm3' : mem w3 !! m = Some (MapConfig cm)).
  { rewrite Hm3. by rewrite lookup_insert_eq. }
  apply wp_bind, wp_alloc. intros l Hl.
  assert (Hlp : l ≠ p) by congruence. assert (Hlm : l ≠ m) by congruence.
  apply wp_bind. unfold setTombstonesField.
  apply wp_bind. eapply wp_readTypeConfigs.
  { cbn [mem upd]. by rewrite lookup_insert_ne. }
  apply wp_write.
  eapply (wp_fillTombstones _ p _ l ∅).
  { cbn [mem upd]. by rewrite lookup_insert_eq. }
  { done. }
  { cbn [mem upd]. rewrite lookup_insert_ne by done. by rewrite lookup_insert_eq. }
  intros w6 err tm' Hm6 _ _ Hres. apply HQ.
  destruct (fillMap Tombstone_ID ∅ (json_dead js)) as [tm|]; [|done].
  destruct Hres as [-> ->]. split; [done|].
  apply viewTC_Some. eexists. split_and!.
  - rewrite Hm6. cbn [mem upd]. rewrite lookup_insert_ne by done. by rewrite lookup_insert_eq.
  - cbn. rewrite Hm6. cbn [mem upd]. rewrite !lookup_insert_ne by done. by rewrite Hm3'.
  - cbn. rewrite Hm6. by rewrite lookup_insert_eq.
Qed.

(** X10.  [TypeConfigs.UnmarshalJSON] on a decoded form whose configs
    have distinct IDs and whose tombstones have distinct IDs returns no
    error and replaces what the object held: [Get] returns the config of
    the ID when there is one, else the tombstone of the ID when there is
    one, else nothing. *)
Theorem unmarshal_builds_maps (w : world) (p : loc) (tc : TypeConfigs) (js : configsJSON) :
  mem w !! p = Some (ObjTypeConfigs tc) →
  NoDup (Config_ID <$> json_live js) → NoDup (Tombstone_ID <$> json_dead js) →
  wp (TypeConfigs.UnmarshalJSON p (inr js)) w (λ err w',
    err = None ∧
    ∀ ID, wp (TypeConfigs.Get p ID) w' (λ r _,
      r = match list_find (λ c, Config_ID c = ID) (json_live js) with
          | Some (_, c) => (mkConfigResult (Some c) None, true)
          | None =>
              match list_find (λ t, Tombstone_ID t = ID) (json_dead js) with
              | Some (_, t) => (mkConfigResult None (Some t), true)
              | None => (mkConfigResult None None, false)
              end
          end)).
Proof.
  intros Hp Hl Hd. eapply wp_TC_UnmarshalJSON; [done|]. intros w' err Hres.
  destruct (fillMap_Some Config_ID (json_live js) ∅ Hl) as (cm & Ecm & Hcm); [done|].
  destruct (fillMap_Some Tombstone_ID (json_dead js) ∅ Hd) as (tm & Etm & Htm); [done|].
  rewrite Ecm, Etm in Hres. destruct Hres as [-> Hv]. split; [done|]. intros ID.
  eapply wp_TC_Get; [done|]. unfold entryOf. cbn [live dead]. rewrite Hcm, Htm.
  destruct (list_find _ (json_live js)) as [[i c]|]; [done|]. rewrite lookup_empty.
  destruct (list_find _ (json_dead js)) as [[i t]|]; [done|]. by rewrite lookup_empty.
Qed.

Lemma unmarshal_builds_maps_witness :
  wp (TypeConfigs.UnmarshalJSON 1%positive (inr exampleJSON)) emptyTypeConfigs.2
    (λ err w',
    err = None ∧
    ∀ ID, wp (TypeConfigs.Get 1%positive ID) w' (λ r _,
      r = match list_find (λ c, Config_ID c = ID) (json_live exampleJSON) with
          | Some (_, c) => (mkConfigResult (Some c) None, true)
          | None =>
              match list_find (λ t, Tombstone_ID t = ID) (json_dead exampleJSON) with
              | Some (_, t) => (mkConfigResult None (Some t), true)
              | None => (mkConfigResult None None, false)
              end
          end)).
Proof.
  apply (unmarshal_builds_maps emptyTypeConfigs.2 1%positive (mkTypeConfigs None None)
           exampleJSON).
  - vm_compute. reflexivity.
  - by_compute.
  - by_compute.
Defined.

(** X11.  [TypeConfigs.UnmarshalJSON] returns the error of the decoder
    and leaves the object as it was when the JSON does not decode; it
    returns an error when two configs of the decoded form have the same
    ID, and when the configs have distinct IDs and two tombstones have the
    same ID. *)
Theorem unmarshal_rejects_duplicates (w : world) (p : loc) (tc : TypeConfigs)
    (js : configsJSON) (e : string) :
  mem w !! p = Some (ObjTypeConfigs tc) →
  wp (TypeConfigs.UnmarshalJSON p (inl e)) w (λ err w', err = Some e ∧ w' = w) ∧
  wp (TypeConfigs.UnmarshalJSON p (inr js)) w (λ err _,
    (¬ NoDup (Config_ID <$> json_live js) → err = Some "duplicate config") ∧
    (NoDup (Config_ID <$> json_live js) → ¬ NoDup (Tombstone_ID <$> json_dead js) →
     err = Some "duplicate tombstone")).
Proof.
  intros Hp. split; [done|].
  eapply wp_TC_UnmarshalJSON; [done|]. intros w' err Hres. split.
  - intros Hl. by rewrite (fillMap_None Config_ID _ _ Hl) in Hres.
  - intros Hl Hd.
    destruct (fillMap_Some Config_ID (json_live js) ∅ Hl) as (cm & Hcm & _); [done|].
    by rewrite Hcm, (fillMap_None Tombstone_ID _ _ Hd) in Hres.
Qed.

Lemma unmarshal_rejects_duplicates_witness :
  wp (TypeConfigs.UnmarshalJSON 1%positive (inl "unexpected end of JSON input"))
     emptyTypeConfigs.2
     (λ err w', err = Some "unexpected end of JSON input" ∧ w' = emptyTypeConfigs.2) ∧
  wp (TypeConfigs.UnmarshalJSON 1%positive (inr duplicateJSON)) emptyTypeConfigs.2
    (λ err _,
    (¬ NoDup (Config_ID <$> json_live duplicateJSON) → err = Some "duplicate config") ∧
    (NoDup (Config_ID <$> json_live duplicateJSON) →
     ¬ NoDup (Tombstone_ID <$> json_dead duplicateJSON) →
     err = Some "duplicate tombstone")).
Proof.
  apply (unmarshal_rejects_duplicates emptyTypeConfigs.2 1%positive
           (mkTypeConfigs None None) duplicateJSON "unexpected end of JSON input").
  vm_compute. reflexivity.
Defined.

Lemma wp_collect {A} (items : list (string * A)) w Q :
  Q items.*2 w → wp (foldM (λ acc '(_, x), ret (acc ++ [x])) [] items) w Q.
Proof.
  intros HQ. eapply (wp_foldM (λ done acc wi, wi = w ∧ acc = done.*2)).
  - done.
  - intros done [k x] rest acc wi _ [-> ->]. apply wp_ret. split; [done|].
    by rewrite fmap_app.
  - by intros acc w' [-> ->].
Qed.

Lemma wp_MarshalJSON o w p v Q :
  viewTC w p = Some v →
  (∀ js w', mem w' = mem w → trace w' = trace w →
     json_live js ≡ₚ (map_to_list (live v)).*2 →
     json_dead js ≡ₚ (map_to_list (dead v)).*2 → Q js w') →
  wp (MarshalJSON o p) w Q.
Proof.
  intros (tc & Hp & Hc & Ht)%viewTC_Some HQ. unfold MarshalJSON.
  apply wp_bind. eapply wp_readTypeConfigs; [done|].
  apply wp_bind. eapply wp_readMapConfig; [done|].
  apply wp_bind, wp_range. intros items Hitems.
  apply wp_bind, wp_collect.
  apply wp_bind. eapply wp_readTypeConfigs; [done|].
  apply wp_bind. eapply wp_readMapTombstone; [done|].
  apply wp_bind, wp_range. intros items2 Hitems2.
  apply wp_bind, wp_collect. apply wp_ret.
  apply HQ; [done|done|by cbn; rewrite Hitems|by cbn; rewrite Hitems2].
Qed.

Lemma list_find_keyed {V} (key : V → string) (m : gmap string V) (l : list V) k :
  map_Forall (λ k x, key x = k) m → l ≡ₚ (map_to_list m).*2 →
  snd <$> list_find (λ x, key x = k) l = m !! k.
Proof.
  intros Hkeyed Hl.
  destruct (list_find _ l) as [[i x]|] eqn:Ef; cbn.
  - apply list_find_Some in Ef as (Hi & Hx & _). symmetry.
    apply list_elem_of_lookup_2 in Hi. rewrite <-Hx.
    by apply (keyed_elem key m l).
  - destruct (m !! k) as [x|] eqn:E; [|done]. exfalso.
    apply list_find_None in Ef. rewrite Forall_forall in Ef.
    apply (Ef x); [|by apply (Hkeyed _ _ E)].
    apply (keyed_elem key m l); [done..|]. by rewrite (Hkeyed _ _ E).
Qed.

(** X12.  What [MarshalJSON] serializes, [UnmarshalJSON] reads back: for
    a [TypeConfigs] whose entries are stored under their IDs,
    deserializing the struct that [MarshalJSON] fills into any
    [TypeConfigs] returns no error and makes [Get] return there, for
    every ID, what it returns in the first. *)
Theorem marshal_unmarshal (o : Oracle) (w : world) (p q : loc) (v : typed)
    (tc : TypeConfigs) :
  viewTC w p = Some v → keyedByID v → mem w !! q = Some (ObjTypeConfigs tc) →
  wp (MarshalJSON o p) w (λ js w1,
  wp (TypeConfigs.UnmarshalJSON q (inr js)) w1 (λ err w2,
    err = None ∧
    ∀ ID, wp (TypeConfigs.Get q ID) w2 (λ x _,
          wp (TypeConfigs.Get p ID) w (λ y _, x = y)))).
Proof.
  intros Hv [Hkl Hkd] Hq. eapply wp_MarshalJSON; [done|].
  intros js w1 Hm1 _ Hlive Hdead.
  eapply wp_TC_UnmarshalJSON; [by rewrite Hm1|]. intros w2 err Hres.
  destruct (fillMap_Some Config_ID (json_live js) ∅) as (cm & Hcm & Hcm'); [|done|].
  { rewrite Hlive. by apply (keyed_NoDup Config_ID (live v)). }
  destruct (fillMap_Some Tombstone_ID (json_dead js) ∅) as (tm & Htm & Htm'); [|done|].
  { rewrite Hdead. by apply (keyed_NoDup Tombstone_ID (dead v)). }
  rewrite Hcm, Htm in Hres. destruct Hres as [-> Hv2]. split; [done|].
  intros ID. eapply wp_TC_Get; [done|]. eapply wp_TC_Get; [done|].
  assert (cm = live v) as ->.
  { apply map_eq. intros k. rewrite Hcm', <-(list_find_keyed Config_ID (live v) _ k Hkl Hlive).
    destruct (list_find _ (json_live js)) as [[i c]|]; [done|]. by rewrite lookup_empty. }
  assert (tm = dead v) as ->.
  { apply map_eq. intros k.
    rewrite Htm', <-(list_find_keyed Tombstone_ID (dead v) _ k Hkd Hdead).
    destruct (list_find _ (json_dead js)) as [[i t]|]; [done|]. by rewrite lookup_empty. }
  by destruct v.
Qed.

Lemma marshal_unmarshal_witness :
  wp (MarshalJSON storedOrder 3%positive) storesWorld (λ js w1,
  wp (TypeConfigs.UnmarshalJSON 3%positive (inr js)) w1 (λ err w2,
    err = None ∧
    ∀ ID, wp (TypeConfigs.Get 3%positive ID) w2 (λ x _,
          wp (TypeConfigs.Get 3%positive ID) storesWorld (λ y _, x = y)))).
Proof.
  eapply (marshal_unmarshal storedOrder storesWorld 3%positive 3%positive exampleTyped).
  - vm_compute. reflexivity.
  - by_compute.
  - vm_compute. reflexivity.
Defined.

(** * The type registry *)

(** X13.  [RegisterType] and [NewConfig] of the registry: a registration
    succeeds exactly when the type is not a pointer and the name is not
    registered yet; [NewConfig] of the name then returns a new object of
    the type and no error, where it returned an error before, and
    [NewConfig] of every other name returns what it returned before; a
    second registration of the name panics, whatever the type. *)
Theorem register_then_new (typeRegistry : option (gmap string reflectType))
    (name : string) (typ : reflectType) :
  match RegisterType typeRegistry name typ with
  | Ok registry' =>
      reflectType_isPtr typ = false ∧
      NewConfig typeRegistry name =
        (None, Some ("unknown config type '" +:+ name +:+ "'")) ∧
      NewConfig registry' name =
        (Some (mkPayload (reflectType_name typ) (reflectType_zero typ)), None) ∧
      (∀ name', name' ≠ name → NewConfig registry' name' = NewConfig typeRegistry name') ∧
      (∀ typ', ∃ msg, RegisterType registry' name typ' = Panic msg)
  | Panic _ =>
      reflectType_isPtr typ = true ∨ (NewConfig typeRegistry name).2 = None
  end.
Proof.
  unfold RegisterType, NewConfig.
  destruct (reflectType_isPtr typ) eqn:Hptr; [by left|].
  assert (Hreg : default ∅ match typeRegistry with Some _ => typeRegistry | None => Some ∅ end
                 = default ∅ typeRegistry) by by destruct typeRegistry.
  rewrite Hreg.
  destruct (default ∅ typeRegistry !! name) as [old|] eqn:Hold; [by right|].
  cbn [default from_option id]. split_and!; [done..| | |].
  - by rewrite lookup_insert_eq.
  - intros name' Hne. by rewrite lookup_insert_ne.
  - intros typ'. destruct (reflectType_isPtr typ'); [by eexists|].
    rewrite lookup_insert_eq. by eexists.
Qed.

(** * What a router state sends for a mutation *)

Lemma replaceCalls_trace old c objs :
  (λ x : loc * Call, ConfigurableCall x.1 x.2) <$> replaceCalls old c objs =
  objs ≫= λ obj,
    match old with Some o => [ConfigurableCall obj (CallDeadConfig o)] | None => [] end ++
    [ConfigurableCall obj (CallNewConfig c)].
Proof.
  unfold replaceCalls. induction objs as [|obj objs IH]; [done|].
  cbn [mbind list_bind]. rewrite fmap_app, IH. f_equal. by destruct old.
Qed.

Lemma killCalls_trace old objs :
  (λ x : loc * Call, ConfigurableCall x.1 x.2) <$> killCalls old objs =
  match old with
  | Some o => (λ obj, ConfigurableCall obj (CallDeadConfig o)) <$> objs
  | None => []
  end.
Proof. destruct old; [|done]. cbn. by rewrite <-list_fmap_compose. Qed.

Lemma typedAt_withConfig_rejected V c :
  acceptsConfig (typedAt V (Config_Type c)) (Config_ID c) (Config_Version c) = false →
  ∀ typ, typedAt (applyValue V (Live c)) typ = typedAt V typ.
Proof.
  intros Hacc typ. rewrite (typedAt_applyValue _ (Live c)). cbn.
  case_decide as Hty; [|done]. subst. unfold withConfig. by rewrite Hacc.
Qed.

Lemma typedAt_withTombstone_rejected V t :
  acceptsTombstone (typedAt V (Tombstone_Type t)) (Tombstone_ID t) (Tombstone_Version t)
    = false →
  ∀ typ, typedAt (applyValue V (Dead t)) typ = typedAt V typ.
Proof.
  intros Hacc typ. rewrite (typedAt_applyValue _ (Dead t)). cbn.
  case_decide as Hty; [|done]. subst. unfold withTombstone. by rewrite Hacc.
Qed.

(** X14.  What [routerState.NewConfig] sends.  A config the container
    rejects is dropped: no error, nothing is sent, no object receives a
    call and [Get] returns what it returned.  A config the container
    accepts goes to the handlers for its type and then to every object
    routed for the type, the untyped ones first: each receives
    [NewConfig], after [DeadConfig] of the live config that is replaced
    when there is one, and [Get] then returns the config. *)
Theorem new_config_routing (w : world) (state : loc) (s : routerState) (c : Config) :
  objRouterState w state = Some s →
  okCS w (routerState_Configs s) →
  Forall (λ obj, is_Some (objConfigurable w obj)) (routedTo s (Config_Type c)) →
  wp (routerState.NewConfig state c) w (λ err w',
    if acceptsConfig (typedAt (viewCS w (routerState_Configs s)) (Config_Type c))
         (Config_ID c) (Config_Version c)
    then
      trace w' =
        trace w
        ++ ((λ h, HandlerNewConfig (Handler_name h) c) <$> handlersFor s (Config_Type c))
        ++ (routedTo s (Config_Type c) ≫= λ obj,
              match live (typedAt (viewCS w (routerState_Configs s)) (Config_Type c))
                      !! Config_ID c with
              | Some old => [ConfigurableCall obj (CallDeadConfig old)]
              | None => []
              end ++ [ConfigurableCall obj (CallNewConfig c)]) ∧
      (∀ obj b r,
         objConfigurable w obj = Some (b, r) →
         objConfigurable w' obj =
           Some (b, r ++ (filter (λ x, x = obj) (routedTo s (Config_Type c)) ≫= λ _,
                   match live (typedAt (viewCS w (routerState_Configs s)) (Config_Type c))
                           !! Config_ID c with
                   | Some old => [CallDeadConfig old]
                   | None => []
                   end ++ [CallNewConfig c]))) ∧
      wp (Configs.Get (routerState_Configs s) (Config_Type c) (Config_ID c)) w'
         (λ r _, r = (mkConfigResult (Some c) None, true))
    else
      err = None ∧ trace w' = trace w ∧
      (∀ obj b r,
         objConfigurable w obj = Some (b, r) → objConfigurable w' obj = Some (b, r)) ∧
      ∀ typ ID,
        wp (Configs.Get (routerState_Configs s) typ ID) w' (λ x _,
        wp (Configs.Get (routerState_Configs s) typ ID) w (λ y _, x = y))).
Proof.
  intros Hs Hok Hobjs.
  destruct (acceptsConfig _ _ _) eqn:Hacc.
  - apply (wp_RS_NewConfig w state s c); [done..|].
    intros w1 _ Hok1 HV1 Hev1 Htr1. cbn zeta. rewrite Hacc.
    set (old := live _ !! _).
    set (w2 := announce w1 _). set (calls := replaceCalls _ _ _).
    assert (Hw2 : ∀ obj, is_Some (objConfigurable w obj) →
              objConfigurable w2 obj = objConfigurable w obj).
    { intros obj Hobj. unfold objConfigurable, w2, announce. cbn [mem].
      fold (objConfigurable w1 obj).
      by rewrite (configurable_evolves w w1 (routerState_Configs s));
        [done..|by destruct Hev1|done]. }
    assert (Hobjs2 : Forall (λ obj, is_Some (objConfigurable w2 obj))
                       (routedTo s (Config_Type c))).
    { eapply Forall_impl; [done|]. intros obj Hobj. cbn beta. by rewrite Hw2. }
    split_and!.
    + destruct (deliver_all_trace calls w2) as [-> _].
      { by apply replaceCalls_configurable. }
      unfold calls. rewrite replaceCalls_trace. unfold w2, announce. cbn [trace].
      by rewrite Htr1, <-app_assoc.
    + intros obj b r Hobj.
      rewrite (deliver_all_received calls w2 obj b r).
      * unfold calls. by rewrite filter_replaceCalls.
      * by rewrite Hw2, Hobj.
    + assert (Hco : callsOnly w1 (foldl deliver w2 calls)).
      { eapply callsOnly_trans; [apply callsOnly_announce|apply deliver_all_callsOnly]. }
      destruct (callsOnly_store _ _ _ Hco Hok1) as (Hok' & _ & HV' & _).
      apply wp_CS_Get; [done|]. rewrite HV', HV1. cbn [applyValue].
      unfold typedAt at 1. rewrite lookup_insert_eq. cbn [default].
      by apply entryOf_withConfig.
  - unfold routerState.NewConfig.
    apply wp_bind. eapply wp_readRouterState; [done|].
    apply wp_bind. apply wp_CS_NewConfig; [done|].
    intros w1 Hok1 HV1 Hev1 Htr1. cbn zeta. rewrite Hacc. cbn [negb].
    apply wp_ret. split_and!; [done..| |].
    + intros obj b r Hobj.
      by rewrite (configurable_evolves w w1 (routerState_Configs s));
        [done..|by destruct Hev1|by rewrite Hobj].
    + intros typ ID. apply wp_CS_Get; [done|]. apply wp_CS_Get; [done|].
      rewrite HV1. by rewrite (typedAt_withConfig_rejected _ c Hacc).
Qed.

Lemma new_config_routing_witness :
  wp (routerState.NewConfig registeredState configA1) registeredWorld (λ err w',
    if acceptsConfig (typedAt (viewCS registeredWorld
                                 (routerState_Configs registeredRouterState))
                        (Config_Type configA1))
         (Config_ID configA1) (Config_Version configA1)
    then
      trace w' =
        trace registeredWorld
        ++ ((λ h, HandlerNewConfig (Handler_name h) configA1) <$>
              handlersFor registeredRouterState (Config_Type configA1))
        ++ (routedTo registeredRouterState (Config_Type configA1) ≫= λ obj,
              match live (typedAt (viewCS registeredWorld
                                     (routerState_Configs registeredRouterState))
                            (Config_Type configA1))
                      !! Config_ID configA1 with
              | Some old => [ConfigurableCall obj (CallDeadConfig old)]
              | None => []
              end ++ [ConfigurableCall obj (CallNewConfig configA1)]) ∧
      (∀ obj b r,
         objConfigurable registeredWorld obj = Some (b, r) →
         objConfigurable w' obj =
           Some (b, r ++ (filter (λ x, x = obj)
                            (routedTo registeredRouterState (Config_Type configA1)) ≫= λ _,
                   match live (typedAt (viewCS registeredWorld
                                          (routerState_Configs registeredRouterState))
                                 (Config_Type configA1))
                           !! Config_ID configA1 with
                   | Some old => [CallDeadConfig old]
                   | None => []
                   end ++ [CallNewConfig configA1]))) ∧
      wp (Configs.Get (routerState_Configs registeredRouterState)
            (Config_Type configA1) (Config_ID configA1)) w'
         (λ r _, r = (mkConfigResult (Some configA1) None, true))
    else
      err = None ∧ trace w' = trace registeredWorld ∧
      (∀ obj b r,
         objConfigurable registeredWorld obj = Some (b, r) →
         objConfigurable w' obj = Some (b, r)) ∧
      ∀ typ ID,
        wp (Configs.Get (routerState_Configs registeredRouterState) typ ID) w' (λ x _,
        wp (Configs.Get (routerState_Configs registeredRouterState) typ ID)
           registeredWorld (λ y _, x = y))).
Proof.
  apply (new_config_routing registeredWorld registeredState registeredRouterState configA1).
  - vm_compute. reflexivity.
  - by_compute.
  - by_compute.
Defined.

(** X15.  What [routerState.DeadConfig] sends.  A tombstone the container
    rejects is dropped: no error, nothing is sent, no object receives a
    call and [Get] returns what it returned.  A tombstone the container
    accepts goes to the handlers for its type; when it kills a live
    config, every object routed for the type, the untyped ones first,
    receives [DeadConfig] of that config, and when there is no live
    config no object receives a call; [Get] then returns the
    tombstone. *)
Theorem dead_config_routing (w : world) (state : loc) (s : routerState) (t : Tombstone) :
  objRouterState w state = Some s →
  okCS w (routerState_Configs s) →
  Forall (λ obj, is_Some (objConfigurable w obj)) (routedTo s (Tombstone_Type t)) →
  wp (routerState.DeadConfig state t) w (λ err w',
    if acceptsTombstone (typedAt (viewCS w (routerState_Configs s)) (Tombstone_Type t))
         (Tombstone_ID t) (Tombstone_Version t)
    then
      trace w' =
        trace w
        ++ ((λ h, HandlerDeadConfig (Handler_name h) t) <$> handlersFor s (Tombstone_Type t))
        ++ match live (typedAt (viewCS w (routerState_Configs s)) (Tombstone_Type t))
                   !! Tombstone_ID t with
           | Some old =>
               (λ obj, ConfigurableCall obj (CallDeadConfig old)) <$>
                 routedTo s (Tombstone_Type t)
           | None => []
           end ∧
      (∀ obj b r,
         objConfigurable w obj = Some (b, r) →
         objConfigurable w' obj =
           Some (b, r ++ (filter (λ x, x = obj) (routedTo s (Tombstone_Type t)) ≫= λ _,
                   match live (typedAt (viewCS w (routerState_Configs s)) (Tombstone_Type t))
                           !! Tombstone_ID t with
                   | Some old => [CallDeadConfig old]
                   | None => []
                   end))) ∧
      wp (Configs.Get (routerState_Configs s) (Tombstone_Type t) (Tombstone_ID t)) w'
         (λ r _, r = (mkConfigResult None (Some t), true))
    else
      err = None ∧ trace w' = trace w ∧
      (∀ obj b r,
         objConfigurable w obj = Some (b, r) → objConfigurable w' obj = Some (b, r)) ∧
      ∀ typ ID,
        wp (Configs.Get (routerState_Configs s) typ ID) w' (λ x _,
        wp (Configs.Get (routerState_Configs s) typ ID) w (λ y _, x = y))).
Proof.
  intros Hs Hok Hobjs.
  destruct (acceptsTombstone _ _ _) eqn:Hacc.
  - apply (wp_RS_DeadConfig w state s t); [done..|].
    intros w1 _ Hok1 HV1 Hev1 Htr1. cbn zeta. rewrite Hacc.
    set (old := live _ !! _).
    set (w2 := announce w1 _). set (calls := killCalls _ _).
    assert (Hw2 : ∀ obj, is_Some (objConfigurable w obj) →
              objConfigurable w2 obj = objConfigurable w obj).
    { intros obj Hobj. unfold objConfigurable, w2, announce. cbn [mem].
      fold (objConfigurable w1 obj).
      by rewrite (configurable_evolves w w1 (routerState_Configs s));
        [done..|by destruct Hev1|done]. }
    assert (Hobjs2 : Forall (λ obj, is_Some (objConfigurable w2 obj))
                       (routedTo s (Tombstone_Type t))).
    { eapply Forall_impl; [done|]. intros obj Hobj. cbn beta. by rewrite Hw2. }
    split_and!.
    + destruct (deliver_all_trace calls w2) as [-> _].
      { by apply killCalls_configurable. }
      unfold calls. rewrite killCalls_trace. unfold w2, announce. cbn [trace].
      by rewrite Htr1, <-app_assoc.
    + intros obj b r Hobj.
      rewrite (deliver_all_received calls w2 obj b r).
      * unfold calls. by rewrite filter_killCalls.
      * by rewrite Hw2, Hobj.
    + assert (Hco : callsOnly w1 (foldl deliver w2 calls)).
      { eapply callsOnly_trans; [apply callsOnly_announce|apply deliver_all_callsOnly]. }
      destruct (callsOnly_store _ _ _ Hco Hok1) as (Hok' & _ & HV' & _).
      apply wp_CS_Get; [done|]. rewrite HV', HV1. cbn [applyValue].
      unfold typedAt at 1. rewrite lookup_insert_eq. cbn [default].
      by apply entryOf_withTombstone.
  - unfold routerState.DeadConfig.
    apply wp_bind. eapply wp_readRouterState; [done|].
    apply wp_bind. apply wp_CS_DeadConfig; [done|].
    intros w1 Hok1 HV1 Hev1 Htr1. cbn zeta. rewrite Hacc. cbn [negb].
    apply wp_ret. split_and!; [done..| |].
    + intros obj b r Hobj.
      by rewrite (configurable_evolves w w1 (routerState_Configs s));
        [done..|by destruct Hev1|by rewrite Hobj].
    + intros typ ID. apply wp_CS_Get; [done|]. apply wp_CS_Get; [done|].
      rewrite HV1. by rewrite (typedAt_withTombstone_rejected _ t Hacc).
Qed.

Lemma dead_config_routing_witness :
  wp (routerState.DeadConfig registeredState tombA1) registeredWorld (λ err w',
    if acceptsTombstone (typedAt (viewCS registeredWorld
                (routerState_Configs registeredRouterState)) (Tombstone_Type tombA1))
         (Tombstone_ID tombA1) (Tombstone_Version tombA1)
    then
      trace w' =
        trace registeredWorld
        ++ ((λ h, HandlerDeadConfig (Handler_name h) tombA1) <$>
              handlersFor registeredRouterState (Tombstone_Type tombA1))
        ++ match live (typedAt (viewCS registeredWorld
                (routerState_Configs registeredRouterState)) (Tombstone_Type tombA1))
                   !! Tombstone_ID tombA1 with
           | Some old =>
               (λ obj, ConfigurableCall obj (CallDeadConfig old)) <$>
                 routedTo registeredRouterState (Tombstone_Type tombA1)
           | None => []
           end ∧
      (∀ obj b r,
         objConfigurable registeredWorld obj = Some (b, r) →
         objConfigurable w' obj =
           Some (b, r ++ (filter (λ x, x = obj)
                            (routedTo registeredRouterState (Tombstone_Type tombA1)) ≫= λ _,
                   match live (typedAt (viewCS registeredWorld
                (routerState_Configs registeredRouterState)) (Tombstone_Type tombA1))
                           !! Tombstone_ID tombA1 with
                   | Some old => [CallDeadConfig old]
                   | None => []
                   end))) ∧
      wp (Configs.Get (routerState_Configs registeredRouterState)
            (Tombstone_Type tombA1) (Tombstone_ID tombA1)) w'
         (λ r _, r = (mkConfigResult None (Some tombA1), true))
    else
      err = None ∧ trace w' = trace registeredWorld ∧
      (∀ obj b r,
         objConfigurable registeredWorld obj = Some (b, r) → objConfigurable w' obj = Some (b, r)) ∧
      ∀ typ ID,
        wp (Configs.Get (routerState_Configs registeredRouterState) typ ID) w' (λ x _,
        wp (Configs.Get (routerState_Configs registeredRouterState) typ ID)
           registeredWorld (λ y _, x = y))).
Proof.
  apply (dead_config_routing registeredWorld registeredState registeredRouterState tombA1).
  - vm_compute. reflexivity.
  - by_compute.
  - by_compute.
Defined.

(** * The handlers of a new router state *)

Lemma appendAt_fold {A} (x : A) (types : list string) (table : gmap string (list A)) typ :
  default [] (foldl (λ table t, appendAt t x table) table types !! typ) =
  default [] (table !! typ) ++ (filter (λ t, t = typ) types ≫= λ _, [x]).
Proof.
  revert table. induction types as [|t types IH]; intros table.
  - cbn. by rewrite app_nil_r.
  - cbn [foldl]. rewrite IH. unfold appendAt. rewrite filter_cons.
    destruct (decide (t = typ)) as [->|Hne].
    + rewrite lookup_insert_eq. cbn. by rewrite <-app_assoc.
    + by rewrite lookup_insert_ne.
Qed.

Lemma addHandler_fields (s : routerState) (h : Handler) :
  routerState_Configs (routerState.addHandler s h) = routerState_Configs s ∧
  KeyedStates (routerState.addHandler s h) = KeyedStates s ∧
  typedStates (routerState.addHandler s h) = typedStates s ∧
  untypedStates (routerState.addHandler s h) = untypedStates s ∧
  untypedHandlers (routerState.addHandler s h) =
    untypedHandlers s ++ filter (λ h, length (Handler_AllowedConfigTypes h) = 0) [h] ∧
  ∀ typ,
    default [] (typedHandlers (routerState.addHandler s h) !! typ) =
    default [] (typedHandlers s !! typ) ++
    (filter (λ t, t = typ) (Handler_AllowedConfigTypes h) ≫= λ _, [h]).
Proof.
  unfold routerState.addHandler. rewrite filter_cons, filter_nil.
  case_bool_decide as Hlen; cbn [routerState_Configs KeyedStates typedStates untypedStates
                                untypedHandlers typedHandlers].
  - rewrite decide_True by done. split_and!; [done..|].
    intros typ. destruct (Handler_AllowedConfigTypes h); [|done].
    rewrite filter_nil. cbn. by rewrite app_nil_r.
  - rewrite decide_False by done. rewrite app_nil_r. split_and!; [done..|].
    intros typ. apply appendAt_fold.
Qed.

Lemma addHandler_fold (s : routerState) (handlers : list Handler) :
  routerState_Configs (foldl routerState.addHandler s handlers) = routerState_Configs s ∧
  KeyedStates (foldl routerState.addHandler s handlers) = KeyedStates s ∧
  typedStates (foldl routerState.addHandler s handlers) = typedStates s ∧
  untypedStates (foldl routerState.addHandler s handlers) = untypedStates s ∧
  untypedHandlers (foldl routerState.addHandler s handlers) =
    untypedHandlers s ++
    filter (λ h, length (Handler_AllowedConfigTypes h) = 0) handlers ∧
  ∀ typ,
    default [] (typedHandlers (foldl routerState.addHandler s handlers) !! typ) =
    default [] (typedHandlers s !! typ) ++
    (handlers ≫= λ h, filter (λ t, t = typ) (Handler_AllowedConfigTypes h) ≫= λ _, [h]).
Proof.
  revert s. induction handlers as [|h handlers IH]; intros s.
  - cbn. rewrite app_nil_r. split_and!; [done..|]. intros typ. by rewrite app_nil_r.
  - cbn [foldl]. destruct (IH (routerState.addHandler s h)) as (-> & -> & -> & -> & -> & Hty).
    destruct (addHandler_fields s h) as (-> & -> & -> & -> & -> & Hty1).
    split_and!; [done..| |].
    + rewrite <-app_assoc. f_equal. by rewrite <-filter_app.
    + intros typ. rewrite Hty, Hty1. cbn [mbind list_bind]. by rewrite <-app_assoc.
Qed.

(** X16.  [newRouterState] changes no object that exists and sends
    nothing; the state it returns is new and has no configurable object;
    its handlers for a type are the handlers that declare no type, in the
    order given, and then the handlers that declare the type, in the
    order given, once for every time they declare it.  The container is
    the one passed in, not a copy of it; when none is passed, it is a new
    one in which [Get] finds nothing. *)
Theorem new_router_state_handlers (configs : option loc) (handlers : list Handler)
    (w : world) :
  wp (routerState.newRouterState configs handlers) w (λ state w',
    mem w !! state = None ∧ trace w' = trace w ∧
    (∀ l x, mem w !! l = Some x → mem w' !! l = Some x) ∧
    ∃ s, objRouterState w' state = Some s ∧
      KeyedStates s = ∅ ∧
      (∀ typ, routedTo s typ = []) ∧
      (∀ typ, handlersFor s typ =
         filter (λ h, length (Handler_AllowedConfigTypes h) = 0) handlers ++
         (handlers ≫= λ h,
            filter (λ t, t = typ) (Handler_AllowedConfigTypes h) ≫= λ _, [h])) ∧
      match configs with
      | Some pc => routerState_Configs s = pc
      | None =>
          mem w !! routerState_Configs s = None ∧
          ∀ typ ID, wp (Configs.Get (routerState_Configs s) typ ID) w'
                      (λ r _, r = (mkConfigResult None None, false))
      end).
Proof.
  unfold routerState.newRouterState.
  set (s0 := λ pc, foldl routerState.addHandler (mkRouterState pc ∅ ∅ [] [] ∅) handlers).
  assert (Hs0 : ∀ pc, routerState_Configs (s0 pc) = pc ∧ KeyedStates (s0 pc) = ∅ ∧
            (∀ typ, routedTo (s0 pc) typ = []) ∧
            ∀ typ, handlersFor (s0 pc) typ =
              filter (λ h, length (Handler_AllowedConfigTypes h) = 0) handlers ++
              (handlers ≫= λ h,
                 filter (λ t, t = typ) (Handler_AllowedConfigTypes h) ≫= λ _, [h])).
  { intros pc. unfold s0.
    destruct (addHandler_fold (mkRouterState pc ∅ ∅ [] [] ∅) handlers)
      as (Hc & Hk & Hts & Hus & Huh & Hth).
    split_and!; [done..| |].
    - intros typ. unfold routedTo. rewrite Hts, Hus. cbn. by rewrite lookup_empty.
    - intros typ. unfold handlersFor. rewrite Huh, Hth. cbn. by rewrite lookup_empty. }
  apply wp_bind. destruct configs as [pc|].
  - apply wp_ret. apply wp_alloc. intros state Hfresh.
    destruct (Hs0 pc) as (Hc & Hk & Hr & Hh).
    split_and!; [done..| |].
    + intros l x Hl. cbn. rewrite lookup_insert_ne; [done|]. congruence.
    + exists (s0 pc). split_and!; [|done..].
      apply objRouterState_Some. cbn. by rewrite lookup_insert_eq.
  - apply wp_alloc. intros pc Hpc. apply wp_alloc. intros state Hfresh.
    apply upd_fresh in Hfresh as [Hne Hfresh].
    destruct (Hs0 pc) as (Hc & Hk & Hr & Hh).
    split_and!; [done..| |].
    + intros l x Hl. cbn. rewrite !lookup_insert_ne; [done|congruence..].
    + exists (s0 pc). split_and!; [|done..|by rewrite Hc|].
      { apply objRouterState_Some. cbn. by rewrite lookup_insert_eq. }
      rewrite Hc. intros typ ID.
      set (w' := upd (upd w pc _) state _).
      assert (Hst : storeAt w' pc (mkConfigs None) ∅).
      { split; [|done]. cbn. rewrite lookup_insert_ne by done. by rewrite lookup_insert_eq. }
      assert (Hok : okCS w' pc).
      { apply okCS_alt. exists (mkConfigs None), ∅.
        split_and!; [done|..]; intros *; by rewrite lookup_empty. }
      apply wp_CS_Get; [done|].
      rewrite (viewCS_storeAt _ _ _ _ Hst), omap_empty.
      unfold typedAt. by rewrite lookup_empty.
Qed.

(** * The in-memory database *)

Lemma okCS_nil w pc :
  mem w !! pc = Some (ObjConfigs (mkConfigs None)) →
  okCS w pc ∧ viewCS w pc = ∅ ∧ fpCS w pc = {[pc]}.
Proof.
  intros Hpc.
  assert (Hst : storeAt w pc (mkConfigs None) ∅) by done.
  split_and!.
  - apply okCS_alt. exists (mkConfigs None), ∅.
    split_and!; [done|..]; intros *; by rewrite lookup_empty.
  - by rewrite (viewCS_storeAt _ _ _ _ Hst), omap_empty.
  - apply set_eq. intros l. rewrite (elem_of_fpCS _ _ _ _ _ Hst). cbn.
    split; [|set_solver]. intros [->|[?|(typ & p & Hp & _)]]; [set_solver|done|].
    by rewrite lookup_empty in Hp.
Qed.

(** The container a method of the database works on. *)
Lemma wp_MDB_state w state Q :
  wfDB w state →
  (∀ w' pc, wfStore w' pc → viewCS w' pc = viewDB w state →
     evolves w w' (fpDB w state) (fpCS w' pc) → keeps ∅ w w' →
     (∀ p, state = Some p → pc = p ∧ w' = w) →
     trace w' = trace w → Q pc w') →
  wp (match state with
      | None => alloc (ObjConfigs (mkConfigs None))
      | Some state => ret state
      end) w Q.
Proof.
  intros Hwf HQ. destruct state as [pc|]; cbn in *.
  - apply wp_ret. apply HQ; [done|done|apply evolves_refl|apply keeps_refl| |done].
    intros p. by inversion 1.
  - apply wp_alloc. intros pc Hpc.
    destruct (okCS_nil (upd w pc (ObjConfigs (mkConfigs None))) pc) as (Hok & HV & Hfp).
    { cbn. by rewrite lookup_insert_eq. }
    assert (Hk : keeps ∅ w (upd w pc (ObjConfigs (mkConfigs None)))).
    { apply keeps_upd; [apply keeps_refl|by right]. }
    apply HQ; [|done| |done|done|done].
    + split; [done|]. rewrite HV. apply map_Forall_empty.
    + split; [done|]. rewrite Hfp. cbn. rewrite dom_insert.
      apply not_elem_of_dom in Hpc. clear -Hpc. set_solver.
Qed.

Lemma wp_MDB_apply w state m Q :
  wfDB w state →
  (∀ w' pc, wfStore w' pc → viewCS w' pc = applyValue (viewDB w state) m →
     evolves w w' (fpDB w state) (fpCS w' pc) →
     (∀ p, state = Some p → pc = p) →
     trace w' = trace w → Q (Some pc) w') →
  wp (match m with
      | Live c => MemoryConfigDB.NewConfig state c
      | Dead t => MemoryConfigDB.DeadConfig state t
      end) w Q.
Proof.
  intros Hwf HQ.
  assert (Hstep : ∀ w0 pc w', wfStore w0 pc → viewCS w0 pc = viewDB w state →
            evolves w w0 (fpDB w state) (fpCS w0 pc) →
            (∀ p, state = Some p → pc = p ∧ w0 = w) →
            trace w0 = trace w →
            okCS w' pc → viewCS w' pc = applyValue (viewCS w0 pc) m →
            evolves w0 w' (fpCS w0 pc) (fpCS w' pc) → trace w' = trace w0 →
            Q (Some pc) w').
  { intros w0 pc w' [Hok0 Hwf0] HV0 Hev0 Hsame Htr0 Hok' HV' Hev' Htr'.
    apply HQ.
    - split; [done|]. rewrite HV'. by apply wfAll_applyValue.
    - by rewrite HV', HV0.
    - by eapply evolves_trans.
    - intros p Hp. by destruct (Hsame p Hp).
    - congruence. }
  destruct m as [c|t].
  - unfold MemoryConfigDB.NewConfig.
    apply wp_bind, wp_MDB_state; [done|].
    intros w0 pc Hwf0 HV0 Hev0 _ Hsame Htr0.
    apply wp_bind, wp_CS_NewConfig; [by destruct Hwf0|].
    intros w' Hok' HV' Hev' Htr'. apply wp_ret. by eapply Hstep.
  - unfold MemoryConfigDB.DeadConfig.
    apply wp_bind, wp_MDB_state; [done|].
    intros w0 pc Hwf0 HV0 Hev0 _ Hsame Htr0.
    apply wp_bind, wp_CS_DeadConfig; [by destruct Hwf0|].
    intros w' Hok' HV' Hev' Htr'. apply wp_ret. by eapply Hstep.
Qed.

Lemma wp_MDB_mutate w state ms Q :
  wfDB w state →
  (∀ w' state', wfDB w' state' →
     viewDB w' state' = foldl applyValue (viewDB w state) ms →
     evolves w w' (fpDB w state) (fpDB w' state') →
     (∀ p, state = Some p → state' = Some p) →
     trace w' = trace w → Q state' w') →
  wp (MemoryConfigDB.mutate state ms) w Q.
Proof.
  intros Hwf HQ. unfold MemoryConfigDB.mutate.
  eapply (wp_foldM (λ done st wi,
    wfDB wi st ∧ viewDB wi st = foldl applyValue (viewDB w state) done ∧
    evolves w wi (fpDB w state) (fpDB wi st) ∧
    (∀ p, state = Some p → st = Some p) ∧ trace wi = trace w)).
  - split_and!; [done|done|apply evolves_refl|done|done].
  - intros done m rest st wi _ (Hwfi & HVi & Hevi & Hsame & Htri).
    apply wp_MDB_apply; [done|].
    intros w' pc Hwf' HV' Hev' Hsame' Htr'. split_and!.
    + done.
    + cbn [viewDB]. by rewrite HV', HVi, foldl_app.
    + by eapply evolves_trans.
    + intros p Hp. by rewrite (Hsame' p (Hsame p Hp)).
    + congruence.
  - intros st w' (Hwf' & HV' & Hev' & Hsame & Htr'). by apply HQ.
Qed.

Lemma wp_MDB_Load o w state Q :
  wfDB w state →
  (∀ w' pc loaded, wfStore w' pc → viewCS w' pc = viewDB w state →
     mem w !! loaded = None → okCS w' loaded → viewCS w' loaded = viewDB w state →
     fpCS w' loaded ## fpCS w' pc → keeps ∅ w w' →
     (∀ p, state = Some p → pc = p) →
     trace w' = trace w → Q (Some pc, (loaded, None)) w') →
  wp (MemoryConfigDB.Load o state) w Q.
Proof.
  intros Hwf HQ. unfold MemoryConfigDB.Load.
  apply wp_bind, wp_MDB_state; [done|].
  intros w0 pc Hwf0 HV0 _ Hk0 Hsame Htr0. pose proof Hwf0 as [Hok0 Hall0].
  apply wp_bind, wp_CS_Copy; [done|by apply wfStore_keyed|].
  intros w1 r Hr Hokr HVr Hk1 Hfpr Htr1. apply wp_ret.
  destruct (viewCS_frame ∅ w0 w1 pc Hk1 Hok0) as (Hok1 & _ & HV1 & Hfp1); [set_solver|].
  apply HQ.
  - split; [done|]. by rewrite HV1.
  - by rewrite HV1.
  - apply not_elem_of_dom. apply not_elem_of_dom in Hr. destruct Hk0 as [Hd _]. set_solver.
  - done.
  - by rewrite HVr.
  - rewrite Hfp1. pose proof (fpCS_dom _ _ Hok0). set_solver.
  - eapply keeps_trans; [done|]. eapply keeps_weaken; [done|set_solver].
  - intros p Hp. by destruct (Hsame p Hp).
  - congruence.
Qed.

(** X17.  [MemoryConfigDB.Load] returns a snapshot.  After any sequence
    of [NewConfig] and [DeadConfig] on a database that starts empty,
    [Load] returns no error and a container in which [Get] returns the
    entries these mutations leave; that container is not the one of the
    database: after more mutations and another [Load], it still returns
    the same entries, and the container of the second [Load] returns the
    entries that all the mutations leave. *)
Theorem memory_db_load_snapshot (o : Oracle) (w : world) (ms ms' : list mutation) :
  wp (db ← MemoryConfigDB.mutate None ms; MemoryConfigDB.Load o db) w (λ r w1,
    r.2.2 = None ∧
    (∀ typ ID, wp (Configs.Get r.2.1 typ ID) w1 (λ x _,
       x = entryOf (typedAt (foldl applyValue ∅ ms) typ) ID)) ∧
    wp (db ← MemoryConfigDB.mutate r.1 ms'; MemoryConfigDB.Load o db) w1 (λ r' w2,
      r'.2.2 = None ∧
      (∀ typ ID, wp (Configs.Get r.2.1 typ ID) w2 (λ x _,
         x = entryOf (typedAt (foldl applyValue ∅ ms) typ) ID)) ∧
      (∀ typ ID, wp (Configs.Get r'.2.1 typ ID) w2 (λ x _,
         x = entryOf (typedAt (foldl applyValue ∅ (ms ++ ms')) typ) ID)))).
Proof.
  apply wp_bind, wp_MDB_mutate; [done|].
  intros w0 db Hwf0 HV0 _ _ _.
  apply (wp_MDB_Load o); [done|].
  intros w1 pc loaded Hwf1 HV1 _ Hokl HVl Hdisj _ _ _. cbn [fst snd].
  split_and!; [done| |].
  { intros typ ID. apply wp_CS_Get; [done|]. by rewrite HVl, HV0. }
  apply wp_bind, wp_MDB_mutate; [done|].
  intros w2 db2 Hwf2 HV2 Hev2 Hsame _. rewrite (Hsame pc eq_refl) in *. cbn in HV2, Hev2, Hwf2.
  destruct (evolves_other w1 w2 pc loaded) as (Hokl2 & HVl2 & Hfpl2);
    [by destruct Hwf1|done|done|done|].
  apply (wp_MDB_Load o); [done|].
  intros w3 pc3 loaded3 Hwf3 HV3 _ Hokl3 HVl3 _ Hk3 _ _. cbn [fst snd].
  destruct (viewCS_frame ∅ w2 w3 loaded Hk3 Hokl2) as (Hokl' & _ & HVl' & _); [set_solver|].
  split_and!; [done| |].
  - intros typ ID. apply wp_CS_Get; [done|]. by rewrite HVl', HVl2, HVl, HV0.
  - intros typ ID. apply wp_CS_Get; [done|].
    rewrite HVl3. cbn [viewDB]. by rewrite HV2, HV1, HV0, foldl_app.
Qed.

(** * Loading the append-only file *)

Lemma string_get_Some (s : string) (n : nat) :
  (n < String.length s)%nat → is_Some (String.get n s).
Proof.
  revert n. induction s as [|c s IH]; intros n Hn; cbn in *; [lia|].
  destruct n as [|n]; [by eexists|]. apply IH. lia.
Qed.

Lemma aof_not_fpCS w db d pc :
  mem w !! db = Some (ObjAOFConfigDB d) → okCS w pc → db ∉ fpCS w pc.
Proof.
  intros Hdb Hok Hin. destruct (fpCS_kind _ _ _ Hok Hin) as (x & Hx & Hk).
  rewrite Hdb in Hx. by simplify_eq.
Qed.

Section LoadLines.
Context (o : Oracle).
Context (crc32_ChecksumIEEE : string → N).
Context (strconv_ParseUint : string → option N).
Context (json_Unmarshal_Config : string → Config * error).
Context (json_Unmarshal_Tombstone : string → Tombstone * error).

Notation loadLine := (AOFConfigDB.loadLine crc32_ChecksumIEEE strconv_ParseUint
                        json_Unmarshal_Config json_Unmarshal_Tombstone).
Notation load := (AOFConfigDB.load crc32_ChecksumIEEE strconv_ParseUint
                    json_Unmarshal_Config json_Unmarshal_Tombstone).
Notation result := (lineResult crc32_ChecksumIEEE strconv_ParseUint
                      json_Unmarshal_Config json_Unmarshal_Tombstone).
Notation errors := (lineErrors crc32_ChecksumIEEE strconv_ParseUint
                      json_Unmarshal_Config json_Unmarshal_Tombstone).
Notation mutations := (lineMutations crc32_ChecksumIEEE strconv_ParseUint
                         json_Unmarshal_Config json_Unmarshal_Tombstone).

Lemma wp_loadLine db d line w Q :
  (18 ≤ String.length line)%nat →
  mem w !! db = Some (ObjAOFConfigDB d) →
  okCS w (AOF_configs d) →
  (∀ w',
     match result line with
     | inl e => w' = w
     | inr m =>
         okCS w' (AOF_configs d) ∧
         viewCS w' (AOF_configs d) = applyValue (viewCS w (AOF_configs d)) m ∧
         evolves w w' (fpCS w (AOF_configs d)) (fpCS w' (AOF_configs d)) ∧
         trace w' = trace w
     end →
     Q (match result line with inl e => Some e | inr _ => None end) w') →
  wp (loadLine db line) w Q.
Proof.
  intros Hlen Hdb Hok HQ. unfold AOFConfigDB.loadLine, slice, index, lineResult in *.
  destruct (string_get_Some line 16) as [head Hhead]; [lia|].
  rewrite Hhead in *.
  rewrite !bool_decide_true by lia.
  apply wp_bind, wp_ret. apply wp_bind, wp_ret. apply wp_bind, wp_ret. apply wp_bind, wp_ret.
  cbn [Nat.sub] in *.
  case_bool_decide as Hmagic; [by apply wp_ret, HQ|].
  destruct (strconv_ParseUint _) as [crc|]; [|by apply wp_ret, HQ].
  case_bool_decide as Hcrc; [by apply wp_ret, HQ|].
  case_bool_decide as Hn.
  { unfold AOFConfigDB.loadNewConfig.
    destruct (json_Unmarshal_Config _) as [config [e|]]; [by apply wp_ret, HQ|].
    apply wp_bind. unfold readAOFConfigDB. apply wp_bind. eapply wp_read; [done|].
    apply wp_ret. apply wp_bind, wp_CS_NewConfig; [done|].
    intros w' Hok' HV' Hev' Htr'. apply wp_ret. by apply HQ. }
  case_bool_decide as Ht; [|by apply wp_ret, HQ].
  unfold AOFConfigDB.loadDeadConfig.
  destruct (json_Unmarshal_Tombstone _) as [tombstone [e|]]; [by apply wp_ret, HQ|].
  apply wp_bind. unfold readAOFConfigDB. apply wp_bind. eapply wp_read; [done|].
  apply wp_ret. apply wp_bind, wp_CS_DeadConfig; [done|].
  intros w' Hok' HV' Hev' Htr'. apply wp_ret. by apply HQ.
Qed.

Lemma lineErrors_snoc lines line :
  errors (lines ++ [line]) =
  errors lines ++ match result line with inl e => [e] | inr _ => [] end.
Proof. unfold lineErrors. rewrite omap_app. cbn. by destruct (result line). Qed.

Lemma lineMutations_snoc lines line :
  mutations (lines ++ [line]) =
  mutations lines ++ match result line with inl _ => [] | inr m => [m] end.
Proof. unfold lineMutations. rewrite omap_app. cbn. by destruct (result line). Qed.

Lemma evolves_with w w' F F' (G : gset loc) :
  evolves w w' F F' → evolves w w' (F ∪ G) (F' ∪ G).
Proof.
  intros [Hk Hf]. split; [eapply keeps_weaken; [done|set_solver]|set_solver].
Qed.

Lemma wp_load db d file w Q :
  Forall (λ line, (18 ≤ String.length line)%nat) (readLines "" file) →
  mem w !! db = Some (ObjAOFConfigDB d) →
  okCS w (AOF_configs d) →
  (∀ w',
     mem w' !! db =
       Some (ObjAOFConfigDB (mkAOFConfigDB (AOF_configs d)
               match errors (readLines "" file) with
               | [] => AOF_loadError d
               | _ :: _ => Some AOFConfigDB.ErrCorruptedAOF
               end)) →
     okCS w' (AOF_configs d) →
     viewCS w' (AOF_configs d) =
       foldl applyValue (viewCS w (AOF_configs d)) (mutations (readLines "" file)) →
     evolves w w' (fpCS w (AOF_configs d) ∪ {[db]}) (fpCS w' (AOF_configs d) ∪ {[db]}) →
     trace w' = trace w ++ (ReportError <$> errors (readLines "" file)) →
     Q tt w') →
  wp (load db file) w Q.
Proof.
  intros Hlines Hdb Hok HQ. unfold AOFConfigDB.load.
  eapply (wp_forM (λ done wi,
    mem wi !! db =
      Some (ObjAOFConfigDB (mkAOFConfigDB (AOF_configs d)
              match errors done with
              | [] => AOF_loadError d
              | _ :: _ => Some AOFConfigDB.ErrCorruptedAOF
              end)) ∧
    okCS wi (AOF_configs d) ∧
    viewCS wi (AOF_configs d) = foldl applyValue (viewCS w (AOF_configs d)) (mutations done) ∧
    evolves w wi (fpCS w (AOF_configs d) ∪ {[db]}) (fpCS wi (AOF_configs d) ∪ {[db]}) ∧
    trace wi = trace w ++ (ReportError <$> errors done))).
  - split_and!; [by destruct d|done|done|apply evolves_refl|by rewrite app_nil_r].
  - intros done line rest wi Hl (Hdbi & Hoki & HVi & Hevi & Htri).
    assert (Hlen : (18 ≤ String.length line)%nat).
    { rewrite Hl in Hlines. apply Forall_app in Hlines as [_ Hlines].
      by apply Forall_cons in Hlines as [? _]. }
    apply wp_bind. eapply (wp_loadLine db _ line wi); [done|exact Hdbi|done|].
    cbn [AOF_configs]. intros w' Hres.
    rewrite lineErrors_snoc, lineMutations_snoc.
    destruct (result line) as [e|m].
    + subst w'. apply wp_bind, wp_emit. apply wp_bind.
      unfold readAOFConfigDB. apply wp_bind. eapply wp_read; [exact Hdbi|].
      apply wp_ret. apply wp_write. cbn [AOF_configs].
      set (w1 := mkWorld (mem wi) (clock wi) (trace wi ++ [ReportError e])).
      assert (Hok1 : okCS w1 (AOF_configs d)) by by eapply okCS_ext.
      assert (Hdb1 : mem w1 !! db = mem wi !! db) by done.
      assert (Hk1 : keeps {[db]} w1 (upd w1 db (ObjAOFConfigDB
                  (mkAOFConfigDB (AOF_configs d) (Some AOFConfigDB.ErrCorruptedAOF))))).
      { apply keeps_upd; [apply keeps_refl|left; set_solver]. }
      destruct (viewCS_frame {[db]} w1 _ (AOF_configs d) Hk1 Hok1) as (Hok2 & _ & HV2 & Hfp2).
      { rewrite Hdbi in Hdb1. pose proof (aof_not_fpCS _ _ _ _ Hdb1 Hok1). set_solver. }
      split_and!.
      * cbn. rewrite lookup_insert_eq. by destruct (errors done).
      * done.
      * rewrite HV2, app_nil_r. by rewrite <-(viewCS_ext wi w1).
      * eapply evolves_trans; [exact Hevi|]. split.
        -- apply keeps_upd; [|left; set_solver].
           eapply (keeps_ext _ wi wi w1); [done|apply keeps_refl].
        -- rewrite Hfp2, <-(fpCS_ext wi w1 (AOF_configs d)) by done. set_solver.
      * cbn. by rewrite Htri, fmap_app, app_assoc.
    + destruct Hres as (Hok' & HV' & Hev' & Htr'). apply wp_ret. split_and!.
      * destruct Hev' as [[_ Hm] _].
        rewrite app_nil_r, Hm; [done|by apply elem_of_dom_2 in Hdbi|].
        by eapply aof_not_fpCS.
      * done.
      * by rewrite HV', HVi, foldl_app.
      * eapply evolves_trans; [exact Hevi|]. by apply evolves_with.
      * by rewrite app_nil_r, Htr'.
  - intros w' (Hdb' & Hok' & HV' & Hev' & Htr'). by apply HQ.
Qed.

Lemma wfAll_applyAll V ms :
  map_Forall (λ typ v, wfTyped v ∧ typedBy typ v) V →
  map_Forall (λ typ v, wfTyped v ∧ typedBy typ v) (foldl applyValue V ms).
Proof.
  revert V. induction ms as [|m ms IH]; intros V HV; [done|].
  cbn [foldl]. by apply IH, wfAll_applyValue.
Qed.

(** [init] on a file whose lines all have 18 bytes or more. *)
Lemma wp_AOF_init file w Q :
  Forall (λ line, (18 ≤ String.length line)%nat) (readLines "" file) →
  (∀ w' db pc,
     mem w' !! db =
       Some (ObjAOFConfigDB (mkAOFConfigDB pc
               match errors (readLines "" file) with
               | [] => None
               | _ :: _ => Some AOFConfigDB.ErrCorruptedAOF
               end)) →
     wfStore w' pc →
     viewCS w' pc = foldl applyValue ∅ (mutations (readLines "" file)) →
     keeps ∅ w w' → mem w !! db = None → fpCS w' pc ## dom (mem w) →
     trace w' = trace w ++ (ReportError <$> errors (readLines "" file)) →
     Q db w') →
  wp (AOFConfigDB.init crc32_ChecksumIEEE strconv_ParseUint
        json_Unmarshal_Config json_Unmarshal_Tombstone file) w Q.
Proof.
  intros Hlines HQ. unfold AOFConfigDB.init.
  apply wp_bind, wp_alloc. intros pc Hpc.
  apply wp_bind, wp_alloc. intros db Hdb. apply upd_fresh in Hdb as [Hne Hdb].
  set (w2 := upd (upd w pc _) db _).
  destruct (okCS_nil w2 pc) as (Hok2 & HV2 & Hfp2).
  { unfold w2. cbn. rewrite lookup_insert_ne by done. by rewrite lookup_insert_eq. }
  assert (Hk2 : keeps ∅ w w2).
  { unfold w2. apply keeps_upd; [apply keeps_upd; [apply keeps_refl|by right]|by right]. }
  assert (Hdom2 : dom (mem w2) = {[db]} ∪ ({[pc]} ∪ dom (mem w))).
  { unfold w2. cbn. by rewrite !dom_insert_L. }
  apply not_elem_of_dom in Hpc, Hdb.
  apply wp_bind.
  eapply (wp_load db (mkAOFConfigDB pc None) file w2); [done| |done|].
  { unfold w2. cbn. by rewrite lookup_insert_eq. }
  cbn [AOF_configs AOF_loadError]. intros w3 Hdb3 Hok3 HV3 [Hk3 Hfp3] Htr3.
  apply wp_ret. rewrite HV2 in HV3. apply (HQ w3 db pc).
  - done.
  - split; [done|]. rewrite HV3. apply wfAll_applyAll, map_Forall_empty.
  - done.
  - eapply keeps_compose; [exact Hk2|exact Hk3|]. rewrite Hfp2, Hdom2.
    clear -Hpc Hdb. set_solver.
  - by apply not_elem_of_dom.
  - intros l Hl Hlw.
    assert (Hin : l ∈ fpCS w3 pc ∪ {[db]}) by (apply elem_of_union; by left).
    apply Hfp3 in Hin. rewrite Hfp2, Hdom2 in Hin.
    rewrite !elem_of_union, elem_of_difference, !elem_of_union, !elem_of_singleton in Hin.
    destruct Hin as [[->| ->]|[_ Hin]]; [done|done|]. apply Hin. by right; right.
  - done.
Qed.

(** [Load] on a file whose lines all have 18 bytes or more. *)
Lemma wp_AOF_Load file w Q :
  Forall (λ line, (18 ≤ String.length line)%nat) (readLines "" file) →
  (∀ w' r,
     okCS w' r →
     viewCS w' r = foldl applyValue ∅ (mutations (readLines "" file)) →
     keeps ∅ w w' →
     trace w' = trace w ++ (ReportError <$> errors (readLines "" file)) →
     Q (r, match errors (readLines "" file) with
           | [] => None
           | _ :: _ => Some AOFConfigDB.ErrCorruptedAOF
           end) w') →
  wp (AOFConfigDB.Load o crc32_ChecksumIEEE strconv_ParseUint
        json_Unmarshal_Config json_Unmarshal_Tombstone file) w Q.
Proof.
  intros Hlines HQ. unfold AOFConfigDB.Load.
  apply wp_bind, wp_AOF_init; [done|].
  intros w3 db pc Hdb3 Hwf3 HV3 Hk3 _ _ Htr3.
  apply wp_bind. unfold readAOFConfigDB. apply wp_bind.
  eapply wp_read; [exact Hdb3|]. apply wp_ret. cbn [AOF_configs AOF_loadError].
  apply wp_bind, wp_CS_Copy; [by destruct Hwf3|by apply wfStore_keyed|].
  intros w4 r _ Hokr HVr Hk4 _ Htr4. apply wp_ret. apply HQ.
  - done.
  - by rewrite HVr.
  - eapply keeps_compose; [exact Hk3|exact Hk4|set_solver].
  - by rewrite Htr4.
Qed.

End LoadLines.


(** * Registering a configurable object *)

Lemma state_not_fpCS w state s pc :
  objRouterState w state = Some s → okCS w pc → state ∉ fpCS w pc.
Proof.
  intros Hs%objRouterState_Some Hok Hin.
  destruct (fpCS_kind _ _ _ Hok Hin) as (x & Hx & Hk). rewrite Hs in Hx. by simplify_eq.
Qed.

Lemma keeps_deliver w obj c :
  is_Some (objConfigurable w obj) → keeps {[obj]} w (deliver w (obj, c)).
Proof.
  intros [[b r] E]. split.
  - unfold deliver. cbn [fst]. rewrite E. cbn. rewrite dom_insert. set_solver.
  - intros l _ Hl. apply deliver_other. cbn. set_solver.
Qed.

(** The store after an object has been notified of a list of configs. *)
Lemma notify_world w obj b r configs :
  objConfigurable w obj = Some (b, r) →
  objConfigurable (foldl deliver w ((λ c, (obj, CallNewConfig c)) <$> configs)) obj =
    Some (b, r ++ (CallNewConfig <$> configs)) ∧
  keeps {[obj]} w (foldl deliver w ((λ c, (obj, CallNewConfig c)) <$> configs)) ∧
  trace (foldl deliver w ((λ c, (obj, CallNewConfig c)) <$> configs)) =
    trace w ++ ((λ c, ConfigurableCall obj (CallNewConfig c)) <$> configs).
Proof.
  revert w r. induction configs as [|c configs IH]; intros w r E.
  - cbn. rewrite !app_nil_r. split_and!; [done|apply keeps_refl|done].
  - cbn [fmap list_fmap foldl].
    assert (E' : objConfigurable (deliver w (obj, CallNewConfig c)) obj =
                 Some (b, r ++ [CallNewConfig c])).
    { rewrite (deliver_received w _ obj b r) by done. cbn [fst snd].
      by rewrite bool_decide_true. }
    destruct (IH _ _ E') as (-> & Hk & ->). split_and!.
    + by rewrite <-app_assoc.
    + eapply keeps_trans; [by apply keeps_deliver|].
      eapply keeps_weaken; [exact Hk|set_solver].
    + unfold deliver. cbn [fst snd]. rewrite E. cbn [trace].
      by rewrite <-app_assoc.
Qed.

Lemma wp_notify w obj b r configs Q :
  objConfigurable w obj = Some (b, r) →
  Q tt (foldl deliver w ((λ c, (obj, CallNewConfig c)) <$> configs)) →
  wp (forM configs (λ config, Configurable.NewConfig obj config;; ret tt)) w Q.
Proof.
  revert w r. induction configs as [|c configs IH]; intros w r E HQ; cbn [forM].
  - by apply wp_ret.
  - apply wp_bind, wp_bind. unfold Configurable.NewConfig.
    eapply wp_call; [done|]. apply wp_ret.
    eapply (IH _ (r ++ [CallNewConfig c])); [|done].
    rewrite (deliver_received w _ obj b r) by done. cbn [fst snd].
    by rewrite bool_decide_true.
Qed.

Lemma wp_notify_items w obj b r (items : list (string * Config)) Q :
  objConfigurable w obj = Some (b, r) →
  Q tt (foldl deliver w ((λ c, (obj, CallNewConfig c)) <$> items.*2)) →
  wp (forM items (λ '(_, config), Configurable.NewConfig obj config;; ret tt)) w Q.
Proof.
  revert w r. induction items as [|[k c] items IH]; intros w r E HQ; cbn [forM].
  - by apply wp_ret.
  - apply wp_bind, wp_bind. unfold Configurable.NewConfig.
    eapply wp_call; [done|]. apply wp_ret.
    eapply (IH _ (r ++ [CallNewConfig c])); [|done].
    rewrite (deliver_received w _ obj b r) by done. cbn [fst snd].
    by rewrite bool_decide_true.
Qed.

Lemma wp_RS_RegisterState (o : Oracle) (w : world) (state : loc) (s : routerState)
    (key : string) (obj : loc) (b : Behaviour) (r : list Call) :
  objRouterState w state = Some s →
  KeyedStates s !! key = None →
  objConfigurable w obj = Some (b, r) →
  okCS w (routerState_Configs s) →
  wp (routerState.RegisterState o state key obj) w (λ _ w',
    objRouterState w' state = Some (addState s key obj (AllowedConfigTypes b)) ∧
    (∀ l x, l ≠ state → l ≠ obj → mem w !! l = Some x → mem w' !! l = Some x) ∧
    ∃ configs,
      objConfigurable w' obj = Some (b, r ++ (CallNewConfig <$> configs)) ∧
      trace w' = trace w ++ ((λ c, ConfigurableCall obj (CallNewConfig c)) <$> configs) ∧
      if bool_decide (length (AllowedConfigTypes b) = 0)
      then configs ≡ₚ map_to_list (viewCS w (routerState_Configs s)) ≫=
                        λ x, (map_to_list (live x.2)).*2
      else ∃ perType,
             configs = mjoin perType ∧
             Forall2 (λ typ sent,
                 sent ≡ₚ (map_to_list
                            (live (typedAt (viewCS w (routerState_Configs s)) typ))).*2)
               (AllowedConfigTypes b) perType).
Proof.
  intros Hs Hkey Hobj Hok.
  pose proof Hs as Hs'%objRouterState_Some. pose proof Hobj as Hobj'%objConfigurable_Some.
  assert (Hne : obj ≠ state) by congruence.
  assert (HF : fpCS w (routerState_Configs s) ## ({[state; obj]} : gset loc)).
  { pose proof (state_not_fpCS _ _ _ _ Hs Hok).
    pose proof (configurable_not_fpCS _ _ obj Hok (mk_is_Some _ _ Hobj)). set_solver. }
  assert (Hold : ∀ w' l x, keeps {[state; obj]} w w' → l ≠ state → l ≠ obj →
            mem w !! l = Some x → mem w' !! l = Some x).
  { intros w' l x [_ Hm] ? ? Hl. rewrite Hm; [done|by apply elem_of_dom_2 in Hl|set_solver]. }
  unfold routerState.RegisterState, routerState.registerState.
  apply wp_bind. eapply wp_readRouterState; [done|]. rewrite Hkey.
  apply wp_bind, wp_write.
  apply wp_bind. eapply (wp_Configurable_types _ obj b r).
  { apply objConfigurable_Some. cbn. by rewrite lookup_insert_ne. }
  unfold addState. case_bool_decide as Hty.
  - apply wp_bind. eapply wp_readRouterState.
    { apply objRouterState_Some. cbn. by rewrite lookup_insert_eq. }
    cbn [routerState_Configs KeyedStates typedStates untypedStates untypedHandlers
         typedHandlers].
    apply wp_bind, wp_write. rewrite upd_upd.
    set (w2 := upd w state _).
    assert (Hk2 : keeps {[state; obj]} w w2).
    { apply keeps_upd; [apply keeps_refl|left; set_solver]. }
    destruct (viewCS_frame _ w w2 _ Hk2 Hok HF) as (Hok2 & _ & HV2 & _).
    apply wp_bind. apply wp_CS_ConfigArray; [done|]. intros configs w3 Hm3 Htr3 Hperm.
    assert (Hobj3 : objConfigurable w3 obj = Some (b, r)).
    { unfold objConfigurable. rewrite Hm3. cbn. rewrite lookup_insert_ne by done.
      by rewrite Hobj'. }
    eapply (wp_notify w3 obj b r); [done|].
    destruct (notify_world w3 obj b r configs Hobj3) as (Hrec & [_ Hk] & Htr).
    assert (Hin3 : ∀ l x, mem w2 !! l = Some x → l ∈ dom (mem w3)).
    { intros l x Hl. rewrite Hm3. by apply elem_of_dom_2 in Hl. }
    split_and!.
    + apply objRouterState_Some. rewrite Hk, Hm3; [|eapply Hin3|set_solver];
        cbn; by rewrite lookup_insert_eq.
    + intros l x Hl1 Hl2 Hl.
      assert (Hl' : mem w2 !! l = Some x) by (cbn; by rewrite lookup_insert_ne).
      rewrite Hk, Hm3; [done|by eapply Hin3|set_solver].
    + exists configs. split_and!; [done|by rewrite Htr, Htr3|by rewrite Hperm, HV2].
  - eapply (wp_forM (λ done wi,
      keeps {[state; obj]} w wi ∧
      mem wi !! state = Some (ObjRouterState
        (mkRouterState (routerState_Configs s) (<[key := obj]> (KeyedStates s))
           (foldl (λ table typ, appendAt typ obj table) (typedStates s) done)
           (untypedStates s) (untypedHandlers s) (typedHandlers s))) ∧
      ∃ perType,
        objConfigurable wi obj = Some (b, r ++ (CallNewConfig <$> mjoin perType)) ∧
        trace wi = trace w ++
          ((λ c, ConfigurableCall obj (CallNewConfig c)) <$> mjoin perType) ∧
        Forall2 (λ typ sent,
            sent ≡ₚ (map_to_list
                       (live (typedAt (viewCS w (routerState_Configs s)) typ))).*2)
          done perType)).
    + split_and!.
      * apply keeps_upd; [apply keeps_refl|left; set_solver].
      * cbn. by rewrite lookup_insert_eq.
      * exists []. cbn. rewrite !app_nil_r. split_and!; [|done|constructor].
        apply objConfigurable_Some. cbn. by rewrite lookup_insert_ne.
    + intros done typ rest wi _ (Hki & Hsi & perType & Hobji & Htri & Hpi).
      set (configs := mjoin perType) in *.
      apply wp_bind. eapply wp_readRouterState; [by apply objRouterState_Some|].
      cbn [routerState_Configs KeyedStates typedStates untypedStates untypedHandlers
           typedHandlers].
      apply wp_bind, wp_write.
      set (wj := upd wi state _).
      assert (Hkj : keeps {[state; obj]} w wj).
      { apply keeps_upd; [done|left; set_solver]. }
      assert (Hsj : mem wj !! state = Some (ObjRouterState
                (mkRouterState (routerState_Configs s) (<[key := obj]> (KeyedStates s))
                   (foldl (λ table typ, appendAt typ obj table) (typedStates s)
                      (done ++ [typ]))
                   (untypedStates s) (untypedHandlers s) (typedHandlers s)))).
      { unfold wj. cbn. rewrite lookup_insert_eq, foldl_app. done. }
      assert (Hobjj : objConfigurable wj obj = Some (b, r ++ (CallNewConfig <$> configs))).
      { unfold objConfigurable, wj. cbn. rewrite lookup_insert_ne by done. exact Hobji. }
      destruct (viewCS_frame _ w wj _ Hkj Hok HF) as (Hokj & _ & HVj & _).
      pose proof Hokj as (cs & tm & [Hpc Htm] & Hviews & _)%okCS_alt.
      apply wp_bind. eapply wp_readConfigs; [exact Hpc|].
      apply wp_bind. eapply wp_readMapTypes; [exact Htm|].
      assert (Hat : typedAt (viewCS w (routerState_Configs s)) typ =
                default (mkTyped ∅ ∅) (tm !! typ ≫= viewTC wj)).
      { rewrite <-HVj. unfold typedAt. by rewrite (viewCS_lookup wj _ cs tm typ). }
      destruct (tm !! typ) as [q|] eqn:Hq.
      * destruct (Hviews _ _ Hq) as [u Hu]. cbn in Hat. rewrite Hu in Hat. cbn in Hat.
        apply viewTC_Some in Hu as (tc & Htc & Hcm & _).
        apply wp_bind. eapply wp_readTypeConfigs; [exact Htc|].
        apply wp_bind. eapply wp_readMapConfig; [exact Hcm|].
        apply wp_bind, wp_range. intros items Hitems.
        eapply (wp_notify_items (tick wj) obj b); [exact Hobjj|].
        destruct (notify_world (tick wj) obj b _ items.*2 Hobjj) as (Hrec & Hk & Htr).
        split_and!.
        -- eapply keeps_trans; [by apply keeps_tick|].
           eapply keeps_weaken; [exact Hk|set_solver].
        -- destruct Hk as [_ Hk]. rewrite Hk; [done| |set_solver].
           cbn. rewrite dom_insert. set_solver.
        -- exists (perType ++ [items.*2]).
           assert (Hj : mjoin (perType ++ [items.*2]) = configs ++ items.*2).
           { rewrite join_app. cbn. by rewrite app_nil_r. }
           rewrite Hj. split_and!.
           ++ by rewrite Hrec, fmap_app, app_assoc.
           ++ rewrite Htr. cbn [trace tick wj upd]. by rewrite Htri, fmap_app, app_assoc.
           ++ apply Forall2_app; [done|]. apply Forall2_cons; split; [|constructor].
              by rewrite Hat, Hitems.
      * apply wp_ret. split_and!; [done|done|].
        exists (perType ++ [[]]).
        assert (Hj : mjoin (perType ++ [[]]) = configs).
        { rewrite join_app. cbn. by rewrite app_nil_r. }
        rewrite Hj. split_and!; [done|done|].
        apply Forall2_app; [done|]. apply Forall2_cons; split; [|constructor].
        rewrite Hat. cbn. by rewrite map_to_list_empty.
    + intros w' (Hkf & Hsf & perType & Hobjf & Htrf & Hpf). split_and!.
      * by apply objRouterState_Some.
      * intros l x ? ? Hl. by eapply Hold.
      * exists (mjoin perType). split_and!; [done|done|]. by exists perType.
Qed.

(** A key is registered once. *)
Lemma RegisterState_registered o w state s key obj :
  objRouterState w state = Some s → is_Some (KeyedStates s !! key) →
  (routerState.RegisterState o state key obj w).1 =
    Panic "state was already registered in Router".
Proof.
  intros Hs%objRouterState_Some [x Hx].
  unfold routerState.RegisterState, routerState.registerState, readRouterState, read,
    mbind, M_bind, bind.
  rewrite Hs. cbn. by rewrite Hx.
Qed.

(** X19.  [RegisterState] under a key that is not registered yet puts
    the object under the key and after the objects already routed, in
    the untyped list when it declares no type and else in the list of
    every type it declares, and notifies it of the configs that are live.
    When the object declares no type it receives [NewConfig] once for
    every live config of the container, in the order of [ConfigArray].
    When it declares types, the calls it receives are, for the declared
    types one after the other in the order of [AllowedConfigTypes], the
    live configs of that type, each once, in the order the map of the
    type is ranged over; a type declared twice is gone through twice.
    The errors the object returns are dropped.  Nothing is sent to the
    handlers and no other object changes.  Registering under the same
    key once more panics, whatever the object. *)
Theorem register_state_notifies (o : Oracle) (w : world) (state : loc) (s : routerState)
    (key : string) (obj : loc) (b : Behaviour) (r : list Call) :
  objRouterState w state = Some s →
  KeyedStates s !! key = None →
  objConfigurable w obj = Some (b, r) →
  okCS w (routerState_Configs s) →
  wp (routerState.RegisterState o state key obj) w (λ _ w',
    objRouterState w' state = Some (addState s key obj (AllowedConfigTypes b)) ∧
    (∀ obj', (routerState.RegisterState o state key obj' w').1 =
               Panic "state was already registered in Router") ∧
    (∀ l x, l ≠ state → l ≠ obj → mem w !! l = Some x → mem w' !! l = Some x) ∧
    ∃ configs,
      objConfigurable w' obj = Some (b, r ++ (CallNewConfig <$> configs)) ∧
      trace w' = trace w ++ ((λ c, ConfigurableCall obj (CallNewConfig c)) <$> configs) ∧
      if bool_decide (length (AllowedConfigTypes b) = 0)
      then configs ≡ₚ map_to_list (viewCS w (routerState_Configs s)) ≫=
                        λ x, (map_to_list (live x.2)).*2
      else ∃ perType,
             configs = mjoin perType ∧
             Forall2 (λ typ sent,
                 sent ≡ₚ (map_to_list
                            (live (typedAt (viewCS w (routerState_Configs s)) typ))).*2)
               (AllowedConfigTypes b) perType).
Proof.
  intros Hs Hkey Hobj Hok.
  eapply wp_mono; [by apply (wp_RS_RegisterState o w state s key obj b r)|].
  intros _ w' (Hs' & Hold & configs & Hrec & Htr & Hsent).
  split_and!; [done| |done|by exists configs].
  intros obj'. apply (RegisterState_registered o w' state _ key obj' Hs').
  unfold addState. case_bool_decide; cbn [KeyedStates]; by rewrite lookup_insert_eq.
Qed.

Lemma register_state_notifies_witness :
  wp (routerState.RegisterState storedOrder unregisteredState "k" unregisteredObject)
     unregisteredWorld (λ _ w',
    objRouterState w' unregisteredState =
      Some (addState unregisteredRouterState "k" unregisteredObject
              (AllowedConfigTypes typedQuiet)) ∧
    (∀ obj', (routerState.RegisterState storedOrder unregisteredState "k" obj' w').1 =
               Panic "state was already registered in Router") ∧
    (∀ l x, l ≠ unregisteredState → l ≠ unregisteredObject →
       mem unregisteredWorld !! l = Some x → mem w' !! l = Some x) ∧
    ∃ configs,
      objConfigurable w' unregisteredObject =
        Some (typedQuiet, [] ++ (CallNewConfig <$> configs)) ∧
      trace w' =
        trace unregisteredWorld ++
        ((λ c, ConfigurableCall unregisteredObject (CallNewConfig c)) <$> configs) ∧
      if bool_decide (length (AllowedConfigTypes typedQuiet) = 0)
      then configs ≡ₚ map_to_list (viewCS unregisteredWorld
                                     (routerState_Configs unregisteredRouterState)) ≫=
                        λ x, (map_to_list (live x.2)).*2
      else ∃ perType,
             configs = mjoin perType ∧
             Forall2 (λ typ sent,
                 sent ≡ₚ (map_to_list
                            (live (typedAt (viewCS unregisteredWorld
                                              (routerState_Configs unregisteredRouterState))
                                     typ))).*2)
               (AllowedConfigTypes typedQuiet) perType).
Proof.
  apply (register_state_notifies storedOrder unregisteredWorld unregisteredState
           unregisteredRouterState "k" unregisteredObject typedQuiet []).
  - vm_compute. reflexivity.
  - reflexivity.
  - vm_compute. reflexivity.
  - by_compute.
Defined.

(** * Unregistering a configurable object *)

Lemma wp_removeTarget w obj l0 more Q :
  obj ∉ l0 → Q (l0 ++ more) w →
  wp (routerState.removeTarget obj (l0 ++ obj :: more)) w Q.
Proof.
  revert Q. induction l0 as [|x l0 IH]; intros Q Hnot HQ; cbn [app routerState.removeTarget].
  - rewrite bool_decide_true by done. by apply wp_ret.
  - rewrite bool_decide_false by set_solver.
    apply wp_bind, IH; [set_solver|]. by apply wp_ret.
Qed.

(** A key that is not registered cannot be unregistered. *)
Lemma UnregisterState_unknown w state s key :
  objRouterState w state = Some s → KeyedStates s !! key = None →
  (routerState.UnregisterState state key w).1 = Panic "key was not registered in Router".
Proof.
  intros Hs%objRouterState_Some Hkey.
  unfold routerState.UnregisterState, readRouterState, read, mbind, M_bind, bind.
  rewrite Hs. cbn. by rewrite Hkey.
Qed.

(** The loop of [UnregisterState] over the types of the object: [base]
    is what the lists hold before the object, which is there once for
    every type that is left. *)
Lemma wp_unregister_types state obj pc keyed untyped uhandlers thandlers
    (base : string → list loc) types table w Q :
  mem w !! state = Some (ObjRouterState
    (mkRouterState pc keyed table untyped uhandlers thandlers)) →
  (∀ typ, obj ∉ base typ) →
  (∀ typ, default [] (table !! typ) =
          base typ ++ (filter (λ t, t = typ) types ≫= λ _, [obj])) →
  (∀ w' table',
     mem w' !! state = Some (ObjRouterState
       (mkRouterState pc keyed table' untyped uhandlers thandlers)) →
     (∀ typ, default [] (table' !! typ) = base typ) →
     (∀ l, l ≠ state → mem w' !! l = mem w !! l) →
     trace w' = trace w →
     Q tt w') →
  wp (forM types (λ typ,
        s ← readRouterState state;
        rest ← routerState.removeTarget obj (default [] (typedStates s !! typ));
        write state (ObjRouterState
          (mkRouterState (routerState_Configs s) (KeyedStates s)
             (<[typ := rest]> (typedStates s))
             (untypedStates s) (untypedHandlers s) (typedHandlers s))))) w Q.
Proof.
  revert table w Q. induction types as [|typ0 types IH]; intros table w Q Hs Hbase Htable HQ.
  - cbn [forM]. apply wp_ret. apply (HQ w table); try done.
    intros typ. rewrite Htable, filter_nil. cbn. by rewrite app_nil_r.
  - cbn [forM]. apply wp_bind, wp_bind.
    eapply wp_readRouterState; [by apply objRouterState_Some|].
    cbn [routerState_Configs KeyedStates typedStates untypedStates untypedHandlers
         typedHandlers].
    rewrite (Htable typ0), filter_cons_True by done. cbn [mbind list_bind app].
    apply wp_bind, wp_removeTarget; [done|]. apply wp_write.
    eapply (IH (<[typ0 := base typ0 ++ (filter (λ t, t = typ0) types ≫= λ _, [obj])]> table)).
    + cbn. by rewrite lookup_insert_eq.
    + done.
    + intros typ. destruct (decide (typ = typ0)) as [->|Hne].
      * by rewrite lookup_insert_eq.
      * rewrite lookup_insert_ne by done. rewrite Htable.
        by rewrite filter_cons_False by congruence.
    + intros w' table' Hs' Htable' Hsame Htr'. apply (HQ w' table'); try done.
      intros l Hl. rewrite Hsame by done. cbn. by rewrite lookup_insert_ne.
Qed.

(** X20.  [RegisterState] and then [UnregisterState] of the same key,
    for an object that was not registered: the keys, the objects routed
    for every type and the handlers are what they were before the two
    calls.  [UnregisterState] sends nothing, so the object keeps the
    notifications of the registration and receives no [DeadConfig], and
    it changes no object but the router state.  Unregistering the key
    once more panics. *)
Theorem register_then_unregister (o : Oracle) (w : world) (state : loc) (s : routerState)
    (key : string) (obj : loc) (b : Behaviour) (r : list Call) :
  objRouterState w state = Some s →
  KeyedStates s !! key = None →
  objConfigurable w obj = Some (b, r) →
  okCS w (routerState_Configs s) →
  obj ∉ statesOf s →
  wp (routerState.RegisterState o state key obj) w (λ _ w1,
  wp (routerState.UnregisterState state key) w1 (λ _ w2,
    (∃ s', objRouterState w2 state = Some s' ∧
           routerState_Configs s' = routerState_Configs s ∧
           KeyedStates s' = KeyedStates s ∧
           (∀ typ, routedTo s' typ = routedTo s typ) ∧
           (∀ typ, handlersFor s' typ = handlersFor s typ)) ∧
    trace w2 = trace w1 ∧
    (∀ l, l ≠ state → mem w2 !! l = mem w1 !! l) ∧
    (routerState.UnregisterState state key w2).1 =
      Panic "key was not registered in Router")).
Proof.
  intros Hs Hkey Hobj Hok Hfresh.
  pose proof Hobj as Hobj'%objConfigurable_Some. pose proof Hs as Hs'%objRouterState_Some.
  assert (Hne : obj ≠ state) by congruence.
  assert (Hun : obj ∉ untypedStates s).
  { intros Hin. apply Hfresh. unfold statesOf. set_solver. }
  assert (Hty : ∀ typ, obj ∉ default [] (typedStates s !! typ)).
  { intros typ Hin. apply Hfresh. unfold statesOf. rewrite !elem_of_app. right; right.
    apply elem_of_mjoin_values. destruct (typedStates s !! typ) as [l|] eqn:E; [eauto|].
    cbn in Hin. set_solver. }
  eapply wp_mono; [by apply (wp_RS_RegisterState o w state s key obj b r)|].
  intros _ w1 (Hs1 & _ & configs & Hrec & _ & _). cbn beta.
  apply objRouterState_Some in Hs1.
  assert (Hdel : delete key (<[key := obj]> (KeyedStates s)) = KeyedStates s).
  { rewrite delete_insert_eq. by apply delete_id. }
  assert (Hdone : ∀ w2 s', mem w2 !! state = Some (ObjRouterState s') →
            routerState_Configs s' = routerState_Configs s →
            KeyedStates s' = KeyedStates s →
            untypedStates s' = untypedStates s →
            (∀ typ, default [] (typedStates s' !! typ) = default [] (typedStates s !! typ)) →
            untypedHandlers s' = untypedHandlers s →
            typedHandlers s' = typedHandlers s →
            (∃ s', objRouterState w2 state = Some s' ∧
               routerState_Configs s' = routerState_Configs s ∧
               KeyedStates s' = KeyedStates s ∧
               (∀ typ, routedTo s' typ = routedTo s typ) ∧
               (∀ typ, handlersFor s' typ = handlersFor s typ)) ∧
            (routerState.UnregisterState state key w2).1 =
              Panic "key was not registered in Router").
  { intros w2 s' Hs2 Hc Hk Hu Ht Huh Hth. split.
    - exists s'. split_and!; [by apply objRouterState_Some|done|done| |].
      + intros typ. unfold routedTo. by rewrite Hu, Ht.
      + intros typ. unfold handlersFor. by rewrite Huh, Hth.
    - apply (UnregisterState_unknown w2 state s'); [by apply objRouterState_Some|].
      by rewrite Hk. }
  unfold routerState.UnregisterState.
  apply wp_bind. eapply wp_readRouterState; [by apply objRouterState_Some|].
  unfold addState in *.
  case_bool_decide as Hlen; cbn [routerState_Configs KeyedStates typedStates untypedStates
                                untypedHandlers typedHandlers];
    rewrite lookup_insert_eq, Hdel.
  - apply wp_bind, wp_write.
    apply wp_bind. eapply (wp_Configurable_types _ obj b).
    { apply objConfigurable_Some. cbn. rewrite lookup_insert_ne by done.
      by apply objConfigurable_Some. }
    rewrite bool_decide_true by done.
    apply wp_bind. eapply wp_readRouterState.
    { apply objRouterState_Some. cbn. by rewrite lookup_insert_eq. }
    cbn [routerState_Configs KeyedStates typedStates untypedStates untypedHandlers
         typedHandlers].
    apply wp_bind. apply (wp_removeTarget _ obj (untypedStates s) []); [done|].
    rewrite app_nil_r. apply wp_write. rewrite upd_upd.
    destruct (Hdone (upd w1 state (ObjRouterState
                (mkRouterState (routerState_Configs s) (KeyedStates s) (typedStates s)
                   (untypedStates s) (untypedHandlers s) (typedHandlers s))))
                (mkRouterState (routerState_Configs s) (KeyedStates s) (typedStates s)
                   (untypedStates s) (untypedHandlers s) (typedHandlers s)))
      as [H1 H2]; [cbn; by rewrite lookup_insert_eq|done..|].
    split_and!; [done|done| |done].
    intros l Hl. cbn. by rewrite lookup_insert_ne.
  - apply wp_bind, wp_write.
    apply wp_bind. eapply (wp_Configurable_types _ obj b).
    { apply objConfigurable_Some. cbn. rewrite lookup_insert_ne by done.
      by apply objConfigurable_Some. }
    rewrite bool_decide_false by done.
    eapply (wp_unregister_types state obj _ _ _ _ _
              (λ typ, default [] (typedStates s !! typ)) (AllowedConfigTypes b)).
    + cbn. by rewrite lookup_insert_eq.
    + done.
    + intros typ. apply appendAt_fold.
    + intros w2 table' Hs2 Htable' Hsame Htr2.
      destruct (Hdone w2 _ Hs2) as [H1 H2]; [done..|].
      split_and!; [done|done| |done].
      intros l Hl. rewrite Hsame by done. cbn. by rewrite lookup_insert_ne.
Qed.

Lemma register_then_unregister_witness :
  wp (routerState.RegisterState storedOrder unregisteredState "k" unregisteredObject)
     unregisteredWorld (λ _ w1,
  wp (routerState.UnregisterState unregisteredState "k") w1 (λ _ w2,
    (∃ s', objRouterState w2 unregisteredState = Some s' ∧
           routerState_Configs s' = routerState_Configs unregisteredRouterState ∧
           KeyedStates s' = KeyedStates unregisteredRouterState ∧
           (∀ typ, routedTo s' typ = routedTo unregisteredRouterState typ) ∧
           (∀ typ, handlersFor s' typ = handlersFor unregisteredRouterState typ)) ∧
    trace w2 = trace w1 ∧
    (∀ l, l ≠ unregisteredState → mem w2 !! l = mem w1 !! l) ∧
    (routerState.UnregisterState unregisteredState "k" w2).1 =
      Panic "key was not registered in Router")).
Proof.
  apply (register_then_unregister storedOrder unregisteredWorld unregisteredState
           unregisteredRouterState "k" unregisteredObject typedQuiet []).
  - vm_compute. reflexivity.
  - reflexivity.
  - vm_compute. reflexivity.
  - by_compute.
  - by_compute.
Defined.

(** * Writing the append-only file and loading it back *)

(** ** Strings *)

Lemma string_app_cons (x : Ascii.ascii) (a b : string) :
  String x a +:+ b = String x (a +:+ b).
Proof. reflexivity. Qed.

Lemma string_app_assoc (a b c : string) : (a +:+ b) +:+ c = a +:+ (b +:+ c).
Proof. induction a as [|x a IH]; [done|]. by rewrite !string_app_cons, IH. Qed.

Lemma string_app_length (a b : string) :
  String.length (a +:+ b) = (String.length a + String.length b)%nat.
Proof.
  induction a as [|x a IH]; [done|]. rewrite string_app_cons. cbn [String.length].
  by rewrite IH.
Qed.

Lemma substring_0_0 (s : string) : String.substring 0 0 s = "".
Proof. by destruct s. Qed.

Lemma substring_prefix (a b : string) :
  String.substring 0 (String.length a) (a +:+ b) = a.
Proof.
  induction a as [|x a IH].
  - apply substring_0_0.
  - rewrite string_app_cons. cbn [String.length String.substring]. by rewrite IH.
Qed.

Lemma substring_skip (a b : string) (n m : nat) :
  String.substring (String.length a + n) m (a +:+ b) = String.substring n m b.
Proof.
  induction a as [|x a IH]; [done|]. rewrite string_app_cons.
  cbn [String.length String.substring Nat.add]. by rewrite IH.
Qed.

Lemma string_get_skip (a b : string) (n : nat) :
  String.get (String.length a + n) (a +:+ b) = String.get n b.
Proof.
  induction a as [|x a IH]; [done|]. rewrite string_app_cons.
  cbn [String.length String.get Nat.add]. by rewrite IH.
Qed.

Lemma newlineFree_app (a b : string) :
  newlineFree (a +:+ b) = newlineFree a && newlineFree b.
Proof.
  induction a as [|x a IH]; [done|]. rewrite string_app_cons. cbn [newlineFree].
  by rewrite IH, andb_assoc.
Qed.

Lemma readLines_app (acc a b : string) :
  readLines acc (a +:+ b) = readLines acc a ++ readLines (pending acc a) b.
Proof.
  revert acc. induction a as [|x a IH]; intros acc; [done|]. rewrite string_app_cons.
  cbn [readLines pending]. case_bool_decide; cbn [app]; by rewrite IH.
Qed.

Lemma pending_app (acc a b : string) :
  pending acc (a +:+ b) = pending (pending acc a) b.
Proof.
  revert acc. induction a as [|x a IH]; intros acc; [done|]. rewrite string_app_cons.
  cbn [pending]. case_bool_decide; by rewrite IH.
Qed.

(** A text without a newline, then a newline: one line. *)
Lemma readLines_line (acc content : string) :
  newlineFree content = true →
  readLines acc (content +:+ newline) = [acc +:+ content +:+ newline] ∧
  pending acc (content +:+ newline) = "".
Proof.
  revert acc. induction content as [|x content IH]; intros acc Hfree.
  - split; reflexivity.
  - cbn [newlineFree] in Hfree. apply andb_true_iff in Hfree as [Hx Hfree].
    apply negb_true_iff, bool_decide_eq_false in Hx.
    rewrite string_app_cons. cbn [readLines pending]. rewrite !bool_decide_false by done.
    destruct (IH (acc +:+ String x "") Hfree) as [-> ->]. split; [|done].
    by rewrite string_app_assoc.
Qed.

Lemma substring_prefix_len (a b : string) (n : nat) :
  String.length a = n → String.substring 0 n (a +:+ b) = a.
Proof. intros <-. apply substring_prefix. Qed.

Lemma substring_skip_len (a b : string) (k n m : nat) :
  String.length a = k → String.substring (k + n) m (a +:+ b) = String.substring n m b.
Proof. intros <-. apply substring_skip. Qed.

Lemma string_get_skip_len (a b : string) (k n : nat) :
  String.length a = k → String.get (k + n) (a +:+ b) = String.get n b.
Proof. intros <-. apply string_get_skip. Qed.

(** ** The lines that [write] writes *)

Section WriteLoad.
Context (o : Oracle).
Context (crc32_ChecksumIEEE : string → N).
Context (strconv_ParseUint : string → option N).
Context (json_Unmarshal_Config : string → Config * error).
Context (json_Unmarshal_Tombstone : string → Tombstone * error).
Context (fmt_hex8 : N → string).
Context (json_Marshal_Config : Config → string * error).
Context (json_Marshal_Tombstone : Tombstone → string * error).
Context (WriteString : string → string → string * error).

Notation result := (lineResult crc32_ChecksumIEEE strconv_ParseUint
                      json_Unmarshal_Config json_Unmarshal_Tombstone).
Notation errors := (lineErrors crc32_ChecksumIEEE strconv_ParseUint
                      json_Unmarshal_Config json_Unmarshal_Tombstone).
Notation mutations := (lineMutations crc32_ChecksumIEEE strconv_ParseUint
                         json_Unmarshal_Config json_Unmarshal_Tombstone).
Notation sums := (checksummed crc32_ChecksumIEEE strconv_ParseUint fmt_hex8).
Notation agrees := (writable crc32_ChecksumIEEE strconv_ParseUint
                      json_Unmarshal_Config json_Unmarshal_Tombstone
                      fmt_hex8 json_Marshal_Config json_Marshal_Tombstone).
Notation lineOf head body :=
  (AOFConfigDB.magicAOF +:+ fmt_hex8 (crc32_ChecksumIEEE body) +:+ String head body
   +:+ newline).

Lemma written_line head body :
  sums body →
  String.length (lineOf head body) = (18 + String.length body)%nat ∧
  String.substring 0 8 (lineOf head body) = AOFConfigDB.magicAOF ∧
  String.substring 8 8 (lineOf head body) = fmt_hex8 (crc32_ChecksumIEEE body) ∧
  String.get 16 (lineOf head body) = Some head ∧
  String.substring 17 (String.length body) (lineOf head body) = body.
Proof.
  intros (Hlen & _ & _ & _).
  assert (Hmagic : String.length AOFConfigDB.magicAOF = 8%nat) by reflexivity.
  rewrite (string_app_cons head body newline).
  set (hex := fmt_hex8 (crc32_ChecksumIEEE body)) in *.
  split_and!.
  - rewrite !string_app_length, Hmagic, Hlen. cbn [String.length].
    rewrite string_app_length. cbn. lia.
  - by apply substring_prefix_len.
  - rewrite (substring_skip_len AOFConfigDB.magicAOF _ 8 0 8 Hmagic).
    by apply substring_prefix_len.
  - rewrite (string_get_skip_len AOFConfigDB.magicAOF _ 8 8 Hmagic).
    by rewrite (string_get_skip_len hex _ 8 0 Hlen).
  - rewrite (substring_skip_len AOFConfigDB.magicAOF _ 8 9 _ Hmagic).
    rewrite (substring_skip_len hex _ 8 1 _ Hlen).
    cbn [String.substring]. by apply substring_prefix_len.
Qed.

Lemma lineResult_written m :
  agrees m →
  result (match m with
          | Live c => lineOf "n"%char (json_Marshal_Config c).1
          | Dead t => lineOf "t"%char (json_Marshal_Tombstone t).1
          end) = inr m.
Proof.
  assert (Hgen : ∀ head body,
    sums body →
    result (lineOf head body) =
      if bool_decide (head = "n"%char) then
        match json_Unmarshal_Config body with
        | (config, None) => inr (Live config)
        | (_, Some e) => inl e
        end
      else if bool_decide (head = "t"%char) then
        match json_Unmarshal_Tombstone body with
        | (tombstone, None) => inr (Dead tombstone)
        | (_, Some e) => inl e
        end
      else inl "unknown aof header").
  { intros head body Hsums.
    destruct (written_line head body Hsums) as (Hlen & Hmagic & Hhex & Hhead & Hbody).
    destruct Hsums as (_ & _ & Hparse & Hcrc).
    unfold lineResult. rewrite Hlen, Hmagic, Hhex, Hhead, Hparse.
    replace (18 + String.length body - 1 - 17)%nat with (String.length body) by lia.
    rewrite Hbody. rewrite bool_decide_false by (by intros []).
    rewrite bool_decide_false; [done|]. intros []. by rewrite N.mod_small. }
  destruct m as [c|t]; cbn [writable]; intros (Herr & _ & Hback & Hsums);
    rewrite (Hgen _ _ Hsums), Hback; done.
Qed.

Lemma written_lines file head body :
  pending "" file = "" → sums body → newlineFree body = true →
  head ≠ Ascii.ascii_of_nat 10 →
  readLines "" (file +:+ lineOf head body) = readLines "" file ++ [lineOf head body] ∧
  pending "" (file +:+ lineOf head body) = "".
Proof.
  intros Hfile (_ & Hhex & _ & _) Hbody Hhead.
  rewrite readLines_app, pending_app, Hfile.
  rewrite <-!string_app_assoc.
  set (content := (AOFConfigDB.magicAOF +:+ fmt_hex8 (crc32_ChecksumIEEE body)) +:+
                  String head body).
  destruct (readLines_line "" content) as [-> ->]; [|done].
  unfold content. rewrite !newlineFree_app, Hhex. cbn [newlineFree].
  rewrite Hbody, bool_decide_false by done. done.
Qed.

Lemma written_mutation file m :
  pending "" file = "" → agrees m →
  readLines "" (file +:+ match m with
                         | Live c => lineOf "n"%char (json_Marshal_Config c).1
                         | Dead t => lineOf "t"%char (json_Marshal_Tombstone t).1
                         end) =
    readLines "" file ++ [match m with
                          | Live c => lineOf "n"%char (json_Marshal_Config c).1
                          | Dead t => lineOf "t"%char (json_Marshal_Tombstone t).1
                          end] ∧
  pending "" (file +:+ match m with
                       | Live c => lineOf "n"%char (json_Marshal_Config c).1
                       | Dead t => lineOf "t"%char (json_Marshal_Tombstone t).1
                       end) = "" ∧
  (18 ≤ String.length match m with
                      | Live c => lineOf "n"%char (json_Marshal_Config c).1
                      | Dead t => lineOf "t"%char (json_Marshal_Tombstone t).1
                      end)%nat.
Proof.
  intros Hfile Hm.
  destruct m as [c|t]; cbn [writable] in Hm; destruct Hm as (_ & Hfree & _ & Hsums).
  - destruct (written_lines file "n"%char _ Hfile Hsums Hfree) as [-> ->]; [done|].
    destruct (written_line "n"%char _ Hsums) as [-> _]. split_and!; [done..|lia].
  - destruct (written_lines file "t"%char _ Hfile Hsums Hfree) as [-> ->]; [done|].
    destruct (written_line "t"%char _ Hsums) as [-> _]. split_and!; [done..|lia].
Qed.

Lemma applyValue_ext A B m :
  (∀ typ, typedAt A typ = typedAt B typ) →
  ∀ typ, typedAt (applyValue A m) typ = typedAt (applyValue B m) typ.
Proof. intros H typ. rewrite !typedAt_applyValue. by rewrite H. Qed.

(** One mutation sent to the database: it is dropped, or its line is
    written. *)
Lemma wp_AOF_mutation db d file m w Q :
  (∀ f text, WriteString f text = (f +:+ text, None)) →
  agrees m →
  mem w !! db = Some (ObjAOFConfigDB d) →
  okCS w (AOF_configs d) →
  (∀ w' file',
     okCS w' (AOF_configs d) →
     viewCS w' (AOF_configs d) = applyValue (viewCS w (AOF_configs d)) m →
     mem w' !! db = Some (ObjAOFConfigDB d) →
     trace w' = trace w →
     (file' = file ∧
      ∀ typ, typedAt (applyValue (viewCS w (AOF_configs d)) m) typ =
             typedAt (viewCS w (AOF_configs d)) typ) ∨
     file' = file +:+ match m with
                      | Live c => lineOf "n"%char (json_Marshal_Config c).1
                      | Dead t => lineOf "t"%char (json_Marshal_Tombstone t).1
                      end →
     Q file' w') →
  wp (match m with
      | Live c => AOF.NewConfig crc32_ChecksumIEEE fmt_hex8 json_Marshal_Config
                    WriteString db file c
      | Dead t => AOF.DeadConfig crc32_ChecksumIEEE fmt_hex8 json_Marshal_Tombstone
                    WriteString db file t
      end) w Q.
Proof.
  intros Hwrite Hm Hdb Hok HQ.
  assert (Hcell : ∀ w', evolves w w' (fpCS w (AOF_configs d)) (fpCS w' (AOF_configs d)) →
            mem w' !! db = Some (ObjAOFConfigDB d)).
  { intros w' [[_ Hmem] _]. rewrite Hmem; [done|by apply elem_of_dom_2 in Hdb|].
    by eapply aof_not_fpCS. }
  destruct m as [c|t]; cbn [writable] in Hm; destruct Hm as (Herr & _ & _ & _).
  - unfold AOF.NewConfig.
    apply wp_bind. unfold readAOFConfigDB. apply wp_bind. eapply wp_read; [exact Hdb|].
    apply wp_ret. apply wp_bind, wp_CS_NewConfig; [done|].
    intros w' Hok' HV' Hev' Htr'. cbn zeta.
    destruct (acceptsConfig _ _ _) eqn:Hacc; cbn [negb].
    + destruct (json_Marshal_Config c) as [body err]. cbn in Herr. subst err.
      unfold AOF.write. rewrite Hwrite. apply wp_ret.
      apply HQ; [done|done|by apply Hcell|done|by right].
    + apply wp_ret. apply HQ; [done|done|by apply Hcell|done|left].
      split; [done|]. by apply (typedAt_withConfig_rejected _ c).
  - unfold AOF.DeadConfig.
    apply wp_bind. unfold readAOFConfigDB. apply wp_bind. eapply wp_read; [exact Hdb|].
    apply wp_ret. apply wp_bind, wp_CS_DeadConfig; [done|].
    intros w' Hok' HV' Hev' Htr'. cbn zeta.
    destruct (acceptsTombstone _ _ _) eqn:Hacc; cbn [negb].
    + destruct (json_Marshal_Tombstone t) as [body err]. cbn in Herr. subst err.
      unfold AOF.write. rewrite Hwrite. apply wp_ret.
      apply HQ; [done|done|by apply Hcell|done|by right].
    + apply wp_ret. apply HQ; [done|done|by apply Hcell|done|left].
      split; [done|]. by apply (typedAt_withTombstone_rejected _ t).
Qed.

End WriteLoad.


(** * A container merged into itself *)

Lemma own_config_rejected v k c :
  keyedByID v → live v !! k = Some c →
  acceptsConfig v (Config_ID c) (Config_Version c) = false.
Proof.
  intros [Hk _] Hc. rewrite (Hk _ _ Hc). unfold acceptsConfig. rewrite Hc.
  apply N.ltb_irrefl.
Qed.

Lemma own_tombstone_rejected v k t :
  wfTyped v → dead v !! k = Some t →
  acceptsTombstone v (Tombstone_ID t) (Tombstone_Version t) = false.
Proof.
  intros [[_ Hk] Hs] Ht. rewrite (Hk _ _ Ht). unfold acceptsTombstone.
  destruct (live v !! k) as [c|] eqn:Hc.
  - pose proof (Hs _ _ Hc) as Hd. cbn in Hd. congruence.
  - rewrite Ht. apply N.ltb_irrefl.
Qed.

(** [TypeConfigs.Merge] of an object with itself: the two loops meet
    only entries that the object holds, and reject them. *)
Lemma wp_TC_Merge_self o w p v Q :
  viewTC w p = Some v → wfTyped v →
  (∀ w', viewTC w' p = Some v → evolves w w' (fpTC w p) (fpTC w' p) →
         trace w' = trace w → Q ([], []) w') →
  wp (TypeConfigs.Merge o p p) w Q.
Proof.
  intros Hv Hwf HQ. unfold TypeConfigs.Merge.
  pose proof Hv as (x & Hq & Hc & Ht)%viewTC_Some.
  apply wp_bind. eapply wp_readTypeConfigs; [done|].
  apply wp_bind. eapply wp_readMapConfig; [done|].
  apply wp_bind, wp_range. intros items Hitems.
  apply wp_bind.
  eapply (wp_foldM (λ done (acc : list Config) w1,
    viewTC w1 p = Some v ∧ acc = [] ∧
    evolves w w1 (fpTC w p) (fpTC w1 p) ∧ trace w1 = trace w)).
  { split_and!; try done. apply evolves_tick, evolves_refl. }
  { intros done [k c] rest acc w1 Hsplit (Hv1 & -> & Hev & Htr).
    assert (Hin : live v !! k = Some c).
    { eapply items_lookup; [done|]. rewrite Hsplit. set_solver. }
    apply wp_bind. eapply wp_TC_NewConfig; [done|].
    intros w2 Hv2 Hev2 _ Htr2.
    rewrite (own_config_rejected v k c) by (done || by destruct Hwf).
    unfold withConfig in Hv2. rewrite (own_config_rejected v k c) in Hv2
      by (done || by destruct Hwf).
    apply wp_ret. split_and!; [done|done| |congruence].
    by eapply evolves_trans. }
  intros acc w1 (Hv1 & -> & Hev1 & Htr1).
  pose proof Hv1 as (x1 & Hq1 & Hc1 & Ht1)%viewTC_Some.
  apply wp_bind. eapply wp_readTypeConfigs; [done|].
  apply wp_bind. eapply wp_readMapTombstone; [done|].
  apply wp_bind, wp_range. intros items2 Hitems2.
  apply wp_bind.
  eapply (wp_foldM (λ done (acc : list Tombstone) w2,
    viewTC w2 p = Some v ∧ acc = [] ∧
    evolves w w2 (fpTC w p) (fpTC w2 p) ∧ trace w2 = trace w)).
  { split_and!; try done. by apply evolves_tick. }
  { intros done [k t] rest acc w2 Hsplit (Hv2 & -> & Hev & Htr).
    assert (Hin : dead v !! k = Some t).
    { eapply items_lookup; [done|]. rewrite Hsplit. set_solver. }
    apply wp_bind. eapply wp_TC_DeadConfig; [done|].
    intros w3 Hv3 Hev3 _ Htr3.
    rewrite (own_tombstone_rejected v k t) by done.
    unfold withTombstone in Hv3. rewrite (own_tombstone_rejected v k t) in Hv3 by done.
    apply wp_ret. split_and!; [done|done| |congruence].
    by eapply evolves_trans. }
  intros acc w2 (Hv2 & -> & Hev2 & Htr2). apply wp_ret. by apply HQ.
Qed.

(** X22.  [Merge] of a well-formed container into itself returns no
    config and no tombstone, sends nothing, and leaves every entry as it
    was: [Get] returns afterwards, for every type and ID, what it
    returned before. *)
Theorem merge_with_itself (o : Oracle) (w : world) (pc : loc) :
  wfStore w pc →
  wp (Configs.Merge o pc pc) w (λ r w',
    r = ([], []) ∧ trace w' = trace w ∧
    ∀ typ ID,
      wp (Configs.Get pc typ ID) w' (λ x _,
      wp (Configs.Get pc typ ID) w (λ y _, x = y))).
Proof.
  intros [Hok Hwf]. unfold Configs.Merge.
  pose proof Hok as (cs & tm & Hs & Hviews & _)%okCS_alt.
  pose proof Hs as [Hpc Htm].
  apply wp_bind. eapply wp_readConfigs; [done|].
  apply wp_bind. eapply wp_readMapTypes; [done|].
  apply wp_bind, wp_range. intros items Hitems.
  eapply (wp_foldM (λ done (acc : list Config * list Tombstone) wi,
    okCS wi pc ∧ storeAt wi pc cs tm ∧ viewCS wi pc = viewCS w pc ∧
    acc = ([], []) ∧ trace wi = trace w)).
  - split_and!; [|done| |done|done].
    + eapply okCS_ext; [|done]. done.
    + symmetry. by apply viewCS_ext.
  - intros done [typ state] rest acc wi Hsplit (Hoki & Hsi & HVi & -> & Htri).
    assert (Hstate : tm !! typ = Some state).
    { eapply items_lookup; [done|]. rewrite Hsplit. set_solver. }
    apply wp_bind. apply wp_CS_getState; [done|].
    intros w' p cs' tm' Hok' Hs' Hp HV' Hvp _ _ _ Hfine.
    destruct (Hfine cs tm Hsi) as (_ & Hsame & _).
    rewrite (Hsame (mk_is_Some _ _ Hstate)) in *. clear Hsame Hfine.
    destruct (storeAt_inj _ _ _ _ _ _ Hs' Hsi) as [-> ->].
    assert (p = state) as -> by congruence.
    destruct (wfAt_typedAt (viewCS w pc) typ Hwf) as [Hwfv _].
    rewrite HVi in Hvp.
    apply wp_bind. eapply (wp_TC_Merge_self o wi state); [done|done|].
    intros w2 Hv2 Hev2 Htr2. apply wp_ret.
    destruct (store_update_at _ _ _ _ _ _ _ _ Hoki Hsi Hstate Hev2 Hv2)
      as (Hok2 & Hs2 & HV2 & _).
    split_and!; [done|done| |done|congruence].
    rewrite HV2, HVi. apply insert_id.
    rewrite <-HVi, (viewCS_lookup wi pc cs tm typ Hsi), Hstate. cbn.
    by rewrite Hvp, HVi.
  - intros acc w' (Hok' & _ & HV' & -> & Htr'). split_and!; [done|done|].
    intros typ ID. apply wp_CS_Get; [done|]. apply wp_CS_Get; [done|]. by rewrite HV'.
Qed.

Lemma merge_with_itself_witness :
  wp (Configs.Merge storedOrder storeA storeA) storesWorld (λ r w',
    r = ([], []) ∧ trace w' = trace storesWorld ∧
    ∀ typ ID,
      wp (Configs.Get storeA typ ID) w' (λ x _,
      wp (Configs.Get storeA typ ID) storesWorld (λ y _, x = y))).
Proof. apply (merge_with_itself storedOrder storesWorld storeA). by_compute. Defined.
